(** * Lux game core: a shallow embedding of [src/Game/index.ts]

    The development follows the [Game] class: the data model first, then
    [validateCommand] with the unit caps, [spawnCityTile] and [destroyCity],
    [handleResourceRelease], and [handleMovementActions]; the theorems come
    last, grouped by the component they are about.

    Conventions of the embedding.
    - A JS [number] that only ever counts (ids, counters, coordinates) is a
      [Z]; a [number] that is divided or scaled (resource amounts, cargo,
      fuel, cooldowns) is an exact rational [Q].  Arithmetic on [Q] is exact,
      so the statements about amounts hold for the idealised arithmetic and
      for every run in which the doubles involved are exact (in particular
      for runs on integers whose divisions are exact).
    - A [Cell] object is referred to by its position: the grid is the store,
      a [Cell] reference held by a city or an action is a key into it.
    - A JS [Map] whose iteration order is observed is an association list in
      insertion order; one that is only looked up or summed is a [gmap]. *)

From Stdlib Require Import QArith Qround Qminmax Qabs Qpower ZArith Lia Lqa.
From stdpp Require Import gmap strings list fin_maps pretty sorting.

Set Default Proof Using "Type".

(** ** Data model *)

(** [Unit.TEAM]: the two agents, [A = 0] and [B = 1]. *)
Inductive TEAM := TEAM_A | TEAM_B.

#[global] Instance TEAM_eq_dec : EqDecision TEAM.
Proof. solve_decision. Defined.

(** A slot per team, for the objects the source indexes by [Unit.TEAM]. *)
Record PerTeam (X : Type) := mkPerTeam { team_a : X; team_b : X }.
Arguments mkPerTeam {X} _ _.
Arguments team_a {X} _.
Arguments team_b {X} _.

Definition per_team_get {X} (p : PerTeam X) (t : TEAM) : X :=
  match t with TEAM_A => team_a p | TEAM_B => team_b p end.

Definition per_team_set {X} (p : PerTeam X) (t : TEAM) (x : X) : PerTeam X :=
  match t with
  | TEAM_A => mkPerTeam x (team_b p)
  | TEAM_B => mkPerTeam (team_a p) x
  end.

Abbreviation Position := (Z * Z)%type.

(** Comparisons of numbers are decidable. *)
#[global] Instance Qlt_decision (a b : Q) : Decision (a < b)%Q.
Proof. unfold Qlt. apply _. Defined.

#[global] Instance Qle_decision (a b : Q) : Decision (a <= b)%Q.
Proof. unfold Qle. apply _. Defined.

(** [Resource.Types], with the strings 'wood', 'coal', 'uranium'. *)
Inductive ResourceTypes := WOOD | COAL | URANIUM.

#[global] Instance ResourceTypes_eq_dec : EqDecision ResourceTypes.
Proof. solve_decision. Defined.

Record Resource := mkResource { res_type : ResourceTypes; amount : Q }.

Record Cargo := mkCargo { wood : Q; coal : Q; uranium : Q }.

Inductive UnitType := WORKER | CART.

#[global] Instance UnitType_eq_dec : EqDecision UnitType.
Proof. solve_decision. Defined.

Record Unit := mkUnit {
  unit_id : string;
  unit_team : TEAM;
  unit_pos : Position;
  unit_type : UnitType;
  cargo : Cargo;
  unit_cooldown : Q;
}.

Record CityTile := mkCityTile {
  ct_team : TEAM;
  cityid : string;
  adjacentCityTiles : Z;
  ct_cooldown : Q;
}.

(** [cell.units] is a [Map<string, Unit>] whose [forEach] order is observed:
    its entries in insertion order. *)
Record Cell := mkCell {
  resource : option Resource;
  citytile : option CityTile;
  units : list Unit;
  road : Q;
}.

Record City := mkCity {
  city_id : string;
  city_team : TEAM;
  fuel : Q;
  citycells : list Position;
}.

Record GameMap := mkGameMap {
  width : Z;
  height : Z;
  cells : gmap Position Cell;
}.

Record TeamState := mkTeamState {
  researchPoints : Z;
  ts_units : gmap string Unit;
  researched : ResourceTypes -> bool;
}.

Record State := mkState {
  turn : Z;
  teamStates : PerTeam TeamState;
}.

Record TeamStats := mkTeamStats {
  fuelGenerated : Q;
  resourcesCollected : Cargo;
  cityTilesBuilt : Z;
  st_workersBuilt : Z;
  st_cartsBuilt : Z;
  roadsBuilt : Z;
  roadsPillaged : Z;
}.

(** The entries of [configs.parameters] that the modelled methods read. *)
Record Parameters := mkParameters {
  CITY_WOOD_COST : Q;
  WORKER_COLLECTION_RATE : ResourceTypes -> Q;
  MIN_ROAD : Q;
}.

Record Game := mkGame {
  game_map : GameMap;
  cities : gmap string City;
  globalCityIDCount : Z;
  globalUnitIDCount : Z;
  stats : PerTeam TeamStats;
  state : State;
  configs : Parameters;
}.

(** [_AccumulatedActionStats], one entry per team. *)
Record AccumulatedActionStats := mkAcc {
  workersBuilt : Z;
  cartsBuilt : Z;
  actionsPlaced : gset string;
}.

Definition _genInitialAccumulatedActionStats : PerTeam AccumulatedActionStats :=
  mkPerTeam (mkAcc 0 0 ∅) (mkAcc 0 0 ∅).

(** [Game.ACTIONS] and [Game.DIRECTIONS], with their string values. *)
Inductive ACTIONS :=
  | MOVE | RESEARCH | BUILD_WORKER | BUILD_CART | BUILD_CITY | TRANSFER
  | PILLAGE
  | DEBUG_ANNOTATE_CIRCLE | DEBUG_ANNOTATE_X | DEBUG_ANNOTATE_LINE
  | DEBUG_ANNOTATE_TEXT | DEBUG_ANNOTATE_SIDETEXT.

#[global] Instance ACTIONS_eq_dec : EqDecision ACTIONS.
Proof. solve_decision. Defined.

Definition ACTIONS_value (a : ACTIONS) : string :=
  match a with
  | MOVE => "m" | RESEARCH => "r" | BUILD_WORKER => "bw" | BUILD_CART => "bc"
  | BUILD_CITY => "bcity" | TRANSFER => "t" | PILLAGE => "p"
  | DEBUG_ANNOTATE_CIRCLE => "dc" | DEBUG_ANNOTATE_X => "dx"
  | DEBUG_ANNOTATE_LINE => "dl" | DEBUG_ANNOTATE_TEXT => "dt"
  | DEBUG_ANNOTATE_SIDETEXT => "dst"
  end.

Definition all_ACTIONS : list ACTIONS :=
  [MOVE; RESEARCH; BUILD_WORKER; BUILD_CART; BUILD_CITY; TRANSFER; PILLAGE;
   DEBUG_ANNOTATE_CIRCLE; DEBUG_ANNOTATE_X; DEBUG_ANNOTATE_LINE;
   DEBUG_ANNOTATE_TEXT; DEBUG_ANNOTATE_SIDETEXT].

(** The [switch (action)] of [validateCommand] selects the member of the
    enum whose value is the verb, or no case at all. *)
Definition ACTIONS_of_string (s : string) : option ACTIONS :=
  List.find (fun a => String.eqb (ACTIONS_value a) s) all_ACTIONS.

Definition is_debug (a : ACTIONS) : bool :=
  match a with
  | DEBUG_ANNOTATE_CIRCLE | DEBUG_ANNOTATE_X | DEBUG_ANNOTATE_LINE
  | DEBUG_ANNOTATE_TEXT | DEBUG_ANNOTATE_SIDETEXT => true
  | _ => false
  end.

Inductive DIRECTIONS := NORTH | EAST | SOUTH | WEST | CENTER.

#[global] Instance DIRECTIONS_eq_dec : EqDecision DIRECTIONS.
Proof. solve_decision. Defined.

Definition DIRECTIONS_value (d : DIRECTIONS) : string :=
  match d with
  | NORTH => "n" | EAST => "e" | SOUTH => "s" | WEST => "w" | CENTER => "c"
  end.

(** [Object.values(Game.DIRECTIONS).includes(direction)], returning the
    member found. *)
Definition DIRECTIONS_of_string (s : string) : option DIRECTIONS :=
  List.find (fun d => String.eqb (DIRECTIONS_value d) s)
    [NORTH; EAST; SOUTH; WEST; CENTER].

Definition ResourceTypes_value (r : ResourceTypes) : string :=
  match r with WOOD => "wood" | COAL => "coal" | URANIUM => "uranium" end.

Definition ResourceTypes_of_string (s : string) : option ResourceTypes :=
  List.find (fun r => String.eqb (ResourceTypes_value r) s)
    [WOOD; COAL; URANIUM].

(** The [Action] classes of [../Actions]; a [MoveAction] keeps the cell it
    leads to. *)
Record MoveAction := mkMoveAction {
  ma_team : TEAM;
  unitid : string;
  direction : DIRECTIONS;
  newcell : Position;
}.

#[global] Instance MoveAction_eq_dec : EqDecision MoveAction.
Proof. solve_decision. Defined.

Inductive Action :=
  | PillageAction (team : TEAM) (uid : string)
  | SpawnCityAction (team : TEAM) (uid : string)
  | SpawnCartAction (team : TEAM) (x y : Z)
  | SpawnWorkerAction (team : TEAM) (x y : Z)
  | Move (a : MoveAction)
  | ResearchAction (team : TEAM) (x y : Z)
  | TransferAction (team : TEAM) (srcID destID : string)
      (resourceType : ResourceTypes) (amt : Z).

(** [MatchEngine.Command]. *)
Record Command := mkCommand { agentID : TEAM; command : string }.

(** ** Collaborators

    Methods of [Unit], [CityTile] and [Position], and the JS built-in
    [parseInt], that [index.ts] calls but does not define.  They are read
    only; [parseInt] answers [None] for [NaN]. *)
Class Collaborators := {
  canAct : Unit -> bool;
  canMove : Unit -> bool;
  getCargoSpaceLeft : Unit -> Q;
  canBuildUnit : CityTile -> bool;
  canResearch : CityTile -> bool;
  getTileID : Position -> CityTile -> string;
  isAdjacent : Position -> Position -> bool;
  parseInt : string -> option Z;
}.

(** ** The grid *)

(** Modelled from the spec: [GameMap.inMap] is the in-bounds check of a
    [width] by [height] grid (section 6, [inBounds(pos)]). *)
Definition inMap (m : GameMap) (p : Position) : bool :=
  bool_decide (0 <= p.1 < width m)%Z && bool_decide (0 <= p.2 < height m)%Z.

Definition blankCell : Cell := mkCell None None [] 0.

#[global] Instance Cell_inhabited : Inhabited Cell := populate blankCell.

(** The cell stored at an in-bounds position; a position without an entry
    reads as the blank cell the map generator leaves there. *)
Definition cellAt (m : GameMap) (p : Position) : Cell := cells m !!! p.

(** Modelled from the spec: [GameMap.getCell(x, y)] and [getCellByPos]
    (section 6) answer the cell at an in-bounds position; out of bounds there
    is no cell ([undefined], on which every use raises a [TypeError]). *)
Definition getCell (m : GameMap) (x y : Z) : option Cell :=
  if inMap m (x, y) then Some (cellAt m (x, y)) else None.

Definition getCellByPos (m : GameMap) (p : Position) : option Cell :=
  getCell m p.1 p.2.

(** Modelled from the spec: [Position.translate(direction, 1)]; east and west
    as in the scenario of section 8 ((0,0) east is (1,0)), north towards
    smaller [y]. *)
Definition translate (p : Position) (d : DIRECTIONS) : Position :=
  match d with
  | NORTH => (p.1, p.2 - 1)
  | EAST => (p.1 + 1, p.2)
  | SOUTH => (p.1, p.2 + 1)
  | WEST => (p.1 - 1, p.2)
  | CENTER => p
  end%Z.

(** Modelled from the spec: [GameMap.getAdjacentCells(cell)], the in-bounds
    orthogonal neighbours "in a fixed canonical order" (section 4.4), here
    north, east, south, west. *)
Definition getAdjacentCells (m : GameMap) (p : Position) : list Position :=
  filter (fun q => inMap m q = true)
    [translate p NORTH; translate p EAST; translate p SOUTH; translate p WEST].

(** Modelled from the spec: [Cell.isCityTile()] and [Cell.hasResource()]
    (section 6): the cell carries a city tile; the cell carries a resource
    node that still holds something. *)
Definition isCityTile (c : Cell) : bool :=
  match citytile c with Some _ => true | None => false end.

Definition hasResource (c : Cell) : bool :=
  match resource c with
  | Some r => bool_decide (0 < amount r)%Q
  | None => false
  end.

Definition setCell (m : GameMap) (p : Position) (c : Cell) : GameMap :=
  mkGameMap (width m) (height m) (<[p := c]> (cells m)).

Definition getUnit (g : Game) (team : TEAM) (uid : string) : option Unit :=
  ts_units (per_team_get (teamStates (state g)) team) !! uid.

(** ** Validation: exceptions over the mutable state

    [validateCommand] reads the game through [this] and mutates the
    accumulator it is given; a failed [check] throws.  A computation is a
    function of the state that returns or throws and leaves a state behind:
    whatever was written before a throw stays written. *)

(** The diagnostics of [validateCommand], one per message template. *)
Inductive Warning :=
  | InvalidCommand | MalformedCommand
  | PillageInvalidUnit | PillageCooldown
  | ExtraUnitCommand | ExtraCityTileCommand
  | BuildCityInvalidUnit | BuildCityOnCityTile | BuildCityOnResource
  | BuildCityCooldown | BuildCityInsufficientWood
  | BuildUnitInvalidCoordinates | BuildUnitNotOwned | BuildUnitCooldown
  | CartUnitCapReached | WorkerUnitCapReached
  | MoveNotOwned | MoveCooldown | MoveInvalidDirection | MoveOffMap
  | MoveOntoOpponentCityTile
  | ResearchInvalidCoordinates | ResearchNotOwned | ResearchCooldown
  | TransferSourceNotOwned | TransferDestNotOwned | TransferCooldown
  | TransferSameUnit | TransferNotAdjacent | TransferInvalidAmount
  | TransferInvalidResource.

Inductive Exn := MatchWarn (w : Warning) | TypeError.

Inductive Outcome (X : Type) := Returned (x : X) | Thrown (e : Exn).
Arguments Returned {X} _.
Arguments Thrown {X} _.

(** What a call of [validateCommand] can reach: the game and the
    accumulator. *)
Record VState := mkVState {
  vs_game : Game;
  vs_acc : PerTeam AccumulatedActionStats;
}.

Definition V (X : Type) : Type := VState -> Outcome X * VState.

Definition vret {X} (x : X) : V X := fun s => (Returned x, s).

Definition vbind {X Y} (c : V X) (k : X -> V Y) : V Y :=
  fun s =>
    match c s with
    | (Returned x, s') => k x s'
    | (Thrown e, s') => (Thrown e, s')
    end.

Definition throw {X} (e : Exn) : V X := fun s => (Thrown e, s).

Definition getGame : V Game := fun s => (Returned (vs_game s), s).

Definition getAcc (team : TEAM) : V AccumulatedActionStats :=
  fun s => (Returned (per_team_get (vs_acc s) team), s).

Definition modifyAcc (team : TEAM)
    (f : AccumulatedActionStats -> AccumulatedActionStats) : V unit :=
  fun s =>
    (Returned tt,
     mkVState (vs_game s)
       (per_team_set (vs_acc s) team (f (per_team_get (vs_acc s) team)))).

#[global] Instance V_ret : MRet V := @vret.
#[global] Instance V_bind : MBind V := fun _ _ k c => vbind c k.

(** [check(condition, errormsg)]. *)
Definition check (condition : bool) (w : Warning) : V unit :=
  if condition then throw (MatchWarn w) else vret tt.

(** A value that must not be [undefined] where it is used. *)
Definition defined {X} (o : option X) : V X :=
  match o with Some x => vret x | None => throw TypeError end.

(** [acc.actionsPlaced.add(id)], [acc.cartsBuilt += 1],
    [acc.workersBuilt += 1]. *)
Definition actionsPlaced_add (id : string) (a : AccumulatedActionStats) :
    AccumulatedActionStats :=
  mkAcc (workersBuilt a) (cartsBuilt a) ({[id]} ∪ actionsPlaced a).

Definition cartsBuilt_incr (a : AccumulatedActionStats) :
    AccumulatedActionStats :=
  mkAcc (workersBuilt a) (cartsBuilt a + 1) (actionsPlaced a).

Definition workersBuilt_incr (a : AccumulatedActionStats) :
    AccumulatedActionStats :=
  mkAcc (workersBuilt a + 1) (cartsBuilt a) (actionsPlaced a).

(** [s.split(' ')]: the tokens between single spaces, never an empty
    array. *)
Fixpoint split (s : string) : list string :=
  match s with
  | EmptyString => [EmptyString]
  | String c s' =>
      if Ascii.eqb c Ascii.Space then EmptyString :: split s'
      else match split s' with
           | tok :: rest => String c tok :: rest
           | [] => [String c EmptyString]
           end
  end.

(** ** Unit caps *)

(** The [forEach] over [this.cities] that both cap predicates run. *)
Definition teamCityTilesCount (g : Game) (team : TEAM) : Z :=
  map_fold
    (fun _ city n =>
       if decide (city_team city = team)
       then (n + Z.of_nat (length (citycells city)))%Z else n)
    0%Z (cities g).

Definition teamUnitsSize (g : Game) (team : TEAM) : Z :=
  Z.of_nat (size (ts_units (per_team_get (teamStates (state g)) team))).

Definition workerUnitCapReached (g : Game) (team : TEAM) (offset : Z) : bool :=
  bool_decide (teamUnitsSize g team + offset >= teamCityTilesCount g team)%Z.

Definition cartUnitCapReached (g : Game) (team : TEAM) (offset : Z) : bool :=
  bool_decide (teamUnitsSize g team + offset >= teamCityTilesCount g team)%Z.

(** ** [validateCommand] *)

Section Validation.
Context `{Collaborators}.

(** The coordinates of a build or research command: [parseInt] of both
    tokens, [NaN] or off-map rejected with [w]. *)
Definition parseCoordinates (g : Game) (a0 a1 : string) (w : Warning) :
    V Position :=
  match parseInt a0, parseInt a1 with
  | Some x, Some y =>
      check (negb (inMap (game_map g) (x, y))) w;; vret (x, y)
  | _, _ => throw (MatchWarn w)
  end.

Definition validatePillage (g : Game) (team : TEAM) (args : list string) :
    V (option Action) :=
  match args with
  | [uid] =>
      match getUnit g team uid with
      | None => throw (MatchWarn PillageInvalidUnit)
      | Some unit =>
          check (negb (canAct unit)) PillageCooldown;;
          acc ← getAcc team;
          check (bool_decide (uid ∈ actionsPlaced acc)) ExtraUnitCommand;;
          modifyAcc team (actionsPlaced_add uid);;
          vret (Some (PillageAction team uid))
      end
  | _ => throw (MatchWarn MalformedCommand)
  end.

Definition validateBuildCity (g : Game) (team : TEAM) (args : list string) :
    V (option Action) :=
  match args with
  | [uid] =>
      match getUnit g team uid with
      | None => throw (MatchWarn BuildCityInvalidUnit)
      | Some unit =>
          cell ← defined (getCellByPos (game_map g) (unit_pos unit));
          check (isCityTile cell) BuildCityOnCityTile;;
          check (hasResource cell) BuildCityOnResource;;
          check (negb (canAct unit)) BuildCityCooldown;;
          check (bool_decide (wood (cargo unit) < CITY_WOOD_COST (configs g))%Q)
            BuildCityInsufficientWood;;
          acc ← getAcc team;
          check (bool_decide (uid ∈ actionsPlaced acc)) ExtraUnitCommand;;
          modifyAcc team (actionsPlaced_add uid);;
          vret (Some (SpawnCityAction team uid))
      end
  | _ => throw (MatchWarn MalformedCommand)
  end.

(** The shared case of [BUILD_CART] and [BUILD_WORKER]; [action] tells
    which of the two verbs it is. *)
Definition validateBuildUnit (action : ACTIONS) (g : Game) (team : TEAM)
    (args : list string) : V (option Action) :=
  match args with
  | [a0; a1] =>
      p ← parseCoordinates g a0 a1 BuildUnitInvalidCoordinates;
      cell ← defined (getCell (game_map g) p.1 p.2);
      match citytile cell with
      | None => throw (MatchWarn BuildUnitNotOwned)
      | Some citytile =>
          check (negb (bool_decide (ct_team citytile = team)))
            BuildUnitNotOwned;;
          acc ← getAcc team;
          check (bool_decide (getTileID p citytile ∈ actionsPlaced acc))
            ExtraCityTileCommand;;
          check (negb (canBuildUnit citytile)) BuildUnitCooldown;;
          (match action with
           | BUILD_CART =>
               check (cartUnitCapReached g team (cartsBuilt acc))
                 CartUnitCapReached
           | _ =>
               check (workerUnitCapReached g team (workersBuilt acc))
                 WorkerUnitCapReached
           end);;
          modifyAcc team (actionsPlaced_add (getTileID p citytile));;
          match action with
          | BUILD_CART =>
              modifyAcc team cartsBuilt_incr;;
              vret (Some (SpawnCartAction team p.1 p.2))
          | _ =>
              modifyAcc team workersBuilt_incr;;
              vret (Some (SpawnWorkerAction team p.1 p.2))
          end
      end
  | _ => throw (MatchWarn MalformedCommand)
  end.

Definition validateMove (g : Game) (team : TEAM) (args : list string) :
    V (option Action) :=
  match args with
  | [uid; dir] =>
      match getUnit g team uid with
      | None => throw (MatchWarn MoveNotOwned)
      | Some unit =>
          check (negb (canMove unit)) MoveCooldown;;
          acc ← getAcc team;
          check (bool_decide (uid ∈ actionsPlaced acc)) ExtraUnitCommand;;
          match DIRECTIONS_of_string dir with
          | None => throw (MatchWarn MoveInvalidDirection)
          | Some direction =>
              let newpos := translate (unit_pos unit) direction in
              (if decide (direction = CENTER) then vret tt
               else
                 check (negb (inMap (game_map g) newpos)) MoveOffMap;;
                 newc ← defined (getCellByPos (game_map g) newpos);
                 check
                   (match citytile newc with
                    | Some ct => negb (bool_decide (ct_team ct = team))
                    | None => false
                    end) MoveOntoOpponentCityTile);;
              modifyAcc team (actionsPlaced_add uid);;
              vret (Some (Move (mkMoveAction team uid direction newpos)))
          end
      end
  | _ => throw (MatchWarn MalformedCommand)
  end.

Definition validateResearch (g : Game) (team : TEAM) (args : list string) :
    V (option Action) :=
  match args with
  | [a0; a1] =>
      p ← parseCoordinates g a0 a1 ResearchInvalidCoordinates;
      cell ← defined (getCell (game_map g) p.1 p.2);
      match citytile cell with
      | None => throw (MatchWarn ResearchNotOwned)
      | Some citytile =>
          check (negb (bool_decide (ct_team citytile = team)))
            ResearchNotOwned;;
          check (negb (canResearch citytile)) ResearchCooldown;;
          acc ← getAcc team;
          check (bool_decide (getTileID p citytile ∈ actionsPlaced acc))
            ExtraCityTileCommand;;
          modifyAcc team (actionsPlaced_add (getTileID p citytile));;
          vret (Some (ResearchAction team p.1 p.2))
      end
  | _ => throw (MatchWarn MalformedCommand)
  end.

Definition validateTransfer (g : Game) (team : TEAM) (args : list string) :
    V (option Action) :=
  match args with
  | [srcID; destID; rtype; a3] =>
      let amount := parseInt a3 in
      match getUnit g team srcID with
      | None => throw (MatchWarn TransferSourceNotOwned)
      | Some srcUnit =>
          match getUnit g team destID with
          | None => throw (MatchWarn TransferDestNotOwned)
          | Some destUnit =>
              check (negb (canAct srcUnit)) TransferCooldown;;
              acc ← getAcc team;
              check (bool_decide (srcID ∈ actionsPlaced acc))
                ExtraUnitCommand;;
              check (bool_decide (srcID = destID)) TransferSameUnit;;
              check (negb (isAdjacent (unit_pos srcUnit) (unit_pos destUnit)))
                TransferNotAdjacent;;
              match amount with
              | None => throw (MatchWarn TransferInvalidAmount)
              | Some amt =>
                  check (bool_decide (amt < 0)%Z) TransferInvalidAmount;;
                  match ResourceTypes_of_string rtype with
                  | None => throw (MatchWarn TransferInvalidResource)
                  | Some resourceType =>
                      modifyAcc team (actionsPlaced_add srcID);;
                      vret (Some (TransferAction team srcID destID
                                    resourceType amt))
                  end
              end
          end
      end
  | _ => throw (MatchWarn MalformedCommand)
  end.

(** Returns [Some] action if validated, [None] ([null]) for a debug
    annotation, and throws a [MatchWarn] otherwise. *)
Definition validateCommand (cmd : Command) : V (option Action) :=
  match split (command cmd) with
  | [] => throw (MatchWarn InvalidCommand)
  | action :: args =>
      let team := agentID cmd in
      g ← getGame;
      match ACTIONS_of_string action with
      | Some DEBUG_ANNOTATE_CIRCLE
      | Some DEBUG_ANNOTATE_LINE
      | Some DEBUG_ANNOTATE_X
      | Some DEBUG_ANNOTATE_TEXT
      | Some DEBUG_ANNOTATE_SIDETEXT => vret None
      | Some PILLAGE => validatePillage g team args
      | Some BUILD_CITY => validateBuildCity g team args
      | Some BUILD_CART => validateBuildUnit BUILD_CART g team args
      | Some BUILD_WORKER => validateBuildUnit BUILD_WORKER g team args
      | Some MOVE => validateMove g team args
      | Some RESEARCH => validateResearch g team args
      | Some TRANSFER => validateTransfer g team args
      | None => throw (MatchWarn MalformedCommand)
      end
  end.

(** One team's commands of a turn, validated in order against one
    accumulator; a rejected command is skipped and the turn goes on.  The
    actions come back in order (a debug annotation contributes none). *)
Fixpoint validateCommands (cmds : list Command) (s : VState) :
    list Action * VState :=
  match cmds with
  | [] => ([], s)
  | cmd :: rest =>
      let '(out, s') := validateCommand cmd s in
      let '(acts, s'') := validateCommands rest s' in
      (match out with
       | Returned (Some a) => a :: acts
       | _ => acts
       end, s'')
  end.

End Validation.

(** ** Cities: [spawnCityTile] and [destroyCity]

    Both run on the game in place.  A call that dereferences [undefined]
    (a position off the map, a city id missing from the registry, a city cell
    without a tile) raises a [TypeError]; such a call yields [None], and the
    half-updated game it would leave behind is not described. *)

Definition set_game_map (g : Game) (m : GameMap) : Game :=
  mkGame m (cities g) (globalCityIDCount g) (globalUnitIDCount g) (stats g)
    (state g) (configs g).

Definition set_cities (g : Game) (cs : gmap string City) : Game :=
  mkGame (game_map g) cs (globalCityIDCount g) (globalUnitIDCount g) (stats g)
    (state g) (configs g).

Definition set_globalCityIDCount (g : Game) (n : Z) : Game :=
  mkGame (game_map g) (cities g) n (globalUnitIDCount g) (stats g) (state g)
    (configs g).

(** [l.forEach(f)] for a callback that can fail: the callback runs on the
    elements in order, on the state the previous call left. *)
Fixpoint forEach {M : Type -> Type} `{!MBind M, !MRet M} {St X : Type}
    (f : St -> X -> M St) (l : list X) (s : St) : M St :=
  match l with
  | [] => mret s
  | x :: l' => s' ← f s x; forEach f l' s'
  end.

(** Modelled from the spec: [new City(team, configs, idcount)] is a city
    with no fuel and no cells (section 3, lifecycle) named after "the next
    counter value" (section 4.4). *)
Definition City_new (team : TEAM) (idcount : Z) : City :=
  mkCity ("c_" +:+ pretty idcount) team 0 [].

(** Modelled from the spec: [City.addCityTile(cell)] appends the cell to the
    city's cells (section 6, [addTile()]). *)
Definition addCityTile (city : City) (p : Position) : City :=
  mkCity (city_id city) (city_team city) (fuel city) (citycells city ++ [p]).

(** Modelled from the spec: [Cell.setCityTile(team, cityid)] puts a new
    tile of the team on the cell, linked to the city, its adjacency counter
    and cooldown at zero (section 3, and the glossary's "incremental" counter). *)
Definition setCityTile (c : Cell) (team : TEAM) (id : string) : Cell :=
  mkCell (resource c) (Some (mkCityTile team id 0 0)) (units c) (road c).

Definition set_citytile (c : Cell) (t : option CityTile) : Cell :=
  mkCell (resource c) t (units c) (road c).

(** An assignment to a field of [cell.citytile], which must not be [null]. *)
Definition alterCityTile (f : CityTile -> CityTile) (m : GameMap)
    (p : Position) : option GameMap :=
  t ← citytile (cellAt m p);
  Some (setCell m p (set_citytile (cellAt m p) (Some (f t)))).

Definition set_adjacentCityTiles (n : Z) (t : CityTile) : CityTile :=
  mkCityTile (ct_team t) (cityid t) n (ct_cooldown t).

Definition incr_adjacentCityTiles (t : CityTile) : CityTile :=
  set_adjacentCityTiles (adjacentCityTiles t + 1) t.

Definition set_cityid (id : string) (t : CityTile) : CityTile :=
  mkCityTile (ct_team t) id (adjacentCityTiles t) (ct_cooldown t).

(** [cell.isCityTile() && cell.citytile.team === team]. *)
Definition sameTeamCityTile (m : GameMap) (team : TEAM) (p : Position) : bool :=
  match citytile (cellAt m p) with
  | Some t => bool_decide (ct_team t = team)
  | None => false
  end.

(** [Set.add] on a set kept in insertion order. *)
Definition Set_add (s : list string) (id : string) : list string :=
  if decide (id ∈ s) then s else s ++ [id].

Definition cityid_at (m : GameMap) (p : Position) : string :=
  match citytile (cellAt m p) with Some t => cityid t | None => "" end.

(** The body of [oldcity.citycells.forEach] in the merge: relink the cell
    and push it onto the surviving [city]. *)
Definition absorbCell (survivor : string) (g : Game) (p : Position) :
    option Game :=
  m ← alterCityTile (set_cityid survivor) (game_map g) p;
  Some (set_cities (set_game_map g m)
          (alter (fun city => addCityTile city p) survivor (cities g))).

Definition add_fuel (f : Q) (city : City) : City :=
  mkCity (city_id city) (city_team city) (fuel city + f) (citycells city).

(** The body of [cityIdsFound.forEach]. *)
Definition mergeCity (survivor : string) (g : Game) (id : string) :
    option Game :=
  if decide (id = survivor) then Some g
  else
    oldcity ← cities g !! id;
    g' ← forEach (absorbCell survivor) (citycells oldcity) g;
    Some (set_cities g'
            (delete (city_id oldcity)
               (alter (add_fuel (fuel oldcity)) survivor (cities g')))).

Definition spawnCityTile (g : Game) (team : TEAM) (x y : Z)
    (cityid : option string) : option Game :=
  cell ← getCell (game_map g) x y;
  let adjCells := getAdjacentCells (game_map g) (x, y) in
  let adjSameTeamCityTiles :=
    filter (fun p => sameTeamCityTile (game_map g) team p = true) adjCells in
  let cityIdsFound :=
    foldl (fun s p => Set_add s (cityid_at (game_map g) p)) []
      adjSameTeamCityTiles in
  match adjSameTeamCityTiles with
  | [] =>
      let city := City_new team (globalCityIDCount g + 1) in
      let '(city, g1) :=
        match cityid with
        | Some id =>
            if decide (id = "") then
              (city, set_globalCityIDCount g (globalCityIDCount g + 1))
            else (mkCity id (city_team city) (fuel city) (citycells city), g)
        | None => (city, set_globalCityIDCount g (globalCityIDCount g + 1))
        end in
      let m := setCell (game_map g1) (x, y) (setCityTile cell team (city_id city)) in
      let city := addCityTile city (x, y) in
      Some (set_cities (set_game_map g1 m) (<[city_id city := city]> (cities g1)))
  | first :: _ =>
      let cityid := cityid_at (game_map g) first in
      let m1 := setCell (game_map g) (x, y) (setCityTile cell team cityid) in
      m2 ← alterCityTile
             (set_adjacentCityTiles (Z.of_nat (length adjSameTeamCityTiles)))
             m1 (x, y);
      m3 ← forEach (alterCityTile incr_adjacentCityTiles)
             adjSameTeamCityTiles m2;
      city ← cities g !! cityid;
      let g1 :=
        set_cities (set_game_map g m3)
          (<[cityid := addCityTile city (x, y)]> (cities g)) in
      forEach (mergeCity cityid) cityIdsFound g1
  end.

Definition clearCityTile (min_road : Q) (m : GameMap) (p : Position) : GameMap :=
  setCell m p
    (mkCell (resource (cellAt m p)) None (units (cellAt m p)) min_road).

(** Destroys the city with this id and removes all its city tiles. *)
Definition destroyCity (g : Game) (cityID : string) : option Game :=
  city ← cities g !! cityID;
  Some (set_game_map (set_cities g (delete cityID (cities g)))
          (foldl (clearCityTile (MIN_ROAD (configs g))) (game_map g)
             (citycells city))).

(** ** Resources: [handleResourceRelease] *)

Definition cargo_get (c : Cargo) (type : ResourceTypes) : Q :=
  match type with WOOD => wood c | COAL => coal c | URANIUM => uranium c end.

Definition cargo_add (c : Cargo) (type : ResourceTypes) (n : Q) : Cargo :=
  match type with
  | WOOD => mkCargo (wood c + n) (coal c) (uranium c)
  | COAL => mkCargo (wood c) (coal c + n) (uranium c)
  | URANIUM => mkCargo (wood c) (coal c) (uranium c + n)
  end.

(** [worker.cargo[type] += n]. *)
Definition unit_cargo_add (type : ResourceTypes) (n : Q) (u : Unit) : Unit :=
  mkUnit (unit_id u) (unit_team u) (unit_pos u) (unit_type u)
    (cargo_add (cargo u) type n) (unit_cooldown u).

Definition set_units (c : Cell) (us : list Unit) : Cell :=
  mkCell (resource c) (citytile c) us (road c).

Definition set_resource (c : Cell) (r : option Resource) : Cell :=
  mkCell r (citytile c) (units c) (road c).

Definition set_ts_units (ts : TeamState) (us : gmap string Unit) : TeamState :=
  mkTeamState (researchPoints ts) us (researched ts).

Definition set_teamState (g : Game) (team : TEAM) (ts : TeamState) : Game :=
  mkGame (game_map g) (cities g) (globalCityIDCount g) (globalUnitIDCount g)
    (stats g)
    (mkState (turn (state g)) (per_team_set (teamStates (state g)) team ts))
    (configs g).

Definition set_stats (g : Game) (s : PerTeam TeamStats) : Game :=
  mkGame (game_map g) (cities g) (globalCityIDCount g) (globalUnitIDCount g) s
    (state g) (configs g).

(** A [Unit] object is shared by the cell it stands on and by its team's
    registry: an update of the object, found through the cell at [p], shows in
    both. *)
Definition updateUnit (f : Unit -> Unit) (p : Position) (u : Unit) (g : Game) :
    Game :=
  let c := cellAt (game_map g) p in
  let us :=
    (fun v => if decide (unit_id v = unit_id u) then f v else v) <$> units c in
  let ts := per_team_get (teamStates (state g)) (unit_team u) in
  set_teamState
    (set_game_map g (setCell (game_map g) p (set_units c us)))
    (unit_team u)
    (set_ts_units ts (alter f (unit_id u) (ts_units ts))).

(** [stats.teamStats[team].resourcesCollected[type] += n]. *)
Definition addResourcesCollected (team : TEAM) (type : ResourceTypes) (n : Q)
    (g : Game) : Game :=
  let s := per_team_get (stats g) team in
  set_stats g
    (per_team_set (stats g) team
       (mkTeamStats (fuelGenerated s)
          (cargo_add (resourcesCollected s) type n)
          (cityTilesBuilt s) (st_workersBuilt s) (st_cartsBuilt s)
          (roadsBuilt s) (roadsPillaged s))).

(** [l.forEach((x, i) => ...)], the index starting at [i]. *)
Fixpoint forEach_i {St X : Type} (f : St -> X -> nat -> St) (l : list X)
    (i : nat) (s : St) : St :=
  match l with
  | [] => s
  | x :: l' => forEach_i f l' (S i) (f s x i)
  end.

(** The variables the distribution loop assigns to. *)
Record Release := mkRelease {
  rl_game : Game;
  amountToDistribute : Q;
  amountDistributed : Q;
}.

(** [1e-10]. *)
Definition epsilon : Q := 1 # 10000000000.

Section Resources.
Context `{Collaborators}.

(** The ascending stable sort by [getCargoSpaceLeft] that
    [workersToReceiveResources.sort((a, b) => a.getCargoSpaceLeft() -
    b.getCargoSpaceLeft())] performs. *)
Fixpoint insertWorker (w : Position * Unit) (l : list (Position * Unit)) :
    list (Position * Unit) :=
  match l with
  | [] => [w]
  | v :: l' =>
      if decide (getCargoSpaceLeft w.2 <= getCargoSpaceLeft v.2)%Q
      then w :: v :: l'
      else v :: insertWorker w l'
  end.

Definition sortWorkers (l : list (Position * Unit)) : list (Position * Unit) :=
  foldr insertWorker [] l.

(** [unit.type === Unit.Type.WORKER &&
    this.state.teamStates[unit.team].researched[type]]. *)
Definition canReceive (g : Game) (type : ResourceTypes) (u : Unit) : bool :=
  bool_decide (unit_type u = WORKER)
  && researched (per_team_get (teamStates (state g)) (unit_team u)) type.

(** The workers on the cell and on its neighbours, each with the cell it was
    found on. *)
Definition workersToReceiveResources (g : Game) (type : ResourceTypes)
    (p : Position) : list (Position * Unit) :=
  q ← p :: getAdjacentCells (game_map g) p;
  (fun u => (q, u)) <$>
    filter (fun u => canReceive g type u = true) (units (cellAt (game_map g) q)).

(** What one worker is entitled to, before flooring. *)
Definition distributeAmount_of (rate : Q) (n : nat) (toDistribute : Q)
    (i : nat) (worker : Unit) : Q :=
  let spaceLeft := getCargoSpaceLeft worker in
  let maxReceivable := (toDistribute / inject_Z (Z.of_nat n - Z.of_nat i))%Q in
  Qmin (Qmin spaceLeft maxReceivable) rate.

(** The body of [workersToReceiveResources.forEach((worker, i) => ...)]. *)
Definition releaseTo (type : ResourceTypes) (rate : Q) (n : nat)
    (st : Release) (w : Position * Unit) (i : nat) : Release :=
  let distributeAmount :=
    distributeAmount_of rate n (amountToDistribute st) i w.2 in
  let given := inject_Z (Qfloor distributeAmount) in
  let g1 := updateUnit (unit_cargo_add type given) w.1 w.2 (rl_game st) in
  let g2 := addResourcesCollected (unit_team w.2) type given g1 in
  mkRelease g2
    (amountToDistribute st - distributeAmount)
    (amountDistributed st + distributeAmount).

Definition handleResourceRelease (g : Game) (p : Position) : Game :=
  let originalCell := cellAt (game_map g) p in
  if hasResource originalCell then
    match resource originalCell with
    | None => g
    | Some res =>
        let type := res_type res in
        let workers := workersToReceiveResources g type p in
        let rate := WORKER_COLLECTION_RATE (configs g) type in
        let n := length workers in
        let toDistribute := Qmin (rate * inject_Z (Z.of_nat n)) (amount res) in
        let st :=
          forEach_i (releaseTo type rate n) (sortWorkers workers) 0
            (mkRelease g toDistribute 0) in
        let g' := rl_game st in
        let cell' := cellAt (game_map g') p in
        let left := (amount res - amountDistributed st)%Q in
        let left := if decide (left < epsilon)%Q then 0%Q else left in
        set_game_map g'
          (setCell (game_map g') p
             (set_resource cell' (Some (mkResource type left))))
    end
  else g.

End Resources.

(** ** Movement: [handleMovementActions] *)

(** [cellsToActionsToThere] is a [Map<Cell, Array<MoveAction>>] whose key
    order is observed ([keys()], [forEach]): its entries in insertion order,
    the cells as positions. *)
Abbreviation CellActions := (list (Position * list MoveAction)).

Definition Map_get (m : CellActions) (c : Position) :
    option (list MoveAction) :=
  snd <$> List.find (fun e => bool_decide (e.1 = c)) m.

(** [Map.set]: an existing key keeps its place, a new one goes last. *)
Fixpoint Map_set (m : CellActions) (c : Position) (v : list MoveAction) :
    CellActions :=
  match m with
  | [] => [(c, v)]
  | e :: m' => if decide (e.1 = c) then (c, v) :: m' else e :: Map_set m' c v
  end.

Definition Map_delete (m : CellActions) (c : Position) : CellActions :=
  filter (fun e => e.1 ≠ c) m.

Definition Map_keys (m : CellActions) : list Position := fst <$> m.

(** The recursion of [revertAction] is run with a bound on its depth.  A run
    ends with a result, with the [TypeError] of a dereferenced [undefined],
    or because the bound was too small. *)
Inductive Run (X : Type) := Done (x : X) | Raised | Starved.
Arguments Done {X} _.
Arguments Raised {X}.
Arguments Starved {X}.

#[global] Instance Run_ret : MRet Run := @Done.
#[global] Instance Run_bind : MBind Run := fun _ _ k r =>
  match r with Done x => k x | Raised => Raised | Starved => Starved end.

Definition lift {X} (o : option X) : Run X :=
  match o with Some x => Done x | None => Raised end.

(** The first [actions.forEach]: file each action under its target cell and
    note its unit as moving. *)
Definition fileAction (st : CellActions * gset string) (action : MoveAction) :
    CellActions * gset string :=
  let newcell := newcell action in
  let currActions := Map_get st.1 newcell in
  (match currActions with
   | None => Map_set st.1 newcell [action]
   | Some currActions => Map_set st.1 newcell (currActions ++ [action])
   end,
   {[unitid action]} ∪ st.2).

(** Reverts a given action such that [cellsToActionsToThere] has no
    collisions due to the action and all related actions.  (The warning sent
    to [match] is not part of the state described here.) *)
Fixpoint revertAction (depth : nat) (g : Game) (m : CellActions)
    (action : MoveAction) : Run CellActions :=
  match depth with
  | O => Starved
  | S depth' =>
      unit ← lift (getUnit g (ma_team action) (unitid action));
      origcell ← lift (getCellByPos (game_map g) (unit_pos unit));
      let collidingActions := Map_get m (unit_pos unit) in
      if isCityTile origcell then Done m
      else
        let m' := Map_delete m (unit_pos unit) in
        match collidingActions with
        | Some collidingActions =>
            forEach (revertAction depth' g) collidingActions m'
        | None => Done m'
        end
  end.

(** The [cell.units.forEach] that looks for a unit of the cell among the
    moving ones. *)
Definition unitThereIsStill (movingUnits : gset string) (cell : Cell) : bool :=
  forallb (fun unit => negb (bool_decide (unit_id unit ∈ movingUnits)))
    (units cell).

(** The [actionsToRevert] collected for one actioned cell. *)
Definition actionsToRevert (cell : Cell) (movingUnits : gset string)
    (currActions : option (list MoveAction)) : list MoveAction :=
  match currActions with
  | None => []
  | Some currActions =>
      if (1 <? length currActions)%nat then
        if isCityTile cell then [] else currActions
      else
        match currActions with
        | [action] =>
            if isCityTile cell then []
            else if (length (units cell) =? 1)%nat then
              if unitThereIsStill movingUnits cell then [action] else []
            else []
        | _ => []
        end
  end.

(** The body of [for (const cell of actionedCells)]. *)
Definition resolveCell (depth : nat) (g : Game) (movingUnits : gset string)
    (m : CellActions) (cell : Position) : Run CellActions :=
  let currActions := Map_get m cell in
  let toRevert :=
    actionsToRevert (cellAt (game_map g) cell) movingUnits currActions in
  m' ← forEach (revertAction depth g) toRevert m;
  Done (foldl (fun m action => Map_delete m (newcell action)) m' toRevert).

Definition prunedActions (m : CellActions) : list MoveAction :=
  mjoin (snd <$> m).

(** Process given move actions and return a pruned array of actions that can
    all be executed with no collisions.  [revertAction] is given one level of
    depth per actioned cell, and one more. *)
Definition handleMovementActions_run (g : Game) (actions : list MoveAction) :
    Run (list MoveAction) :=
  let '(cellsToActionsToThere, movingUnits) := foldl fileAction ([], ∅) actions in
  let actionedCells := Map_keys cellsToActionsToThere in
  m ← forEach (resolveCell (S (length cellsToActionsToThere)) g movingUnits)
        actionedCells cellsToActionsToThere;
  Done (prunedActions m).

Definition handleMovementActions (g : Game) (actions : list MoveAction) :
    option (list MoveAction) :=
  match handleMovementActions_run g actions with
  | Done l => Some l
  | _ => None
  end.

(** ** Units: [spawnWorker] and [spawnCart] *)

(** [cell.units.set(unit.id, unit)]. *)
Fixpoint units_set (us : list Unit) (u : Unit) : list Unit :=
  match us with
  | [] => [u]
  | v :: us' =>
      if decide (unit_id v = unit_id u) then u :: us' else v :: units_set us' u
  end.

(** Modelled from the spec: [new Worker(x, y, team, configs, idcount)] and
    [new Cart(...)] make a unit of the team at the position, with empty cargo
    and no cooldown, named after the counter (section 3, lifecycle: "a
    freshly allocated id"). *)
Definition Unit_new (type : UnitType) (x y : Z) (team : TEAM) (idcount : Z) :
    Unit :=
  mkUnit ("u_" +:+ pretty idcount) team (x, y) type (mkCargo 0 0 0) 0.

Definition set_unit_id (u : Unit) (id : string) : Unit :=
  mkUnit id (unit_team u) (unit_pos u) (unit_type u) (cargo u) (unit_cooldown u).

Definition set_globalUnitIDCount (g : Game) (n : Z) : Game :=
  mkGame (game_map g) (cities g) (globalCityIDCount g) n (stats g) (state g)
    (configs g).

Definition incr_built (type : UnitType) (s : TeamStats) : TeamStats :=
  match type with
  | WORKER =>
      mkTeamStats (fuelGenerated s) (resourcesCollected s) (cityTilesBuilt s)
        (st_workersBuilt s + 1) (st_cartsBuilt s) (roadsBuilt s)
        (roadsPillaged s)
  | CART =>
      mkTeamStats (fuelGenerated s) (resourcesCollected s) (cityTilesBuilt s)
        (st_workersBuilt s) (st_cartsBuilt s + 1) (roadsBuilt s)
        (roadsPillaged s)
  end.

(** The common body of [spawnWorker] and [spawnCart]. *)
Definition spawnUnit (type : UnitType) (g : Game) (team : TEAM) (x y : Z)
    (unitid : option string) : option Game :=
  cell ← getCell (game_map g) x y;
  let unit := Unit_new type x y team (globalUnitIDCount g + 1) in
  let '(unit, g1) :=
    match unitid with
    | Some id =>
        if decide (id = "") then
          (unit, set_globalUnitIDCount g (globalUnitIDCount g + 1))
        else (set_unit_id unit id, g)
    | None => (unit, set_globalUnitIDCount g (globalUnitIDCount g + 1))
    end in
  let ts := per_team_get (teamStates (state g1)) team in
  let g2 :=
    set_game_map g1
      (setCell (game_map g1) (x, y)
         (mkCell (resource cell) (citytile cell) (units_set (units cell) unit)
            (road cell))) in
  let g3 :=
    mkGame (game_map g2) (cities g2) (globalCityIDCount g2)
      (globalUnitIDCount g2) (stats g2)
      (mkState (turn (state g2))
         (per_team_set (teamStates (state g2)) team
            (mkTeamState (researchPoints ts)
               (<[unit_id unit := unit]> (ts_units ts)) (researched ts))))
      (configs g2) in
  Some
    (mkGame (game_map g3) (cities g3) (globalCityIDCount g3)
       (globalUnitIDCount g3)
       (per_team_set (stats g3) team
          (incr_built type (per_team_get (stats g3) team)))
       (state g3) (configs g3)).

Definition spawnWorker := spawnUnit WORKER.
Definition spawnCart := spawnUnit CART.

(** ** Units: [moveUnit], [destroyUnit], [transferResources],
    [handleResourceDeposit]

    A [Unit] object is referenced by its team's registry and by the [units]
    of the cell it stands on; an assignment to one of its fields shows
    through both.  A call that dereferences [undefined] (a unit missing from
    the registry, a position off the map, a city missing from the registry)
    raises a [TypeError]: such a call yields [None]. *)

(** [cell.units.delete(id)]. *)
Definition units_delete (us : list Unit) (id : string) : list Unit :=
  filter (fun v => unit_id v <> id) us.

Definition set_unit_pos (u : Unit) (p : Position) : Unit :=
  mkUnit (unit_id u) (unit_team u) p (unit_type u) (cargo u) (unit_cooldown u).

Definition set_cargo (c : Cargo) (u : Unit) : Unit :=
  mkUnit (unit_id u) (unit_team u) (unit_pos u) (unit_type u) c
    (unit_cooldown u).

(** Move specified unit in specified direction: the unit leaves the [units]
    of its cell, takes its new position, and enters the [units] of the cell
    there. *)
Definition moveUnit (g : Game) (team : TEAM) (unitid : string)
    (direction : DIRECTIONS) : option Game :=
  unit ← getUnit g team unitid;
  old ← getCellByPos (game_map g) (unit_pos unit);
  let m1 :=
    setCell (game_map g) (unit_pos unit)
      (set_units old (units_delete (units old) (unit_id unit))) in
  let unit' := set_unit_pos unit (translate (unit_pos unit) direction) in
  new ← getCellByPos m1 (unit_pos unit');
  let m2 :=
    setCell m1 (unit_pos unit')
      (set_units new (units_set (units new) unit')) in
  let ts := per_team_get (teamStates (state g)) team in
  Some (set_teamState (set_game_map g m2) team
          (set_ts_units ts (<[unitid := unit']> (ts_units ts)))).

(** Destroys the unit with this id and team and removes it from its tile. *)
Definition destroyUnit (g : Game) (team : TEAM) (unitid : string) :
    option Game :=
  unit ← getUnit g team unitid;
  cell ← getCellByPos (game_map g) (unit_pos unit);
  let m :=
    setCell (game_map g) (unit_pos unit)
      (set_units cell (units_delete (units cell) unitid)) in
  let ts := per_team_get (teamStates (state g)) team in
  Some (set_teamState (set_game_map g m) team
          (set_ts_units ts (delete unitid (ts_units ts)))).

(** An assignment to a field of the unit registered for [team] under
    [key]. *)
Definition alterUnit (f : Unit -> Unit) (team : TEAM) (key : string)
    (g : Game) : option Game :=
  unit ← getUnit g team key;
  let c := cellAt (game_map g) (unit_pos unit) in
  let us :=
    (fun v => if decide (unit_id v = unit_id unit) then f v else v)
      <$> units c in
  let ts := per_team_get (teamStates (state g)) team in
  Some (set_teamState
          (set_game_map g (setCell (game_map g) (unit_pos unit) (set_units c us)))
          team (set_ts_units ts (alter f key (ts_units ts)))).

(** Transfer resources on a given team between 2 units: the amount asked
    for, capped by what the source carries and by the cargo space left of
    the destination.  Adjacency is not checked here. *)
Definition transferResources `{Collaborators} (g : Game) (team : TEAM)
    (srcID destID : string) (resourceType : ResourceTypes) (amount : Q) :
    option Game :=
  srcunit ← getUnit g team srcID;
  destunit ← getUnit g team destID;
  let transferAmount :=
    Qmin amount
      (Qmin (cargo_get (cargo srcunit) resourceType)
         (getCargoSpaceLeft destunit)) in
  g1 ← alterUnit (unit_cargo_add resourceType (- transferAmount)) team srcID g;
  alterUnit (unit_cargo_add resourceType transferAmount) team destID g1.

Definition add_fuelGenerated (n : Q) (s : TeamStats) : TeamStats :=
  mkTeamStats (fuelGenerated s + n) (resourcesCollected s) (cityTilesBuilt s)
    (st_workersBuilt s) (st_cartsBuilt s) (roadsBuilt s) (roadsPillaged s).

Section Configs.
(** Entries of [configs.parameters] that only the methods below read. *)
Variable RESOURCE_TO_FUEL_RATE : ResourceTypes -> Q.
Variables DAY_LENGTH NIGHT_LENGTH : Z.

(** What the cargo of a unit is worth in fuel: the [fuelGained] of a
    deposit. *)
Definition fuelValue (c : Cargo) : Q :=
  0 + wood c * RESOURCE_TO_FUEL_RATE WOOD
    + coal c * RESOURCE_TO_FUEL_RATE COAL
    + uranium c * RESOURCE_TO_FUEL_RATE URANIUM.

(** Auto deposit resources of unit to the tile it is on. *)
Definition handleResourceDeposit (g : Game) (unit : Unit) : option Game :=
  cell ← getCellByPos (game_map g) (unit_pos unit);
  match citytile cell with
  | Some tile =>
      if decide (ct_team tile = unit_team unit) then
        city ← cities g !! cityid tile;
        let fuelGained := fuelValue (cargo unit) in
        let g1 :=
          set_cities g (<[cityid tile := add_fuel fuelGained city]> (cities g)) in
        let g2 :=
          set_stats g1
            (per_team_set (stats g1) (unit_team unit)
               (add_fuelGenerated fuelGained
                  (per_team_get (stats g1) (unit_team unit)))) in
        Some (updateUnit (set_cargo (mkCargo 0 0 0)) (unit_pos unit) unit g2)
      else Some g
  | None => Some g
  end.

(** [this.state.turn % cycleLength >= dayLength]; the remainder by zero is
    [NaN], which compares false. *)
Definition isNight (g : Game) : bool :=
  let dayLength := DAY_LENGTH in
  let cycleLength := (dayLength + NIGHT_LENGTH)%Z in
  if decide (cycleLength = 0%Z) then false
  else bool_decide (Z.rem (turn (state g)) cycleLength >= dayLength)%Z.

End Configs.


(** ** The arithmetic of [handleResourceRelease]

    The amounts of [index.ts] are JavaScript numbers: binary64.  The
    definitions above compute with exact rationals, which is what the
    release of whole amounts needs; the shares of a release are quotients,
    and here the method is written once more with every operation rounded
    as binary64 rounds it.

    A finite double is the rational it denotes, and an operation gives the
    double nearest to the exact result, the one with the even last bit of
    two that are as near, with 53 bits and the gradual underflow of the
    format.  Overflow is left out (no Infinity, no NaN): the numbers of the
    statements below stay under [2^53], and the product [rate * n], the one
    result that may exceed it, only enters a minimum with the node's
    amount. *)
Module Binary64.

(** [2^e]. *)
Definition pow2 (e : Z) : Q := 2 ^ e.

(** The exponent [e] with [2^e <= x < 2^(e+1)], for [x] positive. *)
Definition ilog2 (x : Q) : Z :=
  let e := (Z.log2 (Qnum x) - Z.log2 (Zpos (Qden x)))%Z in
  if decide (pow2 e <= x)%Q then e else (e - 1)%Z.

(** The exponent of the last place of the doubles next to [x]: 53 bits, and
    the subnormal spacing [2^-1074] at the bottom. *)
Definition fexp (x : Q) : Z := Z.max (ilog2 (Qabs x) - 52) (-1074).

(** The integer nearest to [x], the even one of two that are as near. *)
Definition rne (x : Q) : Z :=
  let f := Qfloor x in
  let r := (x - inject_Z f)%Q in
  if decide (r < 1 # 2)%Q then f
  else if decide ((1 # 2) < r)%Q then (f + 1)%Z
  else if Z.even f then f else (f + 1)%Z.

(** The double nearest to [x]. *)
Definition round (x : Q) : Q :=
  if Qeq_bool x 0 then 0%Q
  else (inject_Z (rne (x / pow2 (fexp x))) * pow2 (fexp x))%Q.

Definition add (x y : Q) : Q := round (x + y).
Definition sub (x y : Q) : Q := round (x - y).
Definition mul (x y : Q) : Q := round (x * y).
Definition div (x y : Q) : Q := round (x / y).

(** The literal [1e-10]. *)
Definition epsilon : Q := round (1 # 10000000000).

(** [worker.cargo[type] += n]. *)
Definition cargo_add (c : Cargo) (type : ResourceTypes) (n : Q) : Cargo :=
  match type with
  | WOOD => mkCargo (add (wood c) n) (coal c) (uranium c)
  | COAL => mkCargo (wood c) (add (coal c) n) (uranium c)
  | URANIUM => mkCargo (wood c) (coal c) (add (uranium c) n)
  end.

Definition unit_cargo_add (type : ResourceTypes) (n : Q) (u : Unit) : Unit :=
  mkUnit (unit_id u) (unit_team u) (unit_pos u) (unit_type u)
    (cargo_add (cargo u) type n) (unit_cooldown u).

(** [stats.teamStats[team].resourcesCollected[type] += n]. *)
Definition addResourcesCollected (team : TEAM) (type : ResourceTypes) (n : Q)
    (g : Game) : Game :=
  let s := per_team_get (stats g) team in
  set_stats g
    (per_team_set (stats g) team
       (mkTeamStats (fuelGenerated s)
          (cargo_add (resourcesCollected s) type n)
          (cityTilesBuilt s) (st_workersBuilt s) (st_cartsBuilt s)
          (roadsBuilt s) (roadsPillaged s))).

Section Resources.
Context `{Collaborators}.

(** [Math.min(spaceLeft, maxReceivable, rate)]. *)
Definition distributeAmount_of (rate : Q) (n : nat) (toDistribute : Q)
    (i : nat) (worker : Unit) : Q :=
  let spaceLeft := getCargoSpaceLeft worker in
  let maxReceivable :=
    div toDistribute (inject_Z (Z.of_nat n - Z.of_nat i)) in
  Qmin (Qmin spaceLeft maxReceivable) rate.

(** The body of [workersToReceiveResources.forEach((worker, i) => ...)]. *)
Definition releaseTo (type : ResourceTypes) (rate : Q) (n : nat)
    (st : Release) (w : Position * Unit) (i : nat) : Release :=
  let distributeAmount :=
    distributeAmount_of rate n (amountToDistribute st) i w.2 in
  let given := inject_Z (Qfloor distributeAmount) in
  let g1 := updateUnit (unit_cargo_add type given) w.1 w.2 (rl_game st) in
  let g2 := addResourcesCollected (unit_team w.2) type given g1 in
  mkRelease g2
    (sub (amountToDistribute st) distributeAmount)
    (add (amountDistributed st) distributeAmount).

Definition handleResourceRelease (g : Game) (p : Position) : Game :=
  let originalCell := cellAt (game_map g) p in
  if hasResource originalCell then
    match resource originalCell with
    | None => g
    | Some res =>
        let type := res_type res in
        let workers := workersToReceiveResources g type p in
        let rate := WORKER_COLLECTION_RATE (configs g) type in
        let n := length workers in
        let toDistribute :=
          Qmin (mul rate (inject_Z (Z.of_nat n))) (amount res) in
        let st :=
          forEach_i (releaseTo type rate n) (sortWorkers workers) 0
            (mkRelease g toDistribute 0) in
        let g' := rl_game st in
        let cell' := cellAt (game_map g') p in
        let left := sub (amount res) (amountDistributed st) in
        let left := if decide (left < epsilon)%Q then 0%Q else left in
        set_game_map g'
          (setCell (game_map g') p
             (set_resource cell' (Some (mkResource type left))))
    end
  else g.

End Resources.

End Binary64.

(** What the release has added to the cargo of the worker, read off the
    registry of the game after it. *)
Definition credited (g' : Game) (type : ResourceTypes) (w : Position * Unit) :
    Q :=
  (from_option (fun unit => cargo_get (cargo unit) type) 0
     (getUnit g' (unit_team w.2) (unit_id w.2))
   - cargo_get (cargo w.2) type)%Q.

(** The worker carries a whole number of the resource, below [2^52]. *)
Definition wholeCargo (type : ResourceTypes) (unit : Unit) : Prop :=
  exists c : Z,
    (0 <= c <= 2 ^ 52)%Z /\ (cargo_get (cargo unit) type == inject_Z c)%Q.

(** The team and id a worker is registered under. *)
Definition holder (w : Position * Unit) : TEAM * string :=
  (unit_team w.2, unit_id w.2).

(** The worker's share, as the loop leaves it in the registry. *)
Definition shared `{Collaborators} (g' : Game) (type : ResourceTypes) (rate : Q)
    (w : Position * Unit) (m : Z) : Prop :=
  (exists unit,
     getUnit g' (unit_team w.2) (unit_id w.2) = Some unit
     /\ (cargo_get (cargo unit) type
         == cargo_get (cargo w.2) type + inject_Z m)%Q)
  /\ (0 <= m)%Z
  /\ (inject_Z m <= getCargoSpaceLeft w.2)%Q
  /\ (inject_Z m <= rate)%Q.


(** ** Predicates used in the statements about turns and units *)

(** The id a command commits in [actionsPlaced]: the unit's for a unit
    command, the city tile's for a command to a city tile. *)
Definition actor `{Collaborators} (g : Game) (a : Action) : TEAM * string :=
  let tileID (p : Position) :=
    from_option (getTileID p) "" (citytile (cellAt (game_map g) p)) in
  match a with
  | PillageAction team uid => (team, uid)
  | SpawnCityAction team uid => (team, uid)
  | SpawnCartAction team x y => (team, tileID (x, y))
  | SpawnWorkerAction team x y => (team, tileID (x, y))
  | Move m => (ma_team m, unitid m)
  | ResearchAction team x y => (team, tileID (x, y))
  | TransferAction team srcID _ _ _ => (team, srcID)
  end.

(** The ids a team has committed so far in the turn. *)
Definition placed (s : VState) (team : TEAM) : gset string :=
  actionsPlaced (per_team_get (vs_acc s) team).

(** The move actions among the actions of a turn. *)
Definition movesOf (acts : list Action) : list MoveAction :=
  omap (fun a => match a with Move m => Some m | _ => None end) acts.

(** What the checks of [validateCommand] leave true of an action they let
    through, for the team [team] in the game [g] with [ids] committed. *)
Definition admissible `{Collaborators} (g : Game) (ids : gset string)
    (team : TEAM) (a : Action) : Prop :=
  (actor g a).1 = team /\ (actor g a).2 ∉ ids /\
  match a with
  | PillageAction _ uid =>
      exists unit, getUnit g team uid = Some unit /\ canAct unit = true
  | SpawnCityAction _ uid =>
      exists unit,
        getUnit g team uid = Some unit
        /\ inMap (game_map g) (unit_pos unit) = true
        /\ isCityTile (cellAt (game_map g) (unit_pos unit)) = false
        /\ hasResource (cellAt (game_map g) (unit_pos unit)) = false
        /\ canAct unit = true
        /\ (CITY_WOOD_COST (configs g) <= wood (cargo unit))%Q
  | SpawnCartAction _ x y | SpawnWorkerAction _ x y =>
      inMap (game_map g) (x, y) = true
      /\ exists tile,
           citytile (cellAt (game_map g) (x, y)) = Some tile
           /\ ct_team tile = team /\ canBuildUnit tile = true
  | ResearchAction _ x y =>
      inMap (game_map g) (x, y) = true
      /\ exists tile,
           citytile (cellAt (game_map g) (x, y)) = Some tile
           /\ ct_team tile = team /\ canResearch tile = true
  | Move m =>
      exists unit,
        getUnit g team (unitid m) = Some unit
        /\ canMove unit = true
        /\ newcell m = translate (unit_pos unit) (direction m)
        /\ (direction m <> CENTER ->
            inMap (game_map g) (newcell m) = true
            /\ forall tile,
                 citytile (cellAt (game_map g) (newcell m)) = Some tile ->
                 ct_team tile = team)
  | TransferAction _ srcID destID _ amt =>
      exists srcUnit destUnit,
        getUnit g team srcID = Some srcUnit
        /\ getUnit g team destID = Some destUnit
        /\ canAct srcUnit = true
        /\ srcID <> destID
        /\ isAdjacent (unit_pos srcUnit) (unit_pos destUnit) = true
        /\ (0 <= amt)%Z
  end.

(** Every registered unit stands on the map. *)
Definition unitsOnMap (g : Game) : Prop :=
  forall team id unit,
    getUnit g team id = Some unit -> inMap (game_map g) (unit_pos unit) = true.

(** The number of tokens that follow the verb of a command to a unit or
    to a city tile. *)
Definition arity (a : ACTIONS) : option nat :=
  match a with
  | MOVE | RESEARCH | BUILD_WORKER | BUILD_CART => Some 2%nat
  | BUILD_CITY | PILLAGE => Some 1%nat
  | TRANSFER => Some 4%nat
  | _ => None
  end.

(** The registry of units and the [units] of the cells agree: a registered
    unit is filed under its own id and team and stands on a cell of the map
    that holds it; a unit held by a cell is the registered one and carries
    the cell's position; ids come from the counter and belong to one team. *)
Record UnitsInv (g : Game) : Prop := {
  ui_registered :
    forall team id u, getUnit g team id = Some u ->
      unit_id u = id /\ unit_team u = team
      /\ inMap (game_map g) (unit_pos u) = true
      /\ u ∈ units (cellAt (game_map g) (unit_pos u));
  ui_placed :
    forall p u, u ∈ units (cellAt (game_map g) p) ->
      getUnit g (unit_team u) (unit_id u) = Some u /\ unit_pos u = p;
  ui_NoDup :
    forall p, NoDup (unit_id <$> units (cellAt (game_map g) p));
  ui_fresh :
    forall team id, is_Some (getUnit g team id) ->
      exists n, id = "u_" +:+ pretty n /\ (n <= globalUnitIDCount g)%Z;
  ui_unique :
    forall team team' id,
      is_Some (getUnit g team id) -> is_Some (getUnit g team' id) ->
      team = team';
}.

(** An update of a unit that leaves its id, its team and its position. *)
Definition keepsPlace (f : Unit -> Unit) : Prop :=
  forall v,
    unit_id (f v) = unit_id v /\ unit_team (f v) = unit_team v
    /\ unit_pos (f v) = unit_pos v.

(** Two games with the same units on the same cells of a map of the same
    size. *)
Definition sameUnits (g g' : Game) : Prop :=
  (forall q, units (cellAt (game_map g') q) = units (cellAt (game_map g) q))
  /\ (forall q, inMap (game_map g') q = inMap (game_map g) q)
  /\ state g' = state g
  /\ globalUnitIDCount g' = globalUnitIDCount g.

(** Two maps with the same units on the same cells. *)
Definition sameUnitsMap (m m' : GameMap) : Prop :=
  (forall q, units (cellAt m' q) = units (cellAt m q))
  /\ (forall q, inMap m' q = inMap m q).

(** The workers a release looks at are registered units on their cells. *)
Definition stationed (g : Game) (w : Position * Unit) : Prop :=
  exists u,
    getUnit g (unit_team w.2) (unit_id w.2) = Some u /\ unit_pos u = w.1.

(** A game without units. *)
Definition unitFree (g : Game) : Prop :=
  (forall team id, getUnit g team id = None)
  /\ forall p, units (cellAt (game_map g) p) = [].

(** The direction that undoes a move. *)
Definition opposite (d : DIRECTIONS) : DIRECTIONS :=
  match d with
  | NORTH => SOUTH | SOUTH => NORTH | EAST => WEST | WEST => EAST
  | CENTER => CENTER
  end.

(** The game at turn [n]. *)
Definition set_turn (g : Game) (n : Z) : Game :=
  mkGame (game_map g) (cities g) (globalCityIDCount g) (globalUnitIDCount g)
    (stats g) (mkState n (teamStates (state g))) (configs g).

(** [moveUnit] called with the team, the unit and the direction of a move
    action. *)
Definition executeMove (g : Game) (m : MoveAction) : option Game :=
  moveUnit g (ma_team m) (unitid m) (direction m).

(** The unit a move action names. *)
Definition mover (m : MoveAction) : TEAM * string := (ma_team m, unitid m).

(** A move whose unit is registered and whose target is the cell of the map
    next to the unit in the direction of the move. *)
Definition feasible (g : Game) (m : MoveAction) : Prop :=
  exists u,
    getUnit g (ma_team m) (unitid m) = Some u
    /\ newcell m = translate (unit_pos u) (direction m)
    /\ inMap (game_map g) (newcell m) = true.

(** Every cell that is no city tile holds one unit at most. *)
Definition singleOccupancy (g : Game) : Prop :=
  forall p,
    isCityTile (cellAt (game_map g) p) = false ->
    (length (units (cellAt (game_map g) p)) <= 1)%nat.


(** ** Predicates used in the statements about validation *)

(** A computation that only reads: it leaves the state it found. *)
Definition reads {X} (c : V X) : Prop := forall s, (c s).2 = s.

(** A computation that only writes the accumulator of [team], and returns. *)
Definition commits {X} (team : TEAM) (c : V X) : Prop :=
  forall s,
    vs_game (c s).2 = vs_game s
    /\ (forall t, t <> team ->
          per_team_get (vs_acc (c s).2) t = per_team_get (vs_acc s) t)
    /\ exists x, (c s).1 = Returned x.

(** A computation that writes nothing but the accumulator of [team], and
    nothing at all when it throws. *)
Definition guarded {X} (team : TEAM) (c : V X) : Prop :=
  forall s,
    vs_game (c s).2 = vs_game s
    /\ (forall t, t <> team ->
          per_team_get (vs_acc (c s).2) t = per_team_get (vs_acc s) t)
    /\ (forall e, (c s).1 = Thrown e -> (c s).2 = s).

(** A computation whose returned value, if any, is an action. *)
Definition typed (c : V (option Action)) : Prop :=
  forall s r, (c s).1 = Returned r -> is_Some r.

(** The pending builds of a team: the two counters of its accumulator. *)
Definition pendingWorkers (s : VState) (t : TEAM) : Z :=
  workersBuilt (per_team_get (vs_acc s) t).

Definition pendingCarts (s : VState) (t : TEAM) : Z :=
  cartsBuilt (per_team_get (vs_acc s) t).

Arguments pendingWorkers : simpl never.
Arguments pendingCarts : simpl never.

(** A computation that leaves both build counters of every team alone. *)
Definition keeps {X} (c : V X) : Prop :=
  forall s t,
    pendingWorkers (c s).2 t = pendingWorkers s t
    /\ pendingCarts (c s).2 t = pendingCarts s t.

(** What a command does to the counters of its team: nothing, or one more
    build of one kind after the cap check of that kind passed. *)
Inductive counted (g : Game) (team : TEAM) (s s' : VState) : Prop :=
  | counted_same :
      pendingWorkers s' team = pendingWorkers s team ->
      pendingCarts s' team = pendingCarts s team ->
      counted g team s s'
  | counted_worker :
      workerUnitCapReached g team (pendingWorkers s team) = false ->
      pendingWorkers s' team = (pendingWorkers s team + 1)%Z ->
      pendingCarts s' team = pendingCarts s team ->
      counted g team s s'
  | counted_cart :
      cartUnitCapReached g team (pendingCarts s team) = false ->
      pendingWorkers s' team = pendingWorkers s team ->
      pendingCarts s' team = (pendingCarts s team + 1)%Z ->
      counted g team s s'.

(** A counter is within the cap when nothing was built, or when the live
    units and the builds counted stay at or below the city tiles. *)
Definition within_cap (g : Game) (team : TEAM) (n : Z) : Prop :=
  n = 0%Z \/ (0 < n /\ teamUnitsSize g team + n <= teamCityTilesCount g team)%Z.

(** The verbs of the debug annotations. *)
Definition debug_verbs : list string := ["dc"; "dx"; "dl"; "dt"; "dst"].

Section CapPredicates.
Context `{Collaborators}.

(** A build command that gets past the checks that come before the cap:
    well-formed, on the map, on a tile of the team that has not acted and can
    build. *)
Definition reaches_cap_check (cmd : Command) (s : VState) : Prop :=
  exists verb a0 a1 x y tile,
    split (command cmd) = [verb; a0; a1]
    /\ (verb = "bw" \/ verb = "bc")
    /\ parseInt a0 = Some x /\ parseInt a1 = Some y
    /\ inMap (game_map (vs_game s)) (x, y) = true
    /\ citytile (cellAt (game_map (vs_game s)) (x, y)) = Some tile
    /\ ct_team tile = agentID cmd
    /\ (getTileID (x, y) tile
          ∉ actionsPlaced (per_team_get (vs_acc s) (agentID cmd)))
    /\ canBuildUnit tile = true.

(** The pending builds are all of the kind the command asks for. *)
Definition one_kind_pending (cmd : Command) (s : VState) : Prop :=
  (hd ""%string (split (command cmd)) = "bw"
   /\ pendingCarts s (agentID cmd) = 0%Z)
  \/ (hd ""%string (split (command cmd)) = "bc"
      /\ pendingWorkers s (agentID cmd) = 0%Z).

End CapPredicates.

(** ** Predicates used in the statements about resources *)

Section ResourcePredicates.
Context `{Collaborators}.
Local Open Scope Q_scope.

(** The entitlements the loop computes, for the workers from index [i] on. *)
Fixpoint entitlements (rate : Q) (n i : nat) (pool : Q) (ws : list Unit) :
    list Q :=
  match ws with
  | [] => []
  | w :: ws' =>
      let d := distributeAmount_of rate n pool i w in
      d :: entitlements rate n (S i) (pool - d) ws'
  end.

(** Following the specification: each worker in turn, with [k] the workers
    remaining (itself included), is entitled to the least of its free cargo
    space, the pool divided by [k], and the rate; the entitlement is taken
    off the pool. *)
Fixpoint spec_entitlements (rate : Q) (pool : Q) (ws : list Unit) : list Q :=
  match ws with
  | [] => []
  | w :: ws' =>
      let k := inject_Z (Z.of_nat (length ws)) in
      let e := Qmin (Qmin (getCargoSpaceLeft w) (pool / k)) rate in
      e :: spec_entitlements rate (pool - e) ws'
  end.

(** Crediting one worker with the floor of its entitlement: its cargo and
    its team's statistics. *)
Definition credit (type : ResourceTypes) (g : Game)
    (we : (Position * Unit) * Q) : Game :=
  let given := inject_Z (Qfloor we.2) in
  addResourcesCollected (unit_team we.1.2) type given
    (updateUnit (unit_cargo_add type given) we.1.1 we.1.2 g).

(** Following the specification, section 4.3. *)
Definition spec_handleResourceRelease (g : Game) (p : Position) : Game :=
  match resource (cellAt (game_map g) p) with
  | Some res =>
      if decide (0 < amount res)%Q then
        let type := res_type res in
        let rate := WORKER_COLLECTION_RATE (configs g) type in
        let sorted := sortWorkers (workersToReceiveResources g type p) in
        let distributable :=
          Qmin (rate * inject_Z (Z.of_nat (length sorted))) (amount res) in
        let es := spec_entitlements rate distributable (snd <$> sorted) in
        let g' := foldl (credit type) g (zip sorted es) in
        let left := (amount res - foldl Qplus 0 es)%Q in
        set_game_map g'
          (setCell (game_map g') p
             (set_resource (cellAt (game_map g') p)
                (Some (mkResource type
                         (if decide (left < epsilon)%Q then 0%Q else left)))))
      else g
  | None => g
  end.

Definition Qsum (l : list Q) : Q := foldr Qplus 0 l.

(** What both teams have collected of a resource, by the statistics. *)
Definition totalCollected (g : Game) (type : ResourceTypes) : Q :=
  cargo_get (resourcesCollected (team_a (stats g))) type
  + cargo_get (resourcesCollected (team_b (stats g))) type.

(** Ascending by free cargo space. *)
Definition space_le (a b : Position * Unit) : Prop :=
  getCargoSpaceLeft a.2 <= getCargoSpaceLeft b.2.

End ResourcePredicates.

(** ** Predicates used in the statements about cities *)

(** The city tile on a cell. *)
Definition tileAt (m : GameMap) (p : Position) : option CityTile :=
  citytile (cellAt m p).

(** Two maps of the same size. *)
Definition same_dims (m m' : GameMap) : Prop :=
  width m' = width m /\ height m' = height m.

(** Two games that differ in the map and the registry at most. *)
Definition same_frame (g g' : Game) : Prop :=
  globalCityIDCount g' = globalCityIDCount g
  /\ globalUnitIDCount g' = globalUnitIDCount g
  /\ stats g' = stats g /\ state g' = state g /\ configs g' = configs g.

(** The cell as the merge leaves it when it is among the cells absorbed. *)
Definition relinked (s : string) (c : Cell) : Cell :=
  set_citytile c (set_cityid s <$> citytile c).

(** A city that took over the cells [l]. *)
Definition with_cells (l : list Position) (c : City) : City :=
  mkCity (city_id c) (city_team c) (fuel c) (citycells c ++ l).

(** A city that took over the cells and the fuel of [old]. *)
Definition absorbing (old : City) (c : City) : City :=
  mkCity (city_id c) (city_team c) (fuel c + fuel old)
    (citycells c ++ citycells old).

(** The cities a merge absorbs: those of the ids found, the survivor's
    apart, in the order found. *)
Definition absorbedCities (cs : gmap string City) (s : string)
    (ids : list string) : list City :=
  omap (fun id => if decide (id = s) then None else cs !! id) ids.

Definition absorbingAll (olds : list City) (c : City) : City :=
  foldl (fun c old => absorbing old c) c olds.

(** The same-team city tiles next to a cell, in canonical order, and how
    many there are. *)
Definition adjSameTeam (m : GameMap) (team : TEAM) (p : Position) :
    list Position :=
  filter (fun q => sameTeamCityTile m team q = true) (getAdjacentCells m p).

(** The city ids found on a list of cells, as [cityIdsFound] collects them. *)
Definition idsFound (m : GameMap) (l : list Position) : list string :=
  foldl (fun s q => Set_add s (cityid_at m q)) [] l.

Record CityInv (g : Game) : Prop := {
  inv_registered :
    forall p t, tileAt (game_map g) p = Some t ->
      exists c, cities g !! cityid t = Some c
                /\ city_team c = ct_team t /\ p ∈ citycells c;
  inv_cells :
    forall k c, cities g !! k = Some c ->
      city_id c = k /\ NoDup (citycells c) /\ citycells c <> []
      /\ forall p, p ∈ citycells c ->
           exists t, tileAt (game_map g) p = Some t /\ cityid t = k;
  inv_joined :
    forall p q t u,
      tileAt (game_map g) p = Some t -> tileAt (game_map g) q = Some u ->
      q ∈ getAdjacentCells (game_map g) p -> ct_team t = ct_team u ->
      cityid t = cityid u;
  inv_counted :
    forall p t, tileAt (game_map g) p = Some t ->
      adjacentCityTiles t
      = Z.of_nat (length (adjSameTeam (game_map g) (ct_team t) p));
  inv_fresh :
    forall k, is_Some (cities g !! k) ->
      exists n, k = "c_" +:+ pretty n /\ (n <= globalCityIDCount g)%Z;
  inv_inMap :
    forall p t, tileAt (game_map g) p = Some t -> inMap (game_map g) p = true;
}.

(** What a tile next to, or absorbed by, a new tile becomes. *)
Definition retile (s : string) (ids : list string) (bump : bool)
    (t : CityTile) : CityTile :=
  mkCityTile (ct_team t)
    (if decide (cityid t ∈ ids) then s else cityid t)
    (adjacentCityTiles t + (if bump then 1 else 0))
    (ct_cooldown t).

(** The game after a tile of [team] was placed on the free cell [p]: the
    new tile belongs to city [s]; [ids] are the city ids found next to it. *)
Definition Spawned (g : Game) (team : TEAM) (p : Position) (s : string)
    (g' : Game) : Prop :=
  let m := game_map g in
  let adj := adjSameTeam m team p in
  let ids := idsFound m adj in
  let olds := absorbedCities (cities g) s ids in
  same_dims m (game_map g')
  /\ tileAt (game_map g') p = Some (mkCityTile team s (Z.of_nat (length adj)) 0)
  /\ (forall q, q <> p ->
        tileAt (game_map g') q
        = retile s ids (bool_decide (q ∈ adj)) <$> tileAt m q)
  /\ (exists base,
        cities g' !! s = Some (absorbingAll olds (addCityTile base p))
        /\ city_id base = s /\ city_team base = team
        /\ ((adj = [] /\ cities g !! s = None
             /\ base = City_new team (globalCityIDCount g + 1)
             /\ globalCityIDCount g' = (globalCityIDCount g + 1)%Z)
            \/ (hd_error ids = Some s /\ cities g !! s = Some base
                /\ globalCityIDCount g' = globalCityIDCount g)))
  /\ (forall id, id ∈ ids -> id <> s -> cities g' !! id = None)
  /\ (forall k, k <> s -> k ∉ ids -> cities g' !! k = cities g !! k).

Definition cityFree (g : Game) : Prop :=
  cities g = ∅ /\ forall p, tileAt (game_map g) p = None.

Inductive reachable : Game -> Prop :=
  | reach_cityFree g : cityFree g -> reachable g
  | reach_spawnCityTile g team x y g' :
      reachable g ->
      tileAt (game_map g) (x, y) = None ->
      spawnCityTile g team x y None = Some g' ->
      reachable g'
  | reach_destroyCity g cityID g' :
      reachable g -> destroyCity g cityID = Some g' -> reachable g'.

(** The fuel of all the cities registered. *)
Definition totalFuel (cs : gmap string City) : Q :=
  map_fold (fun _ c a => (fuel c + a)%Q) 0%Q cs.

(** The fuel registered under an id, none if the id is not registered. *)
Definition fuelOf (cs : gmap string City) (k : string) : Q :=
  from_option fuel 0%Q (cs !! k).

(** The registry without the ids of a list. *)
Definition removeAll (ks : list string) (cs : gmap string City) :
    gmap string City :=
  foldr delete cs ks.

(** The steps by which cities grow: a tile placed on a cell
    ([spawnCityTile]), or fuel put into a city, the effect on the registry of
    [handleResourceDeposit] ([city.fuel += fuelGained]) when the city is
    registered. *)
Inductive Build := Place (p : Position) | Deposit (cityID : string) (f : Q).

(** One step, on the game and on the fuel the registered cities have
    received so far. *)
Definition build (team : TEAM) (st : Game * Q) (b : Build) :
    option (Game * Q) :=
  match b with
  | Place p => g' ← spawnCityTile st.1 team p.1 p.2 None; Some (g', st.2)
  | Deposit k f =>
      Some (set_cities st.1 (alter (add_fuel f) k (cities st.1)),
            if decide (is_Some (cities st.1 !! k)) then (st.2 + f)%Q else st.2)
  end.

(** The cells tiles are placed on, in order. *)
Definition places (bs : list Build) : list Position :=
  omap (fun b => match b with Place p => Some p | Deposit _ _ => None end) bs.

(** ** Movement predicates *)

(** The actions of a batch that go to a cell, in the order of the batch. *)
Definition targeting (actions : list MoveAction) (c : Position) :
    list MoveAction :=
  filter (fun a => newcell a = c) actions.

(** The units a batch moves. *)
Definition movers (actions : list MoveAction) : gset string :=
  list_to_set (unitid <$> actions).

(** [cellsToActionsToThere] and [movingUnits] once the batch is filed. *)
Definition filed (actions : list MoveAction) : CellActions * gset string :=
  foldl fileAction ([], ∅) actions.

(** What is left of [cellsToActionsToThere] once the cells of [D] were
    deleted from it. *)
Definition remaining (D : gset Position) (m : CellActions) : CellActions :=
  filter (fun e => e.1 ∉ D) m.

(** A cell that is no city tile and that several actions go to, or one
    action while its only unit does not move. *)
Definition collides (g : Game) (actions : list MoveAction) (c : Position) :
    Prop :=
  isCityTile (cellAt (game_map g) c) = false
  /\ ((1 < length (targeting actions c))%nat
      \/ (length (targeting actions c) = 1%nat
          /\ length (units (cellAt (game_map g) c)) = 1%nat
          /\ unitThereIsStill (movers actions) (cellAt (game_map g) c) = true)).

(** The cells whose actions are reverted: the cells that collide, and the
    cell, when it is no city tile, of every unit an action of which goes to
    such a cell. *)
Inductive bumped (g : Game) (actions : list MoveAction) : Position -> Prop :=
  | bumped_here c : collides g actions c -> bumped g actions c
  | bumped_back c action unit :
      bumped g actions c ->
      action ∈ actions -> newcell action = c ->
      getUnit g (ma_team action) (unitid action) = Some unit ->
      isCityTile (cellAt (game_map g) (unit_pos unit)) = false ->
      bumped g actions (unit_pos unit).

(** The unit of the action exists and stands on the map. *)
Definition onMap (g : Game) (action : MoveAction) : Prop :=
  exists unit,
    getUnit g (ma_team action) (unitid action) = Some unit
    /\ inMap (game_map g) (unit_pos unit) = true.

(** The array, when it is not empty. *)
Definition nonempty {X} (l : list X) : option (list X) :=
  match l with [] => None | _ => Some l end.

(** Every cell deleted is one whose actions are reverted. *)
Definition sound (g : Game) (actions : list MoveAction) (D : gset Position) :
    Prop :=
  forall c, c ∈ D -> bumped g actions c.

(** The cell of the action's unit, when it is no city tile, was deleted. *)
Definition vacated (g : Game) (D : gset Position) (action : MoveAction) :
    Prop :=
  forall unit,
    getUnit g (ma_team action) (unitid action) = Some unit ->
    isCityTile (cellAt (game_map g) (unit_pos unit)) = false ->
    unit_pos unit ∈ D.

(** Every action to a deleted cell has been reverted, or is among the
    actions [W] that are about to be. *)
Definition closedUpTo (g : Game) (actions : list MoveAction)
    (D : gset Position) (W : list MoveAction) : Prop :=
  forall action,
    action ∈ actions -> newcell action ∈ D ->
    vacated g D action \/ action ∈ W.

(** What a call of [revertAction] does to the cells deleted, when the depth
    it may recurse to exceeds the number of cells left: it returns, deletes
    only cells whose actions are to be reverted, and leaves reverted the
    action and every action that had to follow. *)
Definition reverts (g : Game) (actions : list MoveAction) (depth : nat) :
    Prop :=
  forall D W a,
    (length (remaining D (filed actions).1) < depth)%nat ->
    a ∈ actions -> bumped g actions (newcell a) ->
    sound g actions D -> closedUpTo g actions D (a :: W) ->
    exists D',
      revertAction depth g (remaining D (filed actions).1) a
      = Done (remaining D' (filed actions).1)
      /\ D ⊆ D' /\ sound g actions D' /\ closedUpTo g actions D' W
      /\ vacated g D' a.


(** ** A concrete world for the scenarios

    One instance of the collaborators, and an empty game, on which the
    scenarios of the specification are run. *)
Module Scenario.

(** Plain decimal numerals, as [parseInt] reads them. *)
Fixpoint digits (s : string) (acc : Z) : option Z :=
  match s with
  | EmptyString => Some acc
  | String c s' =>
      let n := Ascii.nat_of_ascii c in
      if ((48 <=? n) && (n <=? 57))%nat
      then digits s' (10 * acc + Z.of_nat (n - 48))%Z
      else None
  end.

Definition parseDecimal (s : string) : option Z :=
  match s with EmptyString => None | _ => digits s 0%Z end.

(** Units and tiles act when their cooldown is below one; a unit carries up
    to [100]; a tile is named after its cell. *)
Definition collaborators : Collaborators := {|
  canAct u := bool_decide (unit_cooldown u < 1)%Q;
  canMove u := bool_decide (unit_cooldown u < 1)%Q;
  getCargoSpaceLeft u :=
    (100 - wood (cargo u) - coal (cargo u) - uranium (cargo u))%Q;
  canBuildUnit t := bool_decide (ct_cooldown t < 1)%Q;
  canResearch t := bool_decide (ct_cooldown t < 1)%Q;
  getTileID p t := "ct_" +:+ pretty p.1 +:+ "_" +:+ pretty p.2;
  isAdjacent p q := bool_decide (Z.abs (p.1 - q.1) + Z.abs (p.2 - q.2) <= 1)%Z;
  parseInt := parseDecimal;
|}.

Definition everything_researched : TeamState :=
  mkTeamState 0 ∅ (fun _ => true).

Definition no_stats : TeamStats := mkTeamStats 0 (mkCargo 0 0 0) 0 0 0 0 0.

Definition parameters : Parameters :=
  mkParameters 100
    (fun r => match r with WOOD => 20 | COAL => 5 | URANIUM => 2 end)%Q 0.

(** The game on an empty [w] by [h] map. *)
Definition newGame (w h : Z) : Game :=
  mkGame (mkGameMap w h ∅) ∅ 0 0 (mkPerTeam no_stats no_stats)
    (mkState 0 (mkPerTeam everything_researched everything_researched))
    parameters.

(** A game as the turn's validation sees it, with a fresh accumulator. *)
Definition fresh (g : Game) : VState :=
  mkVState g _genInitialAccumulatedActionStats.

(** The operations a scenario is set up with. *)
Inductive Op :=
  | CityTileAt (team : TEAM) (x y : Z)
  | WorkerAt (team : TEAM) (x y : Z)
  | Destroy (cityID : string)
  | Refuel (cityID : string) (f : Q).

(** [Refuel] raises a city's fuel, as a deposit does ([city.fuel += ...]). *)
Definition run_op (g : Game) (op : Op) : option Game :=
  match op with
  | CityTileAt team x y => spawnCityTile g team x y None
  | WorkerAt team x y => spawnWorker g team x y None
  | Destroy cityID => destroyCity g cityID
  | Refuel cityID f =>
      Some (set_cities g (alter (add_fuel f) cityID (cities g)))
  end.

Definition setup (w h : Z) (ops : list Op) : option Game :=
  forEach run_op ops (newGame w h).

(** Team A owns two separate city tiles, at (0,0) and (2,0), and one
    worker. *)
Definition two_tiles_one_worker : Game :=
  default (newGame 3 1)
    (setup 3 1 [CityTileAt TEAM_A 0 0; CityTileAt TEAM_A 2 0; WorkerAt TEAM_A 0 0]).

(** The scenario of section 8: a cell holding 40 uranium at (1,1), rate 2,
    and three workers of team A next to it, with free cargo space 5, 100 and
    100. *)
Definition uranium_workers : list Unit :=
  [mkUnit "u_1" TEAM_A (1, 0)%Z WORKER (mkCargo 95 0 0) 0;
   mkUnit "u_2" TEAM_A (0, 1)%Z WORKER (mkCargo 0 0 0) 0;
   mkUnit "u_3" TEAM_A (2, 1)%Z WORKER (mkCargo 0 0 0) 0].

Definition uranium_field : Game :=
  mkGame
    (mkGameMap 3 3
       (list_to_map
          (((1, 1)%Z, mkCell (Some (mkResource URANIUM 40)) None [] 0)
           :: ((fun u => (unit_pos u, mkCell None None [u] 0))
                 <$> uranium_workers))))
    ∅ 0 3 (mkPerTeam no_stats no_stats)
    (mkState 0
       (mkPerTeam
          (mkTeamState 0
             (list_to_map ((fun u => (unit_id u, u)) <$> uranium_workers))
             (fun _ => true))
          everything_researched))
    parameters.

(** What a unit of team A carries of uranium, by the registry and by the
    cell it stands on. *)
Definition uranium_carried (g : Game) (id : string) : list Q :=
  match getUnit g TEAM_A id with
  | Some u =>
      uranium (cargo u)
      :: ((fun v => uranium (cargo v))
            <$> filter (fun v => unit_id v = id)
                  (units (cellAt (game_map g) (unit_pos u))))
  | None => []
  end.

(** Team A's city c_1 on (0,0) and (1,0) with fuel 30, and its city c_2 on
    (3,0) with fuel 12; the cell (2,0) between them is free. *)
Definition two_cities : Game :=
  default (newGame 4 1)
    (setup 4 1
       [CityTileAt TEAM_A 0 0; CityTileAt TEAM_A 1 0; CityTileAt TEAM_A 3 0;
        Refuel "c_1" 30; Refuel "c_2" 12]).

(** A worker of team A on each of (0,0), (2,0) and (0,1) of a 3 by 2 map:
    units u_1, u_2 and u_3. *)
Definition three_workers : Game :=
  default (newGame 3 2)
    (setup 3 2 [WorkerAt TEAM_A 0 0; WorkerAt TEAM_A 2 0; WorkerAt TEAM_A 0 1]).

(** u_1 moves east and u_2 west, both to (1,0); u_3 moves north to (0,0),
    the cell u_1 is to leave. *)
Definition bump_moves : list MoveAction :=
  [mkMoveAction TEAM_A "u_1" EAST (1, 0)%Z;
   mkMoveAction TEAM_A "u_2" WEST (1, 0)%Z;
   mkMoveAction TEAM_A "u_3" NORTH (0, 0)%Z].

(** Workers u_1 and u_2 of team A stand on the city tile of (1,0) and worker
    u_3 on (0,0); then the city is destroyed, and the two workers are left
    on a cell that is no city tile. *)
Definition stacked_workers : Game :=
  default (newGame 3 1)
    (setup 3 1
       [CityTileAt TEAM_A 1 0; WorkerAt TEAM_A 1 0; WorkerAt TEAM_A 1 0;
        WorkerAt TEAM_A 0 0; Destroy "c_1"]).




(** The commands of a turn of team A: two moves of u_1, a debug command, a
    move of u_3, a move of u_2 and a move of a unit that does not exist. *)
Definition turn_commands : list Command :=
  [mkCommand TEAM_A "m u_1 e"; mkCommand TEAM_A "m u_1 s";
   mkCommand TEAM_A "dc 1 1"; mkCommand TEAM_A "m u_3 n";
   mkCommand TEAM_A "m u_2 w"; mkCommand TEAM_A "m u_9 w"].

(** Team A's city c_1 on (0,0); its worker u_1 stands on the tile and
    carries 30 wood, 2 coal and 1 uranium; its worker u_2 stands next to
    it, on (1,0), and carries nothing. *)
Definition depot : Game :=
  default (newGame 3 1)
    (g ← setup 3 1
           [CityTileAt TEAM_A 0 0; WorkerAt TEAM_A 0 0; WorkerAt TEAM_A 1 0];
     alterUnit (set_cargo (mkCargo 30 2 1)) TEAM_A "u_1" g).

(** The worker u_1 of [depot]. *)
Definition loaded_worker : Unit :=
  mkUnit "u_1" TEAM_A (0, 0)%Z WORKER (mkCargo 30 2 1) 0.

(** Fuel per unit of wood, coal and uranium. *)
Definition fuel_rates (r : ResourceTypes) : Q :=
  match r with WOOD => 1 | COAL => 10 | URANIUM => 40 end.

(** Ten wood on (1,1) of a 3 by 3 map, and next to it the workers u_1,
    u_2 and u_3 of team A, on (1,0), (0,1) and (2,1), carrying nothing. *)
Definition wood_field : Game :=
  let g :=
    default (newGame 3 3)
      (setup 3 3
         [WorkerAt TEAM_A 1 0; WorkerAt TEAM_A 0 1;
          WorkerAt TEAM_A 2 1]) in
  set_game_map g
    (setCell (game_map g) (1, 1)%Z
       (set_resource (cellAt (game_map g) (1, 1)%Z)
          (Some (mkResource WOOD 10)))).

(** 6513 wood on (1,1) of a 3 by 3 map, and 327 workers of team A on the
    cell (1,0) next to it, carrying nothing. *)
Definition crowded_forest : Game :=
  let g :=
    default (newGame 3 3)
      (setup 3 3 (replicate 327 (WorkerAt TEAM_A 1 0))) in
  set_game_map g
    (setCell (game_map g) (1, 1)%Z
       (set_resource (cellAt (game_map g) (1, 1)%Z)
          (Some (mkResource WOOD 6513)))).

End Scenario.

(** A scenario set-up whose steps are city steps, every tile going to a
    free cell, and every step returning. *)
Fixpoint well_placed (ops : list Scenario.Op) (g : Game) : bool :=
  match ops with
  | [] => true
  | op :: ops' =>
      match op with
      | Scenario.CityTileAt _ x y =>
          match tileAt (game_map g) (x, y) with None => true | Some _ => false end
      | Scenario.WorkerAt _ _ _ => false
      | _ => true
      end
      && match Scenario.run_op g op with
         | Some g1 => well_placed ops' g1
         | None => false
         end
  end.
(** * Facts about validation *)


Lemma reads_ret {X} (x : X) : reads (mret x).
Proof. by intros s. Qed.

Lemma reads_throw {X} e : reads (@throw X e).
Proof. by intros s. Qed.

Lemma reads_check b w : reads (check b w).
Proof. intros s. by destruct b. Qed.

Lemma reads_defined {X} (o : option X) : reads (defined o).
Proof. intros s. by destruct o. Qed.

Lemma reads_getAcc team : reads (getAcc team).
Proof. by intros s. Qed.

Lemma reads_getGame : reads getGame.
Proof. by intros s. Qed.

Lemma reads_bind {X Y} (c : V X) (k : X -> V Y) :
  reads c -> (forall x, reads (k x)) -> reads (c ≫= k).
Proof.
  intros Hc Hk s. unfold mbind, V_bind, vbind.
  specialize (Hc s). destruct (c s) as [[x|e] s1]; simpl in *; subst; [apply Hk|done].
Qed.

Lemma per_team_get_set {X} (p : PerTeam X) t u x :
  per_team_get (per_team_set p t x) u = if decide (u = t) then x else per_team_get p u.
Proof. by destruct t, u. Qed.

Lemma commits_ret {X} team (x : X) : commits team (mret x).
Proof. intros s. simpl. eauto. Qed.

Lemma commits_modifyAcc team f : commits team (modifyAcc team f).
Proof.
  intros s. simpl. split_and!; [done| |eauto].
  intros t Ht. rewrite per_team_get_set. by case_decide.
Qed.

Lemma commits_bind {X Y} team (c : V X) (k : X -> V Y) :
  commits team c -> (forall x, commits team (k x)) -> commits team (c ≫= k).
Proof.
  intros Hc Hk s. unfold mbind, V_bind, vbind.
  destruct (Hc s) as (Hg & Ht & x & Hx).
  destruct (c s) as [[x'|e] s1]; simpl in *; [|done].
  destruct (Hk x' s1) as (Hg' & Ht' & y & Hy).
  split_and!; [congruence| |eauto].
  intros t Hne. rewrite Ht', Ht; done.
Qed.

Lemma guarded_commits {X} team (c : V X) : commits team c -> guarded team c.
Proof.
  intros Hc s. destruct (Hc s) as (Hg & Ht & x & Hx).
  split_and!; [done..|]. intros e He. congruence.
Qed.

Lemma guarded_reads {X} team (c : V X) : reads c -> guarded team c.
Proof.
  intros Hc s. specialize (Hc s). destruct (c s) as [o s1]; simpl in *.
  by subst.
Qed.

Lemma guarded_bind {X Y} team (c : V X) (k : X -> V Y) :
  reads c -> (forall x, guarded team (k x)) -> guarded team (c ≫= k).
Proof.
  intros Hc Hk s. unfold mbind, V_bind, vbind.
  specialize (Hc s). destruct (c s) as [[x|e] s1]; simpl in *; subst; [apply Hk|done].
Qed.

Lemma typed_bind {X} (c : V X) (k : X -> V (option Action)) :
  (forall x, typed (k x)) -> typed (c ≫= k).
Proof.
  intros Hk s r. unfold mbind, V_bind, vbind.
  destruct (c s) as [[x|e] s1]; simpl; [apply Hk|done].
Qed.

Lemma typed_throw e : typed (throw e).
Proof. by intros s r. Qed.

Lemma typed_ret a : typed (mret (Some a)).
Proof. intros s r [= <-]. eauto. Qed.


Ltac reads_step :=
  match goal with
  | |- reads (match ?x with _ => _ end) => destruct x
  | |- reads (_ ≫= _) => apply reads_bind; [|intros ?]
  | |- reads (mret _) => apply reads_ret
  | |- reads (vret _) => apply reads_ret
  | |- reads (throw _) => apply reads_throw
  | |- reads (check _ _) => apply reads_check
  | |- reads (defined _) => apply reads_defined
  | |- reads (getAcc _) => apply reads_getAcc
  | |- reads getGame => apply reads_getGame
  end.

Ltac commits_step :=
  match goal with
  | |- commits _ (match ?x with _ => _ end) => destruct x
  | |- commits _ (_ ≫= _) => apply commits_bind; [|intros ?]
  | |- commits _ (mret _) => apply commits_ret
  | |- commits _ (vret _) => apply commits_ret
  | |- commits _ (modifyAcc _ _) => apply commits_modifyAcc
  end.

Ltac guarded_step :=
  match goal with
  | |- guarded _ (match ?x with _ => _ end) => destruct x
  | |- guarded _ (throw _) => apply guarded_reads, reads_throw
  | |- guarded _ (_ ≫= _) =>
      first [ apply guarded_bind; [solve [repeat reads_step]|intros ?]
            | apply guarded_commits; solve [repeat commits_step] ]
  | |- guarded _ _ => apply guarded_commits; solve [repeat commits_step]
  end.

Ltac typed_step :=
  match goal with
  | |- typed (match ?x with _ => _ end) => destruct x
  | |- typed (throw _) => apply typed_throw
  | |- typed (_ ≫= _) => apply typed_bind; intros ?
  | |- typed (mret (Some _)) => apply typed_ret
  | |- typed (vret (Some _)) => apply typed_ret
  end.

Lemma keeps_reads {X} (c : V X) : reads c -> keeps c.
Proof. intros Hc s t. by rewrite Hc. Qed.

Lemma keeps_bind {X Y} (c : V X) (k : X -> V Y) :
  keeps c -> (forall x, keeps (k x)) -> keeps (c ≫= k).
Proof.
  intros Hc Hk s t. unfold mbind, V_bind, vbind.
  specialize (Hc s t). destruct (c s) as [[x|e] s1]; simpl in *; [|done].
  destruct (Hk x s1 t) as [-> ->]. done.
Qed.

Lemma keeps_actionsPlaced_add team id : keeps (modifyAcc team (actionsPlaced_add id)).
Proof.
  intros s t. unfold pendingWorkers, pendingCarts. simpl.
  rewrite per_team_get_set. by case_decide; subst.
Qed.

Ltac keeps_step :=
  match goal with
  | |- keeps (match ?x with _ => _ end) => destruct x
  | |- keeps (modifyAcc _ (actionsPlaced_add _)) => apply keeps_actionsPlaced_add
  | |- keeps (_ ≫= _) => apply keeps_bind; [|intros ?]
  | |- keeps _ => apply keeps_reads; solve [repeat reads_step]
  end.

Ltac run_V :=
  unfold mbind, V_bind, vbind, mret, V_ret, vret, check, defined, getAcc,
    modifyAcc, throw, getGame in *; simpl in *.

Section ValidationFacts.
Context `{Collaborators}.

Lemma reads_parseCoordinates g a0 a1 w : reads (parseCoordinates g a0 a1 w).
Proof. unfold parseCoordinates. repeat reads_step. Qed.

Lemma guarded_validatePillage g team args : guarded team (validatePillage g team args).
Proof. unfold validatePillage. repeat guarded_step. Qed.

Lemma guarded_validateBuildCity g team args : guarded team (validateBuildCity g team args).
Proof. unfold validateBuildCity. repeat guarded_step. Qed.

Lemma guarded_validateBuildUnit a g team args : guarded team (validateBuildUnit a g team args).
Proof.
  unfold validateBuildUnit.
  repeat first [ guarded_step | apply guarded_bind; [apply reads_parseCoordinates|intros ?] ].
Qed.

Lemma guarded_validateMove g team args : guarded team (validateMove g team args).
Proof. unfold validateMove. repeat guarded_step. Qed.

Lemma guarded_validateResearch g team args : guarded team (validateResearch g team args).
Proof.
  unfold validateResearch.
  repeat first [ guarded_step | apply guarded_bind; [apply reads_parseCoordinates|intros ?] ].
Qed.

Lemma guarded_validateTransfer g team args : guarded team (validateTransfer g team args).
Proof. unfold validateTransfer. repeat guarded_step. Qed.

Lemma guarded_validateCommand cmd : guarded (agentID cmd) (validateCommand cmd).
Proof.
  unfold validateCommand.
  destruct (split (command cmd)) as [|action args]; [apply guarded_reads, reads_throw|].
  apply guarded_bind; [apply reads_getGame|intros g].
  destruct (ACTIONS_of_string action) as [[]|];
    auto using guarded_validatePillage, guarded_validateBuildCity,
      guarded_validateBuildUnit, guarded_validateMove,
      guarded_validateResearch, guarded_validateTransfer;
    first [apply guarded_reads, reads_ret | apply guarded_reads, reads_throw].
Qed.


Lemma typed_validateCommand_cases g team args :
  typed (validatePillage g team args)
  /\ typed (validateBuildCity g team args)
  /\ (forall a, typed (validateBuildUnit a g team args))
  /\ typed (validateMove g team args)
  /\ typed (validateResearch g team args)
  /\ typed (validateTransfer g team args).
Proof.
  unfold validatePillage, validateBuildCity, validateBuildUnit, validateMove,
    validateResearch, validateTransfer.
  split_and!; [| |intros a| | |]; repeat typed_step.
Qed.

Lemma keeps_others g team args :
  keeps (validatePillage g team args)
  /\ keeps (validateBuildCity g team args)
  /\ keeps (validateMove g team args)
  /\ keeps (validateResearch g team args)
  /\ keeps (validateTransfer g team args).
Proof.
  unfold validatePillage, validateBuildCity, validateMove,
    validateResearch, validateTransfer.
  split_and!;
    repeat first [ keeps_step
                 | apply keeps_reads, reads_parseCoordinates ].
Qed.

Lemma validateBuildUnit_counted action g team args s :
  action = BUILD_WORKER \/ action = BUILD_CART ->
  counted g team s (validateBuildUnit action g team args s).2.
Proof.
  intros Hact.
  unfold validateBuildUnit, parseCoordinates.
  destruct args as [|a0 [|a1 [|]]]; run_V; try by constructor 1.
  destruct (parseInt a0) as [x|], (parseInt a1) as [y|]; run_V;
    try by constructor 1.
  destruct (inMap (game_map g) (x, y)) eqn:Hin; run_V; try by constructor 1.
  unfold getCell. rewrite Hin. simpl.
  destruct (citytile (cellAt (game_map g) (x, y))) as [tile|]; run_V;
    try by constructor 1.
  repeat (case_bool_decide; run_V; try by constructor 1).
  destruct (canBuildUnit tile); run_V; try by constructor 1.
  destruct Hact as [-> | ->].
  - destruct (workerUnitCapReached g team _) eqn:Hcap; run_V;
      [by constructor 1|].
    constructor 2; unfold pendingWorkers, pendingCarts; simpl;
      rewrite ?per_team_get_set; repeat case_decide; done.
  - destruct (cartUnitCapReached g team _) eqn:Hcap; run_V;
      [by constructor 1|].
    constructor 3; unfold pendingWorkers, pendingCarts; simpl;
      rewrite ?per_team_get_set; repeat case_decide; done.
Qed.

Lemma validateCommand_game cmd s : vs_game (validateCommand cmd s).2 = vs_game s.
Proof. apply guarded_validateCommand. Qed.

Lemma validateCommand_other_team cmd s t :
  t <> agentID cmd ->
  per_team_get (vs_acc (validateCommand cmd s).2) t = per_team_get (vs_acc s) t.
Proof. apply guarded_validateCommand. Qed.

Lemma validateCommand_counted cmd s :
  counted (vs_game s) (agentID cmd) s (validateCommand cmd s).2.
Proof.
  unfold validateCommand.
  destruct (split (command cmd)) as [|action args]; [by constructor 1|].
  unfold mbind at 1, V_bind at 1, vbind at 1, getGame at 1.
  destruct (keeps_others (vs_game s) (agentID cmd) args)
    as (Hp & Hc & Hm & Hr & Ht).
  destruct (ACTIONS_of_string action) as [[]|];
    try (by constructor 1);
    try (apply validateBuildUnit_counted; by auto);
    constructor 1; by first [apply Hp|apply Hc|apply Hm|apply Hr|apply Ht].
Qed.

Lemma within_cap_worker g team n :
  within_cap g team n -> workerUnitCapReached g team n = false ->
  within_cap g team (n + 1).
Proof.
  intros Hn Hcap. apply bool_decide_eq_false in Hcap.
  right. destruct Hn as [->|[? ?]]; lia.
Qed.

Lemma within_cap_cart g team n :
  within_cap g team n -> cartUnitCapReached g team n = false ->
  within_cap g team (n + 1).
Proof.
  intros Hn Hcap. apply bool_decide_eq_false in Hcap.
  right. destruct Hn as [->|[? ?]]; lia.
Qed.

Lemma validateCommands_game cmds s : vs_game (validateCommands cmds s).2 = vs_game s.
Proof.
  revert s. induction cmds as [|cmd rest IH]; intros s; simpl; [done|].
  pose proof (validateCommand_game cmd s) as Hg.
  destruct (validateCommand cmd s) as [out s1]. simpl in Hg.
  specialize (IH s1). destruct (validateCommands rest s1) as [acts s2].
  simpl in *. congruence.
Qed.

Lemma validateCommands_within_cap cmds s team :
  within_cap (vs_game s) team (pendingWorkers s team) ->
  within_cap (vs_game s) team (pendingCarts s team) ->
  within_cap (vs_game s) team (pendingWorkers (validateCommands cmds s).2 team)
  /\ within_cap (vs_game s) team (pendingCarts (validateCommands cmds s).2 team).
Proof.
  revert s. induction cmds as [|cmd rest IH]; intros s Hw Hc; simpl; [done|].
  pose proof (validateCommand_game cmd s) as Hg.
  pose proof (validateCommand_counted cmd s) as Hteam.
  pose proof (validateCommand_other_team cmd s team) as Hother.
  destruct (validateCommand cmd s) as [out s1]. simpl in Hg, Hother, Hteam.
  specialize (IH s1). destruct (validateCommands rest s1) as [acts s2].
  simpl in *. rewrite Hg in IH.
  destruct (decide (team = agentID cmd)) as [->|Hne].
  - apply IH; destruct Hteam as [Ew Ec|Hcap Ew Ec|Hcap Ew Ec];
      rewrite ?Ew, ?Ec; auto using within_cap_worker, within_cap_cart.
  - unfold pendingWorkers, pendingCarts in *. rewrite Hother in IH by done.
    by apply IH.
Qed.

End ValidationFacts.

(** * Theorems about validation *)

Section ValidationTheorems.
Context `{Collaborators}.

Lemma split_cons (s : string) : exists verb args, split s = verb :: args.
Proof.
  induction s as [|c s IH]; simpl; [eauto|].
  destruct (Ascii.eqb c Ascii.Space); [eauto|].
  destruct IH as (v & a & ->). eauto.
Qed.

Lemma ACTIONS_of_string_value (verb : string) (a : ACTIONS) :
  ACTIONS_of_string verb = Some a -> ACTIONS_value a = verb.
Proof.
  unfold ACTIONS_of_string. intros Hf.
  apply List.find_some in Hf as [_ Heq]. by apply String.eqb_eq.
Qed.

(** C9.  A command whose verb is one of the debug-annotation verbs (dc, dx,
    dl, dt, dst) is accepted whatever its remaining tokens are: validation
    returns (no action, [null]) without a check and leaves the state, the
    accumulator included, as it was.  Every other command that is accepted
    returns a typed action. *)
Theorem debug_annotations_bypass_validation (cmd : Command) (s : VState) :
  let verb := hd ""%string (split (command cmd)) in
  (verb ∈ debug_verbs -> validateCommand cmd s = (Returned None, s))
  /\ (verb ∉ debug_verbs ->
      forall r, (validateCommand cmd s).1 = Returned r -> exists a, r = Some a).
Proof.
  simpl. unfold validateCommand.
  destruct (split_cons (command cmd)) as (verb & args & ->). simpl.
  split.
  - unfold debug_verbs. rewrite !elem_of_cons, elem_of_nil.
    intros [->|[->|[->|[->|[->|[]]]]]]; reflexivity.
  - intros Hverb r.
    unfold mbind at 1, V_bind at 1, vbind at 1, getGame at 1.
    destruct (typed_validateCommand_cases (vs_game s) (agentID cmd) args)
      as (Hp & Hc & Hb & Hm & Hr & Ht).
    destruct (ACTIONS_of_string verb) as [a|] eqn:Ha; [|done].
    apply ACTIONS_of_string_value in Ha.
    destruct a; simpl in Ha; subst verb;
      try (exfalso; apply Hverb; unfold debug_verbs; set_solver);
      intros Hret;
      [ apply Hm in Hret | apply Hr in Hret | apply Hb in Hret
      | apply Hb in Hret | apply Hc in Hret | apply Ht in Hret
      | apply Hp in Hret ];
      destruct Hret as [a ->]; eauto.
Qed.

(** C8.  Validation of a command changes nothing of the game (map, resource
    nodes, units, cities, team states, stats, id counters); of the
    accumulator it changes at most the entry of the command's team, and when
    the command is rejected (the call throws) it changes nothing at all. *)
Theorem validateCommand_mutates_accumulator_only (cmd : Command) (s : VState) :
  vs_game (validateCommand cmd s).2 = vs_game s
  /\ (forall t, t <> agentID cmd ->
        per_team_get (vs_acc (validateCommand cmd s).2) t
        = per_team_get (vs_acc s) t)
  /\ (forall e, (validateCommand cmd s).1 = Thrown e ->
        vs_acc (validateCommand cmd s).2 = vs_acc s).
Proof.
  destruct (guarded_validateCommand cmd s) as (Hg & Ht & He).
  split_and!; [done..|]. intros e Hthrown. by rewrite (He e Hthrown).
Qed.

Lemma build_rejected_iff (cmd : Command) (s : VState) :
  reaches_cap_check cmd s ->
  one_kind_pending cmd s ->
  (exists e, (validateCommand cmd s).1 = Thrown e)
  <-> (teamUnitsSize (vs_game s) (agentID cmd)
       + (pendingWorkers s (agentID cmd) + pendingCarts s (agentID cmd))
       >= teamCityTilesCount (vs_game s) (agentID cmd))%Z.
Proof.
  intros (verb & a0 & a1 & x & y & tile & Hsplit & Hverb & Hx & Hy & Hin
          & Htile & Hteam & Hid & Hcan) Hkind.
  unfold one_kind_pending in Hkind. rewrite Hsplit in Hkind. simpl in Hkind.
  unfold validateCommand. rewrite Hsplit.
  unfold mbind at 1, V_bind at 1, vbind at 1, getGame at 1.
  assert (forall action, action = BUILD_WORKER \/ action = BUILD_CART ->
    validateBuildUnit action (vs_game s) (agentID cmd) [a0; a1] s
    = (match action with
       | BUILD_CART =>
           check (cartUnitCapReached (vs_game s) (agentID cmd)
                    (pendingCarts s (agentID cmd))) CartUnitCapReached
       | _ =>
           check (workerUnitCapReached (vs_game s) (agentID cmd)
                    (pendingWorkers s (agentID cmd))) WorkerUnitCapReached
       end ≫= fun _ =>
       modifyAcc (agentID cmd) (actionsPlaced_add (getTileID (x, y) tile)) ≫= fun _ =>
       match action with
       | BUILD_CART =>
           modifyAcc (agentID cmd) cartsBuilt_incr ≫= fun _ =>
           mret (Some (SpawnCartAction (agentID cmd) x y))
       | _ =>
           modifyAcc (agentID cmd) workersBuilt_incr ≫= fun _ =>
           mret (Some (SpawnWorkerAction (agentID cmd) x y))
       end) s) as Hbuild.
  { intros action Hact. unfold validateBuildUnit, parseCoordinates.
    rewrite Hx, Hy. run_V. rewrite Hin. simpl. unfold getCell. rewrite Hin.
    simpl. rewrite Htile. rewrite bool_decide_eq_true_2 by done. simpl.
    rewrite bool_decide_eq_false_2 by done. simpl. rewrite Hcan. simpl.
    by destruct Hact as [-> | ->]. }
  destruct Hverb as [-> | ->];
    destruct Hkind as [[Hv Hzero]|[Hv Hzero]]; try done; rewrite Hzero.
  - change (ACTIONS_of_string "bw") with (Some BUILD_WORKER). cbv beta iota.
    rewrite (Hbuild BUILD_WORKER) by auto. run_V.
    unfold workerUnitCapReached. case_bool_decide; simpl.
    + split; [intros _; lia|eauto].
    + split; [by intros [e ?]|lia].
  - change (ACTIONS_of_string "bc") with (Some BUILD_CART). cbv beta iota.
    rewrite (Hbuild BUILD_CART) by auto. run_V.
    unfold cartUnitCapReached. case_bool_decide; simpl.
    + split; [intros _; lia|eauto].
    + split; [by intros [e ?]|lia].
Qed.

(** C1 (amended).  While the builds pending for a team in the turn are all of
    the kind a build command asks for, the command, once past the earlier
    checks, is rejected if and only if the team's live units plus all its
    pending builds are at or above its city tiles.  And whatever one team's
    commands of a turn are, if the builds accepted were all workers or all
    carts, then either none was accepted or the live units plus the accepted
    builds are at most the city tiles: they may reach that count and do not
    pass it. *)
Theorem unit_cap_pool_of_one_kind :
  (forall (cmd : Command) (s : VState),
     reaches_cap_check cmd s ->
     one_kind_pending cmd s ->
     (exists e, (validateCommand cmd s).1 = Thrown e)
     <-> (teamUnitsSize (vs_game s) (agentID cmd)
          + (pendingWorkers s (agentID cmd) + pendingCarts s (agentID cmd))
          >= teamCityTilesCount (vs_game s) (agentID cmd))%Z)
  /\ (forall (cmds : list Command) (g : Game) (team : TEAM),
        let s' :=
          (validateCommands cmds
             (mkVState g _genInitialAccumulatedActionStats)).2 in
        pendingWorkers s' team = 0%Z \/ pendingCarts s' team = 0%Z ->
        (pendingWorkers s' team + pendingCarts s' team = 0
         \/ teamUnitsSize g team
            + (pendingWorkers s' team + pendingCarts s' team)
            <= teamCityTilesCount g team)%Z).
Proof.
  split; [apply build_rejected_iff|].
  intros cmds g team s' Hkind.
  destruct (validateCommands_within_cap cmds
              (mkVState g _genInitialAccumulatedActionStats) team)
    as [Hw Hc]; [by left; destruct team..|].
  fold s' in Hw, Hc. simpl in Hw, Hc. unfold within_cap in *.
  destruct Hkind as [E|E]; rewrite E in *; lia.
Qed.

End ValidationTheorems.

Section ValidationScenarios.
#[local] Existing Instance Scenario.collaborators.
Import Scenario.

(** C1, counterexample.  With two city tiles and one live unit, "bw 0 0" is
    accepted; then the live unit and the pending build together reach the two
    city tiles, and still "bc 2 0" is accepted, after which the live unit and
    the accepted builds (three) exceed the city tiles. *)
Lemma shared_cap_pool_counterexample :
  let g := two_tiles_one_worker in
  let r1 := validateCommand (mkCommand TEAM_A "bw 0 0") (fresh g) in
  let r2 := validateCommand (mkCommand TEAM_A "bc 2 0") r1.2 in
  r1.1 = Returned (Some (SpawnWorkerAction TEAM_A 0 0))
  /\ (teamUnitsSize g TEAM_A
      + (pendingWorkers r1.2 TEAM_A + pendingCarts r1.2 TEAM_A)
      >= teamCityTilesCount g TEAM_A)%Z
  /\ r2.1 = Returned (Some (SpawnCartAction TEAM_A 2 0))
  /\ (teamUnitsSize g TEAM_A
      + (pendingWorkers r2.2 TEAM_A + pendingCarts r2.2 TEAM_A)
      > teamCityTilesCount g TEAM_A)%Z.
Proof. vm_compute. split_and!; congruence. Qed.

Lemma unit_cap_pool_of_one_kind_witness :
  let g := two_tiles_one_worker in
  let s1 := (validateCommand (mkCommand TEAM_A "bw 0 0") (fresh g)).2 in
  (exists e, (validateCommand (mkCommand TEAM_A "bw 2 0") s1).1 = Thrown e)
  /\ (teamUnitsSize g TEAM_A
      + (pendingWorkers
           (validateCommands
              [mkCommand TEAM_A "bw 0 0"; mkCommand TEAM_A "bw 2 0"]
              (fresh g)).2 TEAM_A
         + pendingCarts
             (validateCommands
                [mkCommand TEAM_A "bw 0 0"; mkCommand TEAM_A "bw 2 0"]
                (fresh g)).2 TEAM_A)
      <= teamCityTilesCount g TEAM_A)%Z.
Proof.
  intros g s1. split.
  - apply (proj1 unit_cap_pool_of_one_kind (mkCommand TEAM_A "bw 2 0") s1).
    + exists "bw"%string, "2"%string, "0"%string, 2%Z, 0%Z,
        (mkCityTile TEAM_A "c_2" 0 0).
      split_and!; try (vm_compute; done). by left.
    + left. by vm_compute.
    + by vm_compute.
  - destruct (proj2 unit_cap_pool_of_one_kind
                [mkCommand TEAM_A "bw 0 0"; mkCommand TEAM_A "bw 2 0"]
                g TEAM_A) as [Hnone|Hle].
    + right. by vm_compute.
    + by vm_compute in Hnone.
    + exact Hle.
Defined.
Lemma debug_annotations_bypass_validation_witness :
  validateCommand (mkCommand TEAM_B "dl 0 0 not a number")
    (fresh two_tiles_one_worker)
  = (Returned None, fresh two_tiles_one_worker).
Proof.
  apply (proj1 (debug_annotations_bypass_validation
                  (mkCommand TEAM_B "dl 0 0 not a number")
                  (fresh two_tiles_one_worker))).
  vm_compute. set_solver.
Defined.

Lemma validateCommand_mutates_accumulator_only_witness :
  vs_acc (validateCommand (mkCommand TEAM_A "bw 9 9")
            (fresh two_tiles_one_worker)).2
  = _genInitialAccumulatedActionStats.
Proof.
  apply (proj2 (proj2 (validateCommand_mutates_accumulator_only
                         (mkCommand TEAM_A "bw 9 9")
                         (fresh two_tiles_one_worker)))
           (MatchWarn BuildUnitInvalidCoordinates)).
  by vm_compute.
Defined.

End ValidationScenarios.

(** * Facts about cities *)

(** ** The grid *)

Lemma elem_of_getAdjacentCells m p q :
  q ∈ getAdjacentCells m p
  <-> inMap m q = true
      /\ (q = translate p NORTH \/ q = translate p EAST
          \/ q = translate p SOUTH \/ q = translate p WEST).
Proof.
  unfold getAdjacentCells. rewrite list_elem_of_filter.
  rewrite !elem_of_cons, elem_of_nil. tauto.
Qed.

Lemma getAdjacentCells_inMap m p q : q ∈ getAdjacentCells m p -> inMap m q = true.
Proof. rewrite elem_of_getAdjacentCells. tauto. Qed.

Lemma getAdjacentCells_NoDup m p : NoDup (getAdjacentCells m p).
Proof.
  unfold getAdjacentCells. apply NoDup_filter.
  destruct p as [x y]. unfold translate. simpl.
  repeat constructor; rewrite ?elem_of_cons, ?elem_of_nil;
    intros Hin; repeat destruct Hin as [Hin|Hin]; try done;
    injection Hin; lia.
Qed.

Lemma getAdjacentCells_sym m p q :
  inMap m p = true -> q ∈ getAdjacentCells m p -> p ∈ getAdjacentCells m q.
Proof.
  rewrite !elem_of_getAdjacentCells. intros Hp [Hq Hdir].
  split; [done|]. destruct p as [x y], q as [x' y']. unfold translate in *.
  simpl in *.
  destruct Hdir as [E|[E|[E|E]]]; injection E as -> ->.
  - right; right; left. f_equal; lia.
  - right; right; right. f_equal; lia.
  - left. f_equal; lia.
  - right; left. f_equal; lia.
Qed.

Lemma getAdjacentCells_irrefl m p : p ∉ getAdjacentCells m p.
Proof.
  rewrite elem_of_getAdjacentCells. intros [_ Hdir].
  destruct p as [x y]. unfold translate in Hdir. simpl in Hdir.
  destruct Hdir as [E|[E|[E|E]]]; injection E; lia.
Qed.

Lemma getAdjacentCells_dims m m' p :
  width m = width m' -> height m = height m' ->
  getAdjacentCells m p = getAdjacentCells m' p.
Proof.
  intros Hw Hh. unfold getAdjacentCells.
  apply list_filter_iff. intros q. unfold inMap. by rewrite Hw, Hh.
Qed.

Lemma inMap_dims m m' p :
  width m = width m' -> height m = height m' -> inMap m p = inMap m' p.
Proof. intros Hw Hh. unfold inMap. by rewrite Hw, Hh. Qed.

Lemma cellAt_setCell m p c : cellAt (setCell m p c) p = c.
Proof. unfold cellAt, setCell. simpl. apply lookup_total_insert_eq. Qed.

Lemma cellAt_setCell_ne m p q c : p <> q -> cellAt (setCell m p c) q = cellAt m q.
Proof. intros. unfold cellAt, setCell. simpl. by apply lookup_total_insert_ne. Qed.

(** ** The loops over cells *)

Lemma alterCityTile_Some f m p t :
  tileAt m p = Some t ->
  alterCityTile f m p
  = Some (setCell m p (set_citytile (cellAt m p) (Some (f t)))).
Proof. unfold tileAt, alterCityTile. intros ->. done. Qed.

(** One assignment for each cell of a list without repetition, each cell
    carrying a tile. *)
Lemma forEach_alterCityTile f l m :
  NoDup l ->
  (forall q, q ∈ l -> is_Some (tileAt m q)) ->
  exists m',
    forEach (alterCityTile f) l m = Some m'
    /\ same_dims m m'
    /\ forall q,
         cellAt m' q
         = if decide (q ∈ l)
           then set_citytile (cellAt m q) (f <$> tileAt m q)
           else cellAt m q.
Proof.
  revert m. induction l as [|p l IH]; intros m Hnd Htiles.
  { exists m. split_and!; [done|done|]. intros q. by rewrite decide_False by set_solver. }
  apply NoDup_cons in Hnd as [Hp Hnd].
  destruct (Htiles p) as [t Ht]; [set_solver|].
  cbn [forEach]. rewrite (alterCityTile_Some _ _ _ _ Ht). simpl.
  set (m1 := setCell m p _).
  destruct (IH m1 Hnd) as (m' & Hrun & [Hw Hh] & Hcells).
  { intros q Hq. unfold tileAt, m1. rewrite cellAt_setCell_ne by set_solver.
    apply Htiles. set_solver. }
  exists m'. split_and!; [done|by split|].
  intros q. rewrite Hcells.
  destruct (decide (q = p)) as [->|Hne].
  - rewrite decide_False by done. rewrite decide_True by set_solver.
    unfold m1. rewrite cellAt_setCell. unfold tileAt in *. by rewrite Ht.
  - unfold m1, tileAt. rewrite !cellAt_setCell_ne by done.
    destruct (decide (q ∈ l)); [by rewrite decide_True by set_solver|].
    by rewrite decide_False by set_solver.
Qed.

Lemma same_frame_refl g : same_frame g g.
Proof. by repeat split. Qed.

Lemma same_frame_trans g1 g2 g3 :
  same_frame g1 g2 -> same_frame g2 g3 -> same_frame g1 g3.
Proof.
  unfold same_frame. intros (?&?&?&?&?) (?&?&?&?&?). split_and!; congruence.
Qed.

Lemma relinked_idemp s c : relinked s (relinked s c) = relinked s c.
Proof. unfold relinked. by destruct c as [r [t|] u rd]. Qed.

Lemma absorbCell_Some s g p t :
  tileAt (game_map g) p = Some t ->
  absorbCell s g p
  = Some (set_cities
            (set_game_map g
               (setCell (game_map g) p
                  (set_citytile (cellAt (game_map g) p) (Some (set_cityid s t)))))
            (alter (fun city => addCityTile city p) s (cities g))).
Proof. intros Ht. unfold absorbCell. by rewrite (alterCityTile_Some _ _ _ _ Ht). Qed.

Lemma forEach_absorbCell s l g :
  (forall q, q ∈ l -> is_Some (tileAt (game_map g) q)) ->
  exists g',
    forEach (absorbCell s) l g = Some g'
    /\ same_dims (game_map g) (game_map g')
    /\ same_frame g g'
    /\ (forall q,
          cellAt (game_map g') q
          = if decide (q ∈ l) then relinked s (cellAt (game_map g) q)
            else cellAt (game_map g) q)
    /\ cities g' = alter (with_cells l) s (cities g).
Proof.
  revert g. induction l as [|p l IH]; intros g Htiles.
  { exists g. split_and!; [done|done|apply same_frame_refl| |].
    - intros q. by rewrite decide_False by set_solver.
    - symmetry. apply map_eq. intros k.
      destruct (decide (s = k)) as [<-|Hne];
        [rewrite lookup_alter_eq|by rewrite lookup_alter_ne].
      destruct (cities g !! s) as [c|]; [|done].
      simpl. unfold with_cells. rewrite app_nil_r. by destruct c. }
  destruct (Htiles p) as [t Ht]; [set_solver|].
  cbn [forEach]. rewrite (absorbCell_Some _ _ _ _ Ht). simpl.
  set (g1 := set_cities _ _).
  destruct (IH g1) as (g' & Hrun & Hdims & Hframe & Hcells & Hcities).
  { intros q Hq. unfold g1, tileAt. simpl.
    destruct (decide (q = p)) as [->|Hne].
    - rewrite cellAt_setCell. done.
    - rewrite cellAt_setCell_ne by done. apply Htiles. set_solver. }
  exists g'. split_and!; [done|done|done| |].
  - intros q. rewrite Hcells. unfold g1. simpl.
    destruct (decide (q = p)) as [->|Hne].
    + rewrite cellAt_setCell. rewrite (decide_True (P := p ∈ p :: l)) by set_solver.
      assert (set_citytile (cellAt (game_map g) p) (Some (set_cityid s t))
              = relinked s (cellAt (game_map g) p)) as ->.
      { unfold relinked. unfold tileAt in Ht. by rewrite Ht. }
      case_decide; [apply relinked_idemp|done].
    + rewrite cellAt_setCell_ne by done.
      destruct (decide (q ∈ l)); [by rewrite decide_True by set_solver|].
      by rewrite decide_False by set_solver.
  - rewrite Hcities. unfold g1. simpl.
    apply map_eq. intros k.
    destruct (decide (s = k)) as [<-|Hne];
      [rewrite !lookup_alter_eq|by rewrite !lookup_alter_ne].
    destruct (cities g !! s) as [c|]; [|done]. simpl.
    unfold with_cells, addCityTile. simpl. by rewrite <- app_assoc.
Qed.

Lemma mergeCity_other s g id old :
  id <> s ->
  cities g !! id = Some old ->
  (forall q, q ∈ citycells old -> is_Some (tileAt (game_map g) q)) ->
  exists g',
    mergeCity s g id = Some g'
    /\ same_dims (game_map g) (game_map g')
    /\ same_frame g g'
    /\ (forall q,
          cellAt (game_map g') q
          = if decide (q ∈ citycells old) then relinked s (cellAt (game_map g) q)
            else cellAt (game_map g) q)
    /\ cities g' = delete (city_id old) (alter (absorbing old) s (cities g)).
Proof.
  intros Hne Hold Htiles. unfold mergeCity. rewrite decide_False by done.
  rewrite Hold. simpl.
  destruct (forEach_absorbCell s (citycells old) g Htiles)
    as (g1 & -> & Hdims & Hframe & Hcells & Hcities).
  simpl. eexists. split_and!; [done|done|done|done|].
  simpl. rewrite Hcities. f_equal.
  apply map_eq. intros k.
  destruct (decide (s = k)) as [<-|Hne'];
    [rewrite !lookup_alter_eq|by rewrite !lookup_alter_ne].
  by destruct (cities g !! s).
Qed.

Lemma absorbedCities_ext cs cs' s ids :
  (forall id, id ∈ ids -> id <> s -> cs' !! id = cs !! id) ->
  absorbedCities cs' s ids = absorbedCities cs s ids.
Proof.
  induction ids as [|id ids IH]; intros Hext; [done|].
  unfold absorbedCities in *. cbn [omap list_omap].
  rewrite IH by (intros; apply Hext; set_solver).
  destruct (decide (id = s)); [done|].
  rewrite Hext by set_solver. done.
Qed.

Lemma absorbedCities_cons cs s id ids :
  absorbedCities cs s (id :: ids)
  = (if decide (id = s) then [] else option_list (cs !! id))
    ++ absorbedCities cs s ids.
Proof.
  unfold absorbedCities. cbn [omap list_omap].
  destruct (decide (id = s)); [done|]. by destruct (cs !! id).
Qed.

Lemma relinked_is_Some s c : is_Some (citytile c) -> is_Some (citytile (relinked s c)).
Proof. intros [t Ht]. unfold relinked. rewrite Ht. simpl. eauto. Qed.

Lemma forEach_mergeCity s ids g :
  NoDup ids ->
  (forall id, id ∈ ids -> id <> s ->
     exists old,
       cities g !! id = Some old /\ city_id old = id
       /\ forall q, q ∈ citycells old -> is_Some (tileAt (game_map g) q)) ->
  let olds := absorbedCities (cities g) s ids in
  exists g',
    forEach (mergeCity s) ids g = Some g'
    /\ same_dims (game_map g) (game_map g')
    /\ same_frame g g'
    /\ (forall q,
          cellAt (game_map g') q
          = if decide (q ∈ olds ≫= citycells)
            then relinked s (cellAt (game_map g) q)
            else cellAt (game_map g) q)
    /\ cities g' !! s = absorbingAll olds <$> cities g !! s
    /\ (forall id, id ∈ ids -> id <> s -> cities g' !! id = None)
    /\ (forall k, k <> s -> k ∉ ids -> cities g' !! k = cities g !! k).
Proof.
  revert g. induction ids as [|id ids IH]; intros g Hnd Hreg olds.
  { exists g. split_and!; [done|done|apply same_frame_refl| | | |].
    - intros q. case_decide as Hin; [|done]. unfold olds in Hin. simpl in Hin.
      by apply elem_of_nil in Hin.
    - unfold olds. simpl. by destruct (cities g !! s).
    - set_solver.
    - done. }
  apply NoDup_cons in Hnd as [Hid Hnd].
  cbn [forEach].
  destruct (decide (id = s)) as [->|Hne].
  - (* the survivor itself: skipped *)
    assert (mergeCity s g s = Some g) as -> by (unfold mergeCity; by rewrite decide_True).
    simpl.
    destruct (IH g Hnd) as (g' & Hrun & Hdims & Hframe & Hcells & Hs & Hgone & Hkeep).
    { intros id' Hin. apply Hreg. set_solver. }
    assert (olds = absorbedCities (cities g) s ids) as Holds.
    { unfold olds, absorbedCities. simpl. by rewrite decide_True. }
    rewrite Holds. exists g'. split_and!; try done.
    + intros id' Hin Hne'. apply Hgone; [set_solver|done].
    + intros k Hk Hnin. apply Hkeep; [done|set_solver].
  - destruct (Hreg id) as (old & Hold & Hidold & Htiles); [set_solver|done|].
    destruct (mergeCity_other s g id old Hne Hold Htiles)
      as (g1 & -> & Hdims1 & Hframe1 & Hcells1 & Hcities1).
    simpl.
    assert (forall k, k <> s -> k <> id -> cities g1 !! k = cities g !! k) as Hkeep1.
    { intros k Hks Hkid. rewrite Hcities1, Hidold.
      rewrite lookup_delete_ne by done. by rewrite lookup_alter_ne. }
    destruct (IH g1 Hnd) as (g' & Hrun & Hdims & Hframe & Hcells & Hs & Hgone & Hkeep).
    { intros id' Hin Hne'.
      destruct (Hreg id') as (old' & Hold' & Hidold' & Htiles'); [set_solver|done|].
      exists old'. split_and!; [|done|].
      - rewrite Hkeep1; [done|done|]. intros ->. done.
      - intros q Hq. unfold tileAt. rewrite Hcells1.
        case_decide; [apply relinked_is_Some|]; by apply Htiles'. }
    assert (absorbedCities (cities g1) s ids = absorbedCities (cities g) s ids)
      as Holds1.
    { apply absorbedCities_ext. intros id' Hin Hne'. apply Hkeep1; [done|].
      intros ->. done. }
    rewrite Holds1 in Hcells, Hs.
    assert (olds = old :: absorbedCities (cities g) s ids) as Holds.
    { unfold olds. rewrite absorbedCities_cons, decide_False by done.
      by rewrite Hold. }
    rewrite Holds.
    exists g'. split; [done|].
    split; [destruct Hdims1, Hdims; split; congruence|].
    split; [by eapply same_frame_trans|].
    split; [|split; [|split]].
    + intros q. rewrite Hcells, Hcells1. cbn [mbind list_bind].
      destruct (decide (q ∈ citycells old)) as [Hq|Hq].
      * rewrite (decide_True (P := q ∈ _ ++ _)) by set_solver.
        case_decide; [apply relinked_idemp|done].
      * destruct (decide (q ∈ absorbedCities (cities g) s ids ≫= citycells));
          [by rewrite decide_True by set_solver|].
        by rewrite decide_False by set_solver.
    + rewrite Hs, Hcities1, Hidold.
      rewrite lookup_delete_ne by done. rewrite lookup_alter_eq.
      by destruct (cities g !! s).
    + intros id' Hin Hne'. apply elem_of_cons in Hin as [->|Hin].
      * rewrite Hkeep by done. rewrite Hcities1, Hidold.
        apply lookup_delete_eq.
      * by apply Hgone.
    + intros k Hks Hnin. rewrite Hkeep by set_solver.
      apply Hkeep1; [done|set_solver].
Qed.

(** ** Well-formed cities *)

Lemma Set_add_elem s id x : x ∈ Set_add s id <-> x ∈ s \/ x = id.
Proof. unfold Set_add. case_decide; set_solver. Qed.

Lemma Set_add_NoDup s id : NoDup s -> NoDup (Set_add s id).
Proof.
  intros Hnd. unfold Set_add. case_decide; [done|].
  apply NoDup_app. split_and!; [done|set_solver|apply NoDup_singleton].
Qed.

Lemma idsFound_gen m l acc x :
  x ∈ foldl (fun s q => Set_add s (cityid_at m q)) acc l
  <-> x ∈ acc \/ exists q, q ∈ l /\ cityid_at m q = x.
Proof.
  revert acc. induction l as [|q l IH]; intros acc; simpl.
  - split; [auto|]. intros [?|(q & Hq & _)]; [done|]. by apply elem_of_nil in Hq.
  - rewrite IH, Set_add_elem. split.
    + intros [[?| ->]|(q' & Hq' & <-)]; [by left| |].
      * right. exists q. split; [set_solver|done].
      * right. exists q'. split; [set_solver|done].
    + intros [?|(q' & Hq' & <-)]; [by left; left|].
      apply elem_of_cons in Hq' as [->|Hq']; [left; by right|].
      right. by exists q'.
Qed.

Lemma elem_of_idsFound m l x :
  x ∈ idsFound m l <-> exists q, q ∈ l /\ cityid_at m q = x.
Proof.
  unfold idsFound. rewrite idsFound_gen. split; [|by right].
  intros [Hx|?]; [|done]. by apply elem_of_nil in Hx.
Qed.

Lemma idsFound_NoDup_gen m l acc :
  NoDup acc -> NoDup (foldl (fun s q => Set_add s (cityid_at m q)) acc l).
Proof.
  revert acc. induction l as [|q l IH]; intros acc Hnd; simpl; [done|].
  by apply IH, Set_add_NoDup.
Qed.

Lemma idsFound_NoDup m l : NoDup (idsFound m l).
Proof. apply idsFound_NoDup_gen. constructor. Qed.

Lemma idsFound_hd m q l : hd_error (idsFound m (q :: l)) = Some (cityid_at m q).
Proof.
  unfold idsFound. simpl.
  assert (forall acc x, hd_error acc = Some x ->
            hd_error (foldl (fun s q => Set_add s (cityid_at m q)) acc l) = Some x)
    as Hgen.
  { induction l as [|q' l IH]; intros acc x Hacc; simpl; [done|].
    apply IH. unfold Set_add. case_decide; [done|].
    by destruct acc. }
  by apply Hgen.
Qed.

Lemma cityName_inj (n n' : Z) : "c_" +:+ pretty n = "c_" +:+ pretty n' -> n = n'.
Proof. intros Heq. by apply (inj pretty), (inj (String.append "c_")). Qed.

Lemma tileAt_sameTeam m team q :
  sameTeamCityTile m team q = true
  <-> exists t, tileAt m q = Some t /\ ct_team t = team.
Proof.
  unfold sameTeamCityTile, tileAt. destruct (citytile (cellAt m q)) as [t|].
  - rewrite bool_decide_eq_true. split; [eauto|]. by intros (? & [= <-] & ?).
  - split; [done|]. by intros (? & ? & ?).
Qed.

Lemma elem_of_adjSameTeam m team p q :
  q ∈ adjSameTeam m team p
  <-> q ∈ getAdjacentCells m p
      /\ exists t, tileAt m q = Some t /\ ct_team t = team.
Proof. unfold adjSameTeam. by rewrite list_elem_of_filter, tileAt_sameTeam, (comm and). Qed.

Lemma adjSameTeam_NoDup m team p : NoDup (adjSameTeam m team p).
Proof. apply NoDup_filter, getAdjacentCells_NoDup. Qed.

Lemma cityid_at_tile m q t : tileAt m q = Some t -> cityid_at m q = cityid t.
Proof. unfold tileAt, cityid_at. by intros ->. Qed.

Lemma retile_id s t : retile s [] false t = t.
Proof.
  unfold retile. rewrite decide_False by set_solver.
  destruct t. simpl. f_equal. lia.
Qed.

(** The cells of the cities absorbed are the cells whose tile carries one of
    the ids found, the survivor's apart. *)
Lemma elem_of_absorbed_cells g s ids q t :
  CityInv g -> tileAt (game_map g) q = Some t ->
  q ∈ absorbedCities (cities g) s ids ≫= citycells
  <-> cityid t ∈ ids /\ cityid t <> s.
Proof.
  intros Hinv Ht. rewrite list_elem_of_bind. unfold absorbedCities.
  setoid_rewrite list_elem_of_omap. split.
  - intros (old & Hq & id & Hid & Hold).
    destruct (decide (id = s)); [done|].
    destruct (inv_cells g Hinv id old Hold) as (_ & _ & _ & Hcells).
    destruct (Hcells q Hq) as (t' & Ht' & <-).
    rewrite Ht in Ht'. injection Ht' as <-. done.
  - intros [Hin Hne].
    destruct (inv_registered g Hinv q t Ht) as (c & Hc & _ & Hq).
    exists c. split; [done|]. exists (cityid t). split; [done|].
    by rewrite decide_False.
Qed.

Lemma getCell_inMap m p : inMap m p = true -> getCell m p.1 p.2 = Some (cellAt m p).
Proof. destruct p as [x y]. unfold getCell. simpl. by intros ->. Qed.

(** On a well-formed game, a tile placed on a free cell of the map without
    an id of the caller's: the call returns, and the game is as [Spawned]
    says. *)
Lemma spawnCityTile_Spawned g team p :
  CityInv g -> inMap (game_map g) p = true -> tileAt (game_map g) p = None ->
  exists g' s,
    spawnCityTile g team p.1 p.2 None = Some g' /\ Spawned g team p s g'.
Proof.
  intros Hinv Hin Hfree. unfold spawnCityTile.
  rewrite (getCell_inMap _ _ Hin). cbn [mbind option_bind].
  replace (p.1, p.2) with p by by destruct p.
  change (filter (fun q => sameTeamCityTile (game_map g) team q = true)
            (getAdjacentCells (game_map g) p))
    with (adjSameTeam (game_map g) team p).
  change (foldl (fun s q => Set_add s (cityid_at (game_map g) q)) []
            (adjSameTeam (game_map g) team p))
    with (idsFound (game_map g) (adjSameTeam (game_map g) team p)).
  destruct (adjSameTeam (game_map g) team p) as [|first rest] eqn:Hadj.
  - (* no neighbour of the team: a new city *)
    set (s := "c_" +:+ pretty (globalCityIDCount g + 1)%Z).
    assert (cities g !! s = None) as Hnew.
    { destruct (cities g !! s) eqn:Hs; [|done].
      destruct (inv_fresh g Hinv s) as (n & Hn & Hle); [by rewrite Hs|].
      apply cityName_inj in Hn. lia. }
    eexists _, s. split; [reflexivity|].
    unfold Spawned. rewrite Hadj. cbn [idsFound foldl length].
    split; [done|]. split; [|split; [|split; [|split]]].
    + unfold tileAt. cbn. by rewrite cellAt_setCell.
    + intros q Hq. unfold tileAt. cbn. rewrite cellAt_setCell_ne by done.
      rewrite bool_decide_eq_false_2 by set_solver.
      destruct (citytile (cellAt (game_map g) q)) as [t|]; [|done].
      simpl. by rewrite retile_id.
    + exists (City_new team (globalCityIDCount g + 1)).
      split; [|split; [done|split; [done|]]].
      * cbn. by rewrite lookup_insert_eq.
      * left. done.
    + intros id Hid. by apply elem_of_nil in Hid.
    + intros k Hk _. cbn. by rewrite lookup_insert_ne.
  - (* neighbours of the team: the city of the first one takes the tile *)
    assert (first ∈ adjSameTeam (game_map g) team p) as Hfirst
      by (rewrite Hadj; set_solver).
    apply elem_of_adjSameTeam in Hfirst as (Hfadj & t0 & Ht0 & Hteam0).
    rewrite <- Hadj.
    set (adj := adjSameTeam (game_map g) team p) in *.
    set (s := cityid_at (game_map g) first).
    assert (s = cityid t0) as Hs by by apply cityid_at_tile.
    destruct (inv_registered g Hinv first t0 Ht0) as (city0 & Hcity0 & Hcteam & _).
    rewrite <- Hs in Hcity0.
    set (m1 := setCell (game_map g) p (setCityTile (cellAt (game_map g) p) team s)).
    assert (tileAt m1 p = Some (mkCityTile team s 0 0)) as Ht1
      by (unfold tileAt, m1; by rewrite cellAt_setCell).
    rewrite (alterCityTile_Some _ _ _ _ Ht1). cbn [mbind option_bind].
    set (m2 := setCell m1 p _).
    assert (forall q, q ∈ adj -> q <> p) as Hadjp.
    { intros q Hq ->. apply elem_of_adjSameTeam in Hq as [Hq _].
      by apply getAdjacentCells_irrefl in Hq. }
    assert (forall q, q <> p -> cellAt m2 q = cellAt (game_map g) q) as Hm2.
    { intros q Hq. unfold m2, m1. by rewrite !cellAt_setCell_ne. }
    destruct (forEach_alterCityTile incr_adjacentCityTiles adj m2)
      as (m3 & -> & Hdims3 & Hm3); [apply adjSameTeam_NoDup| |].
    { intros q Hq.
      assert (tileAt m2 q = tileAt (game_map g) q) as ->
        by (unfold tileAt; rewrite Hm2; [done|by apply Hadjp]).
      apply elem_of_adjSameTeam in Hq as (_ & t & Ht & _). rewrite Ht. eauto. }
    cbn [mbind option_bind]. rewrite Hcity0. cbn [mbind option_bind].
    set (g1 := set_cities _ _).
    assert (forall q, is_Some (tileAt (game_map g) q) ->
              is_Some (tileAt (game_map g1) q)) as Hkept.
    { intros q [t Ht]. unfold tileAt, g1. cbn [game_map cities set_cities set_game_map]. rewrite Hm3. unfold tileAt in *.
      destruct (decide (q = p)) as [->|Hq]; [congruence|].
      rewrite Hm2 by done.
      case_decide; simpl; rewrite Ht; eauto. }
    set (ids := idsFound (game_map g) adj).
    assert (forall id, id ∈ ids -> id <> s ->
              exists old, cities g !! id = Some old /\ city_id old = id
                /\ forall q, q ∈ citycells old -> is_Some (tileAt (game_map g) q))
      as Hreg.
    { intros id Hid Hne. apply elem_of_idsFound in Hid as (q & Hq & <-).
      apply elem_of_adjSameTeam in Hq as (_ & t & Ht & _).
      rewrite (cityid_at_tile _ _ _ Ht).
      destruct (inv_registered g Hinv q t Ht) as (old & Hold & _ & _).
      destruct (inv_cells g Hinv _ old Hold) as (Hidold & _ & _ & Hcells).
      exists old. split_and!; [done|done|].
      intros q' Hq'. destruct (Hcells q' Hq') as (t' & -> & _). eauto. }
    destruct (forEach_mergeCity s ids g1 (idsFound_NoDup _ _))
      as (g' & Hrun & Hdims & Hframe & Hcells & Hsurv & Hgone & Hkeep).
    { intros id Hid Hne. destruct (Hreg id Hid Hne) as (old & Hold & ? & Htiles).
      exists old. split_and!; [|done|].
      - unfold g1. cbn [game_map cities set_cities set_game_map]. by rewrite lookup_insert_ne.
      - intros q Hq. by apply Hkept, Htiles. }
    assert (absorbedCities (cities g1) s ids = absorbedCities (cities g) s ids)
      as Holds.
    { apply absorbedCities_ext. intros id _ Hne. unfold g1. cbn [game_map cities set_cities set_game_map].
      by rewrite lookup_insert_ne. }
    rewrite Holds in Hcells, Hsurv.
    exists g', s. split; [exact Hrun|].
    unfold Spawned. fold adj ids.
    split; [|split; [|split; [|split; [|split]]]].
    + destruct Hdims as [Hw Hh], Hdims3 as [Hw3 Hh3].
      unfold g1 in Hw, Hh. simpl in Hw, Hh, Hw3, Hh3. split; congruence.
    + unfold tileAt. rewrite Hcells. unfold g1. cbn [game_map cities set_cities set_game_map]. rewrite Hm3.
      rewrite (decide_False (P := p ∈ adj)) by (intros Hp; by apply (Hadjp p)).
      unfold m2. rewrite cellAt_setCell.
      case_decide; reflexivity.
    + intros q Hq. unfold tileAt. rewrite Hcells. unfold g1. cbn [game_map cities set_cities set_game_map]. rewrite Hm3.
      unfold tileAt. rewrite Hm2 by done.
      destruct (citytile (cellAt (game_map g) q)) as [t|] eqn:Ht.
      * pose proof (elem_of_absorbed_cells g s ids q t Hinv Ht) as Habs.
        set (C := if decide (q ∈ adj) then _ else _).
        assert (citytile C
                = Some (if decide (q ∈ adj) then incr_adjacentCityTiles t else t))
          as HC by (unfold C; destruct (decide (q ∈ adj)); simpl; rewrite ?Ht; done).
        assert (citytile (if decide (q ∈ absorbedCities (cities g) s ids ≫= citycells)
                          then relinked s C else C)
                = Some (retile s ids (bool_decide (q ∈ adj)) t)) as ->; [|done].
        unfold retile.
        destruct (decide (q ∈ absorbedCities (cities g) s ids ≫= citycells))
          as [Hc|Hc].
        -- apply Habs in Hc as [Hc1 Hc2]. unfold relinked. rewrite HC. simpl.
           rewrite (decide_True (P := cityid t ∈ ids)) by done.
           destruct (decide (q ∈ adj));
             [rewrite bool_decide_eq_true_2 by done
             |rewrite bool_decide_eq_false_2 by done];
             unfold set_cityid; simpl; do 2 f_equal; lia.
        -- rewrite HC.
           assert ((if decide (cityid t ∈ ids) then s else cityid t) = cityid t)
             as ->.
           { destruct (decide (cityid t ∈ ids)) as [Hc'|Hc']; [|done].
             destruct (decide (cityid t = s)) as [E|Hne]; [by rewrite E|].
             exfalso. apply Hc, Habs. done. }
           destruct (decide (q ∈ adj));
             [rewrite bool_decide_eq_true_2 by done
             |rewrite bool_decide_eq_false_2 by done];
             destruct t; simpl; do 2 f_equal; lia.
      * set (C := if decide (q ∈ adj) then _ else _).
        assert (citytile C = None) as HC
          by (unfold C; destruct (decide (q ∈ adj)); simpl; rewrite ?Ht; done).
        destruct (decide (q ∈ absorbedCities (cities g) s ids ≫= citycells));
          unfold relinked; simpl; by rewrite HC.
    + exists city0. split; [|split; [|split]].
      * rewrite Hsurv. unfold g1. cbn [game_map cities set_cities set_game_map]. by rewrite lookup_insert_eq.
      * by destruct (inv_cells g Hinv s city0 Hcity0).
      * congruence.
      * right. split; [|split; [done|]].
        -- unfold ids. rewrite Hadj. apply idsFound_hd.
        -- destruct Hframe as [-> _]. done.
    + exact Hgone.
    + intros k Hks Hkid. rewrite Hkeep by done. unfold g1. cbn [game_map cities set_cities set_game_map].
      by rewrite lookup_insert_ne.
Qed.

Lemma absorbingAll_fields olds c :
  city_id (absorbingAll olds c) = city_id c
  /\ city_team (absorbingAll olds c) = city_team c
  /\ citycells (absorbingAll olds c) = citycells c ++ (olds ≫= citycells)
  /\ fuel (absorbingAll olds c) = foldl Qplus (fuel c) (fuel <$> olds).
Proof.
  revert c. induction olds as [|old olds IH]; intros c.
  { simpl. by rewrite app_nil_r. }
  unfold absorbingAll in *. cbn [foldl].
  destruct (IH (absorbing old c)) as (-> & -> & -> & ->).
  simpl. by rewrite <- app_assoc.
Qed.

Lemma filter_ext_in {A} (P Q : A -> Prop)
    `{!forall x, Decision (P x)} `{!forall x, Decision (Q x)} (l : list A) :
  (forall x, x ∈ l -> (P x <-> Q x)) -> filter P l = filter Q l.
Proof.
  induction l as [|x l IH]; intros Hext; [done|].
  rewrite !filter_cons.
  rewrite IH by (intros; apply Hext; set_solver).
  destruct (decide (P x)) as [HP|HP].
  - by rewrite decide_True by (apply Hext; [set_solver|done]).
  - rewrite decide_False; [done|]. rewrite <- Hext; [done|set_solver].
Qed.

Lemma length_filter_flip {A} `{EqDecision A} (P P' : A -> Prop)
    `{!forall x, Decision (P x)} `{!forall x, Decision (P' x)}
    (l : list A) (p : A) :
  NoDup l ->
  (forall y, y <> p -> (P' y <-> P y)) -> ~ P p ->
  length (filter P' l)
  = (length (filter P l) + if decide (P' p /\ p ∈ l) then 1 else 0)%nat.
Proof.
  intros Hnd Hsame Hp. induction l as [|x l IH].
  { simpl. rewrite decide_False by set_solver. done. }
  apply NoDup_cons in Hnd as [Hx Hnd]. specialize (IH Hnd).
  rewrite !filter_cons.
  destruct (decide (x = p)) as [->|Hne].
  - rewrite (decide_False (P := P p)) by done.
    assert (~ (P' p /\ p ∈ l)) as Hnot by tauto.
    rewrite (decide_False (P := P' p /\ p ∈ l)) in IH by done.
    destruct (decide (P' p)) as [HP'|HP'].
    + rewrite decide_True by (split; [done|set_solver]). simpl. lia.
    + rewrite decide_False by tauto. lia.
  - assert ((P' p /\ p ∈ x :: l) <-> (P' p /\ p ∈ l)) as Hiff by set_solver.
    destruct (decide (P' p /\ p ∈ l)) as [Hd|Hd].
    + rewrite (decide_True (P := P' p /\ p ∈ x :: l)) by tauto.
      destruct (decide (P x)) as [HPx|HPx].
      * rewrite decide_True by (by apply Hsame). simpl. lia.
      * rewrite decide_False by (by rewrite Hsame). lia.
    + rewrite (decide_False (P := P' p /\ p ∈ x :: l)) by tauto.
      destruct (decide (P x)) as [HPx|HPx].
      * rewrite decide_True by (by apply Hsame). simpl. lia.
      * rewrite decide_False by (by rewrite Hsame). lia.
Qed.

Lemma absorbedCities_NoDup g s ids :
  CityInv g -> NoDup ids -> NoDup (absorbedCities (cities g) s ids).
Proof.
  intros Hinv Hnd. unfold absorbedCities.
  induction ids as [|id l IH]; [constructor|].
  apply NoDup_cons in Hnd as [Hid Hnd].
  cbn [omap list_omap].
  destruct (decide (id = s)); [by apply IH|].
  destruct (cities g !! id) as [old|] eqn:Hl; [|by apply IH].
  apply NoDup_cons. split; [|by apply IH].
  intros Hin. apply list_elem_of_omap in Hin as (id' & Hid' & Hl').
  destruct (decide (id' = s)); [done|].
  destruct (inv_cells g Hinv _ _ Hl) as (E & _).
  destruct (inv_cells g Hinv _ _ Hl') as (E' & _).
  congruence.
Qed.

Lemma hd_error_elem {A} (l : list A) x : hd_error l = Some x -> x ∈ l.
Proof. destruct l; [done|]. intros [= ->]. set_solver. Qed.

Section SpawnedFacts.
Variables (g g' : Game) (team : TEAM) (p : Position) (s : string).
Hypothesis Hinv : CityInv g.
Hypothesis Hin : inMap (game_map g) p = true.
Hypothesis Hfree : tileAt (game_map g) p = None.
Hypothesis Hsp : Spawned g team p s g'.

Let adj := adjSameTeam (game_map g) team p.
Let ids := idsFound (game_map g) adj.
Let olds := absorbedCities (cities g) s ids.

Lemma Spawned_adjacent q :
  getAdjacentCells (game_map g') q = getAdjacentCells (game_map g) q.
Proof using All.
  destruct Hsp as ([Hw Hh] & _). by apply getAdjacentCells_dims.
Qed.

Lemma Spawned_tile_new :
  tileAt (game_map g') p = Some (mkCityTile team s (Z.of_nat (length adj)) 0).
Proof using All. by destruct Hsp as (_ & ? & _). Qed.

Lemma Spawned_tile_old q :
  q <> p ->
  tileAt (game_map g') q = retile s ids (bool_decide (q ∈ adj)) <$> tileAt (game_map g) q.
Proof using All. destruct Hsp as (_ & _ & H & _). apply H. Qed.

Lemma Spawned_sameTeam u q :
  sameTeamCityTile (game_map g') u q
  = if decide (q = p) then bool_decide (team = u) else sameTeamCityTile (game_map g) u q.
Proof using All.
  unfold sameTeamCityTile. fold (tileAt (game_map g') q) (tileAt (game_map g) q).
  case_decide as Hq.
  - subst q. by rewrite Spawned_tile_new.
  - rewrite (Spawned_tile_old q Hq). by destruct (tileAt (game_map g) q).
Qed.

(** The ids found are ids of registered cities of the team. *)
Lemma ids_registered id :
  id ∈ ids ->
  exists c, cities g !! id = Some c /\ city_team c = team /\ city_id c = id.
Proof using All.
  intros Hid. apply elem_of_idsFound in Hid as (q & Hq & <-).
  apply elem_of_adjSameTeam in Hq as (_ & t & Ht & Ett).
  rewrite (cityid_at_tile _ _ _ Ht).
  destruct (inv_registered g Hinv q t Ht) as (c & Hc & Hteam & _).
  exists c. split_and!; [done|congruence|].
  by destruct (inv_cells g Hinv _ c Hc).
Qed.

Lemma adj_ids q t :
  q ∈ adj -> tileAt (game_map g) q = Some t -> cityid t ∈ ids.
Proof using All.
  intros Hq Ht. apply elem_of_idsFound. exists q. split; [done|].
  by apply cityid_at_tile.
Qed.

(** The city of the new tile. *)
Lemma Spawned_city :
  exists base,
    cities g' !! s = Some (absorbingAll olds (addCityTile base p))
    /\ city_id base = s /\ city_team base = team
    /\ NoDup (citycells base)
    /\ (forall q, q ∈ citycells base <->
          exists t, tileAt (game_map g) q = Some t /\ cityid t = s)
    /\ (forall t q, tileAt (game_map g) q = Some t -> cityid t ∉ ids -> cityid t <> s)
    /\ (globalCityIDCount g <= globalCityIDCount g')%Z
    /\ exists n, s = "c_" +:+ pretty n /\ (n <= globalCityIDCount g')%Z.
Proof using All.
  destruct Hsp as (_ & _ & _ & (base & Hs & Hid & Hteam & Hcase) & _).
  exists base. split; [done|]. split; [done|]. split; [done|].
  destruct Hcase as [(Hadj & Hnone & -> & Hcount)|(Hhd & Hbase & Hcount)].
  - split; [constructor|]. split; [|split; [|split]].
    + intros q. simpl. split; [by intros ?%elem_of_nil|].
      intros (t & Ht & Hst).
      destruct (inv_registered g Hinv q t Ht) as (c & Hc & _).
      rewrite Hst in Hc. congruence.
    + intros t q Ht _ Hst.
      destruct (inv_registered g Hinv q t Ht) as (c & Hc & _).
      rewrite Hst in Hc. congruence.
    + lia.
    + exists (globalCityIDCount g + 1)%Z. split; [done|lia].
  - destruct (inv_cells g Hinv s base Hbase) as (_ & Hnd & _ & Hcells).
    split; [done|]. split; [|split; [|split]].
    + intros q. split; [apply Hcells|].
      intros (t & Ht & Hst).
      destruct (inv_registered g Hinv q t Ht) as (c & Hc & _ & Hq).
      rewrite Hst in Hc. congruence.
    + intros t q Ht Hnin Hst. apply Hnin. rewrite Hst.
      by apply hd_error_elem.
    + lia.
    + destruct (inv_fresh g Hinv s) as (n & Hn & Hle); [by rewrite Hbase|].
      exists n. split; [done|lia].
Qed.

Lemma Spawned_kept k :
  k <> s -> k ∉ ids -> cities g' !! k = cities g !! k.
Proof using All. destruct Hsp as (_ & _ & _ & _ & _ & H). apply H. Qed.

Lemma Spawned_gone id : id ∈ ids -> id <> s -> cities g' !! id = None.
Proof using All. destruct Hsp as (_ & _ & _ & _ & H & _). apply H. Qed.

Lemma Spawned_registered q t' :
  tileAt (game_map g') q = Some t' ->
  exists c, cities g' !! cityid t' = Some c
            /\ city_team c = ct_team t' /\ q ∈ citycells c.
Proof using All.
  intros Ht'.
  destruct Spawned_city
    as (base & Hs & Hid & Hteam & Hnd & Hbase & Hnots & _).
  destruct (absorbingAll_fields olds (addCityTile base p))
    as (Hcid & Hcteam & Hccells & _).
  destruct (decide (q = p)) as [->|Hq].
  - rewrite Spawned_tile_new in Ht'. injection Ht' as <-. simpl.
    eexists. split; [exact Hs|]. split; [by rewrite Hcteam|].
    rewrite Hccells. simpl. set_solver.
  - rewrite (Spawned_tile_old q Hq) in Ht'.
    destruct (tileAt (game_map g) q) as [t|] eqn:Ht; [|done].
    injection Ht' as <-. unfold retile. simpl.
    destruct (inv_registered g Hinv q t Ht) as (c & Hc & Hct & Hqc).
    destruct (decide (cityid t ∈ ids)) as [Hids|Hids].
    + eexists. split; [exact Hs|]. split.
      * rewrite Hcteam. simpl. rewrite Hteam.
        destruct (ids_registered _ Hids) as (c0 & Hc0 & Hteam0 & _).
        congruence.
      * rewrite Hccells. simpl.
        destruct (decide (cityid t = s)) as [Hst|Hst].
        -- apply elem_of_app. left. apply elem_of_app. left.
           apply Hbase. eauto.
        -- apply elem_of_app. right.
           apply (elem_of_absorbed_cells g s ids q t Hinv Ht). done.
    + exists c. split; [|done].
      rewrite Spawned_kept; [done| |done]. by eapply Hnots.
Qed.

Lemma olds_NoDup : NoDup (olds ≫= citycells).
Proof using All.
  assert (forall old, old ∈ olds ->
            exists id, id ∈ ids /\ id <> s /\ cities g !! id = Some old) as Holds.
  { intros old Hold. unfold olds, absorbedCities in Hold.
    apply list_elem_of_omap in Hold as (id & Hid & Hlook).
    exists id. destruct (decide (id = s)); [done|]. done. }
  apply NoDup_bind.
  - intros old1 old2 q H1 H2 Hq1 Hq2.
    destruct (Holds _ H1) as (id1 & _ & _ & Hl1).
    destruct (Holds _ H2) as (id2 & _ & _ & Hl2).
    destruct (inv_cells g Hinv _ _ Hl1) as (_ & _ & _ & Hc1).
    destruct (inv_cells g Hinv _ _ Hl2) as (_ & _ & _ & Hc2).
    destruct (Hc1 q Hq1) as (t1 & Ht1 & E1).
    destruct (Hc2 q Hq2) as (t2 & Ht2 & E2).
    congruence.
  - intros old Hold. destruct (Holds _ Hold) as (id & _ & _ & Hl).
    by destruct (inv_cells g Hinv _ _ Hl) as (_ & ? & _).
  - apply absorbedCities_NoDup; [done|apply idsFound_NoDup].
Qed.

Lemma Spawned_cells k c :
  cities g' !! k = Some c ->
  city_id c = k /\ NoDup (citycells c) /\ citycells c <> []
  /\ forall q, q ∈ citycells c ->
       exists t, tileAt (game_map g') q = Some t /\ cityid t = k.
Proof using All.
  intros Hc.
  destruct Spawned_city
    as (base & Hs & Hid & Hteam & Hnd & Hbase & Hnots & _).
  destruct (absorbingAll_fields olds (addCityTile base p))
    as (Hcid & Hcteam & Hccells & _).
  assert (forall q t, tileAt (game_map g) q = Some t -> q <> p) as Hnotp
    by (intros q t Ht ->; congruence).
  destruct (decide (k = s)) as [->|Hk].
  - rewrite Hs in Hc. injection Hc as <-.
    rewrite Hcid, Hccells. simpl.
    split; [done|]. split; [|split].
    + apply NoDup_app. split; [|split; [|apply olds_NoDup]].
      * apply NoDup_app. split; [done|]. split; [|apply NoDup_singleton].
        intros q Hq ->%list_elem_of_singleton.
        apply Hbase in Hq as (t & Ht & _). by eapply Hnotp.
      * intros q Hq Hq'.
        assert (exists t, tileAt (game_map g) q = Some t /\ cityid t = s) as (t & Ht & Hst).
        { apply elem_of_app in Hq as [Hq| ->%list_elem_of_singleton].
          - by apply Hbase.
          - apply list_elem_of_bind in Hq' as (old & Hq' & Hold).
            unfold olds, absorbedCities in Hold.
            apply list_elem_of_omap in Hold as (id & _ & Hl).
            destruct (decide (id = s)); [done|].
            destruct (inv_cells g Hinv _ _ Hl) as (_ & _ & _ & Hcl).
            destruct (Hcl p Hq') as (t & Ht & _). congruence. }
        apply (elem_of_absorbed_cells g s ids q t Hinv Ht) in Hq'. tauto.
    + by destruct (citycells base).
    + intros q Hq.
      destruct (decide (q = p)) as [->|Hqp].
      { rewrite Spawned_tile_new. eauto. }
      rewrite (Spawned_tile_old q Hqp).
      assert (exists t, tileAt (game_map g) q = Some t
                /\ (cityid t = s \/ cityid t ∈ ids)) as (t & Ht & Hcase).
      { apply elem_of_app in Hq as [Hq|Hq].
        - apply elem_of_app in Hq as [Hq|Hq]; [|set_solver].
          apply Hbase in Hq as (t & Ht & Hst). eauto.
        - apply list_elem_of_bind in Hq as (old & Hq & Hold).
          unfold olds, absorbedCities in Hold.
          apply list_elem_of_omap in Hold as (id & Hidin & Hl).
          destruct (decide (id = s)); [done|].
          destruct (inv_cells g Hinv _ _ Hl) as (_ & _ & _ & Hcl).
          destruct (Hcl q Hq) as (t & Ht & <-). eauto. }
      rewrite Ht. simpl. eexists. split; [done|]. unfold retile. simpl.
      destruct Hcase as [Hst|Hids].
      * rewrite Hst. by case_decide.
      * by rewrite decide_True.
  - destruct (decide (k ∈ ids)) as [Hids|Hids].
    { rewrite Spawned_gone in Hc by done. done. }
    rewrite Spawned_kept in Hc by done.
    destruct (inv_cells g Hinv k c Hc) as (Hcid' & Hnd' & Hne & Hcl).
    split; [done|]. split; [done|]. split; [done|].
    intros q Hq. destruct (Hcl q Hq) as (t & Ht & Hkt).
    rewrite (Spawned_tile_old q (Hnotp q t Ht)), Ht. simpl.
    eexists. split; [done|]. unfold retile. simpl.
    rewrite Hkt. by rewrite decide_False.
Qed.

Lemma Spawned_joined x y t u :
  tileAt (game_map g') x = Some t -> tileAt (game_map g') y = Some u ->
  y ∈ getAdjacentCells (game_map g') x -> ct_team t = ct_team u ->
  cityid t = cityid u.
Proof using All.
  intros Ht Hu Hadj Hteam. rewrite Spawned_adjacent in Hadj.
  assert (forall z w, z <> p -> tileAt (game_map g') z = Some w ->
            (z ∈ getAdjacentCells (game_map g) p
             \/ p ∈ getAdjacentCells (game_map g) z) ->
            ct_team w = team -> cityid w = s) as Hnext.
  { intros z w Hz Hw Hzp Hwteam.
    rewrite (Spawned_tile_old z Hz) in Hw.
    destruct (tileAt (game_map g) z) as [w0|] eqn:Hw0; [|done].
    injection Hw as <-. simpl in *.
    assert (z ∈ adj) as Hzadj.
    { apply elem_of_adjSameTeam. split; [|eauto].
      destruct Hzp as [?|Hpz]; [done|].
      apply (getAdjacentCells_sym _ z p); [|done].
      by apply (inv_inMap g Hinv z w0). }
    rewrite decide_True; [done|]. by apply (adj_ids z). }
  destruct (decide (x = p)) as [->|Hx], (decide (y = p)) as [->|Hy].
  - by apply getAdjacentCells_irrefl in Hadj.
  - rewrite Spawned_tile_new in Ht. injection Ht as <-. simpl in *.
    symmetry. apply (Hnext y u); auto.
  - rewrite Spawned_tile_new in Hu. injection Hu as <-. simpl in *.
    apply (Hnext x t); auto.
  - rewrite (Spawned_tile_old x Hx) in Ht. rewrite (Spawned_tile_old y Hy) in Hu.
    destruct (tileAt (game_map g) x) as [t0|] eqn:Ht0; [|done].
    destruct (tileAt (game_map g) y) as [u0|] eqn:Hu0; [|done].
    injection Ht as <-. injection Hu as <-. simpl in *.
    by rewrite (inv_joined g Hinv x y t0 u0).
Qed.

Lemma Spawned_adjSameTeam_new :
  adjSameTeam (game_map g') team p = adj.
Proof using All.
  unfold adj, adjSameTeam. rewrite Spawned_adjacent.
  apply filter_ext_in. intros q Hq. rewrite Spawned_sameTeam.
  rewrite decide_False; [done|]. intros ->.
  by apply getAdjacentCells_irrefl in Hq.
Qed.

Lemma Spawned_adjSameTeam_old x t :
  x <> p -> tileAt (game_map g) x = Some t ->
  length (adjSameTeam (game_map g') (ct_team t) x)
  = (length (adjSameTeam (game_map g) (ct_team t) x)
     + if bool_decide (x ∈ adj) then 1 else 0)%nat.
Proof using All.
  intros Hx Ht. unfold adjSameTeam at 1 2. rewrite Spawned_adjacent.
  rewrite (length_filter_flip
             (fun q => sameTeamCityTile (game_map g) (ct_team t) q = true)
             (fun q => sameTeamCityTile (game_map g') (ct_team t) q = true)
             _ p (getAdjacentCells_NoDup _ _)).
  - f_equal.
    assert (x ∈ adj
            <-> sameTeamCityTile (game_map g') (ct_team t) p = true
                /\ p ∈ getAdjacentCells (game_map g) x) as Hiff.
    { rewrite Spawned_sameTeam, decide_True by done.
      rewrite bool_decide_eq_true. unfold adj.
      rewrite elem_of_adjSameTeam. split.
      - intros (Hxp & t' & Ht' & Hteam). rewrite Ht in Ht'. injection Ht' as <-.
        split; [done|]. by apply getAdjacentCells_sym.
      - intros (Hteam & Hpx). split; [|eauto].
        apply (getAdjacentCells_sym _ x p); [|done].
        by apply (inv_inMap g Hinv x t). }
    destruct (decide (x ∈ adj)) as [Hd|Hd].
    + rewrite bool_decide_eq_true_2 by done. by rewrite decide_True by by apply Hiff.
    + rewrite bool_decide_eq_false_2 by done. by rewrite decide_False by by rewrite <- Hiff.
  - intros y Hy. rewrite Spawned_sameTeam. by rewrite decide_False.
  - unfold sameTeamCityTile. fold (tileAt (game_map g) p). by rewrite Hfree.
Qed.

Lemma Spawned_counted x t :
  tileAt (game_map g') x = Some t ->
  adjacentCityTiles t
  = Z.of_nat (length (adjSameTeam (game_map g') (ct_team t) x)).
Proof using All.
  intros Ht. destruct (decide (x = p)) as [->|Hx].
  - rewrite Spawned_tile_new in Ht. injection Ht as <-. simpl.
    by rewrite Spawned_adjSameTeam_new.
  - rewrite (Spawned_tile_old x Hx) in Ht.
    destruct (tileAt (game_map g) x) as [t0|] eqn:Ht0; [|done].
    injection Ht as <-. simpl.
    rewrite (Spawned_adjSameTeam_old x t0 Hx Ht0).
    rewrite (inv_counted g Hinv x t0 Ht0).
    destruct (bool_decide (x ∈ adj)); lia.
Qed.

Lemma Spawned_CityInv : CityInv g'.
Proof using All.
  split.
  - apply Spawned_registered.
  - apply Spawned_cells.
  - apply Spawned_joined.
  - apply Spawned_counted.
  - intros k [c Hc].
    destruct Spawned_city as (_ & _ & _ & _ & _ & _ & _ & Hle & n & Hn & Hnle).
    destruct (decide (k = s)) as [->|Hk]; [eauto|].
    destruct (decide (k ∈ ids)) as [Hids|Hids].
    { rewrite Spawned_gone in Hc by done. done. }
    rewrite Spawned_kept in Hc by done.
    destruct (inv_fresh g Hinv k) as (n' & Hn' & Hle'); [eauto|].
    exists n'. split; [done|lia].
  - intros x t Ht.
    destruct Hsp as ([Hw Hh] & _).
    rewrite (inMap_dims _ (game_map g)) by done.
    destruct (decide (x = p)) as [->|Hx]; [done|].
    rewrite (Spawned_tile_old x Hx) in Ht.
    destruct (tileAt (game_map g) x) as [t0|] eqn:Ht0; [|done].
    by apply (inv_inMap g Hinv x t0).
Qed.

End SpawnedFacts.

(** ** [destroyCity] *)

Lemma foldl_clearCityTile road l m :
  same_dims m (foldl (clearCityTile road) m l)
  /\ forall q,
       cellAt (foldl (clearCityTile road) m l) q
       = if decide (q ∈ l)
         then mkCell (resource (cellAt m q)) None (units (cellAt m q)) road
         else cellAt m q.
Proof.
  revert m. induction l as [|p l IH]; intros m.
  { split; [done|]. intros q. by rewrite decide_False by set_solver. }
  cbn [foldl]. destruct (IH (clearCityTile road m p)) as [[Hw Hh] Hcells].
  split; [by split|].
  intros q. rewrite Hcells. unfold clearCityTile.
  destruct (decide (q = p)) as [->|Hq].
  - rewrite cellAt_setCell. rewrite (decide_True (P := p ∈ p :: l)) by set_solver.
    by case_decide.
  - rewrite !cellAt_setCell_ne by done.
    destruct (decide (q ∈ l)); [by rewrite decide_True by set_solver|].
    by rewrite decide_False by set_solver.
Qed.

Lemma destroyCity_tiles g k c g' :
  cities g !! k = Some c -> destroyCity g k = Some g' ->
  same_dims (game_map g) (game_map g')
  /\ cities g' = delete k (cities g)
  /\ globalCityIDCount g' = globalCityIDCount g
  /\ forall q,
       tileAt (game_map g') q
       = if decide (q ∈ citycells c) then None else tileAt (game_map g) q.
Proof.
  intros Hc. unfold destroyCity. rewrite Hc. simpl. intros [= <-].
  destruct (foldl_clearCityTile (MIN_ROAD (configs g)) (citycells c) (game_map g))
    as [Hdims Hcells].
  split; [done|]. split; [done|]. split; [done|].
  intros q. unfold tileAt. simpl. rewrite Hcells. by case_decide.
Qed.

Lemma destroyCity_CityInv g k g' :
  CityInv g -> destroyCity g k = Some g' -> CityInv g'.
Proof.
  intros Hinv Hrun.
  destruct (cities g !! k) as [c|] eqn:Hc;
    [|by unfold destroyCity in Hrun; rewrite Hc in Hrun].
  destruct (destroyCity_tiles g k c g' Hc Hrun)
    as ([Hw Hh] & Hcities & Hcount & Htiles).
  assert (forall q t, tileAt (game_map g') q = Some t ->
            tileAt (game_map g) q = Some t /\ cityid t <> k) as Hold.
  { intros q t. rewrite Htiles. case_decide as Hq; [done|].
    intros Ht. split; [done|]. intros Hk.
    destruct (inv_registered g Hinv q t Ht) as (c' & Hc' & _ & Hqc).
    rewrite Hk, Hc in Hc'. injection Hc' as <-. done. }
  assert (forall q t, tileAt (game_map g) q = Some t -> cityid t <> k ->
            tileAt (game_map g') q = Some t) as Hnew.
  { intros q t Ht Hk. rewrite Htiles. rewrite decide_False; [done|].
    intros Hq. destruct (inv_cells g Hinv k c Hc) as (_ & _ & _ & Hcl).
    destruct (Hcl q Hq) as (t' & Ht' & Hk'). congruence. }
  assert (forall q, getAdjacentCells (game_map g') q
                    = getAdjacentCells (game_map g) q) as Hadj
    by (intros; by apply getAdjacentCells_dims).
  split.
  - intros q t Ht. destruct (Hold q t Ht) as [Ht0 Hk].
    destruct (inv_registered g Hinv q t Ht0) as (c' & Hc' & Hteam & Hq).
    exists c'. split; [|done]. rewrite Hcities. by rewrite lookup_delete_ne.
  - intros k' c'. rewrite Hcities. intros Hc'.
    apply lookup_delete_Some in Hc' as [Hne Hc'].
    destruct (inv_cells g Hinv k' c' Hc') as (Hid & Hnd & Hnil & Hcl).
    split; [done|]. split; [done|]. split; [done|].
    intros q Hq. destruct (Hcl q Hq) as (t & Ht & Hkt).
    exists t. split; [|done]. apply Hnew; [done|congruence].
  - intros x y t u Ht Hu Hxy Hteam. rewrite Hadj in Hxy.
    destruct (Hold x t Ht) as [Ht0 _]. destruct (Hold y u Hu) as [Hu0 _].
    by apply (inv_joined g Hinv x y t u).
  - intros x t Ht. destruct (Hold x t Ht) as [Ht0 Hk].
    rewrite (inv_counted g Hinv x t Ht0). do 2 f_equal.
    unfold adjSameTeam. rewrite Hadj. apply filter_ext_in.
    intros y Hy. rewrite !tileAt_sameTeam. split.
    + intros (u & Hu & Hteam). exists u. split; [|done].
      apply Hnew; [done|]. intros Hku. apply Hk.
      by rewrite (inv_joined g Hinv x y t u).
    + intros (u & Hu & Hteam). exists u. split; [|done]. by apply Hold.
  - intros k' Hk'. rewrite Hcities in Hk'. rewrite Hcount.
    apply (inv_fresh g Hinv). destruct Hk' as [c' Hc'].
    apply lookup_delete_Some in Hc' as [_ Hc']. eauto.
  - intros x t Ht. destruct (Hold x t Ht) as [Ht0 _].
    rewrite (inMap_dims _ (game_map g)) by done.
    by apply (inv_inMap g Hinv x t).
Qed.

(** * Facts about resource release *)

Section ResourceFacts.
Context `{Collaborators}.
Local Open Scope Q_scope.

Lemma entitlements_spec rate n i pool ws :
  n = (i + length ws)%nat ->
  entitlements rate n i pool ws = spec_entitlements rate pool ws.
Proof.
  revert i pool. induction ws as [|w ws IH]; intros i pool Hn; [done|].
  simpl in Hn. cbn [entitlements spec_entitlements].
  assert (distributeAmount_of rate n pool i w
          = Qmin (Qmin (getCargoSpaceLeft w)
                    (pool / inject_Z (Z.of_nat (length (w :: ws))))) rate) as ->.
  { unfold distributeAmount_of. do 4 f_equal. simpl length. lia. }
  f_equal. apply IH. lia.
Qed.


Lemma forEach_i_releaseTo type rate n ws i st :
  forEach_i (releaseTo type rate n) ws i st
  = let es := entitlements rate n i (amountToDistribute st) (snd <$> ws) in
    mkRelease (foldl (credit type) (rl_game st) (zip ws es))
      (foldl Qminus (amountToDistribute st) es)
      (foldl Qplus (amountDistributed st) es).
Proof.
  revert i st. induction ws as [|w ws IH]; intros i st; [destruct st; reflexivity|].
  cbn [forEach_i]. rewrite IH. reflexivity.
Qed.

Lemma insertWorker_length w l : length (insertWorker w l) = S (length l).
Proof. induction l as [|v l IH]; simpl; [done|]. case_decide; simpl; lia. Qed.

Lemma sortWorkers_length l : length (sortWorkers l) = length l.
Proof.
  induction l as [|w l IH]; simpl; [done|].
  by rewrite insertWorker_length, IH.
Qed.

Lemma handleResourceRelease_spec g p :
  handleResourceRelease g p = spec_handleResourceRelease g p.
Proof.
  unfold handleResourceRelease, spec_handleResourceRelease, hasResource.
  destruct (resource (cellAt (game_map g) p)) as [res|]; [|done].
  destruct (decide (0 < amount res)%Q) as [Hpos|Hpos];
    [rewrite bool_decide_eq_true_2 by done|by rewrite bool_decide_eq_false_2].
  rewrite forEach_i_releaseTo. cbn [rl_game amountToDistribute amountDistributed].
  rewrite entitlements_spec by (rewrite length_fmap, sortWorkers_length; lia).
  by rewrite sortWorkers_length.
Qed.


Lemma Qsum_cons x l : Qsum (x :: l) = x + Qsum l.
Proof. reflexivity. Qed.

Lemma foldl_Qplus a l : foldl Qplus a l == a + Qsum l.
Proof.
  revert a. induction l as [|x l IH]; intros a; simpl; [ring|].
  rewrite IH. ring.
Qed.

Lemma spec_entitlements_length rate pool ws :
  length (spec_entitlements rate pool ws) = length ws.
Proof.
  revert pool. induction ws as [|w ws IH]; intros pool; [done|].
  cbn [spec_entitlements length]. by rewrite IH.
Qed.

(** The entitlements never add up to more than the pool: each is at most
    the pool divided by the workers remaining, the last one at most what is
    left. *)
Lemma spec_entitlements_sum rate pool ws :
  (ws = [] -> 0 <= pool) ->
  Qsum (spec_entitlements rate pool ws) <= pool.
Proof.
  revert pool. induction ws as [|w ws IH]; intros pool Hpool; [by apply Hpool|].
  cbn [spec_entitlements]. rewrite Qsum_cons.
  set (k := inject_Z (Z.of_nat (length (w :: ws)))).
  set (e := Qmin (Qmin (getCargoSpaceLeft w) (pool / k)) rate).
  assert (e <= pool / k) as He.
  { unfold e. eapply Qle_trans; [apply Q.le_min_l|]. apply Q.le_min_r. }
  destruct ws as [|w' ws].
  - simpl. unfold k in He. simpl in He.
    assert (pool / inject_Z 1 == pool) as E by (field).
    rewrite E in He. lra.
  - specialize (IH (pool - e)). lapply IH; [|done]. lra.
Qed.

Lemma spec_entitlements_capped rate pool ws :
  Forall2 (fun w e => e <= getCargoSpaceLeft w /\ e <= rate) ws
    (spec_entitlements rate pool ws).
Proof.
  revert pool. induction ws as [|w ws IH]; intros pool; [constructor|].
  cbn [spec_entitlements]. constructor; [|apply IH].
  split.
  - eapply Qle_trans; [apply Q.le_min_l|]. apply Q.le_min_l.
  - apply Q.le_min_r.
Qed.

Lemma Qsum_floor_le l : Qsum ((fun e => inject_Z (Qfloor e)) <$> l) <= Qsum l.
Proof.
  induction l as [|x l IH]; [done|].
  rewrite fmap_cons, !Qsum_cons.
  pose proof (Qfloor_le x). lra.
Qed.

Lemma cargo_get_add c type n : cargo_get (cargo_add c type n) type = (cargo_get c type + n)%Q.
Proof. by destruct type. Qed.

Lemma totalCollected_credit type g we :
  totalCollected (credit type g we) type
  == totalCollected g type + inject_Z (Qfloor we.2).
Proof.
  unfold totalCollected, credit, addResourcesCollected.
  destruct (unit_team we.1.2); simpl; rewrite cargo_get_add; simpl; ring.
Qed.

Lemma totalCollected_foldl_credit type l g :
  totalCollected (foldl (credit type) g l) type
  == totalCollected g type + Qsum ((fun e => inject_Z (Qfloor e)) <$> l.*2).
Proof.
  revert g. induction l as [|we l IH]; intros g; [simpl; ring|].
  cbn [foldl]. rewrite IH, totalCollected_credit, !fmap_cons, Qsum_cons. ring.
Qed.

Lemma insertWorker_perm w l : insertWorker w l ≡ₚ w :: l.
Proof.
  induction l as [|v l IH]; simpl; [done|].
  case_decide; [done|]. rewrite IH. apply Permutation_swap.
Qed.

Lemma sortWorkers_perm l : sortWorkers l ≡ₚ l.
Proof.
  induction l as [|w l IH]; simpl; [done|].
  by rewrite insertWorker_perm, IH.
Qed.

Lemma insertWorker_sorted w l :
  Sorted space_le l -> Sorted space_le (insertWorker w l).
Proof.
  induction l as [|v l IH]; intros Hs; simpl; [by repeat constructor|].
  case_decide as Hle.
  - constructor; [done|]. by constructor.
  - inversion Hs as [|? ? Hs' Hhd]; subst.
    constructor; [by apply IH|].
    assert (space_le v w) as Hvw.
    { unfold space_le. apply Qlt_le_weak, Qnot_le_lt. done. }
    destruct l as [|u l]; simpl; [by constructor|].
    case_decide; constructor; try done.
    by inversion Hhd.
Qed.

Lemma sortWorkers_sorted l : Sorted space_le (sortWorkers l).
Proof.
  induction l as [|w l IH]; simpl; [constructor|].
  by apply insertWorker_sorted.
Qed.


Lemma totalCollected_set_game_map g m type :
  totalCollected (set_game_map g m) type = totalCollected g type.
Proof. done. Qed.

(** C6.  On the cell with 40 uranium, rate 2 and three eligible workers with
    free cargo space 5, 100 and 100, each worker is credited 2 uranium, 6 are
    credited in all, and the node is left with 34.  In general the release
    sorts the eligible workers ascending by free cargo space, gives the
    worker in turn the floor of the least of its free space, the pool divided
    by the workers remaining, and the rate, and takes the un-floored
    entitlement off the pool: it is the release the specification words. *)
Theorem resource_release_shares :
  (let g := Scenario.uranium_field in
   let g' := @handleResourceRelease Scenario.collaborators g (1, 1)%Z in
   WORKER_COLLECTION_RATE (configs g) URANIUM = 2
   /\ (@getCargoSpaceLeft Scenario.collaborators
        <$> (snd <$> @sortWorkers Scenario.collaborators
                       (workersToReceiveResources g URANIUM (1, 1)%Z)))
      = [5; 100; 100]
   /\ Scenario.uranium_carried g "u_1" = [0; 0]
   /\ Scenario.uranium_carried g "u_2" = [0; 0]
   /\ Scenario.uranium_carried g "u_3" = [0; 0]
   /\ Scenario.uranium_carried g' "u_1" = [2; 2]
   /\ Scenario.uranium_carried g' "u_2" = [2; 2]
   /\ Scenario.uranium_carried g' "u_3" = [2; 2]
   /\ uranium (resourcesCollected (team_a (stats g'))) = 6
   /\ exists res',
        resource (cellAt (game_map g') (1, 1)%Z) = Some res'
        /\ amount res' == 34)
  /\ (forall g p, handleResourceRelease g p = spec_handleResourceRelease g p)
  /\ (forall l, Sorted space_le (sortWorkers l) /\ sortWorkers l ≡ₚ l).
Proof.
  split_and!.
  - vm_compute. split_and!; try reflexivity.
    eexists. split; reflexivity.
  - apply handleResourceRelease_spec.
  - intros l. split; [apply sortWorkers_sorted|apply sortWorkers_perm].
Qed.

End ResourceFacts.


(** * Theorems about cities *)

(** A game without a city: no tile on the map, nothing registered. *)
(** The games reached from a city-free one by placing tiles on free cells
    (no id supplied) and destroying cities, each call returning. *)
Lemma cityFree_CityInv g : cityFree g -> CityInv g.
Proof.
  intros [Hcities Htiles]. split.
  - intros p t. by rewrite Htiles.
  - intros k c. by rewrite Hcities, lookup_empty.
  - intros p q t u. by rewrite Htiles.
  - intros p t. by rewrite Htiles.
  - intros k. rewrite Hcities, lookup_empty. by intros [??].
  - intros p t. by rewrite Htiles.
Qed.

Lemma spawnCityTile_inMap g team x y cid g' :
  spawnCityTile g team x y cid = Some g' -> inMap (game_map g) (x, y) = true.
Proof.
  unfold spawnCityTile, getCell.
  destruct (inMap (game_map g) (x, y)); [done|]. by simpl.
Qed.

Lemma spawnCityTile_CityInv g team x y g' :
  CityInv g -> tileAt (game_map g) (x, y) = None ->
  spawnCityTile g team x y None = Some g' -> CityInv g'.
Proof.
  intros Hinv Hfree Hrun.
  pose proof (spawnCityTile_inMap _ _ _ _ _ _ Hrun) as Hin.
  destruct (spawnCityTile_Spawned g team (x, y) Hinv Hin Hfree)
    as (g'' & s & Hrun' & Hsp).
  simpl in Hrun'. rewrite Hrun in Hrun'. injection Hrun' as <-.
  by eapply Spawned_CityInv.
Qed.

Lemma reachable_CityInv g : reachable g -> CityInv g.
Proof.
  induction 1 as [g Hfree|g team x y g' _ IH Hfree Hrun|g k g' _ IH Hrun].
  - by apply cityFree_CityInv.
  - by eapply spawnCityTile_CityInv.
  - by eapply destroyCity_CityInv.
Qed.

(** C10 (amended).  In every game reached from a city-free one by placing
    tiles on free cells of the map, without an id supplied by the caller, and
    by destroying registered cities, every city tile's [adjacentCityTiles]
    counter equals the number of adjacent cells that hold a city tile of the
    same team; and in such a game a tile can be placed on any free cell of the
    map, and any registered city destroyed: the calls return. *)
Theorem adjacency_counters_recount (g : Game) :
  reachable g ->
  (forall p t, tileAt (game_map g) p = Some t ->
     adjacentCityTiles t
     = Z.of_nat (length (adjSameTeam (game_map g) (ct_team t) p)))
  /\ (forall team x y,
        inMap (game_map g) (x, y) = true -> tileAt (game_map g) (x, y) = None ->
        exists g', spawnCityTile g team x y None = Some g')
  /\ (forall cityID, is_Some (cities g !! cityID) ->
        exists g', destroyCity g cityID = Some g').
Proof.
  intros Hreach. pose proof (reachable_CityInv g Hreach) as Hinv.
  split; [apply (inv_counted g Hinv)|]. split.
  - intros team x y Hin Hfree.
    destruct (spawnCityTile_Spawned g team (x, y) Hinv Hin Hfree)
      as (g' & s & Hrun & _).
    eauto.
  - intros k [c Hc]. unfold destroyCity. rewrite Hc. simpl. eauto.
Qed.

Lemma refuel_CityInv g k f :
  CityInv g -> CityInv (set_cities g (alter (add_fuel f) k (cities g))).
Proof.
  intros Hinv.
  assert (forall k' c', alter (add_fuel f) k (cities g) !! k' = Some c' ->
            exists c, cities g !! k' = Some c /\ city_id c' = city_id c
              /\ city_team c' = city_team c /\ citycells c' = citycells c)
    as Hlook.
  { intros k' c'. destruct (decide (k = k')) as [<-|Hne].
    - rewrite lookup_alter_eq. destruct (cities g !! k) as [c|]; [|done].
      intros [= <-]. eauto.
    - rewrite lookup_alter_ne by done. eauto. }
  assert (forall k' c, cities g !! k' = Some c ->
            exists c', alter (add_fuel f) k (cities g) !! k' = Some c'
              /\ city_id c' = city_id c
              /\ city_team c' = city_team c /\ citycells c' = citycells c)
    as Hlook'.
  { intros k' c Hc. destruct (decide (k = k')) as [<-|Hne].
    - rewrite lookup_alter_eq, Hc. simpl. eauto.
    - rewrite lookup_alter_ne by done. eauto. }
  split; simpl.
  - intros p t Ht.
    destruct (inv_registered g Hinv p t Ht) as (c & Hc & Hteam & Hp).
    destruct (Hlook' _ _ Hc) as (c' & Hc' & _ & Hteam' & Hcells').
    exists c'. rewrite Hteam', Hcells'. done.
  - intros k' c' Hc'. destruct (Hlook _ _ Hc') as (c & Hc & -> & _ & ->).
    by apply (inv_cells g Hinv).
  - apply (inv_joined g Hinv).
  - apply (inv_counted g Hinv).
  - intros k' [c' Hc']. destruct (Hlook _ _ Hc') as (c & Hc & _).
    apply (inv_fresh g Hinv). eauto.
  - apply (inv_inMap g Hinv).
Qed.

Lemma newGame_cityFree w h : cityFree (Scenario.newGame w h).
Proof. split; [done|]. intros p. unfold tileAt, cellAt. simpl. by rewrite lookup_total_empty. Qed.

Lemma well_placed_CityInv ops g :
  CityInv g -> well_placed ops g = true ->
  exists g', forEach Scenario.run_op ops g = Some g' /\ CityInv g'.
Proof.
  revert g. induction ops as [|op ops IH]; intros g Hinv Hwp; [by exists g|].
  cbn [well_placed] in Hwp. apply andb_true_iff in Hwp as [Hop Hrest].
  cbn [forEach].
  destruct (Scenario.run_op g op) as [g1|] eqn:Hrun; [|done].
  simpl. apply IH; [|done].
  destruct op as [team x y|team x y|k|k f]; simpl in Hrun.
  - eapply spawnCityTile_CityInv; [done| |done].
    by destruct (tileAt (game_map g) (x, y)).
  - done.
  - by eapply destroyCity_CityInv.
  - injection Hrun as <-. by apply refuel_CityInv.
Qed.

Lemma well_placed_reachable ops g :
  reachable g -> well_placed ops g = true ->
  (forall op, op ∈ ops -> match op with Scenario.Refuel _ _ => False | _ => True end) ->
  exists g', forEach Scenario.run_op ops g = Some g' /\ reachable g'.
Proof.
  revert g. induction ops as [|op ops IH]; intros g Hreach Hwp Hops; [by exists g|].
  cbn [well_placed] in Hwp. apply andb_true_iff in Hwp as [Hop Hrest].
  cbn [forEach].
  destruct (Scenario.run_op g op) as [g1|] eqn:Hrun; [|done].
  simpl. apply IH; [|done|intros; apply Hops; set_solver].
  pose proof (Hops op) as Hthis.
  destruct op as [team x y|team x y|k|k f]; simpl in Hrun.
  - eapply reach_spawnCityTile; [done| |done].
    by destruct (tileAt (game_map g) (x, y)).
  - done.
  - by eapply reach_destroyCity.
  - exfalso. apply Hthis. set_solver.
Qed.

Lemma two_cities_CityInv : CityInv Scenario.two_cities.
Proof.
  destruct (well_placed_CityInv
              [Scenario.CityTileAt TEAM_A 0 0; Scenario.CityTileAt TEAM_A 1 0;
               Scenario.CityTileAt TEAM_A 3 0;
               Scenario.Refuel "c_1" 30; Scenario.Refuel "c_2" 12]
              (Scenario.newGame 4 1))
    as (g' & Hrun & Hinv).
  - apply cityFree_CityInv, newGame_cityFree.
  - by vm_compute.
  - unfold Scenario.two_cities, Scenario.setup. rewrite Hrun. exact Hinv.
Qed.

(** C4.  A tile placed on a free cell of a well-formed game, with at least
    one neighbour of the same team, joins the city of the first such
    neighbour in canonical order; every other city found among the
    neighbours of the team has all its tiles relinked to the surviving id, its
    cells and its fuel added to the surviving city's, and is deleted from the
    registry.  For city c_1 (2 tiles, fuel 30) and city c_2 (1 tile, fuel 12),
    both next to the new tile, the result is one city of 4 tiles with fuel
    42 and the id of the first neighbour found. *)
Theorem spawnCityTile_merges_into_first_neighbour :
  (forall (g : Game) (team : TEAM) (p first : Position) (rest : list Position),
     CityInv g ->
     inMap (game_map g) p = true ->
     tileAt (game_map g) p = None ->
     adjSameTeam (game_map g) team p = first :: rest ->
     let s := cityid_at (game_map g) first in
     let ids := idsFound (game_map g) (first :: rest) in
     let olds := absorbedCities (cities g) s ids in
     exists g' survivor c',
       spawnCityTile g team p.1 p.2 None = Some g'
       /\ cities g !! s = Some survivor
       /\ (exists t, tileAt (game_map g') p = Some t
                     /\ cityid t = s /\ ct_team t = team)
       /\ cities g' !! s = Some c'
       /\ city_id c' = s
       /\ citycells c' = citycells survivor ++ [p] ++ (olds ≫= citycells)
       /\ fuel c' = foldl Qplus (fuel survivor) (fuel <$> olds)
       /\ (forall id, id ∈ ids -> id <> s ->
             exists old,
               cities g !! id = Some old /\ old ∈ olds
               /\ cities g' !! id = None
               /\ forall q, q ∈ citycells old ->
                    exists t, tileAt (game_map g') q = Some t /\ cityid t = s))
  /\ (let g := Scenario.two_cities in
      adjSameTeam (game_map g) TEAM_A (2, 0)%Z = [(3, 0); (1, 0)]%Z
      /\ cities g
         = {[ "c_1" := mkCity "c_1" TEAM_A 30 [(0, 0); (1, 0)]%Z;
              "c_2" := mkCity "c_2" TEAM_A 12 [(3, 0)]%Z ]}
      /\ (cities <$> spawnCityTile g TEAM_A 2 0 None)
         = Some {[ "c_2" := mkCity "c_2" TEAM_A 42
                              [(3, 0); (2, 0); (0, 0); (1, 0)]%Z ]}).
Proof.
  split; [|by vm_compute].
  intros g team p first rest Hinv Hin Hfree Hadj s ids olds.
  destruct (spawnCityTile_Spawned g team p Hinv Hin Hfree) as (g' & s' & Hrun & Hsp).
  pose proof (Spawned_CityInv g g' team p s' Hinv Hin Hfree Hsp) as Hinv'.
  pose proof Hsp as (_ & Hnew & _ & (base & Hs' & Hid & Hteam & Hcase) & Hgone & _).
  rewrite Hadj in Hcase, Hnew, Hgone, Hs'.
  destruct Hcase as [([=] & _)|(Hhd & Hbase & _)].
  rewrite idsFound_hd in Hhd. injection Hhd as <-.
  fold s ids olds in Hs', Hgone.
  destruct (absorbingAll_fields olds (addCityTile base p))
    as (Hcid & _ & Hccells & Hfuel).
  exists g', base, (absorbingAll olds (addCityTile base p)).
  split; [done|]. split; [done|]. split; [eauto|]. split; [done|].
  split; [by rewrite Hcid|].
  split; [rewrite Hccells; simpl; by rewrite <- app_assoc|].
  split; [done|].
  intros id Hidin Hne.
  destruct (ids_registered g g' team p _ Hinv Hin Hfree Hsp id)
    as (old & Hold & _ & _); [by rewrite Hadj|].
  exists old. split; [done|].
  assert (old ∈ olds) as Holds.
  { unfold olds, absorbedCities. apply list_elem_of_omap. exists id.
    split; [done|]. by rewrite decide_False. }
  split; [done|]. split; [by apply Hgone|].
  intros q Hq.
  destruct (inv_cells g' Hinv' s _ Hs') as (_ & _ & _ & Hcells).
  apply Hcells. rewrite Hccells. apply elem_of_app. right.
  apply list_elem_of_bind. eauto.
Qed.

Lemma spawnCityTile_merges_into_first_neighbour_witness :
  exists g' c',
    spawnCityTile Scenario.two_cities TEAM_A 2 0 None = Some g'
    /\ cities g' !! "c_2" = Some c'
    /\ fuel c' = 42%Q.
Proof.
  destruct (proj1 spawnCityTile_merges_into_first_neighbour
              Scenario.two_cities TEAM_A (2, 0)%Z (3, 0)%Z [(1, 0)%Z])
    as (g' & survivor & c' & Hrun & Hsurv & _ & Hc' & _ & _ & Hfuel & _).
  - apply two_cities_CityInv.
  - reflexivity.
  - by vm_compute.
  - by vm_compute.
  - exists g', c'. split; [exact Hrun|]. split; [exact Hc'|].
    rewrite Hfuel. vm_compute in Hsurv. injection Hsurv as <-.
    by vm_compute.
Defined.

(** C10, counterexample.  From the city-free 3 by 1 map, a tile of team A on
    (0,0), one on (1,0), and one on (1,0) again: the tile on (0,0) counts two
    adjacent tiles of its team, and only one neighbouring cell holds one. *)
Lemma adjacency_counters_counterexample :
  exists g t,
    cityFree (Scenario.newGame 3 1)
    /\ Scenario.setup 3 1
         [Scenario.CityTileAt TEAM_A 0 0; Scenario.CityTileAt TEAM_A 1 0;
          Scenario.CityTileAt TEAM_A 1 0] = Some g
    /\ tileAt (game_map g) (0, 0)%Z = Some t
    /\ adjacentCityTiles t = 2%Z
    /\ Z.of_nat (length (adjSameTeam (game_map g) (ct_team t) (0, 0)%Z)) = 1%Z.
Proof.
  eexists _, _. split; [apply newGame_cityFree|].
  split; [by vm_compute|]. split; [by vm_compute|]. split; by vm_compute.
Qed.

Lemma adjacency_counters_recount_witness :
  exists g t,
    Scenario.setup 3 1
      [Scenario.CityTileAt TEAM_A 0 0; Scenario.CityTileAt TEAM_A 1 0;
       Scenario.CityTileAt TEAM_B 2 0; Scenario.Destroy "c_1";
       Scenario.CityTileAt TEAM_B 1 0] = Some g
    /\ tileAt (game_map g) (2, 0)%Z = Some t
    /\ adjacentCityTiles t
       = Z.of_nat (length (adjSameTeam (game_map g) (ct_team t) (2, 0)%Z)).
Proof.
  destruct (well_placed_reachable
              [Scenario.CityTileAt TEAM_A 0 0; Scenario.CityTileAt TEAM_A 1 0;
               Scenario.CityTileAt TEAM_B 2 0; Scenario.Destroy "c_1";
               Scenario.CityTileAt TEAM_B 1 0]
              (Scenario.newGame 3 1))
    as (g & Hrun & Hreach).
  - apply reach_cityFree, newGame_cityFree.
  - by vm_compute.
  - intros op Hop. repeat (apply elem_of_cons in Hop as [->|Hop]; [done|]).
    by apply elem_of_nil in Hop.
  - destruct (tileAt (game_map g) (2, 0)%Z) as [t|] eqn:Ht.
    + exists g, t. split; [exact Hrun|]. split; [done|].
      by apply (proj1 (adjacency_counters_recount g Hreach)).
    + exfalso. vm_compute in Hrun. injection Hrun as <-. by vm_compute in Ht.
Defined.
(** * Fuel of the cities under tile placement *)

Section CityFuel.
Local Open Scope Q_scope.

Lemma Qplus_swap (x y z : Q) : (x + (y + z) = y + (x + z))%Q.
Proof.
  unfold Qplus. simpl. f_equal.
  - rewrite !Pos2Z.inj_mul. ring.
  - lia.
Qed.

Lemma totalFuel_insert cs k c :
  cs !! k = None -> totalFuel (<[k := c]> cs) = (fuel c + totalFuel cs)%Q.
Proof.
  intros Hk. unfold totalFuel.
  rewrite (map_fold_insert_L (fun _ c a => (fuel c + a)%Q) 0%Q k c cs); [done| |done].
  intros. apply Qplus_swap.
Qed.

Lemma totalFuel_delete cs k c :
  cs !! k = Some c -> totalFuel cs = (fuel c + totalFuel (delete k cs))%Q.
Proof.
  intros Hk. rewrite <- (insert_delete_id cs k c Hk) at 1.
  apply totalFuel_insert, lookup_delete_eq.
Qed.

Lemma lookup_removeAll ks cs k :
  removeAll ks cs !! k = if decide (k ∈ ks) then None else cs !! k.
Proof.
  induction ks as [|k' ks IH].
  { unfold removeAll. cbn [foldr]. destruct (decide (k ∈ [])) as [Hin|]; [|done].
    by apply elem_of_nil in Hin. }
  cbn [removeAll foldr]. fold (removeAll ks cs).
  destruct (decide (k' = k)) as [->|Hne].
  - rewrite lookup_delete_eq. by rewrite decide_True by set_solver.
  - rewrite lookup_delete_ne by done. rewrite IH.
    destruct (decide (k ∈ ks)); [by rewrite decide_True by set_solver|].
    by rewrite decide_False by set_solver.
Qed.

Lemma totalFuel_empty : totalFuel ∅ = 0.
Proof. unfold totalFuel. apply map_fold_empty. Qed.

Lemma totalFuel_removeAll ks cs :
  NoDup ks ->
  totalFuel cs == Qsum (fuelOf cs <$> ks) + totalFuel (removeAll ks cs).
Proof.
  induction ks as [|k ks IH]; intros Hnd.
  { simpl. unfold Qsum. simpl. ring. }
  apply NoDup_cons in Hnd as [Hk Hnd].
  rewrite (IH Hnd), fmap_cons. cbn [removeAll foldr]. fold (removeAll ks cs).
  change (Qsum (fuelOf cs k :: (fuelOf cs <$> ks)))
    with (fuelOf cs k + Qsum (fuelOf cs <$> ks)).
  assert (removeAll ks cs !! k = cs !! k) as Hlook
    by (rewrite lookup_removeAll; by rewrite decide_False).
  unfold fuelOf at 2. rewrite <- Hlook.
  destruct (removeAll ks cs !! k) as [c|] eqn:Hc; simpl.
  - rewrite (totalFuel_delete _ _ _ Hc). ring.
  - rewrite delete_id by done. ring.
Qed.

Lemma totalFuel_refuel cs k f :
  totalFuel (alter (add_fuel f) k cs)
  == totalFuel cs + (if decide (is_Some (cs !! k)) then f else 0).
Proof.
  destruct (cs !! k) as [c|] eqn:Hc.
  - rewrite decide_True by eauto.
    rewrite (totalFuel_delete cs k c Hc).
    rewrite (totalFuel_delete (alter (add_fuel f) k cs) k (add_fuel f c))
      by (by rewrite lookup_alter_eq, Hc).
    rewrite delete_alter_eq. simpl. ring.
  - rewrite decide_False by (by intros [??]).
    assert (alter (add_fuel f) k cs = cs) as ->; [|ring].
    apply map_eq. intros k'. destruct (decide (k = k')) as [<-|Hne].
    + by rewrite lookup_alter_eq, Hc.
    + by rewrite lookup_alter_ne.
Qed.

Lemma Qsum_absorbed cs s ids :
  Qsum (fuel <$> absorbedCities cs s ids)
  == Qsum (fuelOf cs <$> filter (fun id => id <> s) ids).
Proof.
  induction ids as [|id ids IH]; [reflexivity|].
  rewrite absorbedCities_cons, filter_cons.
  destruct (decide (id = s)) as [->|Hne].
  { rewrite decide_False by (by intros ?). exact IH. }
  rewrite decide_True by done.
  rewrite fmap_cons. unfold fuelOf at 1.
  destruct (cs !! id) as [c|]; simpl.
  - change (Qsum (fuel c :: (fuel <$> absorbedCities cs s ids)))
      with (fuel c + Qsum (fuel <$> absorbedCities cs s ids)).
    change (Qsum (fuel c :: (fuelOf cs <$> filter (fun id0 => id0 <> s) ids)))
      with (fuel c + Qsum (fuelOf cs <$> filter (fun id0 => id0 <> s) ids)).
    by rewrite IH.
  - change (Qsum (0 :: (fuelOf cs <$> filter (fun id0 => id0 <> s) ids)))
      with (0 + Qsum (fuelOf cs <$> filter (fun id0 => id0 <> s) ids)).
    rewrite IH. ring.
Qed.

Lemma foldl_Qplus_Qsum a l : foldl Qplus a l == a + Qsum l.
Proof.
  revert a. induction l as [|x l IH]; intros a; simpl; [unfold Qsum; simpl; ring|].
  rewrite IH. change (Qsum (x :: l)) with (x + Qsum l). ring.
Qed.

(** Placing a tile moves fuel between cities and makes none. *)
Lemma Spawned_totalFuel g team p s g' :
  CityInv g -> Spawned g team p s g' ->
  totalFuel (cities g') == totalFuel (cities g).
Proof.
  intros Hinv (_ & _ & _ & (base & Hs & Hid & Hteam & Hcase) & Hgone & Hkeep).
  set (ids := idsFound (game_map g) (adjSameTeam (game_map g) team p)) in *.
  set (olds := absorbedCities (cities g) s ids) in *.
  set (ks := s :: filter (fun id => id <> s) ids).
  assert (NoDup ks) as Hnd.
  { apply NoDup_cons. split.
    - rewrite list_elem_of_filter. tauto.
    - apply NoDup_filter, idsFound_NoDup. }
  assert (cities g'
          = <[s := absorbingAll olds (addCityTile base p)]>
              (removeAll ks (cities g))) as ->.
  { apply map_eq. intros k. destruct (decide (k = s)) as [->|Hk].
    - by rewrite lookup_insert_eq.
    - rewrite lookup_insert_ne by done. rewrite lookup_removeAll.
      destruct (decide (k ∈ ids)) as [Hin|Hin].
      + rewrite decide_True by (unfold ks; rewrite elem_of_cons,
          list_elem_of_filter; tauto).
        by apply Hgone.
      + rewrite decide_False by (unfold ks; rewrite elem_of_cons,
          list_elem_of_filter; tauto).
        by apply Hkeep. }
  rewrite totalFuel_insert
    by (rewrite lookup_removeAll; apply decide_True; unfold ks; set_solver).
  rewrite (totalFuel_removeAll ks (cities g) Hnd).
  destruct (absorbingAll_fields olds (addCityTile base p)) as (_ & _ & _ & ->).
  rewrite foldl_Qplus_Qsum. unfold ks. rewrite fmap_cons.
  change (Qsum (fuelOf (cities g) s
                  :: (fuelOf (cities g) <$> filter (fun id => id <> s) ids)))
    with (fuelOf (cities g) s
          + Qsum (fuelOf (cities g) <$> filter (fun id => id <> s) ids)).
  unfold olds. rewrite Qsum_absorbed. simpl.
  assert (fuelOf (cities g) s = fuel base) as ->; [|ring].
  unfold fuelOf.
  destruct Hcase as [(_ & -> & -> & _)|(_ & -> & _)]; done.
Qed.

Lemma Spawned_tiles g team p s g' q :
  Spawned g team p s g' ->
  (is_Some (tileAt (game_map g') q)
   <-> q = p \/ is_Some (tileAt (game_map g) q))
  /\ forall t', tileAt (game_map g') q = Some t' ->
       ct_team t' = team
       \/ exists t, tileAt (game_map g) q = Some t /\ ct_team t' = ct_team t.
Proof.
  intros (_ & Hnew & Hold & _).
  destruct (decide (q = p)) as [->|Hq].
  - rewrite Hnew. split; [split; eauto|]. intros t' [= <-]. by left.
  - rewrite (Hold q Hq). destruct (tileAt (game_map g) q) as [t|]; simpl.
    + split; [split; eauto|]. intros t' [= <-]. right. eauto.
    + split; [|done]. split; [by intros [??]|]. intros [?|[??]]; done.
Qed.

Lemma build_run team bs g total placed :
  CityInv g ->
  (forall q, is_Some (tileAt (game_map g) q) <-> q ∈ placed) ->
  (forall q t, tileAt (game_map g) q = Some t -> ct_team t = team) ->
  NoDup (placed ++ places bs) ->
  (forall q, q ∈ places bs -> inMap (game_map g) q = true) ->
  totalFuel (cities g) == total ->
  exists g' total',
    forEach (build team) bs (g, total) = Some (g', total')
    /\ CityInv g'
    /\ same_dims (game_map g) (game_map g')
    /\ (forall q, is_Some (tileAt (game_map g') q) <-> q ∈ placed ++ places bs)
    /\ (forall q t, tileAt (game_map g') q = Some t -> ct_team t = team)
    /\ totalFuel (cities g') == total'.
Proof.
  revert g total placed.
  induction bs as [|b bs IH]; intros g total placed Hinv Htiles Hteam Hnd Hin Hfuel.
  { exists g, total. split; [done|]. split; [done|]. split; [done|].
    split; [|done]. intros q. rewrite Htiles. simpl. by rewrite app_nil_r. }
  cbn [forEach]. destruct b as [p|k f].
  - (* a tile *)
    cbn [places omap list_omap] in Hnd, Hin. fold (places bs) in Hnd, Hin.
    assert (tileAt (game_map g) p = None) as Hfree.
    { destruct (tileAt (game_map g) p) eqn:Ht; [|done].
      assert (p ∈ placed) as Hp by (apply Htiles; rewrite Ht; eauto).
      apply NoDup_app in Hnd as (_ & Hdisj & _). destruct (Hdisj p Hp). set_solver. }
    destruct (spawnCityTile_Spawned g team p Hinv) as (g1 & s & Hrun & Hsp);
      [apply Hin; set_solver|done|].
    cbn [build fst snd]. rewrite Hrun. cbn [mbind option_bind].
    pose proof Hsp as (Hdims1 & _).
    destruct (IH g1 total (placed ++ [p]))
      as (g' & total' & Hrun' & Hinv' & Hdims & Htiles' & Hteam' & Hfuel').
    + eapply Spawned_CityInv; [done| |done|done]. apply Hin. set_solver.
    + intros q. rewrite (proj1 (Spawned_tiles g team p s g1 q Hsp)).
      rewrite Htiles. set_solver.
    + intros q t' Ht'.
      destruct (proj2 (Spawned_tiles g team p s g1 q Hsp) t' Ht')
        as [?|(t & Ht & ->)]; [done|]. by apply (Hteam q).
    + by rewrite <- app_assoc.
    + intros q Hq. destruct Hdims1 as [Hw Hh].
      rewrite (inMap_dims _ (game_map g)) by done. apply Hin. set_solver.
    + by rewrite (Spawned_totalFuel g team p s g1 Hinv Hsp).
    + exists g', total'. split; [done|]. split; [done|].
      split; [destruct Hdims1, Hdims; split; congruence|].
      split; [|done]. intros q. rewrite Htiles'.
      cbn [places omap list_omap]. fold (places bs). by rewrite <- app_assoc.
  - (* a deposit *)
    cbn [build fst snd mbind option_bind places omap list_omap] in *.
    fold (places bs) in *.
    apply (IH (set_cities g (alter (add_fuel f) k (cities g))) _ placed);
      try done.
    + by apply refuel_CityInv.
    + cbn [cities set_cities]. rewrite totalFuel_refuel.
      case_decide; rewrite Hfuel; ring.
Qed.

Lemma totalFuel_singleton k c : totalFuel ({[k := c]} : gmap string City) == fuel c.
Proof.
  rewrite <- insert_empty. rewrite totalFuel_insert by apply lookup_empty.
  rewrite totalFuel_empty. ring.
Qed.

End CityFuel.

(** C5.  Three cells of the map, the first and the third each next to the
    second, receive a tile of one team each, in any order, from a game
    without cities; between the placements, fuel may be put into the cities
    then registered.  Every such run returns, and leaves exactly one city:
    its cells are the three cells, the three tiles carry its id, and its
    fuel is the sum of the fuel that was put into the cities merged. *)
Theorem city_formation_order_independent :
  forall (g0 : Game) (team : TEAM) (p1 p2 p3 : Position) (bs : list Build),
    cityFree g0 ->
    inMap (game_map g0) p1 = true ->
    inMap (game_map g0) p2 = true ->
    inMap (game_map g0) p3 = true ->
    p1 ∈ getAdjacentCells (game_map g0) p2 ->
    p3 ∈ getAdjacentCells (game_map g0) p2 ->
    p1 <> p3 ->
    places bs ≡ₚ [p1; p2; p3] ->
    exists g' deposited k c,
      forEach (build team) bs (g0, 0%Q) = Some (g', deposited)
      /\ cities g' = {[ k := c ]}
      /\ city_team c = team
      /\ citycells c ≡ₚ [p1; p2; p3]
      /\ (forall q, is_Some (tileAt (game_map g') q) <-> q ∈ [p1; p2; p3])
      /\ (forall q t, tileAt (game_map g') q = Some t ->
            ct_team t = team /\ cityid t = k)
      /\ fuel c == deposited.
Proof.
  intros g0 team p1 p2 p3 bs Hfree Hin1 Hin2 Hin3 Hadj1 Hadj3 Hne Hperm.
  assert (p1 <> p2) as Hne12.
  { intros ->. by apply getAdjacentCells_irrefl in Hadj1. }
  assert (p3 <> p2) as Hne32.
  { intros ->. by apply getAdjacentCells_irrefl in Hadj3. }
  destruct (build_run team bs g0 0%Q [])
    as (g' & total & Hrun & Hinv & Hdims & Htiles & Hteam & Hfuel).
  - by apply cityFree_CityInv.
  - intros q. destruct Hfree as [_ Hnone]. rewrite Hnone.
    split; [by intros [??]|by intros ?%elem_of_nil].
  - intros q t. destruct Hfree as [_ Hnone]. by rewrite Hnone.
  - simpl. rewrite Hperm. repeat constructor; set_solver.
  - intros q. rewrite Hperm. intros Hq.
    repeat (apply elem_of_cons in Hq as [->|Hq]; [done|]).
    by apply elem_of_nil in Hq.
  - destruct Hfree as [-> _]. by rewrite totalFuel_empty.
  - simpl in Htiles.
    assert (forall q, is_Some (tileAt (game_map g') q) <-> q ∈ [p1; p2; p3])
      as Htiles'.
    { intros q. rewrite Htiles. by rewrite Hperm. }
    destruct (proj2 (Htiles' p1)) as [t1 Ht1]; [set_solver|].
    destruct (proj2 (Htiles' p2)) as [t2 Ht2]; [set_solver|].
    destruct (proj2 (Htiles' p3)) as [t3 Ht3]; [set_solver|].
    assert (forall q, q ∈ getAdjacentCells (game_map g0) p2 ->
                      q ∈ getAdjacentCells (game_map g') p2) as Hadj.
    { intros q. destruct Hdims as [Hw Hh].
      by rewrite (getAdjacentCells_dims (game_map g') (game_map g0)). }
    assert (cityid t2 = cityid t1) as H21.
    { apply (inv_joined g' Hinv p2 p1); [done|done|by apply Hadj|].
      rewrite (Hteam _ _ Ht1). by rewrite (Hteam _ _ Ht2). }
    assert (cityid t2 = cityid t3) as H23.
    { apply (inv_joined g' Hinv p2 p3); [done|done|by apply Hadj|].
      rewrite (Hteam _ _ Ht3). by rewrite (Hteam _ _ Ht2). }
    assert (forall q t, tileAt (game_map g') q = Some t -> cityid t = cityid t2)
      as Hids.
    { intros q t Ht.
      assert (q ∈ [p1; p2; p3]) as Hq by (apply Htiles'; rewrite Ht; eauto).
      repeat (apply elem_of_cons in Hq as [->|Hq]; [congruence|]).
      by apply elem_of_nil in Hq. }
    destruct (inv_registered g' Hinv p2 t2 Ht2) as (c & Hc & Hcteam & Hp2).
    assert (cities g' = {[ cityid t2 := c ]}) as Hcities.
    { apply map_eq. intros k'.
      destruct (decide (k' = cityid t2)) as [->|Hk'].
      - by rewrite lookup_singleton_eq.
      - rewrite lookup_singleton_ne by done.
        destruct (cities g' !! k') as [c'|] eqn:Hc'; [|done].
        destruct (inv_cells g' Hinv k' c' Hc') as (_ & _ & Hnil & Hcells).
        destruct (citycells c') as [|q l]; [done|].
        destruct (Hcells q) as (t & Ht & Hid); [set_solver|].
        rewrite (Hids q t Ht) in Hid. congruence. }
    exists g', total, (cityid t2), c.
    split; [done|]. split; [done|].
    split; [rewrite Hcteam; by apply (Hteam p2)|].
    split.
    { destruct (inv_cells g' Hinv _ c Hc) as (_ & Hnd & _ & Hcells).
      apply NoDup_Permutation; [done|repeat constructor; set_solver|].
      intros q. split.
      - intros Hq. destruct (Hcells q Hq) as (t & Ht & _).
        apply Htiles'. rewrite Ht. eauto.
      - intros Hq. destruct (proj2 (Htiles' q) Hq) as [t Ht].
        destruct (inv_registered g' Hinv q t Ht) as (c' & Hc' & _ & Hqin).
        rewrite (Hids q t Ht) in Hc'. congruence. }
    split; [done|].
    split; [intros q t Ht; split; [by apply (Hteam q)|by apply (Hids q)]|].
    rewrite <- Hfuel. rewrite Hcities. by rewrite totalFuel_singleton.
Qed.

Lemma city_formation_order_independent_witness :
  exists g' k c,
    forEach (build TEAM_A)
      [Place (0, 0)%Z; Deposit "c_1" 30; Place (2, 0)%Z; Deposit "c_2" 12;
       Place (1, 0)%Z]
      (Scenario.newGame 3 1, 0%Q) = Some (g', 42%Q)
    /\ cities g' = {[ k := c ]}
    /\ citycells c ≡ₚ [(0, 0); (1, 0); (2, 0)]%Z
    /\ fuel c == 42%Q.
Proof.
  destruct (city_formation_order_independent (Scenario.newGame 3 1) TEAM_A
              (0, 0)%Z (1, 0)%Z (2, 0)%Z
              [Place (0, 0)%Z; Deposit "c_1" 30; Place (2, 0)%Z;
               Deposit "c_2" 12; Place (1, 0)%Z])
    as (g' & total & k & c & Hrun & Hcities & _ & Hcells & _ & _ & Hfuel).
  - apply newGame_cityFree.
  - reflexivity.
  - reflexivity.
  - reflexivity.
  - vm_compute. set_solver.
  - vm_compute. set_solver.
  - done.
  - cbn. apply perm_skip, perm_swap.
  - assert (total = 42%Q) as Htotal.
    { vm_compute in Hrun. by injection Hrun as _ <-. }
    exists g', k, c. rewrite Htotal in Hrun, Hfuel.
    split; [exact Hrun|]. split; [exact Hcities|].
    split; [exact Hcells|exact Hfuel].
Defined.
(** * Movement: the cells whose actions are reverted *)


Lemma Map_get_cons e (m : CellActions) c :
  Map_get (e :: m) c = if decide (e.1 = c) then Some e.2 else Map_get m c.
Proof.
  unfold Map_get. simpl. destruct (decide (e.1 = c)) as [He|He].
  - by rewrite bool_decide_eq_true_2.
  - by rewrite bool_decide_eq_false_2.
Qed.

Lemma Map_get_set (m : CellActions) c v c' :
  Map_get (Map_set m c v) c' = if decide (c = c') then Some v else Map_get m c'.
Proof.
  induction m as [|e m IH]; simpl.
  - rewrite Map_get_cons. simpl. by destruct (decide (c = c')).
  - destruct (decide (e.1 = c)) as [He|He].
    + rewrite !Map_get_cons. simpl.
      destruct (decide (c = c')) as [Hc|Hc]; [done|].
      rewrite decide_False; [done|congruence].
    + rewrite !Map_get_cons. rewrite IH.
      destruct (decide (e.1 = c')) as [He'|He']; [|done].
      rewrite decide_False; [done|congruence].
Qed.

Lemma Map_get_remaining D (m : CellActions) c :
  Map_get (remaining D m) c = if decide (c ∈ D) then None else Map_get m c.
Proof.
  unfold remaining. induction m as [|e m IH].
  - by destruct (decide (c ∈ D)).
  - rewrite filter_cons. destruct (decide (e.1 ∉ D)) as [He|He].
    + rewrite !Map_get_cons. destruct (decide (e.1 = c)) as [Hc|Hc]; [|done].
      rewrite decide_False; [done|congruence].
    + rewrite IH. rewrite Map_get_cons.
      destruct (decide (c ∈ D)) as [Hc|Hc]; [done|].
      rewrite decide_False; [done|]. intros Hec. apply He. congruence.
Qed.

Lemma Map_get_keys (m : CellActions) c l :
  Map_get m c = Some l -> c ∈ Map_keys m.
Proof.
  induction m as [|e m IH]; [done|]. rewrite Map_get_cons.
  unfold Map_keys. rewrite fmap_cons.
  destruct (decide (e.1 = c)) as [He|He].
  - intros _. rewrite He. set_solver.
  - intros Hm. apply elem_of_cons. right. by apply IH.
Qed.

Lemma Map_delete_remaining D (m : CellActions) c :
  Map_delete (remaining D m) c = remaining (D ∪ {[c]}) m.
Proof.
  unfold Map_delete, remaining. rewrite list_filter_filter.
  apply list_filter_iff. intros e. set_solver.
Qed.

Lemma remaining_empty (m : CellActions) : remaining ∅ m = m.
Proof.
  unfold remaining. induction m as [|e m IH]; [done|].
  rewrite filter_cons_True by set_solver. by rewrite IH.
Qed.

Lemma remaining_length_mono D D' (m : CellActions) :
  D ⊆ D' -> (length (remaining D' m) <= length (remaining D m))%nat.
Proof.
  intros Hsub. unfold remaining. induction m as [|e m IH]; [done|].
  rewrite !filter_cons.
  destruct (decide (e.1 ∉ D')) as [He'|He']; destruct (decide (e.1 ∉ D)) as [He|He];
    simpl; try lia.
  exfalso. apply He. intros HD. apply He'. set_solver.
Qed.

Lemma remaining_length_lt D (m : CellActions) c l :
  Map_get (remaining D m) c = Some l ->
  (length (remaining (D ∪ {[c]}) m) < length (remaining D m))%nat.
Proof.
  rewrite Map_get_remaining. destruct (decide (c ∈ D)) as [|Hc]; [done|].
  unfold remaining. induction m as [|e m IH]; [done|].
  rewrite Map_get_cons. rewrite !filter_cons.
  destruct (decide (e.1 = c)) as [He|He].
  - intros _.
    rewrite (decide_False (P := e.1 ∉ D ∪ {[c]})) by set_solver.
    rewrite (decide_True (P := e.1 ∉ D)) by congruence. simpl.
    pose proof (remaining_length_mono D (D ∪ {[c]}) m) as Hle.
    unfold remaining in Hle. apply Nat.lt_succ_r, Hle. set_solver.
  - intros Hm. specialize (IH Hm).
    destruct (decide (e.1 ∉ D)) as [HD|HD].
    + rewrite decide_True by set_solver. simpl. lia.
    + rewrite decide_False by set_solver. done.
Qed.

Lemma filed_snoc actions a :
  filed (actions ++ [a]) = fileAction (filed actions) a.
Proof. unfold filed. by rewrite foldl_app. Qed.

Lemma fileAction_set st a :
  (fileAction st a).1
  = Map_set st.1 (newcell a) (default [] (Map_get st.1 (newcell a)) ++ [a]).
Proof. unfold fileAction. simpl. by destruct (Map_get st.1 (newcell a)). Qed.

Lemma Map_get_filed actions c :
  Map_get (filed actions).1 c = nonempty (targeting actions c).
Proof.
  induction actions as [|a actions IH] using rev_ind; [done|].
  rewrite filed_snoc, fileAction_set, Map_get_set.
  unfold targeting in *. rewrite filter_app, filter_cons, filter_nil.
  destruct (decide (newcell a = c)) as [Hc|Hc].
  - rewrite Hc, IH. by destruct (filter _ actions).
  - by rewrite app_nil_r.
Qed.

Lemma movers_filed actions : (filed actions).2 = movers actions.
Proof.
  induction actions as [|a actions IH] using rev_ind; [done|].
  rewrite filed_snoc. unfold fileAction. cbn [snd]. rewrite IH.
  unfold movers. rewrite fmap_app, list_to_set_app_L. set_solver.
Qed.

Lemma prunedActions_cons e (m : CellActions) :
  prunedActions (e :: m) = e.2 ++ prunedActions m.
Proof. done. Qed.

Lemma prunedActions_set D (m : CellActions) c a :
  prunedActions (remaining D (Map_set m c (default [] (Map_get m c) ++ [a])))
  ≡ₚ prunedActions (remaining D m) ++ (if decide (c ∈ D) then [] else [a]).
Proof.
  unfold remaining. induction m as [|e m IH].
  - simpl. rewrite filter_cons, filter_nil. simpl.
    destruct (decide (c ∈ D)) as [Hc|Hc].
    + by rewrite decide_False by (by intros H; apply H).
    + by rewrite decide_True.
  - rewrite Map_get_cons. cbn [Map_set].
    destruct (decide (e.1 = c)) as [He|He].
    + simpl. rewrite !filter_cons. simpl.
      destruct (decide (c ∈ D)) as [Hc|Hc].
      * rewrite (decide_False (P := c ∉ D)) by (by intros H; apply H).
        rewrite (decide_False (P := e.1 ∉ D)) by (rewrite He; by intros H; apply H).
        by rewrite app_nil_r.
      * rewrite (decide_True (P := c ∉ D)) by done.
        rewrite (decide_True (P := e.1 ∉ D)) by congruence.
        rewrite !prunedActions_cons. simpl.
        rewrite <- !app_assoc. apply Permutation_app_head, Permutation_app_comm.
    + rewrite !filter_cons. destruct (decide (e.1 ∉ D)).
      * rewrite !prunedActions_cons, IH. by rewrite app_assoc.
      * apply IH.
Qed.

Lemma prunedActions_filed D actions :
  prunedActions (remaining D (filed actions).1)
  ≡ₚ filter (fun a => newcell a ∉ D) actions.
Proof.
  induction actions as [|a actions IH] using rev_ind; [done|].
  rewrite filed_snoc, fileAction_set, prunedActions_set, IH.
  rewrite filter_app, filter_cons, filter_nil.
  destruct (decide (newcell a ∈ D)) as [Hc|Hc].
  - by rewrite decide_False by (by intros H; apply H).
  - by rewrite decide_True.
Qed.

Lemma foldl_Map_delete D (l : list MoveAction) (m : CellActions) :
  foldl (fun m action => Map_delete m (newcell action)) (remaining D m) l
  = remaining (D ∪ list_to_set (newcell <$> l)) m.
Proof.
  revert D. induction l as [|a l IH]; intros D.
  - simpl. f_equal. set_solver.
  - cbn [foldl]. rewrite Map_delete_remaining, IH. f_equal.
    rewrite fmap_cons, list_to_set_cons. set_solver.
Qed.

Section Movement.
Context (g : Game) (actions : list MoveAction).
Hypothesis Hunits : forall a, a ∈ actions -> onMap g a.

Lemma vacated_mono D D' a : D ⊆ D' -> vacated g D a -> vacated g D' a.
Proof. intros Hsub Hv u Hu Hc. apply Hsub. by apply Hv. Qed.

Lemma elem_of_targeting a c : a ∈ targeting actions c <-> a ∈ actions /\ newcell a = c.
Proof. unfold targeting. rewrite list_elem_of_filter. tauto. Qed.

Lemma Map_get_remaining_filed D c :
  Map_get (remaining D (filed actions).1) c
  = if decide (c ∈ D) then None else nonempty (targeting actions c).
Proof. by rewrite Map_get_remaining, Map_get_filed. Qed.

Lemma nonempty_Some {X} (l l' : list X) : nonempty l = Some l' -> l' = l /\ l <> [].
Proof. destruct l; [done|]. by intros [= <-]. Qed.

Lemma nonempty_None {X} (l : list X) : nonempty l = None -> l = [].
Proof. by destruct l. Qed.

Lemma forEach_reverts depth :
  reverts g actions depth ->
  forall l D W,
    (length (remaining D (filed actions).1) < depth)%nat ->
    (forall a, a ∈ l -> a ∈ actions /\ bumped g actions (newcell a)) ->
    sound g actions D -> closedUpTo g actions D (l ++ W) ->
    exists D',
      forEach (revertAction depth g) l (remaining D (filed actions).1)
      = Done (remaining D' (filed actions).1)
      /\ D ⊆ D' /\ sound g actions D' /\ closedUpTo g actions D' W
      /\ forall a, a ∈ l -> vacated g D' a.
Proof using Type.
  clear Hunits. intros IH. induction l as [|a l IHl]; intros D W Hlen Hl Hsound Hclosed.
  - exists D. split; [done|]. split; [done|]. split; [done|]. split; [done|].
    by intros a ?%elem_of_nil.
  - destruct (IH D (l ++ W) a) as (D1 & Hrun1 & Hsub1 & Hsound1 & Hclosed1 & Hv1);
      [done|apply Hl; set_solver|apply Hl; set_solver|done|done|].
    destruct (IHl D1 W) as (D2 & Hrun2 & Hsub2 & Hsound2 & Hclosed2 & Hv2);
      [|intros; apply Hl; set_solver|done|done|].
    { pose proof (remaining_length_mono D D1 (filed actions).1 Hsub1). lia. }
    exists D2. cbn [forEach]. rewrite Hrun1. cbn. rewrite Hrun2.
    split; [done|]. split; [set_solver|]. split; [done|]. split; [done|].
    intros a' [->|Ha']%elem_of_cons; [by eapply vacated_mono|by apply Hv2].
Qed.

Lemma revertAction_reverts depth : reverts g actions depth.
Proof using All.
  induction depth as [|depth IH]; intros D W a Hlen Ha Hb Hsound Hclosed; [lia|].
  pose proof (forEach_reverts depth IH) as Hall.
  destruct (Hunits a Ha) as (u & Hu & Hin).
  cbn [revertAction]. rewrite Hu. cbn [lift mbind Run_bind].
  unfold getCellByPos, getCell. rewrite <- surjective_pairing, Hin.
  cbn [lift mbind Run_bind].
  destruct (isCityTile (cellAt (game_map g) (unit_pos u))) eqn:Hcity.
  - (* a city tile: nothing is deleted *)
    assert (vacated g D a) as Hvac.
    { intros u' Hu'. rewrite Hu in Hu'. injection Hu' as <-. congruence. }
    exists D. split; [done|]. split; [done|]. split; [done|]. split; [|done].
    intros a' Ha' Hnew. destruct (Hclosed a' Ha' Hnew) as [?|Hw]; [by left|].
    apply elem_of_cons in Hw as [->|?]; [by left|by right].
  - assert (sound g actions (D ∪ {[unit_pos u]})) as Hsound'.
    { intros c [Hc|Hc%elem_of_singleton]%elem_of_union; [by apply Hsound|].
      rewrite Hc. by apply (bumped_back g actions (newcell a) a u). }
    assert (vacated g (D ∪ {[unit_pos u]}) a) as Hvac.
    { intros u' Hu'. rewrite Hu in Hu'. injection Hu' as <-. set_solver. }
    rewrite Map_delete_remaining.
    destruct (Map_get (remaining D (filed actions).1) (unit_pos u))
      as [l|] eqn:Hget.
    + (* the actions to the cell are reverted in turn *)
      pose proof (remaining_length_lt _ _ _ _ Hget) as Hlt.
      rewrite Map_get_remaining_filed in Hget.
      destruct (decide (unit_pos u ∈ D)) as [|HuD]; [done|].
      apply nonempty_Some in Hget as [-> _].
      destruct (Hall (targeting actions (unit_pos u)) (D ∪ {[unit_pos u]}) W)
        as (D' & Hrun & Hsub & Hsound2 & Hclosed2 & _).
      * lia.
      * intros a' [Ha' Hnew]%elem_of_targeting. split; [done|].
        rewrite Hnew. apply Hsound'. set_solver.
      * done.
      * intros a' Ha' [Hnew|Hnew%elem_of_singleton]%elem_of_union.
        -- destruct (Hclosed a' Ha' Hnew) as [Hv|Hw].
           ++ left. eapply vacated_mono; [|done]. set_solver.
           ++ apply elem_of_cons in Hw as [->|?]; [by left|].
              right. apply elem_of_app. by right.
        -- right. apply elem_of_app. left. by apply elem_of_targeting.
      * exists D'. split; [done|]. split; [set_solver|]. split; [done|].
        split; [done|]. by eapply vacated_mono.
    + (* no action goes to the cell, or they were reverted before *)
      exists (D ∪ {[unit_pos u]}). split; [done|]. split; [set_solver|].
      split; [done|]. split; [|done].
      intros a' Ha' [Hnew|Hnew%elem_of_singleton]%elem_of_union.
      * destruct (Hclosed a' Ha' Hnew) as [Hv|Hw].
        -- left. eapply vacated_mono; [|done]. set_solver.
        -- apply elem_of_cons in Hw as [->|?]; [by left|by right].
      * rewrite Map_get_remaining_filed in Hget.
        destruct (decide (unit_pos u ∈ D)) as [HuD|HuD].
        -- destruct (Hclosed a' Ha') as [Hv|Hw]; [by rewrite Hnew| |].
           ++ left. eapply vacated_mono; [|done]. set_solver.
           ++ apply elem_of_cons in Hw as [->|?]; [by left|by right].
        -- apply nonempty_None in Hget.
           assert (a' ∈ targeting actions (unit_pos u)) as Hin'
             by by apply elem_of_targeting.
           rewrite Hget in Hin'. by apply elem_of_nil in Hin'.
Qed.

Lemma actionsToRevert_collides c l :
  nonempty (targeting actions c) = Some l ->
  (collides g actions c
   /\ actionsToRevert (cellAt (game_map g) c) (movers actions) (Some l) = l)
  \/ (~ collides g actions c
      /\ actionsToRevert (cellAt (game_map g) c) (movers actions) (Some l) = []).
Proof using Type.
  clear Hunits. intros [-> Hne]%nonempty_Some.
  unfold collides, actionsToRevert.
  destruct (targeting actions c) as [|a [|b l]]; [done| |].
  - cbn [length Nat.ltb Nat.leb].
    destruct (isCityTile _); [right; split; [by intros [? _]|done]|].
    destruct (Nat.eqb_spec (length (units (cellAt (game_map g) c))) 1) as [Hn|Hn].
    + destruct (unitThereIsStill _ _).
      * left. split; [|done]. split; [done|]. right. done.
      * right. split; [|done]. intros [_ [?|(_ & _ & ?)]]; [lia|done].
    + right. split; [|done]. intros [_ [?|(_ & ? & _)]]; [lia|done].
  - cbn [length Nat.ltb Nat.leb].
    destruct (isCityTile _); [right; split; [by intros [? _]|done]|].
    left. split; [|done]. split; [done|]. left. lia.
Qed.

Lemma resolveCell_spec D c :
  sound g actions D -> closedUpTo g actions D [] ->
  exists D',
    resolveCell (S (length (filed actions).1)) g (filed actions).2
      (remaining D (filed actions).1) c
    = Done (remaining D' (filed actions).1)
    /\ D ⊆ D' /\ sound g actions D' /\ closedUpTo g actions D' []
    /\ (collides g actions c -> c ∈ D').
Proof using All.
  intros Hsound Hclosed. unfold resolveCell.
  rewrite movers_filed, Map_get_remaining_filed.
  destruct (decide (c ∈ D)) as [HcD|HcD].
  { exists D. done. }
  destruct (nonempty (targeting actions c)) as [l|] eqn:Hl.
  2:{ exists D. split; [done|]. split; [done|]. split; [done|]. split; [done|].
      apply nonempty_None in Hl. intros [_ Hcol]. rewrite Hl in Hcol.
      simpl in Hcol. destruct Hcol as [?|[? _]]; [lia|done]. }
  destruct (actionsToRevert_collides c l Hl) as [[Hcol ->]|[Hcol ->]].
  2:{ exists D. done. }
  apply nonempty_Some in Hl as [-> Hne].
  destruct (forEach_reverts (S (length (filed actions).1))
              (revertAction_reverts _) (targeting actions c) D [])
    as (D1 & Hrun & Hsub & Hsound1 & Hclosed1 & Hvac).
  - pose proof (remaining_length_mono ∅ D (filed actions).1) as Hle.
    rewrite remaining_empty in Hle. apply Nat.lt_succ_r, Hle. set_solver.
  - intros a [Ha Hnew]%elem_of_targeting. split; [done|].
    rewrite Hnew. by apply bumped_here.
  - done.
  - intros a Ha Hnew. destruct (Hclosed a Ha Hnew) as [?|?%elem_of_nil]; [|done].
    by left.
  - rewrite Hrun. cbn [mbind Run_bind]. rewrite foldl_Map_delete.
    assert (forall q, q ∈ (list_to_set (newcell <$> targeting actions c)
                             : gset Position) <-> q = c) as Hset.
    { intros q. rewrite elem_of_list_to_set, list_elem_of_fmap. split.
      - by intros (a & -> & [_ Hnew]%elem_of_targeting).
      - intros ->. destruct (targeting actions c) as [|a l] eqn:Ht; [done|].
        exists a. split; [|set_solver].
        assert (a ∈ targeting actions c) as [_ ?]%elem_of_targeting
          by (rewrite Ht; set_solver).
        done. }
    eexists. split; [done|]. split; [set_solver|].
    split; [|split].
    + intros q [Hq|Hq%Hset]%elem_of_union; [by apply Hsound1|].
      rewrite Hq. by apply bumped_here.
    + intros a Ha [Hnew|Hnew%Hset]%elem_of_union; left.
      * destruct (Hclosed1 a Ha Hnew) as [Hv|?%elem_of_nil]; [|done].
        eapply vacated_mono; [|done]. set_solver.
      * eapply vacated_mono; [|apply Hvac; by apply elem_of_targeting].
        set_solver.
    + intros _. apply elem_of_union. right. by apply Hset.
Qed.

Lemma forEach_resolveCell cells :
  forall D,
    sound g actions D -> closedUpTo g actions D [] ->
    exists D',
      forEach (resolveCell (S (length (filed actions).1)) g (filed actions).2)
        cells (remaining D (filed actions).1)
      = Done (remaining D' (filed actions).1)
      /\ D ⊆ D' /\ sound g actions D' /\ closedUpTo g actions D' []
      /\ (forall c, c ∈ cells -> collides g actions c -> c ∈ D').
Proof using All.
  induction cells as [|c cells IH]; intros D Hsound Hclosed.
  - exists D. split; [done|]. split; [done|]. split; [done|]. split; [done|].
    by intros c ?%elem_of_nil.
  - destruct (resolveCell_spec D c Hsound Hclosed)
      as (D1 & Hrun1 & Hsub1 & Hsound1 & Hclosed1 & Hc1).
    destruct (IH D1 Hsound1 Hclosed1)
      as (D2 & Hrun2 & Hsub2 & Hsound2 & Hclosed2 & Hc2).
    exists D2. cbn [forEach]. rewrite Hrun1. cbn [mbind Run_bind]. rewrite Hrun2.
    split; [done|]. split; [set_solver|]. split; [done|]. split; [done|].
    intros c' [->|Hc']%elem_of_cons Hcol; [|by apply Hc2].
    apply Hsub2. by apply Hc1.
Qed.

(** The moves accepted are those to a cell that is not bumped, whatever the
    order of the batch. *)
Lemma handleMovementActions_bumped :
  exists (D : gset Position) pruned,
    handleMovementActions g actions = Some pruned
    /\ pruned ≡ₚ filter (fun a => newcell a ∉ D) actions
    /\ forall c, c ∈ D <-> bumped g actions c.
Proof using All.
  destruct (forEach_resolveCell (Map_keys (filed actions).1) ∅)
    as (D & Hrun & _ & Hsound & Hclosed & Hcol).
  - by intros c ?%elem_of_empty.
  - by intros a _ ?%elem_of_empty.
  - rewrite remaining_empty in Hrun.
    exists D, (prunedActions (remaining D (filed actions).1)).
    split; [|split].
    + unfold handleMovementActions, handleMovementActions_run.
      fold (filed actions). destruct (filed actions) as [m mv] eqn:Hf.
      cbn [fst snd] in Hrun. by rewrite Hrun.
    + apply prunedActions_filed.
    + intros c. split; [apply Hsound|].
      induction 1 as [c Hc|c a u _ IH Ha Hnew Hu Hcity].
      * apply Hcol; [|done].
        destruct (nonempty (targeting actions c)) as [l|] eqn:Hl.
        -- apply (Map_get_keys _ _ l). by rewrite Map_get_filed.
        -- apply nonempty_None in Hl. destruct Hc as [_ Hc]. rewrite Hl in Hc.
           simpl in Hc. destruct Hc as [?|[? _]]; [lia|done].
      * rewrite <- Hnew in IH.
        destruct (Hclosed a Ha IH) as [Hv|?%elem_of_nil]; [|done].
        by apply Hv.
Qed.

End Movement.

Lemma targeting_perm actions actions' c :
  actions ≡ₚ actions' -> targeting actions c ≡ₚ targeting actions' c.
Proof. intros Hp. unfold targeting. by rewrite Hp. Qed.

Lemma movers_perm actions actions' :
  actions ≡ₚ actions' -> movers actions = movers actions'.
Proof. intros Hp. unfold movers. apply list_to_set_perm_L. by rewrite Hp. Qed.

Lemma collides_perm g actions actions' c :
  actions ≡ₚ actions' -> collides g actions c -> collides g actions' c.
Proof.
  intros Hp. unfold collides.
  rewrite (movers_perm _ _ Hp).
  by rewrite (Permutation_length (targeting_perm _ _ c Hp)).
Qed.

Lemma bumped_perm g actions actions' c :
  actions ≡ₚ actions' -> bumped g actions c -> bumped g actions' c.
Proof.
  intros Hp. induction 1 as [c Hc|c a u _ IH Ha Hnew Hu Hcity].
  - apply bumped_here. by eapply collides_perm.
  - apply (bumped_back g actions' c a u); try done. by rewrite <- Hp.
Qed.


(** * Movement: confluence and collisions *)

(** C2.  For every batch of move actions whose units exist and stand on the
    map, and every permutation of the batch, [handleMovementActions] returns
    for both, and the actions it returns are the same up to their order: an
    action is accepted from the one exactly when it is accepted from the
    other. *)
Theorem handleMovementActions_confluent :
  forall (g : Game) (actions actions' : list MoveAction),
    (forall a, a ∈ actions -> onMap g a) ->
    actions ≡ₚ actions' ->
    exists pruned pruned',
      handleMovementActions g actions = Some pruned
      /\ handleMovementActions g actions' = Some pruned'
      /\ pruned ≡ₚ pruned'
      /\ (forall a, a ∈ pruned <-> a ∈ pruned').
Proof.
  intros g actions actions' Hunits Hp.
  destruct (handleMovementActions_bumped g actions Hunits)
    as (D & pruned & Hrun & Hpruned & HD).
  destruct (handleMovementActions_bumped g actions')
    as (D' & pruned' & Hrun' & Hpruned' & HD').
  { intros a Ha. apply Hunits. by rewrite Hp. }
  assert (D = D') as <-.
  { apply set_eq. intros c. rewrite HD, HD'.
    split; apply bumped_perm; [done|by symmetry]. }
  assert (pruned ≡ₚ pruned') as Hpp.
  { rewrite Hpruned, Hpruned'. by rewrite Hp. }
  exists pruned, pruned'. split; [done|]. split; [done|]. split; [done|].
  intros a. by rewrite Hpp.
Qed.

Lemma onMap_intro g a :
  from_option (fun unit => inMap (game_map g) (unit_pos unit)) false
    (getUnit g (ma_team a) (unitid a)) = true ->
  onMap g a.
Proof.
  unfold onMap. destruct (getUnit g (ma_team a) (unitid a)) as [u|]; [|done].
  simpl. eauto.
Qed.

Lemma bump_moves_onMap a :
  a ∈ Scenario.bump_moves -> onMap Scenario.three_workers a.
Proof.
  unfold Scenario.bump_moves. intros Ha. apply onMap_intro.
  repeat (apply elem_of_cons in Ha as [Ha|Ha]; [rewrite Ha; by vm_compute|]).
  by apply elem_of_nil in Ha.
Qed.

Lemma handleMovementActions_confluent_witness :
  exists pruned pruned',
    handleMovementActions Scenario.three_workers Scenario.bump_moves
    = Some pruned
    /\ handleMovementActions Scenario.three_workers
         (reverse Scenario.bump_moves) = Some pruned'
    /\ pruned ≡ₚ pruned'.
Proof.
  destruct (handleMovementActions_confluent Scenario.three_workers
              Scenario.bump_moves (reverse Scenario.bump_moves))
    as (pruned & pruned' & Hrun & Hrun' & Hp & _).
  - apply bump_moves_onMap.
  - symmetry. apply reverse_Permutation.
  - exists pruned, pruned'.
    split; [exact Hrun|]. split; [exact Hrun'|exact Hp].
Defined.

(** Where two accepted moves go to one cell, the cell is a city tile; and
    when a move is not accepted and its unit stands on a cell that is no
    city tile, no move to that cell is accepted. *)
Lemma handleMovementActions_reverts (g : Game) (actions : list MoveAction) :
  (forall a, a ∈ actions -> onMap g a) ->
  exists pruned,
    handleMovementActions g actions = Some pruned
    /\ (forall a, a ∈ pruned -> a ∈ actions)
    /\ (forall l1 a l2 b l3,
          pruned = l1 ++ a :: l2 ++ b :: l3 -> newcell a = newcell b ->
          isCityTile (cellAt (game_map g) (newcell a)) = true)
    /\ (forall a unit b,
          a ∈ actions -> a ∉ pruned ->
          getUnit g (ma_team a) (unitid a) = Some unit ->
          isCityTile (cellAt (game_map g) (unit_pos unit)) = false ->
          b ∈ actions -> newcell b = unit_pos unit ->
          b ∉ pruned)
    /\ (forall a unit,
          a ∈ pruned ->
          isCityTile (cellAt (game_map g) (newcell a)) = false ->
          units (cellAt (game_map g) (newcell a)) = [unit] ->
          unit_id unit ∈ movers actions).
Proof.
  intros Hunits.
  destruct (handleMovementActions_bumped g actions Hunits)
    as (D & pruned & Hrun & Hpruned & HD).
  assert (forall a, a ∈ pruned <-> a ∈ actions /\ newcell a ∉ D) as Hin.
  { intros a. rewrite Hpruned, list_elem_of_filter. tauto. }
  exists pruned. split; [done|]. split; [by intros a [? _]%Hin|].
  split; [|split].
  - intros l1 a l2 b l3 Heq Hnew.
    destruct (isCityTile (cellAt (game_map g) (newcell a))) eqn:Hcity; [done|].
    exfalso.
    assert (a ∈ pruned) as [_ Ha]%Hin by (rewrite Heq; set_solver).
    apply Ha, HD, bumped_here. split; [done|]. left.
    assert (length (targeting pruned (newcell a))
            <= length (targeting actions (newcell a)))%nat as Hle.
    { unfold targeting. rewrite Hpruned, list_filter_filter.
      rewrite (list_filter_iff _
                 (fun x => newcell x ∉ D /\ newcell x = newcell a))
        by (intros x; tauto).
      rewrite <- list_filter_filter. apply length_filter. }
    assert (2 <= length (targeting pruned (newcell a)))%nat; [|lia].
    unfold targeting. rewrite Heq.
    rewrite filter_app, filter_cons_True, filter_app, filter_cons_True by done.
    rewrite length_app. simpl. rewrite length_app. simpl. lia.
  - intros a u b Ha Hrej Hu Hcity Hb Hnew [_ Hacc]%Hin.
    apply Hacc, HD. rewrite Hnew.
    apply (bumped_back g actions (newcell a) a u); try done.
    apply HD. destruct (decide (newcell a ∈ D)) as [|Hn]; [done|].
    exfalso. apply Hrej, Hin. done.
  - intros a u [Ha Hacc]%Hin Hcity Hunit.
    destruct (decide (unit_id u ∈ movers actions)) as [|Hstill]; [done|].
    exfalso. apply Hacc, HD, bumped_here. split; [done|].
    assert (a ∈ targeting actions (newcell a)) as Hto
      by by apply elem_of_targeting.
    destruct (targeting actions (newcell a)) as [|b [|b' l]] eqn:Ht.
    + by apply elem_of_nil in Hto.
    + right. split; [done|]. rewrite Hunit. split; [done|].
      unfold unitThereIsStill. rewrite Hunit. simpl.
      by rewrite bool_decide_eq_false_2.
    + left. simpl. lia.
Qed.

(** C3.  Workers u_1 and u_2 stand on (1,0), which is no city tile since
    their city was destroyed, and neither moves; worker u_3 moves east from
    (0,0) to (1,0): its move is accepted, onto a cell that is no city tile
    and holds units that do not move.  In the scenario of units A and B
    moving to (1,0) from either side and unit C moving to the cell of A, no
    move is accepted. *)
Theorem handleMovementActions_overlooks_stacked_units :
  let g := Scenario.stacked_workers in
  let move := mkMoveAction TEAM_A "u_3" EAST (1, 0)%Z in
  isCityTile (cellAt (game_map g) (1, 0)%Z) = false
  /\ unit_id <$> units (cellAt (game_map g) (1, 0)%Z) = ["u_1"; "u_2"]
  /\ onMap g move
  /\ movers [move] = {[ "u_3" ]}
  /\ handleMovementActions g [move] = Some [move]
  /\ handleMovementActions Scenario.three_workers Scenario.bump_moves
     = Some [].
Proof.
  cbn zeta. split; [by vm_compute|]. split; [by vm_compute|].
  split; [apply onMap_intro; by vm_compute|].
  split; [unfold movers; set_solver|].
  split; by vm_compute.
Qed.


(** * Validation of a turn *)

Section Accepted.
Context `{Collaborators}.

Lemma placed_add s team id :
  placed (mkVState (vs_game s)
            (per_team_set (vs_acc s) team
               (actionsPlaced_add id (per_team_get (vs_acc s) team)))) team
  = {[id]} ∪ placed s team.
Proof. unfold placed. simpl. rewrite per_team_get_set. by rewrite decide_True. Qed.

Lemma validateMove_accepted g team args s a s' :
  validateMove g team args s = (Returned (Some a), s') ->
  admissible g (placed s team) team a
  /\ vs_game s' = vs_game s
  /\ placed s' team = {[(actor g a).2]} ∪ placed s team.
Proof.
  unfold validateMove.
  destruct args as [|uid [|dir [|]]]; run_V; try done.
  destruct (getUnit g team uid) as [unit|] eqn:Hunit; run_V; [|done].
  destruct (canMove unit) eqn:Hcan; run_V; [|done].
  case_bool_decide as Hplaced; run_V; [done|].
  destruct (DIRECTIONS_of_string dir) as [d|]; run_V; [|done].
  destruct (decide (d = CENTER)) as [->|Hd]; run_V.
  - intros [= <- <-]. split; [|split; [done|apply placed_add]].
    split; [done|]. split; [done|]. exists unit. simpl. done.
  - destruct (inMap (game_map g) (translate (unit_pos unit) d)) eqn:Hin;
      run_V; [|done].
    unfold getCellByPos, getCell. rewrite <- surjective_pairing, Hin. run_V.
    destruct (citytile (cellAt (game_map g) (translate (unit_pos unit) d)))
      as [tile|] eqn:Htile; run_V.
    + case_bool_decide as Hteam; run_V; [|done].
      intros [= <- <-]. split; [|split; [done|apply placed_add]].
      split; [done|]. split; [done|]. exists unit. simpl.
      split; [done|]. split; [done|]. split; [done|]. intros _.
      split; [done|]. intros tile' Ht'. congruence.
    + intros [= <- <-]. split; [|split; [done|apply placed_add]].
      split; [done|]. split; [done|]. exists unit. simpl.
      split; [done|]. split; [done|]. split; [done|]. intros _.
      split; [done|]. intros tile' Ht'. congruence.
Qed.

Lemma validatePillage_accepted g team args s a s' :
  validatePillage g team args s = (Returned (Some a), s') ->
  admissible g (placed s team) team a
  /\ vs_game s' = vs_game s
  /\ placed s' team = {[(actor g a).2]} ∪ placed s team.
Proof.
  unfold validatePillage.
  destruct args as [|uid [|]]; run_V; try done.
  destruct (getUnit g team uid) as [unit|] eqn:Hunit; run_V; [|done].
  destruct (canAct unit) eqn:Hcan; run_V; [|done].
  case_bool_decide as Hplaced; run_V; [done|].
  intros [= <- <-]. split; [|split; [done|apply placed_add]].
  split; [done|]. split; [done|]. by exists unit.
Qed.

Lemma validateBuildCity_accepted g team args s a s' :
  validateBuildCity g team args s = (Returned (Some a), s') ->
  admissible g (placed s team) team a
  /\ vs_game s' = vs_game s
  /\ placed s' team = {[(actor g a).2]} ∪ placed s team.
Proof.
  unfold validateBuildCity.
  destruct args as [|uid [|]]; run_V; try done.
  destruct (getUnit g team uid) as [unit|] eqn:Hunit; run_V; [|done].
  unfold getCellByPos, getCell. rewrite <- surjective_pairing.
  destruct (inMap (game_map g) (unit_pos unit)) eqn:Hin; run_V; [|done].
  destruct (isCityTile (cellAt (game_map g) (unit_pos unit))) eqn:Hcity;
    run_V; [done|].
  destruct (hasResource (cellAt (game_map g) (unit_pos unit))) eqn:Hres;
    run_V; [done|].
  destruct (canAct unit) eqn:Hcan; run_V; [|done].
  case_bool_decide as Hwood; run_V; [done|].
  case_bool_decide as Hplaced; run_V; [done|].
  intros [= <- <-]. split; [|split; [done|apply placed_add]].
  split; [done|]. split; [done|]. exists unit.
  split_and!; try done. by apply Qnot_lt_le.
Qed.

Lemma validateBuildUnit_accepted action g team args s a s' :
  validateBuildUnit action g team args s = (Returned (Some a), s') ->
  admissible g (placed s team) team a
  /\ vs_game s' = vs_game s
  /\ placed s' team = {[(actor g a).2]} ∪ placed s team.
Proof.
  unfold validateBuildUnit, parseCoordinates.
  destruct args as [|a0 [|a1 [|]]]; run_V; try done.
  destruct (parseInt a0) as [x|], (parseInt a1) as [y|]; run_V; try done.
  destruct (inMap (game_map g) (x, y)) eqn:Hin; run_V; [|done].
  unfold getCell. rewrite Hin. run_V.
  destruct (citytile (cellAt (game_map g) (x, y))) as [tile|] eqn:Htile;
    run_V; [|done].
  case_bool_decide as Hteam; run_V; [|done].
  case_bool_decide as Hplaced; run_V; [done|].
  destruct (canBuildUnit tile) eqn:Hcan; run_V; [|done].
  destruct action.
  all: match goal with
       | |- context [workerUnitCapReached ?g0 ?t ?n] =>
           destruct (workerUnitCapReached g0 t n) eqn:Hcap
       | |- context [cartUnitCapReached ?g0 ?t ?n] =>
           destruct (cartUnitCapReached g0 t n) eqn:Hcap
       end; run_V; [done|].
  all: intros [= <- <-]; split; [|split; [done|]].
  all: try (split; [done|]; split; [by simpl; rewrite Htile|];
            split; [done|]; eexists; by split_and!).
  all: unfold placed; simpl; rewrite !per_team_get_set;
       rewrite !decide_True by done; simpl; by rewrite Htile.
Qed.

Lemma validateResearch_accepted g team args s a s' :
  validateResearch g team args s = (Returned (Some a), s') ->
  admissible g (placed s team) team a
  /\ vs_game s' = vs_game s
  /\ placed s' team = {[(actor g a).2]} ∪ placed s team.
Proof.
  unfold validateResearch, parseCoordinates.
  destruct args as [|a0 [|a1 [|]]]; run_V; try done.
  destruct (parseInt a0) as [x|], (parseInt a1) as [y|]; run_V; try done.
  destruct (inMap (game_map g) (x, y)) eqn:Hin; run_V; [|done].
  unfold getCell. rewrite Hin. run_V.
  destruct (citytile (cellAt (game_map g) (x, y))) as [tile|] eqn:Htile;
    run_V; [|done].
  case_bool_decide as Hteam; run_V; [|done].
  destruct (canResearch tile) eqn:Hcan; run_V; [|done].
  case_bool_decide as Hplaced; run_V; [done|].
  intros [= <- <-]. split; [|split; [done|]].
  - split; [done|]. split; [by simpl; rewrite Htile|].
    split; [done|]. by exists tile.
  - rewrite placed_add. simpl. by rewrite Htile.
Qed.

Lemma validateTransfer_accepted g team args s a s' :
  validateTransfer g team args s = (Returned (Some a), s') ->
  admissible g (placed s team) team a
  /\ vs_game s' = vs_game s
  /\ placed s' team = {[(actor g a).2]} ∪ placed s team.
Proof.
  unfold validateTransfer.
  destruct args as [|srcID [|destID [|rtype [|a3 [|]]]]]; run_V; try done.
  destruct (getUnit g team srcID) as [src|] eqn:Hsrc; run_V; [|done].
  destruct (getUnit g team destID) as [dest|] eqn:Hdest; run_V; [|done].
  destruct (canAct src) eqn:Hcan; run_V; [|done].
  case_bool_decide as Hplaced; run_V; [done|].
  case_bool_decide as Hsame; run_V; [done|].
  destruct (isAdjacent (unit_pos src) (unit_pos dest)) eqn:Hadj; run_V; [|done].
  destruct (parseInt a3) as [amt|]; run_V; [|done].
  case_bool_decide as Hamt; run_V; [done|].
  destruct (ResourceTypes_of_string rtype) as [rt|]; run_V; [|done].
  intros [= <- <-]. split; [|split; [done|apply placed_add]].
  split; [done|]. split; [done|]. exists src, dest. split_and!; try done. lia.
Qed.

(** What the validation of one command that is accepted with an action
    leaves: the action passed its checks, the game is as it was, and the
    actor of the action is committed. *)
Lemma validateCommand_accepted cmd s a s' :
  validateCommand cmd s = (Returned (Some a), s') ->
  admissible (vs_game s) (placed s (agentID cmd)) (agentID cmd) a
  /\ vs_game s' = vs_game s
  /\ placed s' (agentID cmd)
     = {[(actor (vs_game s) a).2]} ∪ placed s (agentID cmd).
Proof.
  unfold validateCommand.
  destruct (split (command cmd)) as [|verb args]; [done|].
  unfold mbind at 1, V_bind at 1, vbind at 1, getGame at 1.
  destruct (ACTIONS_of_string verb) as [[]|]; try done;
    eauto using validateMove_accepted, validatePillage_accepted,
      validateBuildCity_accepted, validateBuildUnit_accepted,
      validateResearch_accepted, validateTransfer_accepted.
Qed.

End Accepted.

Section Turn.
Context `{Collaborators}.

Lemma admissible_mono g ids ids' team a :
  ids' ⊆ ids -> admissible g ids team a -> admissible g ids' team a.
Proof. intros Hsub (Ht & Hid & Ha). split; [done|]. split; [set_solver|done]. Qed.

Lemma validateCommand_null cmd s s' :
  validateCommand cmd s = (Returned None, s') -> s' = s.
Proof.
  unfold validateCommand.
  destruct (split (command cmd)) as [|verb args]; [done|].
  unfold mbind at 1, V_bind at 1, vbind at 1, getGame at 1.
  destruct (typed_validateCommand_cases (vs_game s) (agentID cmd) args)
    as (Hp & Hc & Hb & Hm & Hr & Ht).
  destruct (ACTIONS_of_string verb) as [[]|]; try done;
    try (by intros [= <-]);
    intros Hrun;
    [ specialize (Hm s None) | specialize (Hr s None)
    | specialize (Hb BUILD_WORKER s None) | specialize (Hb BUILD_CART s None)
    | specialize (Hc s None) | specialize (Ht s None)
    | specialize (Hp s None) ];
    rewrite Hrun in *; by destruct (is_Some_None (A:=Action)); auto.
Qed.

Lemma validateCommand_placed cmd s t :
  placed s t ⊆ placed (validateCommand cmd s).2 t.
Proof.
  destruct (decide (t = agentID cmd)) as [->|Hne].
  2:{ unfold placed. by rewrite validateCommand_other_team. }
  destruct (validateCommand cmd s) as [[[a|]|e] s'] eqn:Hrun; simpl.
  - apply validateCommand_accepted in Hrun as (_ & _ & ->). set_solver.
  - by apply validateCommand_null in Hrun as ->.
  - destruct (guarded_validateCommand cmd s) as (_ & _ & He).
    rewrite Hrun in He. simpl in He. by rewrite (He e).
Qed.

Lemma validateCommands_accepted cmds s :
  let g := vs_game s in
  let acts := (validateCommands cmds s).1 in
  NoDup (actor g <$> acts)
  /\ forall a, a ∈ acts ->
       admissible g (placed s (actor g a).1) (actor g a).1 a.
Proof.
  revert s. induction cmds as [|cmd rest IH]; intros s; simpl.
  { split; [constructor|]. by intros a ?%elem_of_nil. }
  pose proof (validateCommand_game cmd s) as Hg.
  pose proof (fun t => validateCommand_placed cmd s t) as Hmono.
  destruct (validateCommand cmd s) as [out s1] eqn:Hrun. simpl in Hg, Hmono.
  specialize (IH s1). simpl in IH. rewrite Hg in IH.
  destruct (validateCommands rest s1) as [acts s2]. simpl in IH.
  destruct IH as [Hnd Hadm].
  assert (forall a, a ∈ acts ->
            admissible (vs_game s) (placed s (actor (vs_game s) a).1)
              (actor (vs_game s) a).1 a) as Hadm'.
  { intros a Ha. eapply admissible_mono; [apply Hmono|by apply Hadm]. }
  destruct out as [[a|]|e]; simpl; [|done..].
  apply validateCommand_accepted in Hrun as (Ha & _ & Hplaced).
  pose proof Ha as (Hteam & _).
  split.
  - constructor; [|done].
    intros (b & Hab & Hb)%list_elem_of_fmap.
    destruct (Hadm b Hb) as (_ & Hfree & _).
    apply Hfree. rewrite <- Hab, Hteam, Hplaced. set_solver.
  - intros b [->|Hb]%elem_of_cons; [by rewrite Hteam|by apply Hadm'].
Qed.

End Turn.

Section Robust.
Context `{Collaborators}.

Lemma getCell_Some m x y : inMap m (x, y) = true -> getCell m x y = Some (cellAt m (x, y)).
Proof. unfold getCell. by intros ->. Qed.

Ltac crunch :=
  repeat first
    [ done
    | congruence
    | match goal with
      | |- context [match ?x with _ => _ end] => destruct x eqn:?; run_V
      | |- context [if ?x then _ else _] => destruct x eqn:?; run_V
      | E : context [match ?x with _ => _ end] |- _ => destruct x eqn:?; run_V
      | E : context [if ?x then _ else _] |- _ => destruct x eqn:?; run_V
      end ].

Lemma validateCommand_no_TypeError cmd s :
  unitsOnMap (vs_game s) ->
  (validateCommand cmd s).1 <> Thrown TypeError.
Proof.
  intros Hon. unfold validateCommand.
  destruct (split (command cmd)) as [|verb args]; [done|].
  unfold mbind at 1, V_bind at 1, vbind at 1, getGame at 1.
  destruct (ACTIONS_of_string verb) as [[]|]; try done.
  - (* move *)
    unfold validateMove.
    destruct args as [|uid [|dir [|]]]; run_V; try done.
    destruct (getUnit _ _ uid) as [unit|]; run_V; [|done].
    destruct (canMove unit); run_V; [|done].
    case_bool_decide; run_V; [done|].
    destruct (DIRECTIONS_of_string dir) as [d|]; run_V; [|done].
    destruct (decide (d = CENTER)); run_V; [done|].
    destruct (inMap _ (translate (unit_pos unit) d)) eqn:Hin; run_V; [|done].
    unfold getCellByPos. rewrite getCell_Some by by rewrite <- surjective_pairing.
    run_V. crunch.
  - (* research *)
    unfold validateResearch, parseCoordinates.
    destruct args as [|a0 [|a1 [|]]]; run_V; try done.
    destruct (parseInt a0) as [x|], (parseInt a1) as [y|]; run_V; try done.
    destruct (inMap _ (x, y)) eqn:Hin; run_V; [|done].
    rewrite getCell_Some by done. run_V. crunch.
  - (* build worker *)
    unfold validateBuildUnit, parseCoordinates.
    destruct args as [|a0 [|a1 [|]]]; run_V; try done.
    destruct (parseInt a0) as [x|], (parseInt a1) as [y|]; run_V; try done.
    destruct (inMap _ (x, y)) eqn:Hin; run_V; [|done].
    rewrite getCell_Some by done. run_V. crunch.
  - (* build cart *)
    unfold validateBuildUnit, parseCoordinates.
    destruct args as [|a0 [|a1 [|]]]; run_V; try done.
    destruct (parseInt a0) as [x|], (parseInt a1) as [y|]; run_V; try done.
    destruct (inMap _ (x, y)) eqn:Hin; run_V; [|done].
    rewrite getCell_Some by done. run_V. crunch.
  - (* build city *)
    unfold validateBuildCity.
    destruct args as [|uid [|]]; run_V; try done.
    destruct (getUnit _ _ uid) as [unit|] eqn:Hunit; run_V; [|done].
    unfold getCellByPos.
    rewrite getCell_Some by (rewrite <- surjective_pairing; by eapply Hon).
    run_V. crunch.
  - (* transfer *)
    unfold validateTransfer.
    destruct args as [|srcID [|destID [|rtype [|a3 [|]]]]]; run_V; try done.
    crunch.
  - (* pillage *)
    unfold validatePillage.
    destruct args as [|uid [|]]; run_V; try done. crunch.
Qed.

Lemma validateCommand_malformed cmd s verb args :
  split (command cmd) = verb :: args ->
  match ACTIONS_of_string verb with
  | None => True
  | Some a => exists n, arity a = Some n /\ length args <> n
  end ->
  validateCommand cmd s = (Thrown (MatchWarn MalformedCommand), s).
Proof.
  intros Hsplit Hbad. unfold validateCommand. rewrite Hsplit.
  unfold mbind at 1, V_bind at 1, vbind at 1, getGame at 1.
  destruct (ACTIONS_of_string verb) as [a|]; [|done].
  destruct Hbad as (n & Hn & Hlen).
  destruct a; simpl in Hn; try done; injection Hn as <-;
    unfold validateMove, validateResearch, validateBuildUnit,
      validateBuildCity, validateTransfer, validatePillage;
    by destruct args as [|? [|? [|? [|? [|? ?]]]]].
Qed.

Lemma validateCommand_not_invalid cmd s :
  (validateCommand cmd s).1 <> Thrown (MatchWarn InvalidCommand).
Proof.
  unfold validateCommand.
  destruct (split_cons (command cmd)) as (verb & args & ->).
  unfold mbind at 1, V_bind at 1, vbind at 1, getGame at 1.
  destruct (ACTIONS_of_string verb) as [[]|]; try done.
  - unfold validateMove.
    destruct args as [|uid [|dir [|]]]; run_V; try done. crunch.
  - unfold validateResearch, parseCoordinates.
    destruct args as [|a0 [|a1 [|]]]; run_V; try done. crunch.
  - unfold validateBuildUnit, parseCoordinates.
    destruct args as [|a0 [|a1 [|]]]; run_V; try done. crunch.
  - unfold validateBuildUnit, parseCoordinates.
    destruct args as [|a0 [|a1 [|]]]; run_V; try done. crunch.
  - unfold validateBuildCity.
    destruct args as [|uid [|]]; run_V; try done. crunch.
  - unfold validateTransfer.
    destruct args as [|srcID [|destID [|rtype [|a3 [|]]]]]; run_V; try done.
    crunch.
  - unfold validatePillage.
    destruct args as [|uid [|]]; run_V; try done. crunch.
Qed.

End Robust.


(** * The registry of units and the cells *)

Lemma units_set_fresh us u :
  unit_id u ∉ unit_id <$> us -> units_set us u = us ++ [u].
Proof.
  induction us as [|v us IH]; [done|]. cbn [units_set]. rewrite fmap_cons.
  intros Hnin. rewrite decide_False by set_solver.
  rewrite IH by set_solver. done.
Qed.

Lemma units_set_ids us u :
  unit_id <$> units_set us u
  = if decide (unit_id u ∈ unit_id <$> us) then unit_id <$> us
    else (unit_id <$> us) ++ [unit_id u].
Proof.
  induction us as [|v us IH]; [done|]. cbn [units_set]. rewrite !fmap_cons.
  destruct (decide (unit_id v = unit_id u)) as [Hv|Hv].
  - rewrite fmap_cons, decide_True by (rewrite Hv; set_solver). by rewrite Hv.
  - rewrite fmap_cons, IH.
    destruct (decide (unit_id u ∈ unit_id <$> us)).
    + by rewrite decide_True by set_solver.
    + rewrite decide_False; [done|]. set_solver.
Qed.

Lemma units_delete_ids us id :
  unit_id <$> units_delete us id = filter (fun i => i <> id) (unit_id <$> us).
Proof.
  unfold units_delete. induction us as [|v us IH]; [done|].
  rewrite fmap_cons, !filter_cons.
  destruct (decide (unit_id v <> id)); [rewrite fmap_cons|]; by rewrite IH.
Qed.

Lemma elem_of_units_delete us id v :
  v ∈ units_delete us id <-> v ∈ us /\ unit_id v <> id.
Proof. unfold units_delete. rewrite list_elem_of_filter. tauto. Qed.

Lemma units_delete_NoDup us id :
  NoDup (unit_id <$> us) -> NoDup (unit_id <$> units_delete us id).
Proof. intros Hnd. rewrite units_delete_ids. by apply NoDup_filter. Qed.

Lemma getUnit_set_teamState g team ts t id :
  getUnit (set_teamState g team ts) t id
  = if decide (t = team) then ts_units ts !! id else getUnit g t id.
Proof. unfold getUnit. simpl. rewrite per_team_get_set. by case_decide. Qed.

Lemma unitName_inj (n n' : Z) : "u_" +:+ pretty n = "u_" +:+ pretty n' -> n = n'.
Proof. intros Heq. apply (inj pretty), (inj (String.append "u_")), Heq. Qed.

Lemma getUnit_set_game_map g m t id : getUnit (set_game_map g m) t id = getUnit g t id.
Proof. done. Qed.

Lemma inMap_setCell m p c q : inMap (setCell m p c) q = inMap m q.
Proof. done. Qed.

Lemma units_cellAt_setCell m p c q :
  units (cellAt (setCell m p c) q)
  = if decide (q = p) then units c else units (cellAt m q).
Proof.
  destruct (decide (q = p)) as [->|Hq].
  - by rewrite cellAt_setCell.
  - by rewrite cellAt_setCell_ne.
Qed.

(** A unit of a cell carries an id the counter has passed. *)
Lemma UnitsInv_cell_fresh g p v :
  UnitsInv g -> v ∈ units (cellAt (game_map g) p) ->
  exists n, unit_id v = "u_" +:+ pretty n /\ (n <= globalUnitIDCount g)%Z.
Proof.
  intros Hinv Hv. destruct (ui_placed g Hinv p v Hv) as [Hreg _].
  apply (ui_fresh g Hinv (unit_team v)). by rewrite Hreg.
Qed.

(** What [spawnWorker] and [spawnCart] leave, when no id is supplied. *)
Lemma spawnUnit_spec type g team x y g' unit :
  unit = Unit_new type x y team (globalUnitIDCount g + 1) ->
  spawnUnit type g team x y None = Some g' ->
  inMap (game_map g) (x, y) = true
  /\ game_map g'
     = setCell (game_map g) (x, y)
         (set_units (cellAt (game_map g) (x, y))
            (units_set (units (cellAt (game_map g) (x, y))) unit))
  /\ (forall t id,
        getUnit g' t id
        = if decide (t = team /\ id = unit_id unit) then Some unit
          else getUnit g t id)
  /\ globalUnitIDCount g' = (globalUnitIDCount g + 1)%Z
  /\ cities g' = cities g
  /\ globalCityIDCount g' = globalCityIDCount g
  /\ configs g' = configs g
  /\ stats g'
     = per_team_set (stats g) team (incr_built type (per_team_get (stats g) team)).
Proof.
  intros Hunit. unfold spawnUnit, getCell. rewrite <- Hunit. clear Hunit.
  destruct (inMap (game_map g) (x, y)) eqn:Hin; [|done]. simpl.
  intros [= <-]. simpl. split; [done|]. split; [done|].
  split; [|done].
  intros t id. unfold getUnit. simpl. rewrite per_team_get_set.
  destruct (decide (t = team)) as [->|Ht]; cbn [ts_units].
  - destruct (decide (id = unit_id unit)) as [->|Hid].
    + rewrite lookup_insert_eq. by rewrite decide_True.
    + rewrite lookup_insert_ne by done. rewrite decide_False; [done|].
      by intros [_ ?].
  - rewrite decide_False; [done|]. by intros [? _].
Qed.

Lemma spawnUnit_UnitsInv type g team x y g' :
  UnitsInv g -> spawnUnit type g team x y None = Some g' -> UnitsInv g'.
Proof.
  intros Hinv Hrun.
  destruct (spawnUnit_spec type g team x y g' _ eq_refl Hrun)
    as (Hin & Hmap & Hreg & Hcount & _).
  set (u0 := Unit_new type x y team (globalUnitIDCount g + 1)) in *.
  assert (forall t, getUnit g t (unit_id u0) = None) as Hnew.
  { intros t. destruct (getUnit g t (unit_id u0)) as [v|] eqn:Hv; [|done].
    destruct (ui_fresh g Hinv t (unit_id u0)) as (n & Hn & Hle); [by eauto|].
    apply unitName_inj in Hn. lia. }
  assert (unit_id u0 ∉ unit_id <$> units (cellAt (game_map g) (x, y))) as Hcell.
  { intros (v & Hid & Hv)%list_elem_of_fmap.
    destruct (ui_placed g Hinv _ v Hv) as [Hregv _].
    rewrite <- Hid, Hnew in Hregv. done. }
  assert (forall q,
            units (cellAt (game_map g') q)
            = if decide (q = (x, y))
              then units (cellAt (game_map g) (x, y)) ++ [u0]
              else units (cellAt (game_map g) q)) as Hunits.
  { intros q. rewrite Hmap, units_cellAt_setCell. case_decide; [|done].
    simpl. by apply units_set_fresh. }
  assert (forall t id v, getUnit g t id = Some v -> getUnit g' t id = Some v)
    as Hkeep.
  { intros t id v Hv. rewrite Hreg. rewrite decide_False; [done|].
    intros [_ ->]. by rewrite Hnew in Hv. }
  split.
  - intros t id u. rewrite Hreg. case_decide as Hc.
    + destruct Hc as [-> ->]. intros [= <-].
      split; [done|]. split; [done|]. rewrite Hmap, inMap_setCell.
      split; [done|]. rewrite <- Hmap, Hunits. simpl.
      rewrite decide_True by done. set_solver.
    + intros Hu. destruct (ui_registered g Hinv t id u Hu)
        as (Hid & Hteam & Hinu & Hcellu).
      split; [done|]. split; [done|]. rewrite Hmap, inMap_setCell.
      split; [done|]. rewrite <- Hmap, Hunits.
      case_decide as Hq; [|done]. rewrite <- Hq. set_solver.
  - intros p u. rewrite Hunits. case_decide as Hp.
    + intros [Hu| ->%list_elem_of_singleton]%elem_of_app.
      * rewrite <- Hp in Hu. destruct (ui_placed g Hinv p u Hu) as [Hru Hpos].
        split; [by apply Hkeep|done].
      * split; [|done]. rewrite Hreg. by rewrite decide_True.
    + intros Hu. destruct (ui_placed g Hinv p u Hu) as [Hru Hpos].
      split; [by apply Hkeep|done].
  - intros p. rewrite Hunits. case_decide; [|apply (ui_NoDup g Hinv)].
    rewrite fmap_app. apply NoDup_app. split; [apply (ui_NoDup g Hinv)|].
    split; [|apply NoDup_singleton].
    intros i Hi ->%list_elem_of_singleton. done.
  - intros t id [u Hu]. rewrite Hreg in Hu. rewrite Hcount. case_decide as Hc.
    + destruct Hc as [_ ->]. exists (globalUnitIDCount g + 1)%Z. split; [done|lia].
    + destruct (ui_fresh g Hinv t id) as (n & Hn & Hle); [by eauto|].
      exists n. split; [done|lia].
  - intros t t' id [u Hu] [u' Hu']. rewrite Hreg in Hu, Hu'.
    destruct (decide (t = team /\ id = unit_id u0)) as [[Ht Hid]|Hc];
      destruct (decide (t' = team /\ id = unit_id u0)) as [[Ht' Hid']|Hc'].
    + congruence.
    + rewrite Hid, Hnew in Hu'. done.
    + rewrite Hid', Hnew in Hu. done.
    + apply (ui_unique g Hinv t t' id); eauto.
Qed.

Lemma filter_all {A} (P : A -> Prop) `{!forall x, Decision (P x)} (l : list A) :
  (forall x, x ∈ l -> P x) -> filter P l = l.
Proof.
  induction l as [|x l IH]; [done|]. intros Hall.
  rewrite filter_cons_True by (apply Hall; set_solver).
  rewrite IH; [done|]. intros y Hy. apply Hall. set_solver.
Qed.

(** Only the cell a unit stands on holds a unit of its id. *)
Lemma UnitsInv_elsewhere g team id u q v :
  UnitsInv g -> getUnit g team id = Some u ->
  v ∈ units (cellAt (game_map g) q) -> unit_id v = id -> v = u /\ q = unit_pos u.
Proof.
  intros Hinv Hu Hv Hid.
  destruct (ui_placed g Hinv q v Hv) as [Hreg Hpos].
  rewrite Hid in Hreg.
  assert (unit_team v = team) as Hteam
    by (apply (ui_unique g Hinv _ _ id); eauto).
  rewrite Hteam, Hu in Hreg. injection Hreg as <-. done.
Qed.

Lemma units_delete_elsewhere g team id u q :
  UnitsInv g -> getUnit g team id = Some u -> q <> unit_pos u ->
  units_delete (units (cellAt (game_map g) q)) id = units (cellAt (game_map g) q).
Proof.
  intros Hinv Hu Hq. apply filter_all. intros v Hv Hid.
  by destruct (UnitsInv_elsewhere g team id u q v Hinv Hu Hv Hid) as [_ ?].
Qed.

Lemma getCellByPos_Some m p c : getCellByPos m p = Some c -> inMap m p = true /\ c = cellAt m p.
Proof.
  unfold getCellByPos, getCell. rewrite <- surjective_pairing.
  destruct (inMap m p); [|done]. by intros [= <-].
Qed.

(** What [moveUnit] leaves. *)
Lemma moveUnit_spec g team id d g' :
  UnitsInv g -> moveUnit g team id d = Some g' ->
  exists u,
    getUnit g team id = Some u
    /\ inMap (game_map g) (translate (unit_pos u) d) = true
    /\ (forall t i,
          getUnit g' t i
          = if decide (t = team /\ i = id)
            then Some (set_unit_pos u (translate (unit_pos u) d))
            else getUnit g t i)
    /\ (forall q,
          units (cellAt (game_map g') q)
          = units_delete (units (cellAt (game_map g) q)) id
            ++ (if decide (q = translate (unit_pos u) d)
                then [set_unit_pos u (translate (unit_pos u) d)] else []))
    /\ (forall q, inMap (game_map g') q = inMap (game_map g) q)
    /\ globalUnitIDCount g' = globalUnitIDCount g.
Proof.
  intros Hinv. unfold moveUnit.
  destruct (getUnit g team id) as [u|] eqn:Hu; [|done]. simpl.
  destruct (ui_registered g Hinv team id u Hu) as (Hid & Hteam & Hin & Hcell).
  destruct (getCellByPos (game_map g) (unit_pos u)) as [old|] eqn:Hold; [|done].
  apply getCellByPos_Some in Hold as [_ ->]. simpl.
  set (p := unit_pos u). set (p' := translate p d).
  set (u' := set_unit_pos u p').
  set (m1 := setCell (game_map g) p _).
  destruct (getCellByPos m1 p') as [new|] eqn:Hnew; [|done].
  apply getCellByPos_Some in Hnew as [Hin' ->]. simpl.
  intros [= <-]. exists u. split; [done|]. split; [done|].
  split; [|split; [|done]].
  - intros t i. rewrite getUnit_set_teamState. cbn [ts_units set_ts_units].
    destruct (decide (t = team)) as [->|Ht].
    + destruct (decide (i = id)) as [->|Hi].
      * rewrite lookup_insert_eq. by rewrite decide_True.
      * rewrite lookup_insert_ne by done. rewrite decide_False; [done|].
        by intros [_ ?].
    + rewrite decide_False; [done|]. by intros [? _].
  - intros q. cbn [game_map set_game_map set_teamState].
    rewrite units_cellAt_setCell. cbn [units set_units].
    assert (forall q, units (cellAt m1 q)
                      = units_delete (units (cellAt (game_map g) q)) id) as Hm1.
    { intros q0. unfold m1. rewrite units_cellAt_setCell. cbn [units set_units].
      rewrite Hid. case_decide as Hq0; [by rewrite Hq0|].
      symmetry. by apply (units_delete_elsewhere g team id u). }
    change (unit_pos u') with p'.
    change (translate (unit_pos u) d) with p'.
    change (set_unit_pos u p') with u'.
    destruct (decide (q = p')) as [->|Hq].
    + rewrite units_set_fresh; [by rewrite Hm1|].
      rewrite Hm1, units_delete_ids. intros [Hne _]%list_elem_of_filter.
      by apply Hne.
    + rewrite Hm1. by rewrite app_nil_r.
Qed.

Lemma moveUnit_UnitsInv g team id d g' :
  UnitsInv g -> moveUnit g team id d = Some g' -> UnitsInv g'.
Proof.
  intros Hinv Hrun.
  destruct (moveUnit_spec g team id d g' Hinv Hrun)
    as (u & Hu & Hin' & Hreg & Hunits & Hdims & Hcount).
  destruct (ui_registered g Hinv team id u Hu) as (Hid & Hteam & Hin & Hcell).
  set (u' := set_unit_pos u (translate (unit_pos u) d)) in *.
  assert (forall t i v, getUnit g' t i = Some v ->
            (t = team /\ i = id /\ v = u')
            \/ (i <> id /\ getUnit g t i = Some v)) as Hcases.
  { intros t i v. rewrite Hreg. case_decide as Hc.
    - destruct Hc as [-> ->]. intros [= <-]. by left.
    - intros Hv. right. split; [|done]. intros ->. apply Hc. split; [|done].
      apply (ui_unique g Hinv _ _ id); eauto. }
  split.
  - intros t i v [(-> & -> & ->)|[Hi Hv]]%Hcases.
    + split; [done|]. split; [done|]. rewrite Hdims. split; [done|].
      rewrite Hunits. cbn [unit_pos u' set_unit_pos].
      rewrite decide_True by done. set_solver.
    + destruct (ui_registered g Hinv t i v Hv) as (Hidv & Hteamv & Hinv' & Hcv).
      split; [done|]. split; [done|]. rewrite Hdims. split; [done|].
      rewrite Hunits. apply elem_of_app. left.
      apply elem_of_units_delete. split; [done|congruence].
  - intros q v. rewrite Hunits.
    intros [[Hv Hne]%elem_of_units_delete|Hv]%elem_of_app.
    + destruct (ui_placed g Hinv q v Hv) as [Hrv Hpos]. split; [|done].
      rewrite Hreg. rewrite decide_False; [done|]. by intros [_ ?].
    + case_decide as Hq; [|by apply elem_of_nil in Hv].
      apply list_elem_of_singleton in Hv as ->. split; [|done].
      rewrite Hreg. cbn [unit_team unit_id u' set_unit_pos].
      by rewrite decide_True.
  - intros q. rewrite Hunits, fmap_app. apply NoDup_app.
    split; [apply units_delete_NoDup, (ui_NoDup g Hinv)|]. split.
    + intros i Hi. rewrite units_delete_ids in Hi.
      apply list_elem_of_filter in Hi as [Hne _].
      case_decide; [|by intros ?%elem_of_nil].
      intros ->%list_elem_of_singleton. by apply Hne.
    + case_decide; [apply NoDup_singleton|constructor].
  - intros t i [v Hv]. rewrite Hcount.
    apply Hcases in Hv as [(-> & -> & _)|[_ Hv]];
      [apply (ui_fresh g Hinv team id)|apply (ui_fresh g Hinv t i)]; eauto.
  - intros t t' i [v Hv] [v' Hv'].
    apply (ui_unique g Hinv t t' i).
    + apply Hcases in Hv as [(-> & -> & _)|[_ Hv]]; eauto.
    + apply Hcases in Hv' as [(-> & -> & _)|[_ Hv']]; eauto.
Qed.

Lemma fmap_unchanged (f : Unit -> Unit) id (l : list Unit) :
  (forall v, v ∈ l -> unit_id v <> id) ->
  (fun v => if decide (unit_id v = id) then f v else v) <$> l = l.
Proof.
  induction l as [|v l IH]; [done|]. intros Hall. rewrite fmap_cons.
  rewrite decide_False by (apply Hall; set_solver).
  rewrite IH; [done|]. intros w Hw. apply Hall. set_solver.
Qed.

(** What [destroyUnit] leaves. *)
Lemma destroyUnit_spec g team id g' :
  UnitsInv g -> destroyUnit g team id = Some g' ->
  exists u,
    getUnit g team id = Some u
    /\ (forall t i,
          getUnit g' t i
          = if decide (t = team /\ i = id) then None else getUnit g t i)
    /\ (forall q,
          units (cellAt (game_map g') q)
          = units_delete (units (cellAt (game_map g) q)) id)
    /\ (forall q, inMap (game_map g') q = inMap (game_map g) q)
    /\ globalUnitIDCount g' = globalUnitIDCount g.
Proof.
  intros Hinv. unfold destroyUnit.
  destruct (getUnit g team id) as [u|] eqn:Hu; [|done]. simpl.
  destruct (getCellByPos (game_map g) (unit_pos u)) as [c|] eqn:Hc; [|done].
  apply getCellByPos_Some in Hc as [_ ->]. simpl.
  intros [= <-]. exists u. split; [done|]. split; [|split; [|done]].
  - intros t i. rewrite getUnit_set_teamState. cbn [ts_units set_ts_units].
    destruct (decide (t = team)) as [->|Ht].
    + destruct (decide (i = id)) as [->|Hi].
      * rewrite lookup_delete_eq. by rewrite decide_True.
      * rewrite lookup_delete_ne by done. rewrite decide_False; [done|].
        by intros [_ ?].
    + rewrite decide_False; [done|]. by intros [? _].
  - intros q. cbn [game_map set_game_map set_teamState].
    rewrite units_cellAt_setCell. cbn [units set_units].
    case_decide as Hq; [by rewrite Hq|].
    symmetry. by apply (units_delete_elsewhere g team id u).
Qed.

Lemma destroyUnit_UnitsInv g team id g' :
  UnitsInv g -> destroyUnit g team id = Some g' -> UnitsInv g'.
Proof.
  intros Hinv Hrun.
  destruct (destroyUnit_spec g team id g' Hinv Hrun)
    as (u & Hu & Hreg & Hunits & Hdims & Hcount).
  assert (forall t i v, getUnit g' t i = Some v ->
            i <> id /\ getUnit g t i = Some v) as Hcases.
  { intros t i v. rewrite Hreg. case_decide as Hc; [done|].
    intros Hv. split; [|done]. intros ->. apply Hc. split; [|done].
    apply (ui_unique g Hinv _ _ id); eauto. }
  split.
  - intros t i v [Hi Hv]%Hcases.
    destruct (ui_registered g Hinv t i v Hv) as (Hidv & Hteamv & Hinv' & Hcv).
    split; [done|]. split; [done|]. rewrite Hdims. split; [done|].
    rewrite Hunits. apply elem_of_units_delete. split; [done|congruence].
  - intros q v. rewrite Hunits. intros [Hv Hne]%elem_of_units_delete.
    destruct (ui_placed g Hinv q v Hv) as [Hrv Hpos]. split; [|done].
    rewrite Hreg. rewrite decide_False; [done|]. by intros [_ ?].
  - intros q. rewrite Hunits. apply units_delete_NoDup, (ui_NoDup g Hinv).
  - intros t i [v [_ Hv]%Hcases]. rewrite Hcount.
    apply (ui_fresh g Hinv t i); eauto.
  - intros t t' i [v [_ Hv]%Hcases] [v' [_ Hv']%Hcases].
    apply (ui_unique g Hinv t t' i); eauto.
Qed.

Lemma alterUnit_spec f g team id g' :
  UnitsInv g -> alterUnit f team id g = Some g' ->
  exists u,
    getUnit g team id = Some u
    /\ (forall t i,
          getUnit g' t i
          = if decide (t = team /\ i = id) then Some (f u) else getUnit g t i)
    /\ (forall q,
          units (cellAt (game_map g') q)
          = (fun v => if decide (unit_id v = id) then f v else v)
              <$> units (cellAt (game_map g) q))
    /\ (forall q, inMap (game_map g') q = inMap (game_map g) q)
    /\ globalUnitIDCount g' = globalUnitIDCount g
    /\ cities g' = cities g /\ stats g' = stats g
    /\ (forall q, citytile (cellAt (game_map g') q)
                  = citytile (cellAt (game_map g) q)).
Proof.
  intros Hinv. unfold alterUnit.
  destruct (getUnit g team id) as [u|] eqn:Hu; [|done]. simpl.
  destruct (ui_registered g Hinv team id u Hu) as (Hid & Hteam & Hin & Hcell).
  intros [= <-]. exists u. split; [done|].
  split; [|split; [|split; [done|split; [done|split; [done|split; [done|]]]]]].
  - intros t i. rewrite getUnit_set_teamState. cbn [ts_units set_ts_units].
    destruct (decide (t = team)) as [->|Ht].
    + destruct (decide (i = id)) as [->|Hi].
      * rewrite lookup_alter_eq. unfold getUnit in Hu. rewrite Hu.
        by rewrite decide_True.
      * rewrite lookup_alter_ne by done. rewrite decide_False; [done|].
        by intros [_ ?].
    + rewrite decide_False; [done|]. by intros [? _].
  - intros q. cbn [game_map set_game_map set_teamState].
    rewrite units_cellAt_setCell. cbn [units set_units]. rewrite Hid.
    case_decide as Hq; [by rewrite Hq|].
    symmetry. apply fmap_unchanged. intros v Hv Hvid.
    by destruct (UnitsInv_elsewhere g team id u q v Hinv Hu Hv Hvid) as [_ ?].
  - intros q. cbn [game_map set_game_map set_teamState].
    destruct (decide (q = unit_pos u)) as [->|Hq].
    + by rewrite cellAt_setCell.
    + by rewrite cellAt_setCell_ne.
Qed.

Lemma alterUnit_UnitsInv f g team id g' :
  keepsPlace f ->
  UnitsInv g -> alterUnit f team id g = Some g' -> UnitsInv g'.
Proof.
  intros Hf Hinv Hrun.
  destruct (alterUnit_spec f g team id g' Hinv Hrun)
    as (u & Hu & Hreg & Hunits & Hdims & Hcount & _).
  destruct (ui_registered g Hinv team id u Hu) as (Hid & Hteam & Hin & Hcell).
  destruct (Hf u) as (Hfid & Hfteam & Hfpos).
  assert (forall t i v, getUnit g' t i = Some v ->
            (t = team /\ i = id /\ v = f u)
            \/ (i <> id /\ getUnit g t i = Some v)) as Hcases.
  { intros t i v. rewrite Hreg. case_decide as Hc.
    - destruct Hc as [-> ->]. intros [= <-]. by left.
    - intros Hv. right. split; [|done]. intros ->. apply Hc. split; [|done].
      apply (ui_unique g Hinv _ _ id); eauto. }
  split.
  - intros t i v [(-> & -> & ->)|[Hi Hv]]%Hcases.
    + split; [congruence|]. split; [congruence|]. rewrite Hdims, Hfpos.
      split; [done|]. rewrite Hunits. apply list_elem_of_fmap.
      exists u. by rewrite decide_True.
    + destruct (ui_registered g Hinv t i v Hv) as (Hidv & Hteamv & Hinv' & Hcv).
      split; [done|]. split; [done|]. rewrite Hdims. split; [done|].
      rewrite Hunits. apply list_elem_of_fmap.
      exists v. rewrite decide_False by congruence. done.
  - intros q w. rewrite Hunits. intros (v & -> & Hv)%list_elem_of_fmap.
    destruct (ui_placed g Hinv q v Hv) as [Hrv Hpos].
    case_decide as Hvid.
    + destruct (UnitsInv_elsewhere g team id u q v Hinv Hu Hv Hvid) as [-> ->].
      rewrite Hfteam, Hfid, Hfpos. split; [|done].
      rewrite Hreg. rewrite decide_True by done. done.
    + split; [|done]. rewrite Hreg. rewrite decide_False; [done|].
      by intros [_ ?].
  - intros q. rewrite Hunits.
    assert (forall l : list Unit,
              unit_id <$> ((fun v => if decide (unit_id v = id) then f v else v)
                             <$> l) = unit_id <$> l) as ->.
    { induction l as [|v l IH]; [done|]. rewrite !fmap_cons, IH.
      case_decide; [|done]. by destruct (Hf v) as [-> _]. }
    apply (ui_NoDup g Hinv).
  - intros t i [v Hv]. rewrite Hcount.
    apply Hcases in Hv as [(-> & -> & _)|[_ Hv]];
      [apply (ui_fresh g Hinv team id)|apply (ui_fresh g Hinv t i)]; eauto.
  - intros t t' i [v Hv] [v' Hv'].
    apply (ui_unique g Hinv t t' i).
    + apply Hcases in Hv as [(-> & -> & _)|[_ Hv]]; eauto.
    + apply Hcases in Hv' as [(-> & -> & _)|[_ Hv']]; eauto.
Qed.

Lemma keepsPlace_unit_cargo_add type n : keepsPlace (unit_cargo_add type n).
Proof. by intros v. Qed.

Lemma keepsPlace_set_cargo c : keepsPlace (set_cargo c).
Proof. by intros v. Qed.

Lemma transferResources_UnitsInv `{Collaborators} g team src dest type amt g' :
  UnitsInv g -> transferResources g team src dest type amt = Some g' ->
  UnitsInv g'.
Proof.
  intros Hinv. unfold transferResources.
  destruct (getUnit g team src) as [s|]; [|done]. simpl.
  destruct (getUnit g team dest) as [d|]; [|done]. simpl.
  destruct (alterUnit _ team src g) as [g1|] eqn:H1; [|done]. simpl.
  intros H2.
  eapply alterUnit_UnitsInv in H1; [|apply keepsPlace_unit_cargo_add|done].
  eapply alterUnit_UnitsInv in H2; [done|apply keepsPlace_unit_cargo_add|done].
Qed.

(** The invariant reads the map, the team states and the unit counter. *)
Lemma UnitsInv_frame g g' :
  game_map g' = game_map g -> state g' = state g ->
  globalUnitIDCount g' = globalUnitIDCount g ->
  UnitsInv g -> UnitsInv g'.
Proof.
  intros Hm Hs Hc [H1 H2 H3 H4 H5].
  assert (forall t i, getUnit g' t i = getUnit g t i) as Hreg
    by (intros t i; unfold getUnit; by rewrite Hs).
  split; intros *; rewrite ?Hreg, ?Hm, ?Hc; eauto.
Qed.

Lemma updateUnit_alterUnit f u g :
  getUnit g (unit_team u) (unit_id u) = Some u ->
  alterUnit f (unit_team u) (unit_id u) g = Some (updateUnit f (unit_pos u) u g).
Proof. intros Hu. unfold alterUnit. rewrite Hu. done. Qed.

Lemma handleResourceDeposit_UnitsInv rate g u g' :
  UnitsInv g -> getUnit g (unit_team u) (unit_id u) = Some u ->
  handleResourceDeposit rate g u = Some g' -> UnitsInv g'.
Proof.
  intros Hinv Hu. unfold handleResourceDeposit.
  destruct (getCellByPos (game_map g) (unit_pos u)) as [c|]; [|done]. simpl.
  destruct (citytile c) as [tile|]; [|by intros [= <-]].
  case_decide; [|by intros [= <-]].
  destruct (cities g !! cityid tile) as [city|]; [|done]. simpl.
  intros [= <-].
  eapply (alterUnit_UnitsInv (set_cargo (mkCargo 0 0 0)) _ (unit_team u) (unit_id u));
    [apply keepsPlace_set_cargo| |by apply updateUnit_alterUnit].
  by apply (UnitsInv_frame g).
Qed.

Lemma units_foldl_clearCityTile road l m q :
  units (cellAt (foldl (clearCityTile road) m l) q) = units (cellAt m q)
  /\ inMap (foldl (clearCityTile road) m l) q = inMap m q.
Proof.
  revert m. induction l as [|p l IH]; intros m; [done|]. cbn [foldl].
  destruct (IH (clearCityTile road m p)) as [-> ->]. split; [|done].
  unfold clearCityTile. rewrite units_cellAt_setCell. by case_decide; subst.
Qed.

Lemma sameUnits_UnitsInv g g' : sameUnits g g' -> UnitsInv g -> UnitsInv g'.
Proof.
  intros (Hu & Hm & Hs & Hc) [H1 H2 H3 H4 H5].
  assert (forall t i, getUnit g' t i = getUnit g t i) as Hreg
    by (intros t i; unfold getUnit; by rewrite Hs).
  split; intros *; rewrite ?Hreg, ?Hm, ?Hu, ?Hc; eauto.
Qed.

Lemma sameUnits_refl g : sameUnits g g.
Proof. by repeat split. Qed.

Lemma sameUnits_trans g1 g2 g3 :
  sameUnits g1 g2 -> sameUnits g2 g3 -> sameUnits g1 g3.
Proof.
  intros (Hu & Hm & Hs & Hc) (Hu' & Hm' & Hs' & Hc').
  split_and!; intros *; congruence.
Qed.

Lemma destroyCity_sameUnits g k g' : destroyCity g k = Some g' -> sameUnits g g'.
Proof.
  unfold destroyCity. destruct (cities g !! k) as [c|]; [|done]. simpl.
  intros [= <-]. split_and!; try done; intros q; simpl;
    apply units_foldl_clearCityTile.
Qed.

Lemma forEach_option_rel {St X} (R : St -> St -> Prop) (f : St -> X -> option St)
    (l : list X) :
  (forall s, R s s) -> (forall a b c, R a b -> R b c -> R a c) ->
  (forall s x s', f s x = Some s' -> R s s') ->
  forall s s', forEach f l s = Some s' -> R s s'.
Proof.
  intros Hrefl Htrans Hf. induction l as [|x l IH]; intros s s'.
  - intros [= <-]. apply Hrefl.
  - cbn [forEach]. destruct (f s x) as [s1|] eqn:H1; [|done]. simpl.
    intros H2. eapply Htrans; [by apply (Hf s x)|by apply IH].
Qed.

Lemma sameUnitsMap_setCell m p c :
  units c = units (cellAt m p) -> sameUnitsMap m (setCell m p c).
Proof.
  intros Hc. split; [|done]. intros q. rewrite units_cellAt_setCell.
  case_decide; by subst.
Qed.

Lemma sameUnitsMap_refl m : sameUnitsMap m m.
Proof. by split. Qed.

Lemma sameUnitsMap_trans m1 m2 m3 :
  sameUnitsMap m1 m2 -> sameUnitsMap m2 m3 -> sameUnitsMap m1 m3.
Proof. intros [Hu Hm] [Hu' Hm']. split; intros q; congruence. Qed.

Lemma alterCityTile_sameUnitsMap f m p m' :
  alterCityTile f m p = Some m' -> sameUnitsMap m m'.
Proof.
  unfold alterCityTile. destruct (citytile (cellAt m p)); [|done]. simpl.
  intros [= <-]. by apply sameUnitsMap_setCell.
Qed.

Lemma absorbCell_sameUnits s g p g' : absorbCell s g p = Some g' -> sameUnits g g'.
Proof.
  unfold absorbCell.
  destruct (alterCityTile _ (game_map g) p) as [m|] eqn:Hm; [|done]. simpl.
  intros [= <-]. apply alterCityTile_sameUnitsMap in Hm as [Hu Hd].
  by split_and!.
Qed.

Lemma mergeCity_sameUnits s g id g' : mergeCity s g id = Some g' -> sameUnits g g'.
Proof.
  unfold mergeCity. case_decide; [intros [= <-]; apply sameUnits_refl|].
  destruct (cities g !! id) as [old|]; [|done]. simpl.
  destruct (forEach _ (citycells old) g) as [g1|] eqn:H1; [|done]. simpl.
  intros [= <-].
  apply (forEach_option_rel sameUnits _ _ sameUnits_refl sameUnits_trans
           (absorbCell_sameUnits s)) in H1.
  destruct H1 as (Hu & Hd & Hs & Hc). by split_and!.
Qed.

Lemma spawnCityTile_sameUnits g team x y cid g' :
  spawnCityTile g team x y cid = Some g' -> sameUnits g g'.
Proof.
  unfold spawnCityTile.
  destruct (getCell (game_map g) x y) as [cell|] eqn:Hcell; [|done].
  cbn [mbind option_bind].
  assert (cell = cellAt (game_map g) (x, y)) as ->.
  { unfold getCell in Hcell. destruct (inMap _ _); [|done]. congruence. }
  destruct (filter _ (getAdjacentCells (game_map g) (x, y))) as [|first rest].
  - destruct cid as [id|]; [destruct (decide (id = ""))|]; intros [= <-];
      (split_and!; [|done..]); intros q; simpl;
      rewrite units_cellAt_setCell; by case_decide; subst.
  - set (m1 := setCell (game_map g) (x, y) _).
    assert (sameUnitsMap (game_map g) m1) as H1
      by by apply sameUnitsMap_setCell.
    destruct (alterCityTile _ m1 (x, y)) as [m2|] eqn:H2; [|done].
    cbn [mbind option_bind].
    apply alterCityTile_sameUnitsMap in H2.
    match goal with
    | |- context [forEach ?f ?l m2] =>
        destruct (forEach f l m2) as [m3|] eqn:H3; [|done]
    end.
    apply (forEach_option_rel sameUnitsMap _ _ sameUnitsMap_refl
             sameUnitsMap_trans (alterCityTile_sameUnitsMap _)) in H3.
    cbn [mbind option_bind].
    destruct (cities g !! cityid_at (game_map g) first) as [city|]; [|done].
    cbn [mbind option_bind]. intros H4.
    apply (forEach_option_rel sameUnits _ _ sameUnits_refl sameUnits_trans
             (mergeCity_sameUnits _)) in H4.
    eapply sameUnits_trans; [|exact H4].
    destruct (sameUnitsMap_trans _ _ _ H1 (sameUnitsMap_trans _ _ _ H2 H3))
      as [Hu Hd].
    by split_and!.
Qed.

Section ReleaseUnits.
Context `{Collaborators}.

Lemma updateUnit_stationed f g w :
  UnitsInv g -> stationed g w ->
  alterUnit f (unit_team w.2) (unit_id w.2) g = Some (updateUnit f w.1 w.2 g).
Proof.
  intros Hinv (u & Hu & Hpos). unfold alterUnit. rewrite Hu.
  cbn [mbind option_bind]. unfold updateUnit. rewrite Hpos.
  by destruct (ui_registered g Hinv _ _ u Hu) as (-> & _).
Qed.

Lemma releaseTo_UnitsInv type rate n st w i (ws : list (Position * Unit)) :
  UnitsInv (rl_game st) -> stationed (rl_game st) w ->
  (forall v, v ∈ ws -> stationed (rl_game st) v) ->
  UnitsInv (rl_game (releaseTo type rate n st w i))
  /\ (forall v, v ∈ ws -> stationed (rl_game (releaseTo type rate n st w i)) v).
Proof.
  intros Hinv Hw Hws. unfold releaseTo. cbn [rl_game].
  set (f := unit_cargo_add type _).
  pose proof (updateUnit_stationed f _ w Hinv Hw) as Halter.
  destruct (alterUnit_spec f _ _ _ _ Hinv Halter) as (u & Hu & Hreg & _).
  split.
  - apply (UnitsInv_frame (updateUnit f w.1 w.2 (rl_game st))); try done.
    eapply alterUnit_UnitsInv; [apply keepsPlace_unit_cargo_add|done|done].
  - intros v (uv & Huv & Hpos)%Hws. unfold stationed.
    change (getUnit (addResourcesCollected ?t ?ty ?n0 ?g0))
      with (getUnit g0).
    rewrite Hreg. case_decide as Hc.
    + destruct Hc as [Ht Hi]. rewrite Ht, Hi, Hu in Huv. injection Huv as <-.
      exists (f u). split; [done|]. done.
    + by exists uv.
Qed.

Lemma forEach_i_releaseTo_UnitsInv type rate n ws i st :
  UnitsInv (rl_game st) -> (forall v, v ∈ ws -> stationed (rl_game st) v) ->
  UnitsInv (rl_game (forEach_i (releaseTo type rate n) ws i st)).
Proof.
  revert i st. induction ws as [|w ws IH]; intros i st Hinv Hws; [done|].
  cbn [forEach_i].
  destruct (releaseTo_UnitsInv type rate n st w i ws Hinv) as [Hinv1 Hws1].
  - apply Hws. set_solver.
  - intros v Hv. apply Hws. set_solver.
  - by apply IH.
Qed.

Lemma handleResourceRelease_UnitsInv g p :
  UnitsInv g -> UnitsInv (handleResourceRelease g p).
Proof.
  intros Hinv. unfold handleResourceRelease.
  destruct (hasResource (cellAt (game_map g) p)); [|done].
  destruct (resource (cellAt (game_map g) p)) as [res|]; [|done].
  match goal with
  | |- UnitsInv (set_game_map ?g1 (setCell _ _ (set_resource _ ?r))) =>
      assert (UnitsInv g1) as Hinv1
  end.
  { apply forEach_i_releaseTo_UnitsInv; [done|].
    intros v Hv. rewrite sortWorkers_perm in Hv.
    unfold workersToReceiveResources in Hv.
    apply list_elem_of_bind in Hv as (q & Hv & _).
    apply list_elem_of_fmap in Hv as (u & -> & [_ Hu]%list_elem_of_filter).
    destruct (ui_placed g Hinv q u Hu) as [Hreg Hpos]. by exists u. }
  eapply sameUnits_UnitsInv; [|exact Hinv1].
  split_and!; try done. intros q. cbn [game_map set_game_map].
  rewrite units_cellAt_setCell. by case_decide; subst.
Qed.

End ReleaseUnits.


(** * Operations on units: theorems *)

Lemma unitFree_UnitsInv g : unitFree g -> UnitsInv g.
Proof.
  intros [Hreg Hcells]. split.
  - intros t i u. by rewrite Hreg.
  - intros p u. rewrite Hcells. by intros ?%elem_of_nil.
  - intros p. rewrite Hcells. constructor.
  - intros t i [u Hu]. by rewrite Hreg in Hu.
  - intros t t' i [u Hu]. by rewrite Hreg in Hu.
Qed.

Lemma newGame_unitFree w h : unitFree (Scenario.newGame w h).
Proof.
  split.
  - intros team id. unfold getUnit. by destruct team.
  - intros p. unfold cellAt. simpl. by rewrite lookup_total_empty.
Qed.

Lemma run_op_UnitsInv g op g' :
  UnitsInv g -> Scenario.run_op g op = Some g' -> UnitsInv g'.
Proof.
  intros Hinv. destruct op as [team x y|team x y|k|k f]; simpl.
  - intros Hrun. eapply sameUnits_UnitsInv; [|done].
    by eapply spawnCityTile_sameUnits.
  - by apply spawnUnit_UnitsInv.
  - intros Hrun. eapply sameUnits_UnitsInv; [|done].
    by eapply destroyCity_sameUnits.
  - intros [= <-]. by apply (UnitsInv_frame g).
Qed.

Lemma setup_UnitsInv w h ops g :
  Scenario.setup w h ops = Some g -> UnitsInv g.
Proof.
  unfold Scenario.setup.
  assert (forall g0, UnitsInv g0 ->
            forEach Scenario.run_op ops g0 = Some g -> UnitsInv g) as Hgen.
  { induction ops as [|op ops IH]; intros g0 Hinv.
    - by intros [= <-].
    - cbn [forEach]. destruct (Scenario.run_op g0 op) as [g1|] eqn:H1; [|done].
      cbn [mbind option_bind]. apply IH. by eapply run_op_UnitsInv. }
  apply Hgen, unitFree_UnitsInv, newGame_unitFree.
Qed.

Lemma three_workers_UnitsInv : UnitsInv Scenario.three_workers.
Proof.
  apply (setup_UnitsInv 3 2
           [Scenario.WorkerAt TEAM_A 0 0; Scenario.WorkerAt TEAM_A 2 0;
            Scenario.WorkerAt TEAM_A 0 1]).
  by vm_compute.
Qed.

(** X8.  The registry of units and the units of the cells stay in
    agreement under every operation that returns: spawning a worker or a
    cart under a fresh id, moving and destroying a unit, a transfer, a
    deposit of a registered unit, a release of resources, and placing and
    destroying city tiles. *)
Theorem operations_keep_units_consistent `{Collaborators}
    (RESOURCE_TO_FUEL_RATE : ResourceTypes -> Q) (g g' : Game) :
  UnitsInv g ->
  (exists team x y, spawnWorker g team x y None = Some g')
  \/ (exists team x y, spawnCart g team x y None = Some g')
  \/ (exists team unitid direction,
        moveUnit g team unitid direction = Some g')
  \/ (exists team unitid, destroyUnit g team unitid = Some g')
  \/ (exists team srcID destID resourceType amount,
        transferResources g team srcID destID resourceType amount = Some g')
  \/ (exists unit,
        getUnit g (unit_team unit) (unit_id unit) = Some unit
        /\ handleResourceDeposit RESOURCE_TO_FUEL_RATE g unit = Some g')
  \/ (exists team x y cityid, spawnCityTile g team x y cityid = Some g')
  \/ (exists cityID, destroyCity g cityID = Some g')
  \/ (exists pos, handleResourceRelease g pos = g') ->
  UnitsInv g'.
Proof.
  intros Hinv
    [(team & x & y & Hrun)|[(team & x & y & Hrun)|[(team & id & d & Hrun)
    |[(team & id & Hrun)|[(team & src & dest & type & amt & Hrun)
    |[(u & Hu & Hrun)|[(team & x & y & cid & Hrun)|[(k & Hrun)
    |(p & <-)]]]]]]]].
  - by eapply spawnUnit_UnitsInv.
  - by eapply spawnUnit_UnitsInv.
  - by eapply moveUnit_UnitsInv.
  - by eapply destroyUnit_UnitsInv.
  - by eapply transferResources_UnitsInv.
  - by eapply handleResourceDeposit_UnitsInv.
  - eapply sameUnits_UnitsInv; [|done]. by eapply spawnCityTile_sameUnits.
  - eapply sameUnits_UnitsInv; [|done]. by eapply destroyCity_sameUnits.
  - by apply handleResourceRelease_UnitsInv.
Qed.

Lemma operations_keep_units_consistent_witness :
  exists g', moveUnit Scenario.three_workers TEAM_A "u_1" EAST = Some g'
             /\ UnitsInv g'.
Proof.
  destruct (moveUnit Scenario.three_workers TEAM_A "u_1" EAST) as [g'|] eqn:Hrun;
    [|by vm_compute in Hrun].
  exists g'. split; [reflexivity|].
  apply (@operations_keep_units_consistent Scenario.collaborators
           (fun _ => 1%Q) Scenario.three_workers g').
  - apply three_workers_UnitsInv.
  - right. right. left. exists TEAM_A, "u_1", EAST. exact Hrun.
Defined.

Lemma getCellByPos_inMap m p :
  getCellByPos m p = if inMap m p then Some (cellAt m p) else None.
Proof. unfold getCellByPos, getCell. by rewrite <- surjective_pairing. Qed.

Lemma moveUnit_returns g team id d u :
  getUnit g team id = Some u ->
  inMap (game_map g) (unit_pos u) = true ->
  is_Some (moveUnit g team id d)
  <-> inMap (game_map g) (translate (unit_pos u) d) = true.
Proof.
  intros Hu Hin. unfold moveUnit. rewrite Hu. cbn [mbind option_bind].
  rewrite getCellByPos_inMap, Hin. cbn [mbind option_bind].
  rewrite getCellByPos_inMap. cbn [unit_pos set_unit_pos].
  rewrite inMap_setCell.
  destruct (inMap (game_map g) (translate (unit_pos u) d)); cbn.
  - split; eauto.
  - split; [by intros [??]|done].
Qed.

(** X9.  [moveUnit] on a registered unit returns when the cell in the
    direction is on the map: the unit is then registered at that cell and
    stands there, it stands no longer on the cell it left, and other units
    and other cells are as they were.  When the cell is off the map the call
    raises. *)
Theorem moveUnit_relocates (g : Game) (team : TEAM) (unitid : string)
    (direction : DIRECTIONS) (unit : Unit) :
  UnitsInv g ->
  getUnit g team unitid = Some unit ->
  let p := unit_pos unit in
  let p' := translate p direction in
  (inMap (game_map g) p' = true ->
   exists g',
     moveUnit g team unitid direction = Some g'
     /\ getUnit g' team unitid = Some (set_unit_pos unit p')
     /\ set_unit_pos unit p' ∈ units (cellAt (game_map g') p')
     /\ (p' <> p ->
         forall v, v ∈ units (cellAt (game_map g') p) -> unit_id v <> unitid)
     /\ (forall t i, (t, i) <> (team, unitid) ->
           getUnit g' t i = getUnit g t i)
     /\ (forall q, q <> p -> q <> p' ->
           units (cellAt (game_map g') q) = units (cellAt (game_map g) q)))
  /\ (inMap (game_map g) p' = false ->
      moveUnit g team unitid direction = None).
Proof.
  intros Hinv Hu p p'.
  destruct (ui_registered g Hinv team unitid unit Hu) as (Hid & Hteam & Hin & Hcell).
  pose proof (moveUnit_returns g team unitid direction unit Hu Hin) as Hret.
  split.
  - intros Hin'. destruct (proj2 Hret Hin') as [g' Hrun].
    destruct (moveUnit_spec g team unitid direction g' Hinv Hrun)
      as (u & Hu' & _ & Hreg & Hunits & _).
    rewrite Hu in Hu'. injection Hu' as <-.
    exists g'. split; [done|]. split; [|split; [|split; [|split]]].
    + rewrite Hreg. by rewrite decide_True.
    + rewrite Hunits. fold p p'. rewrite decide_True by done. set_solver.
    + intros Hne v. rewrite Hunits. fold p p'.
      rewrite decide_False by done. rewrite app_nil_r.
      by intros [_ ?]%elem_of_units_delete.
    + intros t i Hti. rewrite Hreg. rewrite decide_False; [done|].
      intros [-> ->]. done.
    + intros q Hq Hq'. rewrite Hunits. fold p p'.
      rewrite decide_False by done. rewrite app_nil_r.
      by apply (units_delete_elsewhere g team unitid unit).
  - intros Hout. destruct (moveUnit g team unitid direction) eqn:Hrun; [|done].
    assert (is_Some (Some g0)) as Hs%Hret by eauto. fold p p' in Hs. congruence.
Qed.

Lemma moveUnit_relocates_witness :
  exists g',
    moveUnit Scenario.three_workers TEAM_A "u_1" EAST = Some g'
    /\ (unit_pos <$> getUnit g' TEAM_A "u_1") = Some (1, 0)%Z.
Proof.
  destruct (getUnit Scenario.three_workers TEAM_A "u_1") as [u|] eqn:Hu;
    [|by vm_compute in Hu].
  destruct (proj1 (moveUnit_relocates Scenario.three_workers TEAM_A "u_1" EAST
                     u three_workers_UnitsInv Hu))
    as (g' & Hrun & Hreg & _).
  - vm_compute in Hu. injection Hu as <-. by vm_compute.
  - exists g'. split; [exact Hrun|]. rewrite Hreg.
    vm_compute in Hu. injection Hu as <-. reflexivity.
Defined.

Lemma translate_opposite p d : translate (translate p d) (opposite d) = p.
Proof. destruct p as [x y], d; simpl; f_equal; lia. Qed.

Lemma units_delete_back l u :
  u ∈ l -> NoDup (unit_id <$> l) -> units_delete l (unit_id u) ++ [u] ≡ₚ l.
Proof.
  induction l as [|v l IH]; [by intros ?%elem_of_nil|].
  rewrite fmap_cons. intros Hu [Hv Hnd]%NoDup_cons.
  unfold units_delete in *. rewrite filter_cons.
  destruct (decide (unit_id v = unit_id u)) as [Heq|Hne].
  - rewrite decide_False by (by intros Hn; apply Hn).
    assert (u = v) as ->.
    { apply elem_of_cons in Hu as [?|Hu]; [done|]. exfalso. apply Hv.
      rewrite Heq. apply list_elem_of_fmap. eauto. }
    rewrite filter_all; [symmetry; apply Permutation_cons_append|].
    intros w Hw Hwid. apply Hv. apply list_elem_of_fmap. eauto.
  - rewrite decide_True by done. cbn. f_equiv. apply IH; [|done].
    apply elem_of_cons in Hu as [->|Hu]; done.
Qed.

(** X10.  Moving a unit and moving it back in the opposite direction
    returns, restores the registry, and leaves on every cell the units it
    held. *)
Theorem moveUnit_and_back (g g1 : Game) (team : TEAM) (unitid : string)
    (direction : DIRECTIONS) :
  UnitsInv g ->
  moveUnit g team unitid direction = Some g1 ->
  exists g2,
    moveUnit g1 team unitid (opposite direction) = Some g2
    /\ (forall t i, getUnit g2 t i = getUnit g t i)
    /\ (forall q, units (cellAt (game_map g2) q)
                  ≡ₚ units (cellAt (game_map g) q)).
Proof.
  intros Hinv Hrun.
  pose proof (moveUnit_UnitsInv g team unitid direction g1 Hinv Hrun) as Hinv1.
  destruct (moveUnit_spec g team unitid direction g1 Hinv Hrun)
    as (u & Hu & Hin' & Hreg & Hunits & Hdims & _).
  destruct (ui_registered g Hinv team unitid u Hu) as (Hid & Hteam & Hin & Hcell).
  set (u1 := set_unit_pos u (translate (unit_pos u) direction)) in *.
  assert (getUnit g1 team unitid = Some u1) as Hu1
    by (rewrite Hreg; by rewrite decide_True).
  assert (translate (unit_pos u1) (opposite direction) = unit_pos u) as Hback
    by apply translate_opposite.
  destruct (proj2 (moveUnit_returns g1 team unitid (opposite direction) u1 Hu1
                     ltac:(by rewrite Hdims))) as [g2 Hrun2].
  { by rewrite Hback, Hdims. }
  destruct (moveUnit_spec g1 team unitid (opposite direction) g2 Hinv1 Hrun2)
    as (u1' & Hu1' & _ & Hreg2 & Hunits2 & _).
  rewrite Hu1 in Hu1'. injection Hu1' as <-.
  assert (set_unit_pos u1 (translate (unit_pos u1) (opposite direction)) = u)
    as Hsame by (rewrite Hback; by destruct u).
  rewrite Hsame in Hreg2, Hunits2. rewrite Hback in Hunits2.
  exists g2. split; [done|]. split.
  - intros t i. rewrite Hreg2, Hreg. case_decide as Hc; [|done].
    by destruct Hc as [-> ->].
  - intros q. rewrite Hunits2, Hunits.
    assert (forall l l' : list Unit,
              units_delete (l ++ l') unitid
              = units_delete l unitid ++ units_delete l' unitid) as Happ
      by (intros; apply filter_app).
    assert (forall l, units_delete (units_delete l unitid) unitid
                      = units_delete l unitid) as Hidem.
    { intros l. apply filter_all. by intros v [_ ?]%elem_of_units_delete. }
    rewrite Happ, Hidem.
    assert (units_delete
              (if decide (q = translate (unit_pos u) direction)
               then [u1] else []) unitid = []) as ->.
    { case_decide; [|done]. unfold units_delete.
      rewrite filter_cons_False; [done|]. intros Hne. by apply Hne. }
    rewrite app_nil_r.
    destruct (decide (q = unit_pos u)) as [->|Hq].
    + (* the cell the unit is back on *)
      rewrite <- Hid.
      apply units_delete_back; [done|apply (ui_NoDup g Hinv)].
    + rewrite app_nil_r.
      by rewrite (units_delete_elsewhere g team unitid u).
Qed.

Lemma moveUnit_and_back_witness :
  exists g1 g2,
    moveUnit Scenario.three_workers TEAM_A "u_1" EAST = Some g1
    /\ moveUnit g1 TEAM_A "u_1" WEST = Some g2
    /\ forall t i, getUnit g2 t i = getUnit Scenario.three_workers t i.
Proof.
  destruct (moveUnit Scenario.three_workers TEAM_A "u_1" EAST) as [g1|] eqn:Hrun;
    [|by vm_compute in Hrun].
  destruct (moveUnit_and_back Scenario.three_workers g1 TEAM_A "u_1" EAST
              three_workers_UnitsInv Hrun) as (g2 & Hrun2 & Hreg & _).
  exists g1, g2. split; [reflexivity|]. split; [exact Hrun2|exact Hreg].
Defined.

(** What [destroyUnit] returns on. *)
Lemma destroyUnit_returns g team id u :
  getUnit g team id = Some u ->
  inMap (game_map g) (unit_pos u) = true ->
  is_Some (destroyUnit g team id).
Proof.
  intros Hu Hin. unfold destroyUnit. rewrite Hu. cbn [mbind option_bind].
  rewrite getCellByPos_inMap, Hin. cbn. eauto.
Qed.

(** X11.  A unit spawned without an id is registered under the next
    id of the counter on the cell asked for; destroying it returns and
    restores the registry and the units of every cell, the counter staying
    one ahead. *)
Theorem spawn_then_destroyUnit (type : UnitType) (g g1 : Game) (team : TEAM)
    (x y : Z) :
  UnitsInv g ->
  spawnUnit type g team x y None = Some g1 ->
  let id := "u_" +:+ pretty (globalUnitIDCount g + 1)%Z in
  (exists unit,
     getUnit g1 team id = Some unit
     /\ unit_pos unit = (x, y) /\ unit_type unit = type
     /\ unit ∈ units (cellAt (game_map g1) (x, y)))
  /\ exists g2,
       destroyUnit g1 team id = Some g2
       /\ (forall t i, getUnit g2 t i = getUnit g t i)
       /\ (forall q, units (cellAt (game_map g2) q)
                     = units (cellAt (game_map g) q))
       /\ globalUnitIDCount g2 = (globalUnitIDCount g + 1)%Z.
Proof.
  intros Hinv Hrun id.
  pose proof (spawnUnit_UnitsInv type g team x y g1 Hinv Hrun) as Hinv1.
  destruct (spawnUnit_spec type g team x y g1 _ eq_refl Hrun)
    as (Hin & Hmap & Hreg & Hcount & _).
  set (u0 := Unit_new type x y team (globalUnitIDCount g + 1)) in *.
  assert (getUnit g1 team id = Some u0) as Hu0
    by (rewrite Hreg; by rewrite decide_True).
  destruct (ui_registered g1 Hinv1 team id u0 Hu0) as (_ & _ & Hin1 & Hcell1).
  split; [by exists u0|].
  destruct (destroyUnit_returns g1 team id u0 Hu0 Hin1) as [g2 Hrun2].
  destruct (destroyUnit_spec g1 team id g2 Hinv1 Hrun2)
    as (u & _ & Hreg2 & Hunits2 & _ & Hcount2).
  assert (forall t, getUnit g t id = None) as Hnew.
  { intros t. destruct (getUnit g t id) as [v|] eqn:Hv; [|done].
    destruct (ui_fresh g Hinv t id) as (n & Hn & Hle); [by eauto|].
    apply unitName_inj in Hn. lia. }
  exists g2. split; [done|]. split; [|split; [|congruence]].
  - intros t i. rewrite Hreg2, Hreg. case_decide as Hc.
    + destruct Hc as [-> ->]. by rewrite Hnew.
    + destruct (decide (t = team /\ i = unit_id u0)); [done|done].
  - intros q. rewrite Hunits2, Hmap, units_cellAt_setCell.
    assert (forall v p, v ∈ units (cellAt (game_map g) p) -> unit_id v <> id)
      as Hold.
    { intros v p Hv Hvid. destruct (ui_placed g Hinv p v Hv) as [Hrv _].
      rewrite Hvid, Hnew in Hrv. done. }
    case_decide as Hq.
    + subst q. cbn [units set_units]. rewrite units_set_fresh.
      * unfold units_delete. rewrite filter_app, filter_cons_False, filter_nil;
          [|by intros Hne; apply Hne].
        rewrite app_nil_r. apply filter_all. intros v Hv. by apply (Hold v (x, y)).
      * intros (v & Hvid & Hv)%list_elem_of_fmap. by apply (Hold v (x, y)).
    + apply filter_all. intros v Hv. by apply (Hold v q).
Qed.

Lemma spawn_then_destroyUnit_witness :
  exists g1 g2,
    spawnUnit WORKER Scenario.three_workers TEAM_B 1 1 None = Some g1
    /\ destroyUnit g1 TEAM_B
         ("u_" +:+ pretty (globalUnitIDCount Scenario.three_workers + 1)%Z)
       = Some g2
    /\ forall t i, getUnit g2 t i = getUnit Scenario.three_workers t i.
Proof.
  destruct (spawnUnit WORKER Scenario.three_workers TEAM_B 1 1 None)
    as [g1|] eqn:Hrun; [|by vm_compute in Hrun].
  destruct (proj2 (spawn_then_destroyUnit WORKER Scenario.three_workers g1
                     TEAM_B 1 1 three_workers_UnitsInv Hrun))
    as (g2 & Hrun2 & Hreg & _).
  exists g1, g2. split; [reflexivity|]. split; [exact Hrun2|exact Hreg].
Defined.

Lemma alterUnit_registry f g team id g' :
  alterUnit f team id g = Some g' ->
  exists u,
    getUnit g team id = Some u
    /\ forall t i,
         getUnit g' t i
         = if decide (t = team /\ i = id) then Some (f u) else getUnit g t i.
Proof.
  unfold alterUnit.
  destruct (getUnit g team id) as [u|] eqn:Hu; [|done]. simpl.
  intros [= <-]. exists u. split; [done|].
  intros t i. rewrite getUnit_set_teamState. cbn [ts_units set_ts_units].
  destruct (decide (t = team)) as [->|Ht].
  - destruct (decide (i = id)) as [->|Hi].
    + rewrite lookup_alter_eq. unfold getUnit in Hu. rewrite Hu.
      by rewrite decide_True.
    + rewrite lookup_alter_ne by done. rewrite decide_False; [done|].
      by intros [_ ?].
  - rewrite decide_False; [done|]. by intros [? _].
Qed.

Lemma alterUnit_is_Some f g team id :
  is_Some (alterUnit f team id g) <-> is_Some (getUnit g team id).
Proof.
  unfold alterUnit.
  destruct (getUnit g team id); simpl; [split; eauto|split; by intros [??]].
Qed.

Lemma cargo_get_add_ne c type r n :
  r <> type -> cargo_get (cargo_add c type n) r = cargo_get c r.
Proof. by destruct type, r. Qed.

Section Transfer.
Context `{Collaborators}.
Local Open Scope Q_scope.

Lemma transferResources_spec (g : Game) (team : TEAM)
    (srcID destID : string) (resourceType : ResourceTypes) (amount : Q)
    (srcunit destunit : Unit) :
  getUnit g team srcID = Some srcunit ->
  getUnit g team destID = Some destunit ->
  srcID <> destID ->
  exists g' src' dest' moved,
    transferResources g team srcID destID resourceType amount = Some g'
    /\ getUnit g' team srcID = Some src'
    /\ getUnit g' team destID = Some dest'
    /\ cargo_get (cargo src') resourceType
       == cargo_get (cargo srcunit) resourceType - moved
    /\ cargo_get (cargo dest') resourceType
       == cargo_get (cargo destunit) resourceType + moved
    /\ moved <= amount
    /\ moved <= cargo_get (cargo srcunit) resourceType
    /\ moved <= getCargoSpaceLeft destunit
    /\ (0 <= amount -> 0 <= cargo_get (cargo srcunit) resourceType ->
        0 <= getCargoSpaceLeft destunit -> 0 <= moved)
    /\ (forall r, r <> resourceType ->
          cargo_get (cargo src') r = cargo_get (cargo srcunit) r
          /\ cargo_get (cargo dest') r = cargo_get (cargo destunit) r)
    /\ (forall t i, (t, i) <> (team, srcID) -> (t, i) <> (team, destID) ->
          getUnit g' t i = getUnit g t i).
Proof.
  intros Hs Hd Hne. unfold transferResources. rewrite Hs, Hd.
  cbn [mbind option_bind].
  set (moved := Qmin amount
                  (Qmin (cargo_get (cargo srcunit) resourceType)
                     (getCargoSpaceLeft destunit))).
  destruct (alterUnit (unit_cargo_add resourceType (- moved)) team srcID g)
    as [g1|] eqn:H1.
  2:{ assert (is_Some (alterUnit (unit_cargo_add resourceType (- moved))
                         team srcID g)) as [? ?]
        by (apply alterUnit_is_Some; eauto).
      congruence. }
  cbn [mbind option_bind].
  destruct (alterUnit_registry _ _ _ _ _ H1) as (s & Hs' & Hreg1).
  rewrite Hs in Hs'. injection Hs' as <-.
  destruct (alterUnit (unit_cargo_add resourceType moved) team destID g1)
    as [g2|] eqn:H2.
  2:{ assert (is_Some (alterUnit (unit_cargo_add resourceType moved)
                         team destID g1)) as [? ?].
      { apply alterUnit_is_Some. rewrite Hreg1.
        rewrite decide_False by (by intros [_ ?]). eauto. }
      congruence. }
  destruct (alterUnit_registry _ _ _ _ _ H2) as (d & Hd' & Hreg2).
  rewrite Hreg1 in Hd'. rewrite decide_False in Hd' by (by intros [_ ?]).
  rewrite Hd in Hd'. injection Hd' as <-.
  exists g2, (unit_cargo_add resourceType (- moved) srcunit),
    (unit_cargo_add resourceType moved destunit), moved.
  split; [done|]. split.
  { rewrite Hreg2. rewrite decide_False by (intros [_ ?]; congruence).
    rewrite Hreg1. by rewrite decide_True. }
  split; [rewrite Hreg2; by rewrite decide_True|].
  split; [cbn [cargo unit_cargo_add]; rewrite cargo_get_add; ring|].
  split; [cbn [cargo unit_cargo_add]; rewrite cargo_get_add; ring|].
  split; [apply Q.le_min_l|].
  split; [eapply Qle_trans; [apply Q.le_min_r|apply Q.le_min_l]|].
  split; [eapply Qle_trans; [apply Q.le_min_r|apply Q.le_min_r]|].
  split.
  { intros Ha Hc Hsp. unfold moved. apply Q.min_glb; [done|].
    by apply Q.min_glb. }
  split.
  { intros r Hr. cbn [cargo unit_cargo_add].
    by rewrite !cargo_get_add_ne. }
  intros t i Hsrc Hdest. rewrite Hreg2, Hreg1.
  rewrite !decide_False; [done|..]; intros [-> ->]; done.
Qed.

(** X12.  A transfer between two different units of a team returns:
    what the source loses of the resource the destination gains, the amount
    is at most the amount asked for, what the source carried and the space
    the destination had left, other resources and other units are
    untouched. *)
Theorem transferResources_conserves (g : Game) (team : TEAM)
    (srcID destID : string) (resourceType : ResourceTypes) (amount : Q)
    (srcunit destunit : Unit) :
  getUnit g team srcID = Some srcunit ->
  getUnit g team destID = Some destunit ->
  srcID <> destID ->
  exists g' src' dest' moved,
    transferResources g team srcID destID resourceType amount = Some g'
    /\ getUnit g' team srcID = Some src'
    /\ getUnit g' team destID = Some dest'
    /\ cargo_get (cargo src') resourceType
       == cargo_get (cargo srcunit) resourceType - moved
    /\ cargo_get (cargo dest') resourceType
       == cargo_get (cargo destunit) resourceType + moved
    /\ moved <= amount
    /\ moved <= cargo_get (cargo srcunit) resourceType
    /\ moved <= getCargoSpaceLeft destunit
    /\ (0 <= amount -> 0 <= cargo_get (cargo srcunit) resourceType ->
        0 <= getCargoSpaceLeft destunit -> 0 <= moved)
    /\ (forall r, r <> resourceType ->
          cargo_get (cargo src') r = cargo_get (cargo srcunit) r
          /\ cargo_get (cargo dest') r = cargo_get (cargo destunit) r)
    /\ (forall t i, (t, i) <> (team, srcID) -> (t, i) <> (team, destID) ->
          getUnit g' t i = getUnit g t i).
Proof. apply transferResources_spec. Qed.

End Transfer.

Lemma transferResources_conserves_witness :
  exists g' src' dest',
    transferResources (H := Scenario.collaborators) Scenario.uranium_field
      TEAM_A "u_1" "u_2" WOOD 10 = Some g'
    /\ getUnit g' TEAM_A "u_1" = Some src'
    /\ getUnit g' TEAM_A "u_2" = Some dest'
    /\ (wood (cargo src') + wood (cargo dest') == 95)%Q.
Proof.
  destruct (getUnit Scenario.uranium_field TEAM_A "u_1") as [s|] eqn:Hs;
    [|by vm_compute in Hs].
  destruct (getUnit Scenario.uranium_field TEAM_A "u_2") as [d|] eqn:Hd;
    [|by vm_compute in Hd].
  destruct (transferResources_conserves (H := Scenario.collaborators)
              Scenario.uranium_field TEAM_A "u_1" "u_2" WOOD 10 s d Hs Hd)
    as (g' & src' & dest' & moved & Hrun & Hs' & Hd' & Hsrc & Hdest & _);
    [done|].
  exists g', src', dest'. split; [exact Hrun|]. split; [exact Hs'|].
  split; [exact Hd'|].
  cbn [cargo_get] in Hsrc, Hdest. rewrite Hsrc, Hdest.
  vm_compute in Hs, Hd. injection Hs as <-. injection Hd as <-.
  cbn [cargo wood]. ring.
Defined.

(** The cargo a transfer between a unit and itself leaves. *)
Lemma cargo_add_back c type n r :
  (cargo_get (cargo_add (cargo_add c type (- n)) type n) r == cargo_get c r)%Q.
Proof. destruct type, r; cbn; ring. Qed.

Section TransferEdges.
Context `{Collaborators}.

(** X13.  A transfer that names a unit the team does not have raises;
    a transfer from a unit to itself returns and changes nothing the unit
    carries. *)
Theorem transferResources_edges (g : Game) (team : TEAM)
    (srcID destID : string) (resourceType : ResourceTypes) (amount : Q) :
  (getUnit g team srcID = None \/ getUnit g team destID = None ->
   transferResources g team srcID destID resourceType amount = None)
  /\ (forall unit,
        srcID = destID -> getUnit g team srcID = Some unit ->
        exists g' unit',
          transferResources g team srcID destID resourceType amount = Some g'
          /\ getUnit g' team srcID = Some unit'
          /\ forall r, (cargo_get (cargo unit') r == cargo_get (cargo unit) r)%Q).
Proof.
  split.
  - unfold transferResources. intros [-> | Hd]; [done|].
    destruct (getUnit g team srcID); [|done]. cbn [mbind option_bind].
    by rewrite Hd.
  - intros u <- Hu. unfold transferResources. rewrite Hu.
    cbn [mbind option_bind].
    set (moved := Qmin amount _).
    destruct (alterUnit (unit_cargo_add resourceType (- moved)) team srcID g)
      as [g1|] eqn:H1.
    2:{ assert (is_Some (alterUnit (unit_cargo_add resourceType (- moved))
                           team srcID g)) as [? ?]
          by (apply alterUnit_is_Some; eauto).
        congruence. }
    cbn [mbind option_bind].
    destruct (alterUnit_registry _ _ _ _ _ H1) as (s & Hs' & Hreg1).
    rewrite Hu in Hs'. injection Hs' as <-.
    destruct (alterUnit (unit_cargo_add resourceType moved) team srcID g1)
      as [g2|] eqn:H2.
    2:{ assert (is_Some (alterUnit (unit_cargo_add resourceType moved)
                           team srcID g1)) as [? ?].
        { apply alterUnit_is_Some. rewrite Hreg1. rewrite decide_True by done.
          eauto. }
        congruence. }
    destruct (alterUnit_registry _ _ _ _ _ H2) as (d & Hd' & Hreg2).
    rewrite Hreg1 in Hd'. rewrite decide_True in Hd' by done.
    injection Hd' as <-.
    exists g2, (unit_cargo_add resourceType moved
                  (unit_cargo_add resourceType (- moved) u)).
    split; [done|]. split; [rewrite Hreg2; by rewrite decide_True|].
    intros r. cbn [cargo unit_cargo_add]. apply cargo_add_back.
Qed.

End TransferEdges.

Lemma transferResources_edges_witness :
  transferResources (H := Scenario.collaborators) Scenario.uranium_field
    TEAM_A "u_1" "u_9" WOOD 10 = None.
Proof.
  apply (transferResources_edges (H := Scenario.collaborators)
           Scenario.uranium_field TEAM_A "u_1" "u_9" WOOD 10).
  right. reflexivity.
Defined.

Lemma insert_as_alter {V} (f : V -> V) (k : string) (c : V) (cs : gmap string V) :
  cs !! k = Some c -> <[k := f c]> cs = alter f k cs.
Proof.
  intros Hc. apply map_eq. intros i. destruct (decide (i = k)) as [->|Hi].
  - by rewrite lookup_insert_eq, lookup_alter_eq, Hc.
  - by rewrite lookup_insert_ne, lookup_alter_ne.
Qed.

Section Deposit.
Variable RESOURCE_TO_FUEL_RATE : ResourceTypes -> Q.
Local Open Scope Q_scope.

Lemma fuelValue_empty : fuelValue RESOURCE_TO_FUEL_RATE (mkCargo 0 0 0) == 0.
Proof. unfold fuelValue. cbn. ring. Qed.

(** X14.  A deposit of a registered unit on a city tile of its team
    adds the fuel value of its cargo to the tile's city, to the total fuel
    of the cities and to the fuel generated by its team, and empties the
    cargo, other units staying as they were; it raises when the city of the
    tile is not registered, and changes nothing when the unit stands on no
    tile of its team. *)
Theorem handleResourceDeposit_converts (g : Game) (unit : Unit) :
  getUnit g (unit_team unit) (unit_id unit) = Some unit ->
  inMap (game_map g) (unit_pos unit) = true ->
  let value := fuelValue RESOURCE_TO_FUEL_RATE (cargo unit) in
  (forall tile city,
     citytile (cellAt (game_map g) (unit_pos unit)) = Some tile ->
     ct_team tile = unit_team unit ->
     cities g !! cityid tile = Some city ->
     exists g',
       handleResourceDeposit RESOURCE_TO_FUEL_RATE g unit = Some g'
       /\ cities g' = <[cityid tile := add_fuel value city]> (cities g)
       /\ totalFuel (cities g') == totalFuel (cities g) + value
       /\ fuelGenerated (per_team_get (stats g') (unit_team unit))
          = fuelGenerated (per_team_get (stats g) (unit_team unit)) + value
       /\ getUnit g' (unit_team unit) (unit_id unit)
          = Some (set_cargo (mkCargo 0 0 0) unit)
       /\ (forall t i, (t, i) <> (unit_team unit, unit_id unit) ->
             getUnit g' t i = getUnit g t i))
  /\ (forall tile,
        citytile (cellAt (game_map g) (unit_pos unit)) = Some tile ->
        ct_team tile = unit_team unit ->
        cities g !! cityid tile = None ->
        handleResourceDeposit RESOURCE_TO_FUEL_RATE g unit = None)
  /\ ((forall tile,
         citytile (cellAt (game_map g) (unit_pos unit)) = Some tile ->
         ct_team tile <> unit_team unit) ->
      handleResourceDeposit RESOURCE_TO_FUEL_RATE g unit = Some g).
Proof.
  intros Hu Hin value. unfold handleResourceDeposit.
  rewrite getCellByPos_inMap, Hin. cbn [mbind option_bind].
  split; [|split].
  - intros tile city Htile Hteam Hcity. rewrite Htile.
    rewrite decide_True by done. rewrite Hcity. cbn [mbind option_bind].
    fold value. eexists. split; [done|].
    split; [done|]. split.
    { cbn [cities updateUnit set_teamState set_game_map set_stats set_cities].
      rewrite (insert_as_alter (add_fuel value)) by done.
      rewrite totalFuel_refuel. rewrite decide_True by eauto. done. }
    split.
    { cbn [stats updateUnit set_teamState set_game_map set_stats set_cities].
      rewrite per_team_get_set. by rewrite decide_True. }
    assert (forall t i,
              getUnit (updateUnit (set_cargo (mkCargo 0 0 0)) (unit_pos unit) unit
                         (set_stats
                            (set_cities g
                               (<[cityid tile := add_fuel value city]> (cities g)))
                            (per_team_set (stats g) (unit_team unit)
                               (add_fuelGenerated value
                                  (per_team_get (stats g) (unit_team unit))))))
                t i
              = if decide (t = unit_team unit /\ i = unit_id unit)
                then Some (set_cargo (mkCargo 0 0 0) unit)
                else getUnit g t i) as Hreg.
    { intros t i.
      match goal with
      | |- getUnit (updateUnit ?f ?p ?u ?g0) t i = _ =>
          pose proof (updateUnit_alterUnit f u g0 Hu) as Halter
      end.
      destruct (alterUnit_registry _ _ _ _ _ Halter) as (u' & Hu' & Hreg).
      change (getUnit g (unit_team unit) (unit_id unit) = Some u') in Hu'.
      rewrite Hu in Hu'. injection Hu' as <-. apply Hreg. }
    split.
    + rewrite Hreg. by rewrite decide_True.
    + intros t i Hti. rewrite Hreg. rewrite decide_False; [done|].
      intros [-> ->]. done.
  - intros tile Htile Hteam Hcity. rewrite Htile.
    rewrite decide_True by done. by rewrite Hcity.
  - intros Hother.
    destruct (citytile (cellAt (game_map g) (unit_pos unit))) as [tile|] eqn:Ht;
      [|done].
    rewrite decide_False; [done|]. by apply Hother.
Qed.

End Deposit.

Section DayNight.
Variables DAY_LENGTH NIGHT_LENGTH : Z.
Local Open Scope Z_scope.

(** X15.  With a day and a night of lengths that are not negative and
    not both zero, the turns before [DAY_LENGTH] are day, the turns from
    there to the end of the cycle are night, and [isNight] is the same a
    whole number of cycles later. *)
Theorem isNight_cycle (g : Game) :
  0 <= DAY_LENGTH -> 0 <= NIGHT_LENGTH -> 0 < DAY_LENGTH + NIGHT_LENGTH ->
  0 <= turn (state g) ->
  let cycle := DAY_LENGTH + NIGHT_LENGTH in
  (turn (state g) < DAY_LENGTH -> isNight DAY_LENGTH NIGHT_LENGTH g = false)
  /\ (DAY_LENGTH <= turn (state g) < cycle ->
      isNight DAY_LENGTH NIGHT_LENGTH g = true)
  /\ (forall k, 0 <= k ->
        isNight DAY_LENGTH NIGHT_LENGTH
          (set_turn g (turn (state g) + k * cycle))
        = isNight DAY_LENGTH NIGHT_LENGTH g).
Proof.
  intros Hd Hn Hc Ht cycle. unfold isNight. subst cycle.
  rewrite !decide_False by lia.
  rewrite Z.rem_mod_nonneg by lia.
  split; [|split].
  - intros Hlt. rewrite Z.mod_small; [|lia]. case_bool_decide as Hb; [|done]. lia.
  - intros Hin. rewrite Z.mod_small; [|lia]. case_bool_decide as Hb; [done|]. lia.
  - intros k Hk. cbn [turn state set_turn].
    rewrite decide_False by lia.
    rewrite Z.rem_mod_nonneg by nia. by rewrite Z_mod_plus_full.
Qed.

End DayNight.

Lemma isNight_cycle_witness :
  let g := set_turn (Scenario.newGame 1 1) 35 in
  isNight 30 10 g = true
  /\ isNight 30 10 (set_turn g (turn (state g) + 2 * (30 + 10))) = true.
Proof.
  intros g.
  destruct (isNight_cycle 30 10 g) as (_ & Hnight & Hperiod); [cbn; lia..|].
  split; [apply Hnight; cbn; lia|].
  rewrite (Hperiod 2%Z) by lia. apply Hnight. cbn. lia.
Defined.


(** * From validation to execution *)

Section TurnTheorems.
Context `{Collaborators}.

(** X2.  No two actions accepted in a turn have the same actor: a unit,
    or a city tile, is given at most one action per turn, whatever the
    commands. *)
Theorem one_action_per_actor (cmds : list Command) (s : VState) :
  NoDup (actor (vs_game s) <$> (validateCommands cmds s).1).
Proof. apply validateCommands_accepted. Qed.

(** X3.  Every action accepted in a turn passed the checks of its kind
    against the game, for the team that sent it, and its actor had no action
    yet when the turn began. *)
Theorem accepted_actions_admissible (cmds : list Command) (s : VState)
    (a : Action) :
  a ∈ (validateCommands cmds s).1 ->
  admissible (vs_game s) (placed s (actor (vs_game s) a).1)
    (actor (vs_game s) a).1 a.
Proof. apply validateCommands_accepted. Qed.

(** X4.  When every registered unit stands on the map, whatever
    [validateCommand] throws is a match warning: no command makes it raise
    a [TypeError]. *)
Theorem validateCommand_never_crashes (cmd : Command) (s : VState) :
  unitsOnMap (vs_game s) ->
  forall e, (validateCommand cmd s).1 = Thrown e -> exists w, e = MatchWarn w.
Proof.
  intros Hon e He. destruct e as [w|]; [eauto|].
  by destruct (validateCommand_no_TypeError cmd s Hon).
Qed.

(** X5.  A command with an unknown verb, or with another number of
    arguments than its verb takes, is rejected as malformed and leaves the
    accumulator as it was; and no command is rejected as invalid. *)
Theorem malformed_commands_rejected (cmd : Command) (s : VState) :
  (forall verb args,
     split (command cmd) = verb :: args ->
     match ACTIONS_of_string verb with
     | None => True
     | Some a => exists n, arity a = Some n /\ length args <> n
     end ->
     validateCommand cmd s = (Thrown (MatchWarn MalformedCommand), s))
  /\ (validateCommand cmd s).1 <> Thrown (MatchWarn InvalidCommand).
Proof.
  split; [intros verb args; apply validateCommand_malformed|].
  apply validateCommand_not_invalid.
Qed.

End TurnTheorems.

Lemma UnitsInv_unitsOnMap g : UnitsInv g -> unitsOnMap g.
Proof. intros Hinv t i u Hu. by destruct (ui_registered g Hinv t i u Hu) as (_ & _ & ? & _). Qed.

Lemma accepted_actions_admissible_witness :
  let s := Scenario.fresh Scenario.three_workers in
  let a := Move (mkMoveAction TEAM_A "u_1" EAST (1, 0)%Z) in
  admissible (H := Scenario.collaborators) (vs_game s)
    (placed s (actor (H := Scenario.collaborators) (vs_game s) a).1)
    (actor (H := Scenario.collaborators) (vs_game s) a).1 a.
Proof.
  intros s a.
  apply (accepted_actions_admissible (H := Scenario.collaborators)
           Scenario.turn_commands s a).
  vm_compute. constructor.
Defined.

Lemma validateCommand_never_crashes_witness :
  exists w,
    (validateCommand (H := Scenario.collaborators)
       (mkCommand TEAM_A "bcity u_1") (Scenario.fresh Scenario.three_workers)).1
    = Thrown (MatchWarn w).
Proof.
  destruct (validateCommand (H := Scenario.collaborators)
              (mkCommand TEAM_A "bcity u_1")
              (Scenario.fresh Scenario.three_workers)) as [[r|e] s'] eqn:Hrun;
    [by vm_compute in Hrun|].
  destruct (validateCommand_never_crashes (H := Scenario.collaborators)
              (mkCommand TEAM_A "bcity u_1")
              (Scenario.fresh Scenario.three_workers)
              (UnitsInv_unitsOnMap _ three_workers_UnitsInv) e) as [w ->].
  - by rewrite Hrun.
  - by exists w.
Defined.

Lemma malformed_commands_rejected_witness :
  validateCommand (H := Scenario.collaborators)
    (mkCommand TEAM_A "m u_1") (Scenario.fresh Scenario.three_workers)
  = (Thrown (MatchWarn MalformedCommand), Scenario.fresh Scenario.three_workers).
Proof.
  apply (proj1 (malformed_commands_rejected (H := Scenario.collaborators)
                  (mkCommand TEAM_A "m u_1")
                  (Scenario.fresh Scenario.three_workers)) "m" ["u_1"]).
  - reflexivity.
  - exists 2%nat. split; [reflexivity|]. cbn. lia.
Defined.

Lemma elem_of_movesOf acts m : m ∈ movesOf acts <-> Move m ∈ acts.
Proof.
  unfold movesOf. rewrite list_elem_of_omap. split.
  - intros (a & Ha & Hm). destruct a; try done. by injection Hm as ->.
  - intros Ha. by exists (Move m).
Qed.

Lemma movesOf_NoDup `{Collaborators} g acts :
  NoDup (actor g <$> acts) -> NoDup (mover <$> movesOf acts).
Proof.
  induction acts as [|a acts IH]; [constructor|].
  rewrite fmap_cons. intros [Ha Hnd]%NoDup_cons.
  unfold movesOf. cbn [omap list_omap]. fold (movesOf acts).
  destruct a as [| | | |m| |]; try by apply IH.
  rewrite fmap_cons. apply NoDup_cons. split; [|by apply IH].
  intros (m' & Hkey & Hm')%list_elem_of_fmap. apply Ha.
  apply list_elem_of_fmap. exists (Move m').
  split; [done|]. by apply elem_of_movesOf.
Qed.

Lemma executeMoves g l :
  UnitsInv g -> NoDup (mover <$> l) -> (forall m, m ∈ l -> feasible g m) ->
  exists g',
    forEach executeMove l g = Some g'
    /\ UnitsInv g'
    /\ (forall m, m ∈ l ->
          exists u, getUnit g' (ma_team m) (unitid m) = Some u
                    /\ unit_pos u = newcell m)
    /\ (forall t i, (t, i) ∉ mover <$> l -> getUnit g' t i = getUnit g t i)
    /\ (forall q, inMap (game_map g') q = inMap (game_map g) q).
Proof.
  revert g. induction l as [|m l IH]; intros g Hinv Hnd Hfeas.
  { exists g. split; [done|]. split; [done|].
    split; [by intros m ?%elem_of_nil|done]. }
  rewrite fmap_cons in Hnd. apply NoDup_cons in Hnd as [Hm Hnd].
  destruct (Hfeas m) as (u & Hu & Hnew & Hin); [set_solver|].
  destruct (ui_registered g Hinv _ _ u Hu) as (_ & _ & Hinu & _).
  destruct (proj2 (moveUnit_returns g (ma_team m) (unitid m) (direction m) u
                     Hu Hinu)) as [g1 Hrun1]; [by rewrite <- Hnew|].
  pose proof (moveUnit_UnitsInv _ _ _ _ _ Hinv Hrun1) as Hinv1.
  destruct (moveUnit_spec _ _ _ _ _ Hinv Hrun1)
    as (u' & Hu' & _ & Hreg1 & _ & Hdims1 & _).
  rewrite Hu in Hu'. injection Hu' as <-.
  destruct (IH g1 Hinv1 Hnd) as (g' & Hrun & Hinv' & Hat & Hframe & Hdims).
  { intros m' Hm'. destruct (Hfeas m') as (v & Hv & Hnewv & Hinv0); [set_solver|].
    exists v. rewrite Hreg1, Hdims1. rewrite decide_False; [done|].
    intros [Ht Hi]. apply Hm. apply list_elem_of_fmap. exists m'.
    split; [|done]. unfold mover. by rewrite Ht, Hi. }
  exists g'. cbn [forEach].
  assert (executeMove g m = Some g1) as -> by exact Hrun1.
  cbn [mbind option_bind]. split; [done|]. split; [done|].
  split; [|split].
  - intros m' [->|Hm']%elem_of_cons; [|by apply Hat].
    exists (set_unit_pos u (translate (unit_pos u) (direction m))).
    rewrite Hframe by done. rewrite Hreg1. rewrite decide_True by done.
    split; [done|]. cbn. by rewrite Hnew.
  - intros t i Hti. rewrite Hframe by set_solver. rewrite Hreg1.
    rewrite decide_False; [done|]. intros [-> ->]. apply Hti.
    rewrite fmap_cons. set_solver.
  - intros q. by rewrite Hdims, Hdims1.
Qed.

Section Pipeline.
Context `{Collaborators}.

Lemma validated_moves_feasible cmds s m :
  UnitsInv (vs_game s) ->
  m ∈ movesOf (validateCommands cmds s).1 ->
  feasible (vs_game s) m.
Proof.
  intros Hinv Hm%elem_of_movesOf.
  destruct (proj2 (validateCommands_accepted cmds s) _ Hm)
    as (_ & _ & u & Hu & _ & Hnew & Hin).
  cbn [actor fst] in Hu.
  exists u. split; [done|]. split; [done|].
  destruct (decide (direction m = CENTER)) as [Hc|Hc]; [|by apply Hin].
  rewrite Hnew, Hc. cbn [translate].
  by destruct (ui_registered _ Hinv _ _ u Hu) as (_ & _ & ? & _).
Qed.

(** X1.  The moves validated in a turn on a game whose registry and cells
    agree can be resolved and carried out: [handleMovementActions] returns
    moves of the batch, [moveUnit] returns for each of them in turn, every
    unit of an accepted move ends registered on the cell the move leads to,
    and the registry and the cells still agree. *)
Theorem validated_moves_execute (cmds : list Command) (s : VState) :
  UnitsInv (vs_game s) ->
  let g := vs_game s in
  let moves := movesOf (validateCommands cmds s).1 in
  exists pruned g',
    handleMovementActions g moves = Some pruned
    /\ (forall m, m ∈ pruned -> m ∈ moves)
    /\ forEach executeMove pruned g = Some g'
    /\ UnitsInv g'
    /\ forall m, m ∈ pruned ->
         exists u, getUnit g' (ma_team m) (unitid m) = Some u
                   /\ unit_pos u = newcell m.
Proof.
  intros Hinv g moves.
  assert (forall m, m ∈ moves -> feasible g m) as Hfeas
    by (intros m; by apply validated_moves_feasible).
  destruct (handleMovementActions_bumped g moves)
    as (D & pruned & Hrun & Hpruned & _).
  { intros m (u & Hu & _)%Hfeas. exists u. split; [done|].
    by destruct (ui_registered _ Hinv _ _ u Hu) as (_ & _ & ? & _). }
  assert (forall m, m ∈ pruned -> m ∈ moves) as Hsub.
  { intros m. rewrite Hpruned. by intros [_ ?]%list_elem_of_filter. }
  destruct (executeMoves g pruned Hinv) as (g' & Hexec & Hinv' & Hat & _).
  - rewrite Hpruned.
    pose proof (movesOf_NoDup g _ (proj1 (validateCommands_accepted cmds s)))
      as Hnd.
    fold moves in Hnd. revert Hnd. generalize moves. intros l Hnd.
    induction l as [|m l IH]; [constructor|].
    rewrite fmap_cons in Hnd. apply NoDup_cons in Hnd as [Hm Hnd].
    rewrite filter_cons. case_decide; [|by apply IH].
    rewrite fmap_cons. apply NoDup_cons. split; [|by apply IH].
    intros (m' & Hkey & [_ Hm']%list_elem_of_filter)%list_elem_of_fmap.
    apply Hm. apply list_elem_of_fmap. eauto.
  - intros m Hm. by apply Hfeas, Hsub.
  - exists pruned, g'. done.
Qed.

End Pipeline.

Lemma validated_moves_execute_witness :
  let s := Scenario.fresh Scenario.three_workers in
  exists pruned g',
    handleMovementActions (vs_game s)
      (movesOf (validateCommands (H := Scenario.collaborators)
                  Scenario.turn_commands s).1) = Some pruned
    /\ forEach executeMove pruned (vs_game s) = Some g'
    /\ UnitsInv g'.
Proof.
  intros s.
  destruct (validated_moves_execute (H := Scenario.collaborators)
              Scenario.turn_commands s three_workers_UnitsInv)
    as (pruned & g' & Hrun & _ & Hexec & Hinv & _).
  exists pruned, g'. split; [exact Hrun|]. split; [exact Hexec|exact Hinv].
Defined.

Section Execute.
Context `{Collaborators}.

(** X6.  A transfer that validation accepts can be carried out:
    [transferResources] returns, and takes from the source what it gives to
    the destination, at most the amount asked for and, when the cargo of the
    source and the space of the destination are not negative, not less than
    nothing. *)
Theorem validated_transfer_executes (cmd : Command) (s s' : VState)
    (team : TEAM) (srcID destID : string) (resourceType : ResourceTypes)
    (amt : Z) :
  validateCommand cmd s
  = (Returned (Some (TransferAction team srcID destID resourceType amt)), s') ->
  exists srcunit destunit g' src' dest' moved,
    getUnit (vs_game s) team srcID = Some srcunit
    /\ getUnit (vs_game s) team destID = Some destunit
    /\ transferResources (vs_game s) team srcID destID resourceType
         (inject_Z amt) = Some g'
    /\ getUnit g' team srcID = Some src'
    /\ getUnit g' team destID = Some dest'
    /\ (cargo_get (cargo src') resourceType
        == cargo_get (cargo srcunit) resourceType - moved)%Q
    /\ (cargo_get (cargo dest') resourceType
        == cargo_get (cargo destunit) resourceType + moved)%Q
    /\ (moved <= inject_Z amt)%Q
    /\ ((0 <= cargo_get (cargo srcunit) resourceType)%Q ->
        (0 <= getCargoSpaceLeft destunit)%Q -> (0 <= moved)%Q).
Proof.
  intros Hrun.
  destruct (validateCommand_accepted cmd s _ s' Hrun)
    as ((Hteam & _ & src & dest & Hs & Hd & _ & Hne & _ & Hamt) & _).
  cbn [actor fst] in Hteam. rewrite <- Hteam in Hs, Hd.
  destruct (transferResources_spec (vs_game s) team srcID destID resourceType
              (inject_Z amt) src dest Hs Hd Hne)
    as (g' & src' & dest' & moved & Hex & Hs' & Hd' & Hsrc & Hdest & Hle & _
        & _ & Hpos & _).
  exists src, dest, g', src', dest', moved.
  split_and!; try done.
  intros Hc Hsp. apply Hpos; [|done..].
  change 0%Q with (inject_Z 0). rewrite <- Zle_Qle. done.
Qed.

(** X7.  A build that validation accepts can be carried out: the
    worker or the cart appears, under the next unit id, on the city tile of
    the team that was named, and keeps the registry and the cells in
    agreement; the tile of a build-city command goes onto a cell of the map
    that holds none, and is the team's. *)
Theorem validated_builds_execute (cmd : Command) (s s' : VState) (a : Action) :
  validateCommand cmd s = (Returned (Some a), s') ->
  let g := vs_game s in
  match a with
  | SpawnWorkerAction team x y | SpawnCartAction team x y =>
      let type :=
        match a with SpawnCartAction _ _ _ => CART | _ => WORKER end in
      exists tile g' unit,
        citytile (cellAt (game_map g) (x, y)) = Some tile
        /\ ct_team tile = team
        /\ spawnUnit type g team x y None = Some g'
        /\ getUnit g' team ("u_" +:+ pretty (globalUnitIDCount g + 1)%Z)
           = Some unit
        /\ unit_pos unit = (x, y) /\ unit_type unit = type
        /\ (UnitsInv g -> UnitsInv g')
  | SpawnCityAction team uid =>
      exists unit,
        getUnit g team uid = Some unit
        /\ tileAt (game_map g) (unit_pos unit) = None
        /\ (CityInv g ->
            exists g',
              spawnCityTile g team (unit_pos unit).1 (unit_pos unit).2 None
              = Some g'
              /\ CityInv g'
              /\ exists tile,
                   tileAt (game_map g') (unit_pos unit) = Some tile
                   /\ ct_team tile = team)
  | _ => True
  end.
Proof.
  intros Hrun g.
  destruct (validateCommand_accepted cmd s _ s' Hrun) as ((Hteam & _ & Ha) & _).
  fold g in Hteam, Ha.
  assert (forall type team x y,
            inMap (game_map g) (x, y) = true ->
            exists g' unit,
              spawnUnit type g team x y None = Some g'
              /\ getUnit g' team ("u_" +:+ pretty (globalUnitIDCount g + 1)%Z)
                 = Some unit
              /\ unit_pos unit = (x, y) /\ unit_type unit = type
              /\ (UnitsInv g -> UnitsInv g')) as Hspawn.
  { intros type team x y Hin.
    destruct (spawnUnit type g team x y None) as [g'|] eqn:Hsp.
    2:{ unfold spawnUnit, getCell in Hsp. by rewrite Hin in Hsp. }
    destruct (spawnUnit_spec type g team x y g' _ eq_refl Hsp)
      as (_ & _ & Hreg & _).
    exists g', (Unit_new type x y team (globalUnitIDCount g + 1)).
    split; [done|]. split; [rewrite Hreg; by rewrite decide_True|].
    split; [done|]. split; [done|].
    intros Hinv. by eapply spawnUnit_UnitsInv. }
  destruct a as [|team uid|team x y|team x y| | |]; try done;
    cbn [actor fst] in Hteam; subst.
  - destruct Ha as (u & Hu & Hin & Hcity & _).
    exists u. split; [done|].
    assert (tileAt (game_map g) (unit_pos u) = None) as Hfree.
    { unfold tileAt. unfold isCityTile in Hcity.
      by destruct (citytile (cellAt (game_map g) (unit_pos u))). }
    split; [done|]. intros Hinv.
    destruct (spawnCityTile_Spawned g (agentID cmd) (unit_pos u) Hinv Hin Hfree)
      as (g' & k & Hsp & Hspawned).
    exists g'. split; [done|].
    split; [by eapply (Spawned_CityInv g g' (agentID cmd) (unit_pos u) k)|].
    destruct Hspawned as (_ & Hnew & _). eauto.
  - destruct Ha as (Hin & tile & Htile & Hown & _).
    destruct (Hspawn CART (agentID cmd) x y Hin)
      as (g' & u & Hsp & Hreg & Hpos & Htype & Hkeep).
    exists tile, g', u. cbn zeta. by split_and!.
  - destruct Ha as (Hin & tile & Htile & Hown & _).
    destruct (Hspawn WORKER (agentID cmd) x y Hin)
      as (g' & u & Hsp & Hreg & Hpos & Htype & Hkeep).
    exists tile, g', u. cbn zeta. by split_and!.
Qed.

End Execute.

Lemma handleResourceDeposit_converts_witness :
  exists g',
    handleResourceDeposit Scenario.fuel_rates Scenario.depot Scenario.loaded_worker = Some g'
    /\ (totalFuel (cities g') == totalFuel (cities Scenario.depot) + 90)%Q.
Proof.
  destruct (cities Scenario.depot !! "c_1") as [city|] eqn:Hcity;
    [|by vm_compute in Hcity].
  destruct (proj1 (handleResourceDeposit_converts Scenario.fuel_rates Scenario.depot
                     Scenario.loaded_worker eq_refl eq_refl)
              (mkCityTile TEAM_A "c_1" 0 0) city)
    as (g' & Hrun & _ & Hfuel & _).
  - reflexivity.
  - reflexivity.
  - exact Hcity.
  - exists g'. split; [exact Hrun|]. rewrite Hfuel. by vm_compute.
Defined.

Lemma validated_transfer_executes_witness :
  exists g',
    transferResources (H := Scenario.collaborators) Scenario.depot TEAM_A "u_1" "u_2"
      WOOD (inject_Z 10) = Some g'.
Proof.
  destruct (validateCommand (H := Scenario.collaborators)
              (mkCommand TEAM_A "t u_1 u_2 wood 10") (Scenario.fresh Scenario.depot))
    as [out s'] eqn:Hrun.
  assert (out = Returned (Some (TransferAction TEAM_A "u_1" "u_2" WOOD 10)))
    as -> by (vm_compute in Hrun; by injection Hrun as <- _).
  destruct (validated_transfer_executes (H := Scenario.collaborators)
              _ _ _ _ _ _ _ _ Hrun)
    as (_ & _ & g' & _ & _ & _ & _ & _ & Hex & _).
  exists g'. exact Hex.
Defined.

Lemma validated_builds_execute_witness :
  exists g',
    spawnUnit WORKER Scenario.two_tiles_one_worker TEAM_A 2 0 None = Some g'.
Proof.
  destruct (validateCommand (H := Scenario.collaborators)
              (mkCommand TEAM_A "bw 2 0")
              (Scenario.fresh Scenario.two_tiles_one_worker))
    as [out s'] eqn:Hrun.
  assert (out = Returned (Some (SpawnWorkerAction TEAM_A 2 0)))
    as -> by (vm_compute in Hrun; by injection Hrun as <- _).
  destruct (validated_builds_execute (H := Scenario.collaborators)
              _ _ _ _ Hrun)
    as (_ & g' & _ & _ & _ & Hsp & _).
  exists g'. exact Hsp.
Defined.


(** * Cities founded and destroyed *)

(** X19.  [destroyCity] raises for an id no city has; for a city it
    removes the city from the registry and its tiles from the map, resets
    the road of its cells, leaves every other cell, and every unit and
    resource, as they were, and keeps the cities and the map in
    agreement. *)
Theorem destroyCity_removes_only_its_city (g : Game) (cityID : string) :
  CityInv g ->
  (cities g !! cityID = None -> destroyCity g cityID = None)
  /\ (forall city,
        cities g !! cityID = Some city ->
        exists g',
          destroyCity g cityID = Some g'
          /\ cities g' = delete cityID (cities g)
          /\ (forall q,
                tileAt (game_map g') q
                = t ← tileAt (game_map g) q;
                  if decide (cityid t = cityID) then None else Some t)
          /\ (forall q, q ∈ citycells city ->
                road (cellAt (game_map g') q) = MIN_ROAD (configs g))
          /\ (forall q, q ∉ citycells city ->
                cellAt (game_map g') q = cellAt (game_map g) q)
          /\ (forall q,
                units (cellAt (game_map g') q) = units (cellAt (game_map g) q)
                /\ resource (cellAt (game_map g') q)
                   = resource (cellAt (game_map g) q))
          /\ CityInv g').
Proof.
  intros Hinv. split.
  { intros Hnone. unfold destroyCity. by rewrite Hnone. }
  intros c Hc.
  destruct (destroyCity g cityID) as [g'|] eqn:Hrun;
    [|by unfold destroyCity in Hrun; rewrite Hc in Hrun].
  pose proof (destroyCity_CityInv g cityID g' Hinv Hrun) as Hinv'.
  destruct (destroyCity_tiles g cityID c g' Hc Hrun)
    as (_ & Hcities & _ & Htiles).
  assert (forall q, cellAt (game_map g') q
                    = if decide (q ∈ citycells c)
                      then mkCell (resource (cellAt (game_map g) q)) None
                             (units (cellAt (game_map g) q))
                             (MIN_ROAD (configs g))
                      else cellAt (game_map g) q) as Hcells.
  { intros q. unfold destroyCity in Hrun. rewrite Hc in Hrun.
    injection Hrun as <-. cbn [game_map set_game_map].
    apply foldl_clearCityTile. }
  exists g'. split; [done|]. split; [done|].
  split; [|split; [|split; [|split; [|done]]]].
  - intros q. rewrite Htiles.
    destruct (tileAt (game_map g) q) as [t|] eqn:Ht; cbn.
    + destruct (inv_registered g Hinv q t Ht) as (c' & Hc' & _ & Hq).
      destruct (decide (cityid t = cityID)) as [Hk|Hk].
      * rewrite Hk, Hc in Hc'. injection Hc' as <-. by rewrite decide_True.
      * rewrite decide_False; [done|]. intros Hin.
        destruct (inv_cells g Hinv cityID c Hc) as (_ & _ & _ & Hcs).
        destruct (Hcs q Hin) as (t' & Ht' & Hid). congruence.
    + by case_decide.
  - intros q Hq. rewrite Hcells. by rewrite decide_True.
  - intros q Hq. rewrite Hcells. by rewrite decide_False.
  - intros q. rewrite Hcells. by case_decide.
Qed.

Lemma destroyCity_removes_only_its_city_witness :
  exists g',
    destroyCity Scenario.two_cities "c_1" = Some g'
    /\ cities g' = delete "c_1" (cities Scenario.two_cities).
Proof.
  destruct (cities Scenario.two_cities !! "c_1") as [c|] eqn:Hc;
    [|by vm_compute in Hc].
  destruct (proj2 (destroyCity_removes_only_its_city Scenario.two_cities "c_1"
                     two_cities_CityInv) c Hc) as (g' & Hrun & Hcities & _).
  exists g'. split; [exact Hrun|exact Hcities].
Defined.

(** X20.  [spawnCityTile] raises off the map; on a cell of the map
    with no tile of the team next to it, it founds a city under the next
    city id, with no fuel and this one cell, and leaves the other cells and
    the cell's units and resource as they were. *)
Theorem spawnCityTile_founds_city (g : Game) (team : TEAM) (p : Position) :
  CityInv g ->
  (inMap (game_map g) p = false ->
   forall cityid, spawnCityTile g team p.1 p.2 cityid = None)
  /\ (inMap (game_map g) p = true ->
      adjSameTeam (game_map g) team p = [] ->
      let id := "c_" +:+ pretty (globalCityIDCount g + 1)%Z in
      exists g',
        spawnCityTile g team p.1 p.2 None = Some g'
        /\ cities g !! id = None
        /\ cities g' = <[id := mkCity id team 0 [p]]> (cities g)
        /\ globalCityIDCount g' = (globalCityIDCount g + 1)%Z
        /\ tileAt (game_map g') p = Some (mkCityTile team id 0 0)
        /\ (forall q, q <> p -> cellAt (game_map g') q = cellAt (game_map g) q)
        /\ units (cellAt (game_map g') p) = units (cellAt (game_map g) p)
        /\ resource (cellAt (game_map g') p) = resource (cellAt (game_map g) p)).
Proof.
  intros Hinv. split.
  { intros Hout cid. unfold spawnCityTile, getCell.
    rewrite <- surjective_pairing. by rewrite Hout. }
  intros Hin Hadj id. unfold spawnCityTile, getCell.
  rewrite <- surjective_pairing, Hin. cbn [mbind option_bind].
  unfold adjSameTeam in Hadj. rewrite Hadj.
  eexists. split; [done|].
  split.
  { destruct (cities g !! id) as [c|] eqn:Hc; [|done].
    destruct (inv_fresh g Hinv id) as (n & Hn & Hle); [by eauto|].
    apply cityName_inj in Hn. lia. }
  split; [done|]. split; [done|].
  split; [unfold tileAt; cbn; by rewrite cellAt_setCell|].
  split; [intros q Hq; cbn; by rewrite cellAt_setCell_ne|].
  cbn. by rewrite cellAt_setCell.
Qed.

Lemma spawnCityTile_founds_city_witness :
  exists g',
    spawnCityTile Scenario.two_cities TEAM_B 2 0 None = Some g'
    /\ globalCityIDCount g' = (globalCityIDCount Scenario.two_cities + 1)%Z.
Proof.
  destruct (proj2 (spawnCityTile_founds_city Scenario.two_cities TEAM_B
                     (2, 0)%Z two_cities_CityInv))
    as (g' & Hrun & _ & _ & Hcount & _).
  - reflexivity.
  - by vm_compute.
  - exists g'. split; [exact Hrun|exact Hcount].
Defined.


(** * Resolution of moves: further theorems *)


Lemma bumped_collides g actions c :
  bumped g actions c -> exists a, a ∈ actions /\ collides g actions (newcell a).
Proof.
  induction 1 as [c Hc|]; [|done].
  pose proof Hc as [_ Hn].
  destruct (targeting actions c) as [|a l] eqn:Ht.
  { simpl in Hn. destruct Hn as [?|[? _]]; [lia|done]. }
  assert (a ∈ targeting actions c) as [Hnew Ha]%list_elem_of_filter
    by (rewrite Ht; set_solver).
  exists a. split; [done|]. by rewrite Hnew.
Qed.


Lemma onMap_cases g (actions : list MoveAction) :
  forallb (fun a =>
             from_option (fun unit => inMap (game_map g) (unit_pos unit)) false
               (getUnit g (ma_team a) (unitid a))) actions = true ->
  forall a, a ∈ actions -> onMap g a.
Proof.
  intros Hall a Ha. apply onMap_intro.
  rewrite forallb_forall in Hall. apply Hall. by apply list_elem_of_In.
Qed.






Lemma targeting_filter (P : MoveAction -> Prop) `{forall a, Decision (P a)}
    actions c :
  (length (targeting (filter P actions) c) <= length (targeting actions c))%nat.
Proof.
  unfold targeting. rewrite list_filter_filter.
  rewrite (list_filter_iff _ (fun x => P x /\ newcell x = c))
    by (intros x; tauto).
  rewrite <- list_filter_filter. apply length_filter.
Qed.

Lemma length_targeting_perm l l' c :
  l ≡ₚ l' -> length (targeting l c) = length (targeting l' c).
Proof. intros Hp. unfold targeting. by rewrite Hp. Qed.

Lemma movers_elem actions i :
  i ∈ movers actions <-> exists a, a ∈ actions /\ unitid a = i.
Proof.
  unfold movers. rewrite elem_of_list_to_set, list_elem_of_fmap.
  split; intros (a & ? & ?); by exists a.
Qed.

(** The accepted moves of a batch collide nowhere, when the registry and the
    cells agree. *)
Lemma pruned_collision_free g actions pruned :
  UnitsInv g -> (forall a, a ∈ actions -> onMap g a) ->
  handleMovementActions g actions = Some pruned ->
  forall a, a ∈ pruned -> ~ collides g pruned (newcell a).
Proof.
  intros Hinv Hunits Hrun.
  destruct (handleMovementActions_bumped g actions Hunits)
    as (D & pruned' & Hrun' & Hpruned & HD).
  rewrite Hrun in Hrun'. injection Hrun' as <-.
  assert (forall a, a ∈ pruned <-> a ∈ actions /\ newcell a ∉ D) as Hin.
  { intros a. rewrite Hpruned, list_elem_of_filter. tauto. }
  intros a [Ha HaD]%Hin [Hcity Hcol].
  assert (length (targeting pruned (newcell a))
          <= length (targeting actions (newcell a)))%nat as Hle.
  { rewrite (length_targeting_perm _ _ _ Hpruned). apply targeting_filter. }
  assert (~ collides g actions (newcell a)) as Hfree
    by (intros Hc; by apply HaD, HD, bumped_here).
  destruct Hcol as [Hmany|(Hone & Hsize & Hstill)].
  { apply Hfree. split; [done|]. left. lia. }
  destruct (decide (1 < length (targeting actions (newcell a)))%nat) as [Hm|Hm].
  { apply Hfree. split; [done|]. by left. }
  destruct (unitThereIsStill (movers actions) (cellAt (game_map g) (newcell a)))
    eqn:Hwas.
  { apply Hfree. split; [done|]. right. split; [lia|done]. }
  (* the unit there moves in the batch; its move was accepted *)
  destruct (units (cellAt (game_map g) (newcell a))) as [|v [|]] eqn:Hus;
    try done.
  unfold unitThereIsStill in Hwas, Hstill. rewrite Hus in Hwas, Hstill.
  cbn [forallb] in Hwas, Hstill. rewrite andb_true_r in Hwas, Hstill.
  apply negb_false_iff, bool_decide_eq_true in Hwas.
  apply negb_true_iff, bool_decide_eq_false in Hstill.
  apply Hstill. apply movers_elem in Hwas as (b & Hb & Hid).
  apply movers_elem. exists b. split; [|done]. apply Hin. split; [done|].
  intros HbD. apply HaD, HD.
  destruct (ui_placed g Hinv (newcell a) v) as [Hreg Hpos];
    [rewrite Hus; set_solver|].
  destruct (Hunits b Hb) as (ub & Hub & _).
  assert (ma_team b = unit_team v) as Hteam.
  { apply (ui_unique g Hinv _ _ (unit_id v)); [by rewrite <- Hid|done]. }
  rewrite Hteam, Hid, Hreg in Hub. injection Hub as <-.
  rewrite <- Hpos.
  apply (bumped_back g actions (newcell b) b v); try done.
  - by apply HD.
  - by rewrite Hteam, Hid.
  - by rewrite Hpos.
Qed.

(** X21.  The accepted moves are a fixed point of the resolution: on a
    game whose registry and cells agree, resolving the moves that
    [handleMovementActions] accepted accepts them all. *)
Theorem handleMovementActions_stable (g : Game) (actions pruned : list MoveAction) :
  UnitsInv g -> (forall a, a ∈ actions -> onMap g a) ->
  handleMovementActions g actions = Some pruned ->
  exists pruned',
    handleMovementActions g pruned = Some pruned' /\ pruned' ≡ₚ pruned.
Proof.
  intros Hinv Hunits Hrun.
  destruct (handleMovementActions_bumped g actions Hunits)
    as (D & pruned0 & Hrun0 & Hpruned & _).
  rewrite Hrun in Hrun0. injection Hrun0 as <-.
  assert (forall a, a ∈ pruned -> onMap g a) as Hunits'.
  { intros a Ha. apply Hunits. rewrite Hpruned in Ha.
    by apply list_elem_of_filter in Ha as [_ ?]. }
  destruct (handleMovementActions_bumped g pruned Hunits')
    as (D' & pruned' & Hrun' & Hpruned' & HD').
  exists pruned'. split; [done|]. rewrite Hpruned'.
  assert (forall c, c ∉ D') as Hempty.
  { intros c (a & Ha & Hc)%HD'%bumped_collides.
    by apply (pruned_collision_free g actions pruned Hinv Hunits Hrun a). }
  assert (forall l : list MoveAction,
            filter (fun a => newcell a ∉ D') l = l) as ->; [|done].
  induction l as [|a l IH]; [done|].
  rewrite filter_cons_True by apply Hempty. by rewrite IH.
Qed.

Lemma handleMovementActions_stable_witness :
  exists pruned pruned',
    handleMovementActions Scenario.three_workers Scenario.bump_moves
    = Some pruned
    /\ handleMovementActions Scenario.three_workers pruned = Some pruned'
    /\ pruned' ≡ₚ pruned.
Proof.
  destruct (handleMovementActions Scenario.three_workers Scenario.bump_moves)
    as [pruned|] eqn:Hrun; [|by vm_compute in Hrun].
  destruct (handleMovementActions_stable Scenario.three_workers
              Scenario.bump_moves pruned) as (pruned' & Hrun' & Hperm).
  - apply three_workers_UnitsInv.
  - apply onMap_cases. by vm_compute.
  - exact Hrun.
  - exists pruned, pruned'. split; [reflexivity|].
    split; [exact Hrun'|exact Hperm].
Defined.

Lemma citytile_cellAt_setCell m p c q :
  citytile (cellAt (setCell m p c) q)
  = if decide (q = p) then citytile c else citytile (cellAt m q).
Proof.
  destruct (decide (q = p)) as [->|Hq].
  - by rewrite cellAt_setCell.
  - by rewrite cellAt_setCell_ne.
Qed.

Lemma moveUnit_citytile g team id d g' q :
  moveUnit g team id d = Some g' ->
  citytile (cellAt (game_map g') q) = citytile (cellAt (game_map g) q).
Proof.
  unfold moveUnit.
  destruct (getUnit g team id) as [u|]; [|done]. cbn [mbind option_bind].
  destruct (getCellByPos (game_map g) (unit_pos u)) as [old|] eqn:Hold; [|done].
  apply getCellByPos_Some in Hold as [_ ->]. cbn [mbind option_bind].
  match goal with
  | |- context [getCellByPos ?m1 ?p'] =>
      destruct (getCellByPos m1 p') as [new|] eqn:Hnew; [|done]
  end.
  apply getCellByPos_Some in Hnew as [_ ->]. cbn [mbind option_bind].
  intros [= <-]. cbn [game_map set_game_map set_teamState].
  rewrite citytile_cellAt_setCell. case_decide as Hq.
  - subst q. cbn [citytile set_units]. rewrite citytile_cellAt_setCell.
    case_decide as Hq2; [by rewrite Hq2|done].
  - rewrite citytile_cellAt_setCell. by case_decide; subst.
Qed.

Lemma executeMoves_citytile l g g' q :
  forEach executeMove l g = Some g' ->
  citytile (cellAt (game_map g') q) = citytile (cellAt (game_map g) q).
Proof.
  revert g. induction l as [|m l IH]; intros g; [by intros [= <-]|].
  cbn [forEach]. destruct (executeMove g m) as [g1|] eqn:Hrun; [|done].
  cbn [mbind option_bind]. intros ->%IH. by eapply moveUnit_citytile.
Qed.

Lemma two_elements {X} (a b : X) (l : list X) :
  a <> b -> a ∈ l -> b ∈ l -> (2 <= length l)%nat.
Proof.
  intros Hne Ha Hb.
  assert ([a; b] ⊆+ l) as Hsub%submseteq_length; [|done].
  apply NoDup_submseteq; [|set_solver].
  apply NoDup_cons. split; [set_solver|apply NoDup_singleton].
Qed.

Lemma feasible_onMap g (moves : list MoveAction) :
  UnitsInv g -> (forall m, m ∈ moves -> feasible g m) ->
  forall m, m ∈ moves -> onMap g m.
Proof.
  intros Hinv Hfeas m (u & Hu & _)%Hfeas. exists u. split; [done|].
  by destruct (ui_registered g Hinv _ _ u Hu) as (_ & _ & ? & _).
Qed.

(** The units of a cell once the accepted moves are carried out: those the
    moves brought there and those that stood there and did not move. *)
Lemma executeMoves_units g l g' q v :
  UnitsInv g -> NoDup (mover <$> l) -> (forall m, m ∈ l -> feasible g m) ->
  forEach executeMove l g = Some g' ->
  v ∈ units (cellAt (game_map g') q) ->
  (exists m, m ∈ l /\ mover m = (unit_team v, unit_id v) /\ newcell m = q)
  \/ ((unit_team v, unit_id v) ∉ mover <$> l
      /\ v ∈ units (cellAt (game_map g) q)).
Proof.
  intros Hinv Hnd Hfeas Hrun Hv.
  destruct (executeMoves g l Hinv Hnd Hfeas)
    as (g0 & Hrun0 & Hinv' & Hat & Hframe & _).
  rewrite Hrun in Hrun0. injection Hrun0 as <-.
  destruct (ui_placed g' Hinv' q v Hv) as [Hreg Hpos].
  destruct (decide ((unit_team v, unit_id v) ∈ mover <$> l)) as [Hm|Hm].
  - left. apply list_elem_of_fmap in Hm as (m & Hkey & Hm).
    exists m. split; [done|]. split; [done|].
    destruct (Hat m Hm) as (u & Hu & Hposu).
    unfold mover in Hkey. injection Hkey as Ht Hi.
    rewrite <- Ht, <- Hi, Hreg in Hu. injection Hu as <-. congruence.
  - right. split; [done|]. rewrite Hframe in Hreg by done.
    destruct (ui_registered g Hinv _ _ v Hreg) as (_ & _ & _ & Hcell).
    by rewrite Hpos in Hcell.
Qed.

(** X22.  When every cell that is no city tile holds one unit at most,
    it still does once the moves of a batch are resolved and the accepted
    ones carried out with [moveUnit], for a batch with one move per unit
    whose targets lie on the map next to the units. *)
Theorem accepted_moves_keep_single_occupancy (g g' : Game)
    (moves pruned : list MoveAction) :
  UnitsInv g -> singleOccupancy g ->
  NoDup (mover <$> moves) -> (forall m, m ∈ moves -> feasible g m) ->
  handleMovementActions g moves = Some pruned ->
  forEach executeMove pruned g = Some g' ->
  singleOccupancy g'.
Proof.
  intros Hinv Hsingle Hnd Hfeas Hrun Hexec q Hcity.
  pose proof (feasible_onMap g moves Hinv Hfeas) as Hunits.
  destruct (handleMovementActions_reverts g moves Hunits)
    as (pruned0 & Hrun0 & Hsub & _ & Hback & Hocc).
  rewrite Hrun in Hrun0. injection Hrun0 as <-.
  destruct (handleMovementActions_bumped g moves Hunits)
    as (D & pruned0 & Hrun0 & Hpruned & _).
  rewrite Hrun in Hrun0. injection Hrun0 as <-.
  assert (NoDup (mover <$> pruned)) as Hnd'.
  { rewrite Hpruned. apply (sublist_NoDup _ (mover <$> moves)); [exact Hnd|].
    apply fmap_sublist, sublist_filter. }
  assert (forall m, m ∈ pruned -> feasible g m) as Hfeas'
    by (intros m Hm; by apply Hfeas, Hsub).
  assert (isCityTile (cellAt (game_map g) q) = false) as Hcity0.
  { unfold isCityTile in *.
    by rewrite <- (executeMoves_citytile pruned g g' q Hexec). }
  destruct (executeMoves g pruned Hinv Hnd' Hfeas')
    as (g0 & Hrun0 & Hinv' & _).
  rewrite Hexec in Hrun0. injection Hrun0 as <-.
  destruct (units (cellAt (game_map g') q)) as [|v1 [|v2 us]] eqn:Hus;
    [simpl; lia|simpl; lia|exfalso].
  pose proof (ui_NoDup g' Hinv' q) as Hids. rewrite Hus in Hids.
  assert (unit_id v1 <> unit_id v2) as Hne.
  { rewrite !fmap_cons in Hids. apply NoDup_cons in Hids as [Hids _].
    set_solver. }
  assert (forall v, v ∈ [v1; v2] -> v ∈ units (cellAt (game_map g') q)) as Hin
    by (intros v Hv; rewrite Hus; set_solver).
  assert (forall m v,
            m ∈ pruned -> newcell m = q ->
            (unit_team v, unit_id v) ∉ mover <$> pruned ->
            v ∈ units (cellAt (game_map g) q) -> False) as Hmixed.
  { intros m v Hm Hnew Hv Hcell.
    pose proof (Hsingle q Hcity0) as Hlen.
    destruct (units (cellAt (game_map g) q)) as [|w [|]] eqn:Hws;
      [by apply elem_of_nil in Hcell| |simpl in Hlen; lia].
    apply list_elem_of_singleton in Hcell. subst w.
    destruct (ui_placed g Hinv q v) as [Hreg Hpos]; [rewrite Hws; set_solver|].
    assert (unit_id v ∈ movers moves) as (b & Hb & Hid)%movers_elem.
    { apply (Hocc m v); [done|by rewrite Hnew|by rewrite Hnew]. }
    destruct (Hunits b Hb) as (ub & Hub & _).
    assert (ma_team b = unit_team v) as Hteam.
    { apply (ui_unique g Hinv _ _ (unit_id v)); [by rewrite <- Hid|done]. }
    refine (Hback b v m Hb _ _ _ _ _ Hm).
    - intros Hbp. apply Hv. apply list_elem_of_fmap. exists b.
      split; [|done]. unfold mover. by rewrite Hteam, Hid.
    - by rewrite Hteam, Hid.
    - by rewrite Hpos.
    - by apply Hsub.
    - by rewrite Hpos. }
  destruct (executeMoves_units g pruned g' q v1 Hinv Hnd' Hfeas' Hexec)
    as [(m1 & Hm1 & Hkey1 & Hnew1)|[Hkey1 Hcell1]]; [apply Hin; set_solver| |];
    (destruct (executeMoves_units g pruned g' q v2 Hinv Hnd' Hfeas' Hexec)
      as [(m2 & Hm2 & Hkey2 & Hnew2)|[Hkey2 Hcell2]];
      [apply Hin; set_solver| |]).
  - (* two accepted moves to the cell *)
    assert (m1 <> m2) as Hm by (intros ->; congruence).
    apply (pruned_collision_free g moves pruned Hinv Hunits Hrun m1 Hm1).
    split; [by rewrite Hnew1|]. left.
    assert (2 <= length (targeting pruned (newcell m1)))%nat; [|lia].
    apply (two_elements m1 m2); [done| |];
      apply list_elem_of_filter; (split; [congruence|done]).
  - by apply (Hmixed m1 v2).
  - by apply (Hmixed m2 v1).
  - pose proof (Hsingle q Hcity0) as Hlen.
    destruct (units (cellAt (game_map g) q)) as [|w [|]];
      [by apply elem_of_nil in Hcell1| |simpl in Hlen; lia].
    apply list_elem_of_singleton in Hcell1, Hcell2. congruence.
Qed.

Lemma feasible_cases g (moves : list MoveAction) :
  forallb (fun m =>
             from_option
               (fun u =>
                  bool_decide (newcell m = translate (unit_pos u) (direction m))
                  && inMap (game_map g) (newcell m))
               false (getUnit g (ma_team m) (unitid m))) moves = true ->
  forall m, m ∈ moves -> feasible g m.
Proof.
  intros Hall m Hm. rewrite forallb_forall in Hall.
  specialize (Hall m (proj1 (list_elem_of_In _ _) Hm)). unfold feasible.
  destruct (getUnit g (ma_team m) (unitid m)) as [u|]; [|done].
  cbn [from_option] in Hall. apply andb_true_iff in Hall as [Hnew Hin].
  apply bool_decide_eq_true in Hnew. by exists u.
Qed.

Lemma singleOccupancy_cases g :
  forallb (fun e => isCityTile e.2 || (length (units e.2) <=? 1)%nat)
    (map_to_list (cells (game_map g))) = true ->
  singleOccupancy g.
Proof.
  intros Hall p Hcity. rewrite forallb_forall in Hall.
  unfold cellAt in *. rewrite lookup_total_alt in *.
  destruct (cells (game_map g) !! p) as [c|] eqn:Hc; [|simpl; lia].
  apply elem_of_map_to_list, list_elem_of_In, Hall in Hc.
  change (isCityTile c = false) in Hcity. cbn [snd] in Hc.
  rewrite Hcity in Hc. by apply Nat.leb_le in Hc.
Qed.

Lemma accepted_moves_keep_single_occupancy_witness :
  exists pruned g',
    handleMovementActions Scenario.three_workers Scenario.bump_moves
    = Some pruned
    /\ forEach executeMove pruned Scenario.three_workers = Some g'
    /\ singleOccupancy g'.
Proof.
  destruct (handleMovementActions Scenario.three_workers Scenario.bump_moves)
    as [pruned|] eqn:Hrun; [|by vm_compute in Hrun].
  destruct (forEach executeMove pruned Scenario.three_workers)
    as [g'|] eqn:Hexec.
  2: { vm_compute in Hrun. injection Hrun as <-. by vm_compute in Hexec. }
  exists pruned, g'. split; [reflexivity|]. split; [exact Hexec|].
  apply (accepted_moves_keep_single_occupancy Scenario.three_workers g'
           Scenario.bump_moves pruned).
  - apply three_workers_UnitsInv.
  - apply singleOccupancy_cases. by vm_compute.
  - apply (bool_decide_unpack _). by vm_compute.
  - apply feasible_cases. by vm_compute.
  - exact Hrun.
  - exact Hexec.
Defined.


(** * Rounding as binary64 rounds *)

Section Binary64Facts.
Import Binary64.
Local Open Scope Q_scope.

Lemma Qmul_le_r z x y : 0 <= z -> x <= y -> x * z <= y * z.
Proof. intros. by apply Qmult_le_compat_r. Qed.

Lemma Qmul_le_l z x y : 0 <= z -> x <= y -> z * x <= z * y.
Proof. intros. rewrite !(Qmult_comm z). by apply Qmult_le_compat_r. Qed.

Lemma Qmul_lt_r z x y : 0 < z -> x < y -> x * z < y * z.
Proof. intros. by apply Qmult_lt_compat_r. Qed.

Lemma Qmul_lt_l z x y : 0 < z -> x < y -> z * x < z * y.
Proof. intros. rewrite !(Qmult_comm z). by apply Qmult_lt_compat_r. Qed.

Lemma pow2_pos e : 0 < pow2 e.
Proof. apply Qpower_0_lt. reflexivity. Qed.

Lemma pow2_add a b : pow2 (a + b) == pow2 a * pow2 b.
Proof. apply Qpower_plus. discriminate. Qed.

Lemma pow2_succ e : pow2 (e + 1) == 2 * pow2 e.
Proof. rewrite pow2_add. unfold pow2 at 2. simpl. ring. Qed.

Lemma pow2_le a b : (a <= b)%Z -> pow2 a <= pow2 b.
Proof. intros Hab. apply Qpower_le_compat_l; [done|discriminate]. Qed.

Lemma pow2_lt a b : (a < b)%Z -> pow2 a < pow2 b.
Proof. intros Hab. apply Qpower_lt_compat_l; [done|reflexivity]. Qed.

Lemma pow2_lt_inv a b : pow2 a < pow2 b -> (a < b)%Z.
Proof. intros Hab. by apply (Qpower_lt_compat_l_inv 2). Qed.

Lemma pow2_le_inv a b : pow2 a <= pow2 b -> (a <= b)%Z.
Proof. intros Hab. by apply (Qpower_le_compat_l_inv 2). Qed.

Lemma pow2_Z e : (0 <= e)%Z -> pow2 e == inject_Z (2 ^ e).
Proof. intros He. symmetry. by apply (Zpower_Qpower 2 e). Qed.

Lemma pow2_sub a b : pow2 (a - b) * pow2 b == pow2 a.
Proof. rewrite <- pow2_add. by replace (a - b + b)%Z with a by lia. Qed.

(** [ilog2] finds the binade. *)
Lemma ilog2_spec x : 0 < x -> pow2 (ilog2 x) <= x < pow2 (ilog2 x + 1).
Proof.
  intros Hx. destruct x as [n d]. unfold ilog2. cbn [Qnum Qden].
  assert (0 < n)%Z as Hn by (unfold Qlt in Hx; simpl in Hx; lia).
  set (a := Z.log2 n). set (b := Z.log2 (Z.pos d)).
  destruct (Z.log2_spec n Hn) as [Ha1 Ha2]. fold a in Ha1, Ha2.
  destruct (Z.log2_spec (Z.pos d)) as [Hb1 Hb2]; [lia|]. fold b in Hb1, Hb2.
  assert (0 <= a)%Z as Ha0 by apply Z.log2_nonneg.
  assert (0 <= b)%Z as Hb0 by apply Z.log2_nonneg.
  assert (pow2 a <= inject_Z n) as Hqa1
    by (rewrite pow2_Z by done; by rewrite <- Zle_Qle).
  assert (inject_Z n < 2 * pow2 a) as Hqa2.
  { rewrite <- pow2_succ, pow2_Z by lia. by rewrite <- Zlt_Qlt. }
  assert (pow2 b <= inject_Z (Z.pos d)) as Hqb1
    by (rewrite pow2_Z by done; by rewrite <- Zle_Qle).
  assert (inject_Z (Z.pos d) < 2 * pow2 b) as Hqb2.
  { rewrite <- pow2_succ, pow2_Z by lia. by rewrite <- Zlt_Qlt. }
  assert ((n # d) * inject_Z (Z.pos d) == inject_Z n) as Hxd.
  { rewrite (Qmake_Qdiv n d). field. discriminate. }
  pose proof (pow2_sub a b) as Hab. pose proof (pow2_pos (a - b)) as Hp.
  pose proof (pow2_pos b) as Hpb. pose proof (pow2_pos a) as Hpa.
  set (X := n # d) in *. set (D := inject_Z (Z.pos d)) in *.
  set (N := inject_Z n) in *.
  case_decide as Hc.
  - split; [done|]. rewrite pow2_succ.
    set (P := pow2 (a - b)) in *. set (PB := pow2 b) in *.
    set (PA := pow2 a) in *. clearbody P PB PA X D N. clear -Hqa2 Hqb1 Hxd Hab Hp Hpb.
    nra.
  - replace (a - b - 1 + 1)%Z with (a - b)%Z by lia.
    split; [|lra].
    pose proof (pow2_succ (a - b - 1)) as Hs.
    replace (a - b - 1 + 1)%Z with (a - b)%Z in Hs by lia.
    pose proof (pow2_pos (a - b - 1)) as Hp1.
    set (P := pow2 (a - b)) in *. set (PB := pow2 b) in *.
    set (PA := pow2 a) in *. set (P1 := pow2 (a - b - 1)) in *.
    clearbody P PB PA P1 X D N. clear -Hqa1 Hqb1 Hqb2 Hxd Hab Hp Hpb Hs Hp1.
    destruct (Qlt_le_dec X P1) as [Hlt|]; [exfalso|done].
    assert (P1 * D < P1 * (2 * PB)) by (apply Qmul_lt_l; lra).
    assert (X * D < P1 * D) by (apply Qmul_lt_r; lra).
    assert (P1 * (2 * PB) == PA) by (rewrite <- Hab, Hs; ring).
    lra.
Qed.

Lemma ilog2_unique x e : pow2 e <= x < pow2 (e + 1) -> ilog2 x = e.
Proof.
  intros [H1 H2]. pose proof (pow2_pos e) as Hp.
  destruct (ilog2_spec x) as [H3 H4]; [lra|].
  assert (pow2 (ilog2 x) < pow2 (e + 1)) as ?%pow2_lt_inv by lra.
  assert (pow2 e < pow2 (ilog2 x + 1)) as ?%pow2_lt_inv by lra.
  lia.
Qed.

Lemma ilog2_comp x y : 0 < x -> x == y -> ilog2 x = ilog2 y.
Proof.
  intros Hx Hxy. symmetry. apply ilog2_unique. rewrite <- Hxy.
  by apply ilog2_spec.
Qed.

Lemma ilog2_mono x y : 0 < x -> x <= y -> (ilog2 x <= ilog2 y)%Z.
Proof.
  intros Hx Hxy. destruct (ilog2_spec x Hx) as [H1 _].
  destruct (ilog2_spec y) as [_ H2]; [lra|].
  assert (pow2 (ilog2 x) < pow2 (ilog2 y + 1)) as ?%pow2_lt_inv by lra.
  lia.
Qed.

(** ** Rounding to the nearest integer *)

Lemma rne_cases x : rne x = Qfloor x \/ rne x = (Qfloor x + 1)%Z.
Proof. unfold rne. repeat case_decide; try destruct (Z.even _); auto. Qed.

Lemma rne_bounds x : x - (1 # 2) <= inject_Z (rne x) <= x + (1 # 2).
Proof.
  pose proof (Qfloor_le x) as H1. pose proof (Qlt_floor x) as H2.
  rewrite inject_Z_plus in H2. unfold rne.
  repeat case_decide; try destruct (Z.even _);
    rewrite ?inject_Z_plus; change (inject_Z 1) with 1 in *; lra.
Qed.

Lemma rne_Z z : rne (inject_Z z) = z.
Proof.
  unfold rne. rewrite Qfloor_Z. rewrite decide_True; [done|]. lra.
Qed.

Lemma rne_mono x y : x <= y -> (rne x <= rne y)%Z.
Proof.
  intros Hxy. pose proof (Qfloor_resp_le x y Hxy) as Hf.
  destruct (decide (Qfloor x = Qfloor y)) as [Heq|Hne].
  - unfold rne. rewrite <- Heq.
    repeat case_decide; try destruct (Z.even _); try lia; exfalso; lra.
  - destruct (rne_cases x) as [->| ->], (rne_cases y) as [->| ->]; lia.
Qed.

Lemma rne_comp x y : x == y -> rne x = rne y.
Proof.
  intros Hxy. apply Z.le_antisymm; apply rne_mono; lra.
Qed.

Lemma rne_nonneg x : 0 <= x -> (0 <= rne x)%Z.
Proof. intros Hx. rewrite <- (rne_Z 0). by apply rne_mono. Qed.

Lemma rne_nonpos x : x <= 0 -> (rne x <= 0)%Z.
Proof. intros Hx. rewrite <- (rne_Z 0). by apply rne_mono. Qed.

(** ** Rounding to the nearest double *)

Lemma Qabs_pos_eq x : 0 < x -> Qabs x = x.
Proof.
  destruct x as [n d]. unfold Qlt. simpl. intros Hn. unfold Qabs.
  f_equal. lia.
Qed.

Lemma Qdiv_le_mono p x y : 0 < p -> x <= y -> x / p <= y / p.
Proof.
  intros Hp Hxy. apply Qle_shift_div_l; [done|].
  assert (x / p * p == x) as -> by (field; lra). done.
Qed.

Lemma Qdiv_pow2 x e : x / pow2 e * pow2 e == x.
Proof. pose proof (pow2_pos e). field. lra. Qed.

Lemma Qdiv_scaled (K : Z) c e :
  (e <= c)%Z -> inject_Z K * pow2 c / pow2 e == inject_Z (K * 2 ^ (c - e)).
Proof.
  intros Hec. pose proof (pow2_pos e).
  rewrite inject_Z_mult, <- pow2_Z by lia.
  rewrite <- (pow2_sub c e). field. lra.
Qed.

Lemma fexp_pos x : 0 < x -> fexp x = Z.max (ilog2 x - 52) (-1074).
Proof. intros Hx. unfold fexp. by rewrite Qabs_pos_eq. Qed.

Lemma fexp_comp x y : ~ x == 0 -> x == y -> fexp x = fexp y.
Proof.
  intros Hx Hxy. unfold fexp. f_equal. f_equal. apply ilog2_comp.
  - pose proof (Qabs_nonneg x) as Hn.
    apply Qle_lt_or_eq in Hn as [?|Habs]; [done|].
    exfalso. apply Hx. symmetry in Habs.
    pose proof (Qabs_Qle_condition x 0) as [Hc _].
    destruct Hc as [? ?]; [rewrite Habs; lra|]. lra.
  - by rewrite Hxy.
Qed.

Lemma round_nz x :
  ~ x == 0 -> round x = inject_Z (rne (x / pow2 (fexp x))) * pow2 (fexp x).
Proof.
  intros Hx. unfold round. destruct (Qeq_bool x 0) eqn:Hb; [|done].
  by apply Qeq_bool_iff in Hb.
Qed.

Lemma round_0 x : x == 0 -> round x = 0.
Proof. intros Hx. unfold round. by apply Qeq_bool_iff in Hx as ->. Qed.

Lemma round_comp x y : x == y -> round x == round y.
Proof.
  intros Hxy. destruct (Qeq_dec x 0) as [Hx|Hx].
  - rewrite !round_0; [done|by rewrite <- Hxy|done].
  - assert (~ y == 0) as Hy by (by rewrite <- Hxy).
    rewrite (round_nz x), (round_nz y) by done.
    assert (fexp x = fexp y) as He by (by apply fexp_comp).
    assert (x / pow2 (fexp x) == y / pow2 (fexp x)) as Hd
      by (apply Qdiv_comp; [exact Hxy|reflexivity]).
    rewrite <- He, (rne_comp _ _ Hd). reflexivity.
Qed.

#[global] Instance round_proper : Proper (Qeq ==> Qeq) round.
Proof. intros x y. apply round_comp. Qed.

Lemma round_nonneg x : 0 <= x -> 0 <= round x.
Proof.
  intros Hx. destruct (Qeq_dec x 0) as [Hz|Hz]; [by rewrite round_0|].
  rewrite round_nz by done. pose proof (pow2_pos (fexp x)) as Hp.
  apply Qmult_le_0_compat; [|lra].
  change 0 with (inject_Z 0). rewrite <- Zle_Qle. apply rne_nonneg.
  apply Qle_shift_div_l; [done|]. lra.
Qed.

Lemma round_nonpos x : x <= 0 -> round x <= 0.
Proof.
  intros Hx. destruct (Qeq_dec x 0) as [Hz|Hz]; [by rewrite round_0|].
  rewrite round_nz by done. pose proof (pow2_pos (fexp x)) as Hp.
  assert (inject_Z (rne (x / pow2 (fexp x))) <= 0) as Hr.
  { change 0 with (inject_Z 0). rewrite <- Zle_Qle. apply rne_nonpos.
    apply Qle_shift_div_r; [done|]. lra. }
  assert (inject_Z (rne (x / pow2 (fexp x))) * pow2 (fexp x)
          <= 0 * pow2 (fexp x)) by (apply Qmul_le_r; lra).
  lra.
Qed.

(** The last place of [x] is [2^c] or below when [x < 2^(c+53)]. *)
Lemma fexp_le x c : 0 < x -> x < pow2 (c + 53) -> (-1074 <= c)%Z -> (fexp x <= c)%Z.
Proof.
  intros Hx Hlt Hc. rewrite fexp_pos by done.
  destruct (ilog2_spec x Hx) as [H1 _].
  assert (pow2 (ilog2 x) < pow2 (c + 53)) as ?%pow2_lt_inv by lra. lia.
Qed.

Lemma fexp_ge x E : 0 < x -> pow2 E <= x -> (E - 52 <= fexp x)%Z.
Proof.
  intros Hx Hle. rewrite fexp_pos by done.
  destruct (ilog2_spec x Hx) as [_ H2].
  assert (pow2 E < pow2 (ilog2 x + 1)) as ?%pow2_lt_inv by lra. lia.
Qed.

Lemma fexp_min x : (-1074 <= fexp x)%Z.
Proof. unfold fexp. lia. Qed.

(** A number with 53 bits and an exponent of the format is a double. *)
Lemma round_repr (K : Z) c :
  (0 < K < 2 ^ 53)%Z -> (-1074 <= c)%Z ->
  round (inject_Z K * pow2 c) == inject_Z K * pow2 c.
Proof.
  intros [HK1 HK2] Hc. pose proof (pow2_pos c) as Hpc.
  set (x := inject_Z K * pow2 c).
  assert (0 < inject_Z K) as HK by (change 0 with (inject_Z 0); by rewrite <- Zlt_Qlt).
  assert (0 < x) as Hx by (apply Qmult_lt_0_compat; lra).
  assert (fexp x <= c)%Z as He.
  { apply fexp_le; [done| |done]. unfold x.
    rewrite Z.add_comm, pow2_add, (pow2_Z 53) by lia.
    apply Qmul_lt_r; [done|]. by rewrite <- Zlt_Qlt. }
  rewrite round_nz by lra. unfold x at 1.
  rewrite (rne_comp _ _ (Qdiv_scaled K c (fexp x) He)), rne_Z.
  rewrite <- (Qdiv_scaled K c (fexp x) He). apply Qdiv_pow2.
Qed.

Lemma round_pow2 E : (-1074 <= E)%Z -> round (pow2 E) == pow2 E.
Proof.
  intros HE.
  assert (pow2 E == inject_Z 1 * pow2 E) as Heq
    by (change (inject_Z 1) with 1; ring).
  rewrite Heq. apply round_repr; lia.
Qed.

Lemma round_Z z : (0 <= z <= 2 ^ 53)%Z -> round (inject_Z z) == inject_Z z.
Proof.
  intros [Hz1 Hz2].
  destruct (decide (z = 0)%Z) as [->|Hz0]; [by rewrite round_0|].
  destruct (decide (z = 2 ^ 53)%Z) as [->|Hz53].
  - rewrite <- pow2_Z by lia. apply round_pow2. lia.
  - assert (inject_Z z == inject_Z z * pow2 0) as Heq
      by (change (pow2 0) with 1; ring).
    rewrite Heq. apply round_repr; lia.
Qed.

(** The scaled number has at most 53 bits. *)
Lemma scaled_lt x : 0 < x -> x / pow2 (fexp x) < inject_Z (2 ^ 53).
Proof.
  intros Hx. pose proof (pow2_pos (fexp x)) as Hp.
  apply Qlt_shift_div_r; [done|].
  rewrite <- pow2_Z, <- pow2_add by lia.
  destruct (ilog2_spec x Hx) as [_ H2].
  eapply Qlt_le_trans; [exact H2|]. apply pow2_le.
  rewrite fexp_pos by done. lia.
Qed.

Lemma round_idem x : 0 <= x -> round (round x) == round x.
Proof.
  intros Hx0. destruct (Qeq_dec x 0) as [Hz|Hz].
  { rewrite (round_0 x) by done. by rewrite round_0. }
  assert (0 < x) as Hx by lra.
  rewrite (round_nz x) by done. set (e := fexp x).
  set (K := rne (x / pow2 e)). pose proof (pow2_pos e) as Hp.
  assert (0 <= K <= 2 ^ 53)%Z as [HK1 HK2].
  { split.
    - apply rne_nonneg, Qle_shift_div_l; [done|]. lra.
    - rewrite <- (rne_Z (2 ^ 53)). apply rne_mono, Qlt_le_weak.
      by apply scaled_lt. }
  destruct (decide (K = 0)%Z) as [->|HK0].
  { rewrite round_0 by ring. ring. }
  destruct (decide (K = 2 ^ 53)%Z) as [->|HK53].
  - assert (inject_Z (2 ^ 53) * pow2 e == inject_Z (2 ^ 52) * pow2 (e + 1))
      as Heq.
    { rewrite pow2_succ. change (2 ^ 53)%Z with (2 * 2 ^ 52)%Z.
      rewrite inject_Z_mult. change (inject_Z 2) with 2. ring. }
    rewrite (round_comp _ _ Heq), Heq. apply round_repr; [lia|].
    pose proof (fexp_min x). unfold e. lia.
  - apply round_repr; [lia|apply fexp_min].
Qed.

Lemma round_mono x y : 0 <= x -> x <= y -> round x <= round y.
Proof.
  intros Hx0 Hxy. destruct (Qeq_dec x 0) as [Hz|Hz].
  { rewrite (round_0 x) by done. apply round_nonneg. lra. }
  assert (0 < x) as Hx by lra. assert (0 < y) as Hy by lra.
  rewrite (round_nz x), (round_nz y) by lra.
  pose proof (ilog2_mono x y Hx Hxy) as Hlog.
  pose proof (pow2_pos (fexp x)) as Hpx. pose proof (pow2_pos (fexp y)) as Hpy.
  destruct (decide (fexp x = fexp y)) as [Heq|Hne].
  - rewrite <- Heq. apply Qmul_le_r; [lra|]. rewrite <- Zle_Qle.
    apply rne_mono. by apply Qdiv_le_mono.
  - set (L := ilog2 y).
    assert (fexp x < fexp y)%Z as Hlt
      by (rewrite !fexp_pos in * by done; lia).
    assert (fexp y = L - 52)%Z as Hey
      by (pose proof (fexp_min x); rewrite (fexp_pos y) in * by done; lia).
    assert (ilog2 x + 1 <= L)%Z as HL
      by (rewrite (fexp_pos x) in Hlt by done; lia).
    destruct (ilog2_spec x Hx) as [_ Hx2].
    destruct (ilog2_spec y Hy) as [Hy1 _]. fold L in Hy1.
    pose proof (pow2_le _ _ HL) as HxL.
    apply (Qle_trans _ (pow2 L)).
    + assert (fexp x <= L)%Z as HeL by lia.
      assert (pow2 L == inject_Z (1 * 2 ^ (L - fexp x)) * pow2 (fexp x)) as ->.
      { rewrite <- (Qdiv_scaled 1 L (fexp x) HeL).
        change (inject_Z 1) with 1. rewrite Qdiv_pow2. ring. }
      apply Qmul_le_r; [lra|]. rewrite <- Zle_Qle.
      rewrite <- (rne_Z (1 * 2 ^ (L - fexp x))).
      apply rne_mono. rewrite <- (Qdiv_scaled 1 L (fexp x) HeL).
      apply Qdiv_le_mono; [done|]. change (inject_Z 1) with 1. lra.
    + assert (fexp y <= L)%Z as HeL by lia.
      assert (pow2 L == inject_Z (1 * 2 ^ (L - fexp y)) * pow2 (fexp y)) as ->.
      { rewrite <- (Qdiv_scaled 1 L (fexp y) HeL).
        change (inject_Z 1) with 1. rewrite Qdiv_pow2. ring. }
      apply Qmul_le_r; [lra|]. rewrite <- Zle_Qle.
      rewrite <- (rne_Z (1 * 2 ^ (L - fexp y))).
      apply rne_mono. rewrite <- (Qdiv_scaled 1 L (fexp y) HeL).
      apply Qdiv_le_mono; [done|]. change (inject_Z 1) with 1. lra.
Qed.

Lemma scaled_lt_inv (a b : Z) t :
  0 < t -> inject_Z a * t < inject_Z b * t -> (a < b)%Z.
Proof.
  intros Ht Hlt. rewrite Zlt_Qlt.
  destruct (Qlt_le_dec (inject_Z a) (inject_Z b)) as [|Hge]; [done|exfalso].
  assert (inject_Z b * t <= inject_Z a * t) by (apply Qmul_le_r; lra). lra.
Qed.

(** A double below a whole number stays below it when a whole number is
    taken from it and the difference is rounded. *)
Lemma round_sub_int A (m N : Z) :
  0 <= A -> round A == A ->
  (0 <= m)%Z -> inject_Z m <= A -> (N + m <= 2 ^ 53)%Z ->
  inject_Z N <= round (A - inject_Z m) -> inject_Z (N + m) <= A.
Proof.
  intros HA HrA Hm HmA Hbound Hround. rewrite inject_Z_plus.
  destruct (Z.le_gt_cases N 0) as [HN|HN].
  { assert (inject_Z N <= 0) by (change 0 with (inject_Z 0); by rewrite <- Zle_Qle).
    lra. }
  assert (1 <= inject_Z N) as HN1
    by (change 1 with (inject_Z 1); rewrite <- Zle_Qle; lia).
  destruct (Qlt_le_dec A (inject_Z N + inject_Z m)) as [Hlt|]; [exfalso|done].
  assert (0 <= inject_Z m) as Hm0
    by (change 0 with (inject_Z 0); by rewrite <- Zle_Qle).
  set (y := A - inject_Z m) in *.
  assert (0 <= y) as Hy0 by (unfold y; lra).
  assert (y < inject_Z N) as HyN by (unfold y; lra).
  (* the binade below N *)
  set (E := ilog2 (inject_Z N - (1 # 2))).
  destruct (ilog2_spec (inject_Z N - (1 # 2))) as [HE1 HE2]; [lra|].
  fold E in HE1, HE2.
  assert (-1 <= E)%Z as HEm.
  { assert (pow2 (-1) < pow2 (E + 1)) as ?%pow2_lt_inv; [|lia].
    change (pow2 (-1)) with (1 # 2). lra. }
  assert (inject_Z N <= pow2 (E + 1)) as HNE.
  { rewrite pow2_Z by lia. rewrite <- Zle_Qle.
    assert (inject_Z N < inject_Z (2 ^ (E + 1)) + (1 # 2)) as Hh
      by (rewrite <- pow2_Z by lia; lra).
    assert (inject_Z (2 * N) < inject_Z (2 * 2 ^ (E + 1) + 1)) as Hz.
    { rewrite inject_Z_plus, !inject_Z_mult.
      change (inject_Z 2) with 2. change (inject_Z 1) with 1. lra. }
    rewrite <- Zlt_Qlt in Hz. lia. }
  assert (E <= 52)%Z as HE52.
  { assert (pow2 E < pow2 53) as ?%pow2_lt_inv; [|lia].
    rewrite (pow2_Z 53) by lia.
    assert (inject_Z N <= inject_Z (2 ^ 53)) by (rewrite <- Zle_Qle; lia).
    lra. }
  pose proof (pow2_pos E) as HpE.
  destruct (Qlt_le_dec A (pow2 E)) as [HAE|HAE].
  - (* the double is below the binade *)
    assert (round y <= round (pow2 E)) as Hle
      by (apply round_mono; [done|unfold y; lra]).
    rewrite round_pow2 in Hle by lia. lra.
  - (* the double is a multiple of the last place of the binade *)
    set (t := pow2 (E - 52)). pose proof (pow2_pos (E - 52)) as Ht. fold t in Ht.
    assert (0 < A) as HApos by lra.
    pose proof (fexp_ge A E HApos HAE) as HfA.
    assert (exists a : Z, A == inject_Z a * t) as [a Ha].
    { assert (A == inject_Z (rne (A / pow2 (fexp A))) * pow2 (fexp A)) as HA'
        by (rewrite <- HrA at 1; by rewrite round_nz by lra).
      set (K := rne _) in HA'.
      exists (K * 2 ^ (fexp A - (E - 52)))%Z.
      etransitivity; [exact HA'|].
      rewrite inject_Z_mult, <- pow2_Z by lia.
      rewrite <- (pow2_sub (fexp A) (E - 52)). fold t. ring. }
    assert (forall z : Z, inject_Z z == inject_Z (z * 2 ^ (52 - E)) * t) as Hint.
    { intros z. rewrite inject_Z_mult, <- pow2_Z by lia.
      rewrite <- Qmult_assoc. unfold t. rewrite <- pow2_add.
      replace (52 - E + (E - 52))%Z with 0%Z by lia. change (pow2 0) with 1.
      ring. }
    set (N' := (N * 2 ^ (52 - E))%Z). set (m' := (m * 2 ^ (52 - E))%Z).
    pose proof (Hint N) as HNt. fold N' in HNt.
    pose proof (Hint m) as Hmt. fold m' in Hmt.
    assert (a - m' < N')%Z as Hlt'.
    { apply (scaled_lt_inv _ _ t Ht).
      rewrite <- HNt. unfold Zminus. rewrite inject_Z_plus, inject_Z_opp.
      assert ((inject_Z a + - inject_Z m') * t
              == inject_Z a * t - inject_Z m' * t) as -> by ring.
      rewrite <- Ha, <- Hmt. exact HyN. }
    assert (2 ^ 52 < N')%Z as HN'1.
    { apply (scaled_lt_inv _ _ t Ht). rewrite <- HNt.
      rewrite <- pow2_Z by lia. unfold t. rewrite <- pow2_add.
      replace (52 + (E - 52))%Z with E by lia. lra. }
    assert (N' <= 2 ^ 53)%Z as HN'2.
    { destruct (Z.le_gt_cases N' (2 ^ 53)) as [|Hgt]; [done|exfalso].
      assert (inject_Z (2 ^ 53) * t < inject_Z N' * t) as Hq
        by (apply Qmul_lt_r; [done|by rewrite <- Zlt_Qlt]).
      rewrite <- HNt in Hq. rewrite <- pow2_Z in Hq by lia.
      unfold t in Hq. rewrite <- pow2_add in Hq.
      replace (53 + (E - 52))%Z with (E + 1)%Z in Hq by lia. lra. }
    assert (y <= inject_Z (N' - 1) * t) as HyK.
    { unfold y. rewrite Ha, Hmt.
      assert (inject_Z a * t - inject_Z m' * t == inject_Z (a - m') * t) as ->.
      { unfold Zminus. rewrite inject_Z_plus, inject_Z_opp. ring. }
      apply Qmul_le_r; [lra|]. rewrite <- Zle_Qle. lia. }
    assert (round y <= round (inject_Z (N' - 1) * t)) as Hle
      by (by apply round_mono).
    unfold t in Hle at 1. rewrite round_repr in Hle by lia. fold t in Hle.
    assert (inject_Z (N' - 1) * t == inject_Z N - t) as HK.
    { rewrite HNt. unfold Zminus.
      rewrite inject_Z_plus, inject_Z_opp. change (inject_Z 1) with 1. ring. }
    lra.
Qed.

End Binary64Facts.


(** * Resource release in the arithmetic of the code *)

Section Binary64Release.
Context `{Collaborators}.
Local Open Scope Q_scope.

Lemma keepsPlace_unit_cargo_add64 type n :
  keepsPlace (Binary64.unit_cargo_add type n).
Proof. by intros v. Qed.

Lemma cargo_get_add64 c type n :
  cargo_get (Binary64.cargo_add c type n) type
  = Binary64.add (cargo_get c type) n.
Proof. by destruct type. Qed.

Lemma Qsum_whole (ms : list Z) :
  Qsum (inject_Z <$> ms) == inject_Z (foldr Z.add 0%Z ms).
Proof.
  induction ms as [|m ms IH]; [done|].
  rewrite fmap_cons, Qsum_cons. cbn [foldr]. rewrite inject_Z_plus, IH. done.
Qed.

Lemma Qsum_perm l l' : l ≡ₚ l' -> Qsum l == Qsum l'.
Proof.
  induction 1 as [|x l l' _ IH|x y l|l l' l'' _ IH1 _ IH2].
  - done.
  - rewrite !Qsum_cons. by rewrite IH.
  - rewrite !Qsum_cons. ring.
  - by rewrite IH1.
Qed.

(** What one worker is entitled to lies between nothing and each of its
    free space, the rate and the pool. *)
Lemma distributeAmount_of64_bounds rate n A i worker :
  (i < n)%nat -> 0 <= rate -> 0 <= getCargoSpaceLeft worker ->
  0 <= A -> Binary64.round A == A ->
  let d := Binary64.distributeAmount_of rate n A i worker in
  0 <= d /\ d <= getCargoSpaceLeft worker /\ d <= rate /\ d <= A.
Proof.
  intros Hi Hrate Hspace HA HrA d.
  set (k := inject_Z (Z.of_nat n - Z.of_nat i)).
  assert (1 <= k) as Hk
    by (unfold k; change 1 with (inject_Z 1); rewrite <- Zle_Qle; lia).
  assert (0 <= A / k) as Hq0 by (apply Qle_shift_div_l; lra).
  assert (A / k <= A) as Hq1.
  { apply Qle_shift_div_r; [lra|].
    assert (A * 1 <= A * k) by (apply Qmul_le_l; lra). lra. }
  assert (0 <= Binary64.div A k <= A) as [Hd0 Hd1].
  { unfold Binary64.div. split; [by apply round_nonneg|].
    rewrite <- HrA at 2. by apply round_mono. }
  unfold d, Binary64.distributeAmount_of. fold k.
  set (q := Binary64.div A k) in *.
  pose proof (Q.le_min_l (Qmin (getCargoSpaceLeft worker) q) rate).
  pose proof (Q.le_min_r (Qmin (getCargoSpaceLeft worker) q) rate).
  pose proof (Q.le_min_l (getCargoSpaceLeft worker) q).
  pose proof (Q.le_min_r (getCargoSpaceLeft worker) q).
  split_and!; try lra.
  apply Q.min_glb; [apply Q.min_glb|]; lra.
Qed.

Lemma forEach_i_releaseTo64 type rate n l i st :
  UnitsInv (rl_game st) ->
  (i + length l = n)%nat ->
  NoDup (holder <$> l) ->
  (forall w, w ∈ l ->
     getUnit (rl_game st) (unit_team w.2) (unit_id w.2) = Some w.2
     /\ unit_pos w.2 = w.1) ->
  (forall w, w ∈ l -> 0 <= getCargoSpaceLeft w.2 /\ wholeCargo type w.2) ->
  0 <= rate ->
  0 <= amountToDistribute st ->
  Binary64.round (amountToDistribute st) == amountToDistribute st ->
  amountToDistribute st <= inject_Z (2 ^ 52) ->
  let st' := forEach_i (Binary64.releaseTo type rate n) l i st in
  UnitsInv (rl_game st')
  /\ (forall t id, (t, id) ∉ holder <$> l ->
        getUnit (rl_game st') t id = getUnit (rl_game st) t id)
  /\ exists ms : list Z,
       Forall2 (shared (rl_game st') type rate) l ms
       /\ Qsum (inject_Z <$> ms) <= amountToDistribute st.
Proof.
  revert i st. induction l as [|w l IH]; intros i st Hinv Hlen Hnd Hreg Hws
    Hrate HA HrA HAb.
  { cbn [forEach_i]. split; [done|]. split; [done|].
    exists []. split; [constructor|done]. }
  cbn [forEach_i]. cbn [length] in Hlen.
  rewrite fmap_cons in Hnd. apply NoDup_cons in Hnd as [Hw Hnd].
  destruct (Hreg w) as [Hregw Hposw]; [set_solver|].
  destruct (Hws w) as [Hspace (c & Hc & Hcargo)]; [set_solver|].
  set (A := amountToDistribute st) in *.
  destruct (distributeAmount_of64_bounds rate n A i w.2)
    as (Hd0 & Hdspace & Hdrate & HdA); try done; [lia|].
  set (d := Binary64.distributeAmount_of rate n A i w.2) in *.
  set (m := Qfloor d).
  assert (0 <= m)%Z as Hm0 by (rewrite <- (Qfloor_Z 0); by apply Qfloor_resp_le).
  pose proof (Qfloor_le d) as Hmd. fold m in Hmd.
  set (f := Binary64.unit_cargo_add type (inject_Z m)).
  set (st1 := Binary64.releaseTo type rate n st w i).
  set (g1 := updateUnit f w.1 w.2 (rl_game st)).
  assert (stationed (rl_game st) w) as Hst by (by exists w.2).
  pose proof (updateUnit_stationed f _ w Hinv Hst) as Halter. fold g1 in Halter.
  destruct (alterUnit_spec f _ _ _ _ Hinv Halter) as (u & Hu & Hreg1 & _).
  rewrite Hregw in Hu. injection Hu as <-.
  assert (UnitsInv g1) as Hinv1.
  { eapply alterUnit_UnitsInv; [apply keepsPlace_unit_cargo_add64|done|done]. }
  assert (UnitsInv (rl_game st1)) as Hinvst1
    by (by apply (UnitsInv_frame g1)).
  assert (forall t id, getUnit (rl_game st1) t id = getUnit g1 t id) as Hsame
    by done.
  assert (amountToDistribute st1 = Binary64.sub A d) as HA1 by done.
  assert (0 <= amountToDistribute st1) as HA1pos
    by (rewrite HA1; apply round_nonneg; lra).
  assert (amountToDistribute st1 <= A) as HA1le.
  { rewrite HA1. unfold Binary64.sub. rewrite <- HrA at 2.
    apply round_mono; lra. }
  destruct (IH (S i) st1) as (Hinv' & Hframe & ms & Hms & Hsum); try done.
  { lia. }
  { intros v Hv. destruct (Hreg v) as [Hregv Hposv]; [set_solver|].
    split; [|done]. rewrite Hsame, Hreg1. rewrite decide_False; [done|].
    intros [Ht Hi]. apply Hw. apply list_elem_of_fmap. exists v.
    split; [|done]. unfold holder. by rewrite Ht, Hi. }
  { intros v Hv. apply Hws. set_solver. }
  { rewrite HA1. apply round_idem. lra. }
  { lra. }
  split; [done|]. split.
  { intros t id Hti. rewrite Hframe by set_solver. rewrite Hsame, Hreg1.
    rewrite decide_False; [done|]. intros [-> ->]. apply Hti.
    rewrite fmap_cons. set_solver. }
  exists (m :: ms). split.
  - constructor; [|done]. split; [|split_and!; [done|lra|lra]].
    exists (f w.2). split.
    + rewrite Hframe by done. rewrite Hsame, Hreg1. by rewrite decide_True.
    + unfold f. cbn [cargo Binary64.unit_cargo_add]. rewrite cargo_get_add64.
      unfold Binary64.add. rewrite Hcargo, <- inject_Z_plus.
      apply round_Z. split; [lia|].
      assert (m <= 2 ^ 52)%Z by (rewrite Zle_Qle; lra).
      change (2 ^ 53)%Z with (2 ^ 52 + 2 ^ 52)%Z. lia.
  - rewrite fmap_cons, Qsum_cons, Qsum_whole.
    rewrite Qsum_whole in Hsum. set (N := foldr Z.add 0%Z ms) in *.
    rewrite <- inject_Z_plus, Z.add_comm.
    apply round_sub_int; try done; [lra| |].
    + assert (N <= 2 ^ 52)%Z by (rewrite Zle_Qle; lra).
      assert (m <= 2 ^ 52)%Z by (rewrite Zle_Qle; lra).
      change (2 ^ 53)%Z with (2 ^ 52 + 2 ^ 52)%Z. lia.
    + eapply Qle_trans; [exact Hsum|]. rewrite HA1. unfold Binary64.sub.
      apply round_mono; lra.
Qed.

Lemma Qsum_shared g' type rate l ms :
  Forall2 (shared g' type rate) l ms ->
  Qsum (credited g' type <$> l) == Qsum (inject_Z <$> ms)
  /\ Qsum (inject_Z <$> ms) <= rate * inject_Z (Z.of_nat (length l)).
Proof.
  induction 1 as [|w m l ms ((u & Hu & Hcargo) & _ & _ & Hm) _ [IH1 IH2]].
  { split; [done|]. cbn [length fmap list_fmap Qsum foldr].
    change (inject_Z (Z.of_nat 0)) with 0. lra. }
  rewrite !fmap_cons, !Qsum_cons. cbn [length].
  rewrite Nat2Z.inj_succ. unfold Z.succ. rewrite inject_Z_plus.
  change (inject_Z 1) with 1. split.
  - rewrite IH1. unfold credited at 1. rewrite Hu. cbn [from_option]. lra.
  - lra.
Qed.

Lemma Qsum_zero {X} (f : X -> Q) l :
  (forall x, x ∈ l -> f x == 0) -> Qsum (f <$> l) == 0.
Proof.
  induction l as [|x l IH]; intros Hf; [done|].
  rewrite fmap_cons, Qsum_cons, IH, Hf by set_solver. ring.
Qed.

(** The workers a release looks at are the registered units of the cells,
    each found once. *)
Lemma workersToReceiveResources_registered g type p :
  UnitsInv g ->
  let workers := workersToReceiveResources g type p in
  NoDup (holder <$> workers)
  /\ forall w, w ∈ workers ->
       getUnit g (unit_team w.2) (unit_id w.2) = Some w.2
       /\ unit_pos w.2 = w.1.
Proof.
  intros Hinv workers.
  assert (forall w, w ∈ workers ->
            getUnit g (unit_team w.2) (unit_id w.2) = Some w.2
            /\ unit_pos w.2 = w.1) as Hreg.
  { intros w Hw. unfold workers, workersToReceiveResources in Hw.
    apply list_elem_of_bind in Hw as (q & Hw & _).
    apply list_elem_of_fmap in Hw as (u & -> & [_ Hu]%list_elem_of_filter).
    exact (ui_placed g Hinv q u Hu). }
  split; [|done].
  apply NoDup_fmap_2_strong.
  - intros [q u] [q' u'] Hw Hw' [= Ht Hi].
    destruct (Hreg _ Hw) as [Hu Hq], (Hreg _ Hw') as [Hu' Hq'].
    cbn [fst snd] in *. rewrite Ht, Hi, Hu' in Hu. injection Hu as ->.
    by rewrite <- Hq, <- Hq'.
  - unfold workers, workersToReceiveResources. apply NoDup_bind.
    + intros q q' w _ _ (u & -> & _)%list_elem_of_fmap
        (u' & [= -> _] & _)%list_elem_of_fmap. done.
    + intros q _. apply NoDup_fmap_2; [by intros u u' [= ->]|].
      apply NoDup_filter.
      eapply NoDup_fmap_1, (ui_NoDup g Hinv q).
    + apply NoDup_cons. split; [apply getAdjacentCells_irrefl|].
      apply getAdjacentCells_NoDup.
Qed.

Lemma epsilon64_pos : 0 < Binary64.epsilon.
Proof. by vm_compute. Qed.

Lemma epsilon64_decimal : (1 # 10000000000) < Binary64.epsilon.
Proof. by vm_compute. Qed.

(** C7.  Resource release conserves mass, in the arithmetic of the code.
    For a resource cell of a game whose registry and cells agree, whose
    node amount is a double between 0 and 2^52 and whose collection rate is
    not negative, and for eligible workers with a free cargo space that is
    not negative and a whole cargo below 2^52: what the workers are credited
    in all is at most min(rate x eligible workers, the node's amount before);
    every worker is credited a whole share that is not negative and exceeds
    neither its free cargo space nor the rate; the node's amount afterwards
    is not negative, and if it is below 1e-10 it is zero. *)
Theorem resource_release_conserves_mass (g : Game) (p : Position)
    (res : Resource) :
  let type := res_type res in
  let rate := WORKER_COLLECTION_RATE (configs g) type in
  let workers := workersToReceiveResources g type p in
  let g' := Binary64.handleResourceRelease g p in
  UnitsInv g ->
  resource (cellAt (game_map g) p) = Some res ->
  Binary64.round (amount res) == amount res ->
  0 <= amount res <= inject_Z (2 ^ 52) ->
  0 <= rate ->
  (forall w, w ∈ workers ->
     0 <= getCargoSpaceLeft w.2 /\ wholeCargo type w.2) ->
  Qsum (credited g' type <$> workers)
  <= Qmin (rate * inject_Z (Z.of_nat (length workers))) (amount res)
  /\ (forall w, w ∈ workers ->
        exists share : Z,
          credited g' type w == inject_Z share
          /\ (0 <= share)%Z
          /\ inject_Z share <= getCargoSpaceLeft w.2
          /\ inject_Z share <= rate)
  /\ (exists res',
        resource (cellAt (game_map g') p) = Some res'
        /\ 0 <= amount res'
        /\ (amount res' < Binary64.epsilon -> amount res' == 0)
        /\ (amount res' < 1 # 10000000000 -> amount res' == 0))
  /\ UnitsInv g'.
Proof.
  intros type rate workers g' Hinv Hres Hdouble [Hamount Hbound] Hrate Hws.
  destruct (workersToReceiveResources_registered g type p Hinv)
    as [Hnd Hreg]. fold workers in Hnd, Hreg.
  assert (0 <= rate * inject_Z (Z.of_nat (length workers))) as Hrn.
  { apply Qmult_le_0_compat; [done|].
    change 0 with (inject_Z 0). rewrite <- Zle_Qle. lia. }
  pose proof epsilon64_pos as Heps. pose proof epsilon64_decimal as Hdec.
  unfold g', Binary64.handleResourceRelease.
  destruct (hasResource (cellAt (game_map g) p)) eqn:Hhas.
  - rewrite Hres. fold type rate workers.
    set (n := length workers).
    set (A := Qmin (Binary64.mul rate (inject_Z (Z.of_nat n))) (amount res)).
    set (sorted := sortWorkers workers).
    assert (sorted ≡ₚ workers) as Hperm by apply sortWorkers_perm.
    assert (0 <= A) as HA.
    { apply Q.min_glb; [|done]. by apply round_nonneg. }
    assert (A <= amount res) as HAle by apply Q.le_min_r.
    assert (Binary64.round A == A) as HrA.
    { unfold A. destruct (Q.min_spec (Binary64.mul rate (inject_Z (Z.of_nat n)))
                            (amount res)) as [[_ ->]|[_ ->]]; [|done].
      by apply round_idem. }
    destruct (forEach_i_releaseTo64 type rate n sorted 0 (mkRelease g A 0))
      as (Hinv' & Hframe & ms & Hms & Hsum).
    { exact Hinv. }
    { cbn [length Nat.add]. unfold sorted. apply sortWorkers_length. }
    { by rewrite Hperm. }
    { intros w Hw. apply Hreg. by rewrite <- Hperm. }
    { intros w Hw. apply Hws. by rewrite <- Hperm. }
    { exact Hrate. }
    { exact HA. }
    { exact HrA. }
    { cbn [amountToDistribute]. lra. }
    set (st := forEach_i (Binary64.releaseTo type rate n) sorted 0
                 (mkRelease g A 0)) in *.
    cbn [amountToDistribute] in Hsum.
    set (left := Binary64.sub (amount res) (amountDistributed st)).
    set (g'' := set_game_map (rl_game st) _).
    assert (forall w m, shared (rl_game st) type rate w m ->
              shared g'' type rate w m) as Hsh by done.
    assert (Forall2 (shared g'' type rate) sorted ms) as Hms'
      by (eapply Forall2_impl; [exact Hms|exact Hsh]).
    destruct (Qsum_shared g'' type rate sorted ms Hms') as [Hs1 Hs2].
    assert (length sorted = n) as Hlen
      by (unfold sorted; by rewrite sortWorkers_length).
    rewrite Hlen in Hs2.
    split_and!.
    + rewrite <- (Qsum_perm _ _ (fmap_Permutation (credited g'' type) _ _ Hperm)).
      rewrite Hs1. apply Q.min_glb; lra.
    + intros w Hw. rewrite <- Hperm in Hw.
      apply list_elem_of_lookup in Hw as [j Hj].
      destruct (Forall2_lookup_l _ _ _ _ _ Hms' Hj)
        as (m & _ & (u & Hu & Hcargo) & Hm0 & Hmspace & Hmrate).
      exists m. split; [|split_and!; assumption]. unfold credited.
      rewrite Hu. cbn [from_option]. lra.
    + eexists. split.
      { unfold g''. cbn [game_map set_game_map]. rewrite cellAt_setCell.
        reflexivity. }
      cbn [amount]. fold left. case_decide; split_and!; lra.
    + eapply sameUnits_UnitsInv; [|exact Hinv'].
      split; [|split_and!; reflexivity]. intros q. unfold g''.
      cbn [game_map set_game_map]. rewrite units_cellAt_setCell.
      case_decide as Hq; [by rewrite Hq|reflexivity].
  - assert (amount res == 0) as Hzero.
    { unfold hasResource in Hhas. rewrite Hres in Hhas.
      apply bool_decide_eq_false in Hhas. lra. }
    assert (forall w, w ∈ workers -> credited g type w == 0) as Hnone.
    { intros w [Hu _]%Hreg. unfold credited. rewrite Hu. cbn [from_option].
      ring. }
    split_and!.
    + rewrite Qsum_zero by done. apply Q.min_glb; lra.
    + intros w Hw. exists 0%Z. destruct (Hws w Hw) as [Hspace _].
      split; [by apply Hnone|]. split; [done|]. change (inject_Z 0) with 0.
      lra.
    + exists res. split; [done|]. lra.
    + done.
Qed.

End Binary64Release.

Lemma set_resource_UnitsInv g p r :
  UnitsInv g ->
  UnitsInv (set_game_map g
              (setCell (game_map g) p (set_resource (cellAt (game_map g) p) r))).
Proof.
  intros Hinv. eapply sameUnits_UnitsInv; [|exact Hinv].
  split; [|split_and!; reflexivity]. intros q. cbn [game_map set_game_map].
  rewrite units_cellAt_setCell. case_decide as Hq; [by rewrite Hq|reflexivity].
Qed.

Lemma wood_field_UnitsInv : UnitsInv Scenario.wood_field.
Proof.
  apply set_resource_UnitsInv.
  apply (setup_UnitsInv 3 3
           [Scenario.WorkerAt TEAM_A 1 0; Scenario.WorkerAt TEAM_A 0 1;
            Scenario.WorkerAt TEAM_A 2 1]).
  by vm_compute.
Qed.

Lemma resource_release_conserves_mass_witness :
  let g := Scenario.wood_field in
  let res := mkResource WOOD 10 in
  let type := res_type res in
  let rate := WORKER_COLLECTION_RATE (configs g) type in
  let workers := @workersToReceiveResources g type (1, 1)%Z in
  let g' := @Binary64.handleResourceRelease Scenario.collaborators g (1, 1)%Z in
  (Qsum (credited g' type <$> workers)
   <= Qmin (rate * inject_Z (Z.of_nat (length workers))) (amount res))%Q
  /\ exists res',
       resource (cellAt (game_map g') (1, 1)%Z) = Some res'
       /\ (0 <= amount res')%Q.
Proof.
  intros g res type rate workers g'.
  destruct (@resource_release_conserves_mass Scenario.collaborators g
              (1, 1)%Z res)
    as (Hsum & _ & (res' & Hres & Hpos & _) & _).
  - apply wood_field_UnitsInv.
  - reflexivity.
  - by vm_compute.
  - split; by vm_compute.
  - by vm_compute.
  - intros w Hw. vm_compute in Hw.
    repeat (apply elem_of_cons in Hw as [->|Hw];
            [split; [by vm_compute|exists 0%Z; split; [lia|by vm_compute]]|]).
    by apply elem_of_nil in Hw.
  - split; [exact Hsum|]. exists res'. split; [exact Hres|exact Hpos].
Defined.

(** On 6513 wood with 327 workers next to it, each with room for 100 and a
    rate of 20, the shares are quotients that binary64 rounds: the node is
    left with 7 * 2^-36, about 1.0186e-10, which is not below [1e-10] and
    stays. *)
Lemma resource_release_rounds :
  let g' := @Binary64.handleResourceRelease Scenario.collaborators
              Scenario.crowded_forest (1, 1)%Z in
  exists res',
    resource (cellAt (game_map g') (1, 1)%Z) = Some res'
    /\ (amount res' == 7 # 68719476736)%Q
    /\ hasResource (cellAt (game_map g') (1, 1)%Z) = true.
Proof.
  cbn zeta. eexists. split; [by vm_compute|]. split; by vm_compute.
Qed.

